(** * AutoBridge floorplanner: the partitioning engine

    A shallow embedding of
      - [graph.py]: vertices, edges and [Graph.initEdges] (module [Graph]);
      - [Floorplan/FourWayPartition.py]: the four-way bipartition, from the
        model it builds to the mapping it reads back, and its retry loop;
      - [Floorplan/Partition.py]: the two binary searches, the two search
        orders and the entry point [partition];
    followed by the properties of the specification that concern them.

    Conventions of the embedding.
      - Python numbers ([int] and [float]) are rationals [Q]: the arithmetic
        of the code is exact in the model, and [round(x, 2)] rounds the exact
        value to the nearest hundredth.
      - A Python call returns, raises, or runs forever: [result]. A loop
        [while 1] takes a fuel argument, and that it returns is proved for
        all large enough fuels.
      - Calls to the logger are left out.
      - A dictionary keyed by vertices is a [gmap]; a vertex is identified by
        its unique name.
      - What the three files import from the rest of the package (slots, the
        slot manager, the area model, the edges of the graph, the solver) are
        the fields of the classes [SlotModel] and [Environment]; the
        encodings of [ILPUtilities] are modelled from section 4.1 of the
        specification. *)

From Stdlib Require Import QArith Qround Lqa ZArith Lia.
From stdpp Require Import gmap strings list fin_maps.

Local Open Scope Q_scope.

(** ** Python values and control *)

Inductive exn :=
| AssertionError (msg : string)
| AttributeError (msg : string)
| TypeError (msg : string)
| KeyError
| IndexError
| ValueError
| NotImplementedError (msg : string).

Inductive result (A : Type) :=
| Ok (a : A)
| Raise (e : exn)
| OutOfFuel.
Arguments Ok {A} a.
Arguments Raise {A} e.
Arguments OutOfFuel {A}.

#[global] Instance result_ret : MRet result := fun A a => Ok a.
#[global] Instance result_bind : MBind result := fun A B k r =>
  match r with
  | Ok a => k a
  | Raise e => Raise e
  | OutOfFuel => OutOfFuel
  end.

Definition returns {A} (r : result A) : Prop :=
  match r with OutOfFuel => False | _ => True end.

(** [for x in l: body], threading the state [s]. *)
Fixpoint for_each {A S} (l : list A) (body : A → S → result S) (s : S) : result S :=
  match l with
  | [] => Ok s
  | x :: l' => s' ← body x s; for_each l' body s'
  end.

(** Comparison of numbers. *)
Definition Qltb (a b : Q) : bool := (Qnum a * QDen b <? Qnum b * QDen a)%Z.
Definition Qleb (a b : Q) : bool := (Qnum a * QDen b <=? Qnum b * QDen a)%Z.

(** [int(x)]: truncation towards zero. *)
Definition py_int (x : Q) : Z := Z.quot (Qnum x) (Zpos (Qden x)).

(** [round(x, 2)]: the nearest multiple of 1/100, ties to the even one. *)
Definition round_half_even (x : Q) : Z :=
  let f := Qfloor x in
  let r := x - inject_Z f in
  if Qltb r (1 # 2) then f
  else if Qltb (1 # 2) r then (f + 1)%Z
  else if Z.even f then f else (f + 1)%Z.

Definition py_round2 (x : Q) : Q := round_half_even (100 * x) # 100.

(** [l[i]] on a list: negative indices count from the end. *)
Definition py_index {A} (l : list A) (i : Z) : result A :=
  let n := Z.of_nat (length l) in
  let j := if (i <? 0)%Z then (n + i)%Z else i in
  if ((0 <=? j)%Z && (j <? n)%Z)%bool then
    match l !! Z.to_nat j with
    | Some a => Ok a
    | None => Raise IndexError
    end
  else Raise IndexError.

(** ** The data model shared by the floorplanner *)

(** A vertex is identified by its unique name. *)
Definition vertex := string.
Definition resource := string.

Record Edge := mkEdge {
  e_name : string;
  e_src : vertex;
  e_dst : vertex;
  e_width : Q;
}.

Inductive Dir := horizontal | vertical.

(** What [FourWayPartition.py] and [Partition.py] import from the rest of
    the package: [Opt.Slot], [Opt.SlotManager], [Opt.DataflowGraph],
    [Floorplan.Utilities] and the solver status of [mip]. *)
Inductive OptimizationStatus :=
| ERROR | OPTIMAL | INFEASIBLE | UNBOUNDED | FEASIBLE
| INT_INFEASIBLE | NO_SOLUTION_FOUND | LOADED | CUTOFF | OTHER.

Class SlotModel := {
  Slot : Type;
  Slot_eq_dec :: EqDecision Slot;
  (** [a.containsChildSlot(b)] *)
  containsChildSlot : Slot → Slot → bool;
  (** [s.getArea()[r]] *)
  getArea : Slot → resource → Q;
  SlotManager : Type;
  (** [sm.getLeafSlotsAfterPartition(order)] *)
  getLeafSlotsAfterPartition : SlotManager → list Dir → list Slot;
}.

Section Values.
Context `{SlotModel}.

(** The values that flow through the positional calls of [Partition.py] and
    [FourWayPartition.py]. *)
Inductive pyval :=
| PDict (d : gmap vertex Slot)
| PList (l : list (list vertex))
| PSlotManager (sm : SlotManager)
| PNum (q : Q)
| PNone.

(** [if d:] on a dictionary. *)
Definition dict_truthy (d : gmap vertex Slot) : bool := negb (bool_decide (d = ∅)).

End Values.

(** ** [graph.py]: the dataflow graph read from the top-level RTL

    Vertices and edges are objects that refer to one another and are
    updated in place: the model keeps them in a store, and lists and fields
    hold references (indices in the store). *)

Module Graph.

(** [autopilot_parser.Area(...)] *)
Record Area := mkArea { bram : Z; dsp : Z; ff : Z; lut : Z }.

Abbreviation vertex_ref := nat (only parsing).
Abbreviation edge_ref := nat (only parsing).

Record Edge := mkEdge {
  src : option vertex_ref;           (* [None] until set *)
  dst : option vertex_ref;
  src_sub : option vertex_ref;
  dst_sub : option vertex_ref;
  width : Z;
  depth : Z;
  addr_width : Z;
  name : string;
  mark : bool;
  latency : Z;
}.

Record Vertex := mkVertex {
  in_edges : list edge_ref;
  out_edges : list edge_ref;
  type : string;
  v_name : string;
  upstream : list edge_ref;
  downstream : list edge_ref;
  area : Area;
  slr_loc : Z;
  slr_sub_loc : Z;
  sub_vertices : gmap Z vertex_ref;        (* pp id -> sub vertex *)
  actual_to_sub : gmap string vertex_ref;  (* actual edge name -> sub vertex *)
}.

(** [Edge(name)] *)
Definition new_edge (n : string) : Edge :=
  mkEdge None None None None (-1) (-1) (-1) n false 1.

(** [Vertex.add_in(self, edge)]: [self.out_edges.append(edge)] *)
Definition add_in (self : Vertex) (edge : edge_ref) : Vertex :=
  mkVertex (in_edges self) (out_edges self ++ [edge]) (type self) (v_name self)
    (upstream self) (downstream self) (area self) (slr_loc self)
    (slr_sub_loc self) (sub_vertices self) (actual_to_sub self).

(** [Vertex.add_out(self, edge)]: [self.in_edges.append(edge)] *)
Definition add_out (self : Vertex) (edge : edge_ref) : Vertex :=
  mkVertex (in_edges self ++ [edge]) (out_edges self) (type self) (v_name self)
    (upstream self) (downstream self) (area self) (slr_loc self)
    (slr_sub_loc self) (sub_vertices self) (actual_to_sub self).

(** The objects alive, by reference. *)
Record store := mkStore {
  vertex_objs : gmap nat Vertex;
  edge_objs : gmap nat Edge;
}.

(** The attributes of a [Graph] that [initEdges] reads and writes. *)
Record graph := mkGraph {
  vertices : gmap string vertex_ref;        (* name -> Vertex *)
  edges : gmap string edge_ref;             (* name -> Edge *)
  edge_to_vertex : gmap string vertex_ref;  (* raw edge name -> Vertex *)
}.

(** An instance of the RTL: [node.module], [node.name], [node.portlist];
    the argument of a port is an identifier or a constant. *)
Inductive argname := Identifier (n : string) | Constant.

Record PortArg := mkPortArg { portname : string; arg : argname }.

Record Instance := mkInstance {
  module : string;
  inst_name : string;
  portlist : list PortArg;
}.

(** The methods of [formator] that [initEdges] calls. *)
Class Formator := {
  isValidInstance : Instance → bool;
  isFIFO : Instance → bool;
  extractFIFOWidth : Instance → Z;
  extractFIFODepth : Instance → Z;
}.

(** [needle in hay] *)
Fixpoint is_substring (needle hay : string) : bool :=
  String.prefix needle hay ||
  match hay with
  | EmptyString => false
  | String _ hay' => is_substring needle hay'
  end.

(** [int(math.log2(depth) + 1)] *)
Definition addr_width_of (depth : Z) : result Z :=
  if (0 <? depth)%Z then Ok (Z.log2 depth + 1)%Z
  else Raise ValueError.

(** [v.add_in(e)] and [v.add_out(e)] on the object that [v] refers to. *)
Definition call_add_in (v : vertex_ref) (e : edge_ref) (s : store) : store :=
  mkStore (alter (fun self => add_in self e) v (vertex_objs s)) (edge_objs s).

Definition call_add_out (v : vertex_ref) (e : edge_ref) (s : store) : store :=
  mkStore (alter (fun self => add_out self e) v (vertex_objs s)) (edge_objs s).

(** [e.dst = v] and [e.src = v] *)
Definition set_dst (v : vertex_ref) (e : Edge) : Edge :=
  mkEdge (src e) (Some v) (src_sub e) (dst_sub e) (width e) (depth e)
    (addr_width e) (name e) (mark e) (latency e).

Definition set_src (v : vertex_ref) (e : Edge) : Edge :=
  mkEdge (Some v) (dst e) (src_sub e) (dst_sub e) (width e) (depth e)
    (addr_width e) (name e) (mark e) (latency e).

(** [v.actual_to_sub[n].add_in(e)] inside [try: ... except: print(...)]:
    when there is no such sub-vertex nothing changes. *)
Definition try_sub (add : vertex_ref → edge_ref → store → store)
    (v : vertex_ref) (n : string) (e : edge_ref) (s : store) : store :=
  match vertex_objs s !! v with
  | Some self =>
      match actual_to_sub self !! n with
      | Some sub => add sub e s
      | None => s
      end
  | None => s
  end.

Section InitEdges.
Context `{Formator}.

(** The body of [for portarg in node.portlist], for the edge [e]. *)
Definition connect_port (g : graph) (e : edge_ref) (portarg : PortArg)
    (s : store) : result store :=
  match arg portarg with
  | Constant => Ok s          (* filter constant ports *)
  | Identifier actual_raw =>
      let formal_raw := portname portarg in
      let is_dout :=
        is_substring "_dout" actual_raw && is_substring "_dout" formal_raw in
      let is_din :=
        is_substring "_din" actual_raw && is_substring "_din" formal_raw in
      match edge_objs s !! e with
      | None => Ok s
      | Some e_obj =>
          if is_dout then
            (* set up edge *)
            match edge_to_vertex g !! actual_raw with
            | None => Raise KeyError
            | Some v =>
                let s := mkStore (vertex_objs s)
                                 (<[e := set_dst v e_obj]> (edge_objs s)) in
                (* setup vertices *)
                let s := call_add_in v e s in
                (* setup sub vertices *)
                Ok (try_sub call_add_in v (name e_obj) e s)
            end
          else if is_din then
            match edge_to_vertex g !! actual_raw with
            | None => Raise KeyError
            | Some v =>
                let s := mkStore (vertex_objs s)
                                 (<[e := set_src v e_obj]> (edge_objs s)) in
                let s := call_add_out v e s in
                Ok (try_sub call_add_out v (name e_obj) e s)
            end
          else Ok s
      end
  end.

(** [Graph.initEdges(self, node)]; [e] is the reference of the new edge. *)
Definition initEdges (g : graph) (s : store) (e : edge_ref) (node : Instance)
    : result (graph * store) :=
  if negb (isValidInstance node) then Ok (g, s)
  else if negb (isFIFO node) then Ok (g, s)
  else
    let w := extractFIFOWidth node in
    let d := extractFIFODepth node in
    aw ← addr_width_of d;
    let e_obj :=
      mkEdge None None None None w d aw (inst_name node) false 1 in
    let s := mkStore (vertex_objs s) (<[e := e_obj]> (edge_objs s)) in
    s ← for_each (portlist node) (connect_port g e) s;
    Ok (mkGraph (vertices g) (<[inst_name node := e]> (edges g))
          (edge_to_vertex g), s).

End InitEdges.

(** Lists of edges only grow. *)
Definition grows (h h' : gmap nat Vertex) : Prop :=
  ∀ x v', h' !! x = Some v' →
    ∃ v, h !! x = Some v ∧
         (∀ y, y ∈ in_edges v → y ∈ in_edges v') ∧
         (∀ y, y ∈ out_edges v → y ∈ out_edges v').

(** The edge [e] is in the [out_edges] of the vertex its [dst] refers to
    and in the [in_edges] of the vertex its [src] refers to. *)
Definition linked (e : nat) (s : store) : Prop :=
  ∃ e_obj,
    edge_objs s !! e = Some e_obj ∧
    (∀ d v, dst e_obj = Some d → vertex_objs s !! d = Some v →
            e ∈ out_edges v) ∧
    (∀ sr v, src e_obj = Some sr → vertex_objs s !! sr = Some v →
             e ∈ in_edges v).

End Graph.

(** ** The MIP model built by [FourWayPartition.py]

    The part of the [mip] package the code uses: a model is a growing list
    of variables and of linear constraints and an objective; a variable is
    its index in the model. *)

Inductive VarType := BINARY | INTEGER.

Abbreviation var := nat (only parsing).

Inductive LinExpr :=
| LVar (x : var)
| LConst (c : Q)
| LAdd (a b : LinExpr)
| LSub (a b : LinExpr)
| LScale (c : Q) (a : LinExpr)
| LNeg (a : LinExpr).

Inductive Constr :=
| CLe (a b : LinExpr)     (* a <= b *)
| CGe (a b : LinExpr)     (* a >= b *)
| CEq (a b : LinExpr).    (* a == b *)

Record Model := mkModel {
  m_vars : list (VarType * string);
  m_constrs : list Constr;
  m_objective : option LinExpr;
}.

(** [Model()] *)
Definition new_model : Model := mkModel [] [] None.

(** [xsum(...)] *)
Definition xsum (l : list LinExpr) : LinExpr := foldr LAdd (LConst 0) l.

(** Building a model: a state and error monad over [Model]. *)
Definition ilp (A : Type) : Type := Model → result (A * Model).

#[global] Instance ilp_ret : MRet ilp := fun A a m => Ok (a, m).
#[global] Instance ilp_bind : MBind ilp := fun A B k c m =>
  match c m with
  | Ok (a, m') => k a m'
  | Raise e => Raise e
  | OutOfFuel => OutOfFuel
  end.

Definition lift {A} (r : result A) : ilp A := fun m =>
  match r with
  | Ok a => Ok (a, m)
  | Raise e => Raise e
  | OutOfFuel => OutOfFuel
  end.

(** [m.add_var(var_type=t, name=n)] *)
Definition add_var (t : VarType) (n : string) : ilp var := fun m =>
  Ok (length (m_vars m),
      mkModel (m_vars m ++ [(t, n)]) (m_constrs m) (m_objective m)).

(** [m += c] *)
Definition add_constr (c : Constr) : ilp unit := fun m =>
  Ok (tt, mkModel (m_vars m) (m_constrs m ++ [c]) (m_objective m)).

(** [m.objective = minimize(e)] *)
Definition set_objective (e : LinExpr) : ilp unit := fun m =>
  Ok (tt, mkModel (m_vars m) (m_constrs m) (Some e)).

(** [for x in l: body], threading the value [s] through the iterations. *)
Fixpoint ilp_for {A S} (l : list A) (body : A → S → ilp S) (s : S) : ilp S :=
  match l with
  | [] => mret s
  | x :: l' => s' ← body x s; ilp_for l' body s'
  end.

(** [d[k]] on a dictionary keyed by vertices. *)
Definition dict_get {V} (d : gmap vertex V) (k : vertex) : result V :=
  match d !! k with
  | Some v => Ok v
  | None => Raise KeyError
  end.

(** A dictionary whose keys are compared with [==]: [d[k] = v] and [d[k]]. *)
Fixpoint dict_set {K V} `{EqDecision K} (d : list (K * V)) (k : K) (v : V)
    : list (K * V) :=
  match d with
  | [] => [(k, v)]
  | (k', v') :: d' =>
      if decide (k = k') then (k', v) :: d' else (k', v') :: dict_set d' k v
  end.

Fixpoint dict_lookup {K V} `{EqDecision K} (d : list (K * V)) (k : K) : result V :=
  match d with
  | [] => Raise KeyError
  | (k', v') :: d' => if decide (k = k') then Ok v' else dict_lookup d' k
  end.

(** *** The encodings of [Floorplan.ILPUtilities] *)

(** Modelled from the spec: [get_var_of_logic_and] of the module
    [autobridge.Floorplan.ILPUtilities], which is not among the sources
    (section 4.1: c = a AND b by c <= a, c <= b, c >= a + b - 1). *)
Definition get_var_of_logic_and (a b : var) : ilp var :=
  c ← add_var BINARY "";
  _ ← add_constr (CLe (LVar c) (LVar a));
  _ ← add_constr (CLe (LVar c) (LVar b));
  _ ← add_constr (CGe (LVar c) (LSub (LAdd (LVar a) (LVar b)) (LConst 1)));
  mret c.

(** Modelled from the spec: [get_var_of_logic_or] of the same module
    (c = a OR b by c >= a, c >= b, c <= a + b). *)
Definition get_var_of_logic_or (a b : var) : ilp var :=
  c ← add_var BINARY "";
  _ ← add_constr (CGe (LVar c) (LVar a));
  _ ← add_constr (CGe (LVar c) (LVar b));
  _ ← add_constr (CLe (LVar c) (LAdd (LVar a) (LVar b)));
  mret c.

(** Modelled from the spec: [get_var_of_logic_not] of the same module
    (c = 1 - a). *)
Definition get_var_of_logic_not (a : var) : ilp var :=
  c ← add_var BINARY "";
  _ ← add_constr (CEq (LVar c) (LSub (LConst 1) (LVar a)));
  mret c.

(** Modelled from the spec: [get_var_of_logic_xor] of the same module
    (c >= a - b, c >= b - a, c <= a + b, c <= 2 - a - b). *)
Definition get_var_of_logic_xor (a b : var) : ilp var :=
  c ← add_var BINARY "";
  _ ← add_constr (CGe (LVar c) (LSub (LVar a) (LVar b)));
  _ ← add_constr (CGe (LVar c) (LSub (LVar b) (LVar a)));
  _ ← add_constr (CLe (LVar c) (LAdd (LVar a) (LVar b)));
  _ ← add_constr (CLe (LVar c) (LSub (LSub (LConst 2) (LVar a)) (LVar b)));
  mret c.

(** Modelled from the spec: [get_var_of_equal_zero] of the same module
    (c = [x = 0] is c = 1 - x). *)
Definition get_var_of_equal_zero (x : var) : ilp var :=
  c ← add_var BINARY "";
  _ ← add_constr (CEq (LVar c) (LSub (LConst 1) (LVar x)));
  mret c.

(** Modelled from the spec: [get_var_of_equal_one] of the same module
    (c = [x = 1] is c = x). *)
Definition get_var_of_equal_one (x : var) : ilp var :=
  c ← add_var BINARY "";
  _ ← add_constr (CEq (LVar c) (LVar x));
  mret c.

(** The rest of what [FourWayPartition.py] imports. *)
Class Environment `{SlotModel} := {
  (** [Floorplan.Utilities.RESOURCE_TYPES] *)
  RESOURCE_TYPES : list resource;
  (** [v.getVertexAndInboundFIFOArea()[r]] *)
  getVertexAndInboundFIFOArea : vertex → resource → Q;
  (** [Floorplan.Utilities.get_all_edges(v_list)] *)
  get_all_edges : list vertex → list Edge;
  (** [m.optimize(max_seconds=t)]: the status [m.status] and the value
      [x.x] of every variable afterwards ([None] when there is none). *)
  mip_optimize : Model → Q → OptimizationStatus * (var → option Q);
  (** [Floorplan.EightWayPartition.eight_way_partition], called with
      positional arguments. *)
  eight_way_partition : list pyval → result (gmap vertex Slot);
}.

(** ** [FourWayPartition.py] *)

#[global] Instance Q_eq_dec : EqDecision Q.
Proof. solve_decision. Defined.
#[global] Instance Edge_eq_dec : EqDecision Edge.
Proof. solve_decision. Defined.

Section FourWayDefs.
Context `{Environment}.

(** What the code does with an argument decides which values it accepts. *)

(** [p.keys()], [p.items()] *)
Definition as_dict (attr : string) (p : pyval) : result (gmap vertex Slot) :=
  match p with
  | PDict d => Ok d
  | _ => Raise (AttributeError attr)
  end.

(** [p.getLeafSlotsAfterPartition(...)] *)
Definition as_slot_manager (p : pyval) : result SlotManager :=
  match p with
  | PSlotManager sm => Ok sm
  | _ => Raise (AttributeError "getLeafSlotsAfterPartition")
  end.

(** [p] in an arithmetic expression or a comparison with a number. *)
Definition as_number (p : pyval) : result Q :=
  match p with
  | PNum q => Ok q
  | _ => Raise (TypeError "unsupported operand type(s)")
  end.

(** [for grouping in p: ... len(grouping) ...]: iterating over a dictionary
    yields its keys, which are vertices and have no length. *)
Definition as_groups (p : pyval) : result (list (list vertex)) :=
  match p with
  | PList l => Ok l
  | PDict d => if bool_decide (d = ∅) then Ok [] else Raise (TypeError "len")
  | _ => Raise (TypeError "object is not iterable")
  end.

(** [product(range(2), range(2))] *)
Definition product22 : list (Z * Z) :=
  [(0, 0); (0, 1); (1, 0); (1, 1)]%Z.

(** [f'{n}'] for the numbers of [range(2)] *)
Definition fmt_bit (n : Z) : string := if (n =? 1)%Z then "1" else "0".

Definition _get_slot_by_idx_closure (slot_manager : pyval)
    : result (Z → Z → result Slot) :=
  sm ← as_slot_manager slot_manager;
  let partition_order := [horizontal; horizontal] in
  let all_leaf_slots := getLeafSlotsAfterPartition sm partition_order in
  mret (fun y1 y2 => let idx := (y1 * 2 + y2)%Z in py_index all_leaf_slots idx).

Definition _get_slot_to_idx (func_get_slot_by_idx : Z → Z → result Slot)
    : result (list (Slot * (Z * Z))) :=
  for_each product22
    (fun '(y1, y2) slot_to_idx =>
       s ← func_get_slot_by_idx y1 y2;
       mret (dict_set slot_to_idx s (y1, y2)))
    [].

(** [choose = lambda x, num: x if num == 1 else (1-x)] *)
Definition choose (x : LinExpr) (num : Z) : LinExpr :=
  if (num =? 1)%Z then x else LSub (LConst 1) x.

(** The body of the loop over [product(range(2), range(2))] in
    [_add_area_constraints], for the resource [r]. *)
Definition area_constraints_of_leaf
    (v_list : list vertex) (v2var_y1 v2var_y2 : gmap vertex var)
    (func_get_slot_by_idx : Z → Z → result Slot) (max_usage_ratio : pyval)
    (r : resource) (y1 y2 : Z) : ilp unit :=
  prods ← ilp_for v_list
    (fun v (prods : gmap vertex var) =>
       p ← add_var BINARY (v +:+ "_choose" +:+ fmt_bit y1 +:+ fmt_bit y2);
       mret (<[v := p]> prods))
    ∅;
  _ ← ilp_for v_list
    (fun v _ =>
       x1 ← lift (dict_get v2var_y1 v);
       p ← lift (dict_get prods v);
       _ ← add_constr (CGe (choose (LVar x1) y1) (LVar p));
       x2 ← lift (dict_get v2var_y2 v);
       _ ← add_constr (CGe (choose (LVar x2) y2) (LVar p));
       add_constr
         (CLe (LSub (LAdd (choose (LVar x1) y1) (choose (LVar x2) y2)) (LVar p))
              (LConst 1)))
    tt;
  terms ← ilp_for v_list
    (fun v terms =>
       p ← lift (dict_get prods v);
       mret (terms ++ [LScale (getVertexAndInboundFIFOArea v r) (LVar p)]))
    [];
  slot ← lift (func_get_slot_by_idx y1 y2);
  ratio ← lift (as_number max_usage_ratio);
  add_constr (CLe (xsum terms) (LConst (getArea slot r * ratio))).

Definition _add_area_constraints
    (v_list : list vertex) (v2var_y1 v2var_y2 : gmap vertex var)
    (func_get_slot_by_idx : Z → Z → result Slot) (max_usage_ratio : pyval)
    : ilp unit :=
  ilp_for RESOURCE_TYPES
    (fun r _ =>
       ilp_for product22
         (fun '(y1, y2) _ =>
            area_constraints_of_leaf v_list v2var_y1 v2var_y2
              func_get_slot_by_idx max_usage_ratio r y1 y2)
         tt)
    tt.

(** [xsum(e.width * is_edge_cross(e) for e in all_edges) <= width_limit] *)
Definition crossing_constraint
    (all_edges : list Edge) (is_edge_cross : Edge → ilp var)
    (width_limit : pyval) : ilp unit :=
  terms ← ilp_for all_edges
    (fun e terms =>
       c ← is_edge_cross e;
       mret (terms ++ [LScale (e_width e) (LVar c)]))
    [];
  w ← lift (as_number width_limit);
  add_constr (CLe (xsum terms) (LConst w)).

Definition _add_slr_0_1_crossing_constraint
    (v_list : list vertex) (v2var_y1 v2var_y2 : gmap vertex var)
    (width_limit : pyval) : ilp unit :=
  let all_edges := get_all_edges v_list in
  let is_edge_cross_slr_0_1 (e : Edge) : ilp var :=
    s1 ← lift (dict_get v2var_y1 (e_src e));
    s1z ← get_var_of_equal_zero s1;
    s2 ← lift (dict_get v2var_y2 (e_src e));
    s2z ← get_var_of_equal_zero s2;
    src_in_slr0 ← get_var_of_logic_and s1z s2z;
    d1 ← lift (dict_get v2var_y1 (e_dst e));
    d1z ← get_var_of_equal_zero d1;
    d2 ← lift (dict_get v2var_y2 (e_dst e));
    d2z ← get_var_of_equal_zero d2;
    dst_in_slr0 ← get_var_of_logic_and d1z d2z;
    src_not_in_slr0 ← get_var_of_logic_not src_in_slr0;
    dst_not_in_slr0 ← get_var_of_logic_not dst_in_slr0;
    a ← get_var_of_logic_and src_in_slr0 dst_not_in_slr0;
    b ← get_var_of_logic_and dst_in_slr0 src_not_in_slr0;
    get_var_of_logic_or a b in
  crossing_constraint all_edges is_edge_cross_slr_0_1 width_limit.

Definition _add_slr_1_2_crossing_constraint
    (v_list : list vertex) (v2var_y1 : gmap vertex var)
    (width_limit : pyval) : ilp unit :=
  let all_edges := get_all_edges v_list in
  let is_edge_cross_slr_1_2 (e : Edge) : ilp var :=
    s1 ← lift (dict_get v2var_y1 (e_src e));
    d1 ← lift (dict_get v2var_y1 (e_dst e));
    get_var_of_logic_xor s1 d1 in
  crossing_constraint all_edges is_edge_cross_slr_1_2 width_limit.

Definition _add_slr_2_3_crossing_constraint
    (v_list : list vertex) (v2var_y1 v2var_y2 : gmap vertex var)
    (width_limit : pyval) : ilp unit :=
  let all_edges := get_all_edges v_list in
  let is_edge_cross_slr_2_3 (e : Edge) : ilp var :=
    s1 ← lift (dict_get v2var_y1 (e_src e));
    s1o ← get_var_of_equal_one s1;
    s2 ← lift (dict_get v2var_y2 (e_src e));
    s2o ← get_var_of_equal_one s2;
    src_in_slr3 ← get_var_of_logic_and s1o s2o;
    d1 ← lift (dict_get v2var_y1 (e_dst e));
    d1o ← get_var_of_equal_one d1;
    d2 ← lift (dict_get v2var_y2 (e_dst e));
    d2o ← get_var_of_equal_one d2;
    dst_in_slr3 ← get_var_of_logic_and d1o d2o;
    src_not_in_slr3 ← get_var_of_logic_not src_in_slr3;
    dst_not_in_slr3 ← get_var_of_logic_not dst_in_slr3;
    a ← get_var_of_logic_and src_in_slr3 dst_not_in_slr3;
    b ← get_var_of_logic_and dst_in_slr3 src_not_in_slr3;
    get_var_of_logic_or a b in
  crossing_constraint all_edges is_edge_cross_slr_2_3 width_limit.

Definition _add_grouping_constraints
    (grouping_constraints : list (list vertex))
    (v2var_y1 v2var_y2 : gmap vertex var) : ilp unit :=
  ilp_for grouping_constraints
    (fun grouping _ =>
       match grouping with
       | [] => mret tt
       | g0 :: rest =>
           (* for i in range(1, len(grouping)) *)
           ilp_for rest
             (fun gi _ =>
                ilp_for [v2var_y1; v2var_y2]
                  (fun v2var _ =>
                     a ← lift (dict_get v2var g0);
                     b ← lift (dict_get v2var gi);
                     add_constr (CEq (LVar a) (LVar b)))
                  tt)
             tt
       end)
    tt.

(** The body of [for v, expect_slot in pre_assignments.items()]. *)
Definition pre_assign_one
    (v_list : list vertex) (slot_to_idx : list (Slot * (Z * Z)))
    (v2var_y1 v2var_y2 : gmap vertex var)
    (v : vertex) (expect_slot : Slot) : ilp unit :=
  if bool_decide (v ∈ v_list) then
    ilp_for slot_to_idx.*1
      (fun avail_slot _ =>
         if containsChildSlot avail_slot expect_slot then
           '(y1, y2) ← lift (dict_lookup slot_to_idx avail_slot);
           x1 ← lift (dict_get v2var_y1 v);
           _ ← add_constr (CEq (LVar x1) (LConst (inject_Z y1)));
           x2 ← lift (dict_get v2var_y2 v);
           add_constr (CEq (LVar x2) (LConst (inject_Z y2)))
         else mret tt)
      tt
  else
    lift (Raise (AssertionError
      ("ERROR: user has forced the location of a non-existing module " +:+ v))).

Definition _add_pre_assignment
    (v_list : list vertex) (slot_to_idx : list (Slot * (Z * Z)))
    (pre_assignments : gmap vertex Slot)
    (v2var_y1 v2var_y2 : gmap vertex var) : ilp unit :=
  ilp_for (map_to_list pre_assignments)
    (fun '(v, expect_slot) _ =>
       pre_assign_one v_list slot_to_idx v2var_y1 v2var_y2 v expect_slot)
    tt.

Definition _add_opt_goal
    (v_list : list vertex) (v2var_y1 v2var_y2 : gmap vertex var) : ilp unit :=
  let all_edges := get_all_edges v_list in
  e2cost_var ← ilp_for all_edges
    (fun e (e2cost_var : list (Edge * var)) =>
       c ← add_var INTEGER ("intra_" +:+ e_name e);
       mret (dict_set e2cost_var e c))
    [];
  let pos_y (v : vertex) : ilp LinExpr :=
    a ← lift (dict_get v2var_y1 v);
    b ← lift (dict_get v2var_y2 v);
    mret (LAdd (LScale 2 (LVar a)) (LVar b)) in
  let cost_y (e : Edge) : ilp LinExpr :=
    s ← pos_y (e_src e);
    d ← pos_y (e_dst e);
    mret (LSub s d) in
  _ ← ilp_for e2cost_var
    (fun '(e, cost_var) _ =>
       c ← cost_y e;
       _ ← add_constr (CGe (LVar cost_var) c);
       c' ← cost_y e;
       add_constr (CGe (LVar cost_var) (LNeg c')))
    tt;
  set_objective
    (xsum (map (fun '(e, cost_var) => LScale (e_width e) (LVar cost_var))
               e2cost_var)).

(** [int(x.x)] *)
Definition int_of_x (x : var → option Q) (a : var) : result Z :=
  match x a with
  | Some q => Ok (py_int q)
  | None => Raise (TypeError "int() argument must be a number, not NoneType")
  end.

Definition _get_results
    (status : OptimizationStatus) (x : var → option Q)
    (v_list : list vertex) (func_get_slot_by_idx : Z → Z → result Slot)
    (v2var_y1 v2var_y2 : gmap vertex var) : result (gmap vertex Slot) :=
  match status with
  | OPTIMAL | FEASIBLE =>
      for_each v_list
        (fun v (next_v2s : gmap vertex Slot) =>
           a ← dict_get v2var_y1 v;
           y1 ← int_of_x x a;
           b ← dict_get v2var_y2 v;
           y2 ← int_of_x x b;
           selected_slot ← func_get_slot_by_idx y1 y2;
           mret (<[v := selected_slot]> next_v2s))
        ∅
  | _ => mret ∅
  end.

(** The actual parameters of one call of [_four_way_partition]. *)
Record fw_call := mkCall {
  a_init_v2s : pyval;
  a_grouping_constraints : pyval;
  a_pre_assignments : pyval;
  a_slot_manager : pyval;
  a_max_usage_ratio : pyval;
  a_max_search_time : pyval;
  a_slr_0_1_width_limit : pyval;
  a_slr_1_2_width_limit : pyval;
  a_slr_2_3_width_limit : pyval;
}.

(** The variables [y1], [y2] of every vertex. *)
Definition add_position_vars (v_list : list vertex)
    : ilp (gmap vertex var * gmap vertex var) :=
  ilp_for v_list
    (fun v '(v2var_y1, v2var_y2) =>
       a ← add_var BINARY (v +:+ "_y1");
       b ← add_var BINARY (v +:+ "_y2");
       mret (<[v := a]> v2var_y1, <[v := b]> v2var_y2))
    (∅, ∅).

(** [_four_way_partition] from [m = Model()] to the call of [m.optimize]. *)
Definition four_way_model (c : fw_call) (v_list : list vertex)
    : ilp ((Z → Z → result Slot) * gmap vertex var * gmap vertex var) :=
  '(v2var_y1, v2var_y2) ← add_position_vars v_list;
  func_get_slot_by_idx ← lift (_get_slot_by_idx_closure (a_slot_manager c));
  slot_to_idx ← lift (_get_slot_to_idx func_get_slot_by_idx);
  _ ← _add_area_constraints v_list v2var_y1 v2var_y2 func_get_slot_by_idx
        (a_max_usage_ratio c);
  _ ← _add_slr_0_1_crossing_constraint v_list v2var_y1 v2var_y2
        (a_slr_0_1_width_limit c);
  _ ← _add_slr_1_2_crossing_constraint v_list v2var_y1
        (a_slr_1_2_width_limit c);
  _ ← _add_slr_2_3_crossing_constraint v_list v2var_y1 v2var_y2
        (a_slr_2_3_width_limit c);
  pre ← lift (as_dict "items" (a_pre_assignments c));
  _ ← _add_pre_assignment v_list slot_to_idx pre v2var_y1 v2var_y2;
  grouping ← lift (as_groups (a_grouping_constraints c));
  _ ← _add_grouping_constraints grouping v2var_y1 v2var_y2;
  _ ← _add_opt_goal v_list v2var_y1 v2var_y2;
  mret (func_get_slot_by_idx, v2var_y1, v2var_y2).

Definition _four_way_partition (c : fw_call) : result (gmap vertex Slot) :=
  init_v2s ← as_dict "keys" (a_init_v2s c);
  let v_list := (map_to_list init_v2s).*1 in
  '((func_get_slot_by_idx, v2var_y1, v2var_y2), m) ← four_way_model c v_list new_model;
  max_seconds ← as_number (a_max_search_time c);
  let '(status, x) := mip_optimize m max_seconds in
  _get_results status x v_list func_get_slot_by_idx v2var_y1 v2var_y2.

(** The formal parameters of [four_way_partition]. *)
Record fw_frame := mkFrame {
  f_init_v2s : pyval;
  f_slot_manager : pyval;
  f_grouping_constraints : pyval;
  f_pre_assignments : pyval;
  f_ref_usage_ratio : pyval;
  f_max_search_time : pyval;
  f_max_usage_ratio_delta : pyval;
  f_hard_limit_max_usage : pyval;
}.

(** A positional call of [four_way_partition]: the first five parameters
    are required, the other three have the defaults 600, 0.02 and 2. *)
Definition bind_four_way_partition (args : list pyval) : result fw_frame :=
  match args with
  | [a1; a2; a3; a4; a5] =>
      Ok (mkFrame a1 a2 a3 a4 a5 (PNum 600) (PNum 0.02) (PNum 2))
  | [a1; a2; a3; a4; a5; a6] =>
      Ok (mkFrame a1 a2 a3 a4 a5 a6 (PNum 0.02) (PNum 2))
  | [a1; a2; a3; a4; a5; a6; a7] =>
      Ok (mkFrame a1 a2 a3 a4 a5 a6 a7 (PNum 2))
  | [a1; a2; a3; a4; a5; a6; a7; a8] =>
      Ok (mkFrame a1 a2 a3 a4 a5 a6 a7 a8)
  | _ => Raise (TypeError "four_way_partition(): wrong number of arguments")
  end.

(** The call [_four_way_partition(init_v2s, grouping_constraints,
    pre_assignments, slot_manager, curr_max_usage, max_search_time)]: the
    three width limits keep their default, 12000. *)
Definition inner_call (f : fw_frame) (curr_max_usage : pyval) : fw_call :=
  mkCall (f_init_v2s f) (f_grouping_constraints f) (f_pre_assignments f)
         (f_slot_manager f) curr_max_usage (f_max_search_time f)
         (PNum 12000) (PNum 12000) (PNum 12000).

(** The loop [while 1] of [four_way_partition]. *)
Fixpoint four_way_loop (f : fw_frame) (fuel : nat) (curr_max_usage : pyval)
    : result (gmap vertex Slot) :=
  match fuel with
  | O => OutOfFuel
  | S fuel' =>
      v2s ← _four_way_partition (inner_call f curr_max_usage);
      if negb (dict_truthy v2s) then
        a ← as_number curr_max_usage;
        d ← as_number (f_max_usage_ratio_delta f);
        let curr_max_usage := py_round2 (a + d) in
        h ← as_number (f_hard_limit_max_usage f);
        if Qleb h curr_max_usage then mret ∅
        else four_way_loop f fuel' (PNum curr_max_usage)
      else mret v2s
  end.

Definition four_way_partition (fuel : nat) (args : list pyval)
    : result (gmap vertex Slot) :=
  f ← bind_four_way_partition args;
  four_way_loop f fuel (f_ref_usage_ratio f).

End FourWayDefs.
(** ** [Partition.py]: the outer two-phase search *)

Section PartitionDefs.
Context `{SlotModel}.

(** A partitioner is called with seven positional arguments. *)
Definition partitioner_t := list pyval → result (gmap vertex Slot).

(** One call of the partitioner made by a binary search: the interval at
    the time of the call, the arguments and the mapping that came back. *)
Record probe := mkProbe {
  probe_hi : Q;
  probe_lo : Q;
  probe_args : list pyval;
  probe_v2s : gmap vertex Slot;
}.

(** The local variables of a binary search, together with the history of
    the calls of the partitioner ([probes], oldest first). *)
Record search_state := mkSearch {
  hi : Q;
  lo : Q;
  curr_best_v2s : gmap vertex Slot;
  curr_min : pyval;
  probes : list probe;
}.

Section Search.
Variable threshold : Q.
(** The argument list of the call for a given probed limit. *)
Variable call_args : Q → list pyval.
Variable partitioner : partitioner_t.

(** The body of [while (1)] up to, and without, the test for [break]. *)
Definition search_iteration (s : search_state) : result search_state :=
  let curr_limit := (hi s + lo s) / 2 in
  v2s ← partitioner (call_args curr_limit);
  let log := probes s ++ [mkProbe (hi s) (lo s) (call_args curr_limit) v2s] in
  if dict_truthy v2s then
    mret (mkSearch curr_limit (lo s) v2s (PNum curr_limit) log)
  else
    mret (mkSearch (hi s) curr_limit (curr_best_v2s s) (curr_min s) log).

Fixpoint search_loop (fuel : nat) (s : search_state) : result search_state :=
  match fuel with
  | O => OutOfFuel
  | S fuel' =>
      s' ← search_iteration s;
      if Qltb (hi s' - lo s') threshold then mret s'
      else search_loop fuel' s'
  end.

(** The search from [assert lo <= hi] to the end of the loop. *)
Definition search (fuel : nat) (max_limit min_limit : Q) : result search_state :=
  let hi0 := max_limit in
  let lo0 := min_limit in
  if Qleb lo0 hi0 then search_loop fuel (mkSearch hi0 lo0 ∅ PNone [])
  else Raise (AssertionError "lo <= hi").

End Search.

(** The call [partitioner(init_v2s, grouping_constraints, pre_assignments,
    slot_manager, area_limit, curr_slr_limit, max_search_time)]. *)
Definition slr_probe_args
    (init_v2s : gmap vertex Slot) (slot_manager : SlotManager)
    (grouping_constraints : list (list vertex)) (pre_assignments : gmap vertex Slot)
    (area_limit : pyval) (max_search_time : Q) (curr_slr_limit : Q) : list pyval :=
  [PDict init_v2s; PList grouping_constraints; PDict pre_assignments;
   PSlotManager slot_manager; area_limit; PNum curr_slr_limit;
   PNum max_search_time].

(** [_binary_search_slr_crossing_limit] up to its [return]. *)
Definition slr_crossing_search
    (fuel : nat) (init_v2s : gmap vertex Slot) (slot_manager : SlotManager)
    (grouping_constraints : list (list vertex)) (pre_assignments : gmap vertex Slot)
    (area_limit : pyval) (min_slr_width_limit max_slr_width_limit : Q)
    (max_search_time : Q) (partitioner : partitioner_t) : result search_state :=
  search 500
    (slr_probe_args init_v2s slot_manager grouping_constraints pre_assignments
       area_limit max_search_time)
    partitioner fuel max_slr_width_limit min_slr_width_limit.

Definition _binary_search_slr_crossing_limit
    (fuel : nat) (init_v2s : gmap vertex Slot) (slot_manager : SlotManager)
    (grouping_constraints : list (list vertex)) (pre_assignments : gmap vertex Slot)
    (area_limit : pyval) (min_slr_width_limit max_slr_width_limit : Q)
    (max_search_time : Q) (partitioner : partitioner_t)
    : result (gmap vertex Slot * pyval) :=
  s ← slr_crossing_search fuel init_v2s slot_manager grouping_constraints
        pre_assignments area_limit min_slr_width_limit max_slr_width_limit
        max_search_time partitioner;
  mret (curr_best_v2s s, curr_min s).

(** The call [partitioner(init_v2s, grouping_constraints, pre_assignments,
    slot_manager, curr_area_limit, slr_width_limit, max_search_time)]. *)
Definition area_probe_args
    (init_v2s : gmap vertex Slot) (slot_manager : SlotManager)
    (grouping_constraints : list (list vertex)) (pre_assignments : gmap vertex Slot)
    (slr_width_limit : pyval) (max_search_time : Q) (curr_area_limit : Q) : list pyval :=
  [PDict init_v2s; PList grouping_constraints; PDict pre_assignments;
   PSlotManager slot_manager; PNum curr_area_limit; slr_width_limit;
   PNum max_search_time].

(** [_binary_search_area_limit] up to its [return]. *)
Definition area_search
    (fuel : nat) (init_v2s : gmap vertex Slot) (slot_manager : SlotManager)
    (grouping_constraints : list (list vertex)) (pre_assignments : gmap vertex Slot)
    (slr_width_limit : pyval) (min_area_limit max_area_limit : Q)
    (max_search_time : Q) (partitioner : partitioner_t) : result search_state :=
  search 0.01
    (area_probe_args init_v2s slot_manager grouping_constraints pre_assignments
       slr_width_limit max_search_time)
    partitioner fuel max_area_limit min_area_limit.

Definition _binary_search_area_limit
    (fuel : nat) (init_v2s : gmap vertex Slot) (slot_manager : SlotManager)
    (grouping_constraints : list (list vertex)) (pre_assignments : gmap vertex Slot)
    (slr_width_limit : pyval) (min_area_limit max_area_limit : Q)
    (max_search_time : Q) (partitioner : partitioner_t)
    : result (gmap vertex Slot * pyval) :=
  s ← area_search fuel init_v2s slot_manager grouping_constraints
        pre_assignments slr_width_limit min_area_limit max_area_limit
        max_search_time partitioner;
  mret (curr_best_v2s s, curr_min s).

Definition partition_area_prioritized
    (fuel : nat) (init_v2s : gmap vertex Slot) (slot_manager : SlotManager)
    (grouping_constraints : list (list vertex)) (pre_assignments : gmap vertex Slot)
    (min_area_limit max_area_limit min_slr_width_limit max_slr_width_limit : Q)
    (max_search_time : Q) (partitioner : partitioner_t)
    : result (gmap vertex Slot) :=
  '(curr_v2s, curr_area_limit) ←
    _binary_search_area_limit fuel init_v2s slot_manager grouping_constraints
      pre_assignments (PNum max_slr_width_limit) min_area_limit max_area_limit
      max_search_time partitioner;
  if negb (dict_truthy curr_v2s) then mret ∅
  else
    '(best_v2s, curr_slr_limit) ←
      _binary_search_slr_crossing_limit fuel init_v2s slot_manager
        grouping_constraints pre_assignments curr_area_limit
        min_slr_width_limit max_slr_width_limit max_search_time partitioner;
    if negb (dict_truthy best_v2s) then mret curr_v2s
    else mret best_v2s.

Definition partition_slr_crossing_prioritized
    (fuel : nat) (init_v2s : gmap vertex Slot) (slot_manager : SlotManager)
    (grouping_constraints : list (list vertex)) (pre_assignments : gmap vertex Slot)
    (min_area_limit max_area_limit min_slr_width_limit max_slr_width_limit : Q)
    (max_search_time : Q) (partitioner : partitioner_t)
    : result (gmap vertex Slot) :=
  '(curr_v2s, curr_slr_limit) ←
    _binary_search_slr_crossing_limit fuel init_v2s slot_manager
      grouping_constraints pre_assignments (PNum max_area_limit)
      min_slr_width_limit max_slr_width_limit max_search_time partitioner;
  if negb (dict_truthy curr_v2s) then mret ∅
  else
    '(best_v2s, curr_area_limit) ←
      _binary_search_area_limit fuel init_v2s slot_manager grouping_constraints
        pre_assignments curr_slr_limit min_area_limit max_area_limit
        max_search_time partitioner;
    if negb (dict_truthy best_v2s) then mret curr_v2s
    else mret best_v2s.

End PartitionDefs.

Section PartitionEntry.
Context `{Environment}.

Definition partition
    (fuel : nat) (init_v2s : gmap vertex Slot) (slot_manager : SlotManager)
    (grouping_constraints : list (list vertex)) (pre_assignments : gmap vertex Slot)
    (min_area_limit max_area_limit min_slr_width_limit max_slr_width_limit : Q)
    (max_search_time : Q) (partition_method floorplan_opt_priority : string)
    : result (gmap vertex Slot) :=
  partitioner ←
    (if bool_decide (partition_method = "EIGHT_WAY_PARTITION") then
       Ok eight_way_partition
     else if bool_decide (partition_method = "FOUR_WAY_PARTITION") then
       Ok (four_way_partition fuel)
     else Raise (NotImplementedError "unrecognized floorplan method"));
  worker ←
    (if bool_decide (floorplan_opt_priority = "AREA_PRIORITIZED") then
       Ok partition_area_prioritized
     else if bool_decide (floorplan_opt_priority = "SLR_CROSSING_PRIORITIZED") then
       Ok partition_slr_crossing_prioritized
     else Raise (NotImplementedError "unrecognized floorplan_opt_priority"));
  worker fuel init_v2s slot_manager grouping_constraints pre_assignments
    min_area_limit max_area_limit min_slr_width_limit max_slr_width_limit
    max_search_time partitioner.

End PartitionEntry.

(** ** The binary searches as the specification words them

    Section 4.5: a probe is made at the midpoint of the current interval; a
    successful probe records its mapping and sets [hi := mid], a failed one
    sets [lo := mid]; the search stops when [hi - lo] is below the
    threshold. [bisection hi lo ps] says that the history [ps] is such a
    run from the interval [lo, hi], and [last_success ps] is what has been
    recorded at its end. *)

Section SearchSpec.
Context `{SlotModel}.
Variable threshold : Q.
Variable call_args : Q → list pyval.
Variable partitioner : partitioner_t.

Definition probe_mid (p : probe) : Q := (probe_hi p + probe_lo p) / 2.

Definition probe_succeeds (p : probe) : bool := dict_truthy (probe_v2s p).

Definition next_hi (p : probe) : Q :=
  if probe_succeeds p then probe_mid p else probe_hi p.

Definition next_lo (p : probe) : Q :=
  if probe_succeeds p then probe_lo p else probe_mid p.

Definition probe_at (hi lo : Q) (p : probe) : Prop :=
  probe_hi p = hi ∧ probe_lo p = lo ∧
  probe_args p = call_args ((hi + lo) / 2) ∧
  partitioner (probe_args p) = Ok (probe_v2s p).

Fixpoint bisection (hi lo : Q) (ps : list probe) : Prop :=
  match ps with
  | [] => False
  | p :: ps' =>
      probe_at hi lo p ∧
      match ps' with
      | [] => next_hi p - next_lo p < threshold
      | _ :: _ =>
          ¬ (next_hi p - next_lo p < threshold) ∧
          bisection (next_hi p) (next_lo p) ps'
      end
  end.

Definition record_probe (acc : gmap vertex Slot * pyval) (p : probe)
    : gmap vertex Slot * pyval :=
  if probe_succeeds p then (probe_v2s p, PNum (probe_mid p)) else acc.

Definition last_success (ps : list probe) : gmap vertex Slot * pyval :=
  foldl record_probe (∅, PNone) ps.

End SearchSpec.

(** ** The retry loop as the specification words it

    Section 4.4: the area limit starts at [ref_usage_ratio] and every
    failure replaces it by [round(area + 0.02, 2)]. *)
Definition retry_cap (ref_usage_ratio : Q) (i : nat) : Q :=
  Nat.iter i (fun area => py_round2 (area + 0.02)) ref_usage_ratio.

(** ** What a model means

    An assignment gives every variable an integer; [BINARY] variables take
    their value in {0, 1}. *)

Fixpoint eval (σ : var → Z) (e : LinExpr) : Q :=
  match e with
  | LVar x => inject_Z (σ x)
  | LConst c => c
  | LAdd a b => eval σ a + eval σ b
  | LSub a b => eval σ a - eval σ b
  | LScale c a => c * eval σ a
  | LNeg a => - eval σ a
  end.

Definition holds (σ : var → Z) (c : Constr) : Prop :=
  match c with
  | CLe a b => eval σ a <= eval σ b
  | CGe a b => eval σ b <= eval σ a
  | CEq a b => eval σ a == eval σ b
  end.

Definition is_binary (m : Model) (x : var) : Prop :=
  ∃ n, m_vars m !! x = Some (BINARY, n).

Definition feasible (σ : var → Z) (m : Model) : Prop :=
  (∀ x, is_binary m x → σ x = 0%Z ∨ σ x = 1%Z) ∧
  Forall (holds σ) (m_constrs m).

(** The same, as tests that run. *)
Definition Qeqb (a b : Q) : bool := (Qnum a * QDen b =? Qnum b * QDen a)%Z.

Definition holdsb (σ : var → Z) (c : Constr) : bool :=
  match c with
  | CLe a b => Qleb (eval σ a) (eval σ b)
  | CGe a b => Qleb (eval σ b) (eval σ a)
  | CEq a b => Qeqb (eval σ a) (eval σ b)
  end.

(** The statuses after which [mip] holds a solution. *)
Definition status_has_solution (status : OptimizationStatus) : Prop :=
  status = OPTIMAL ∨ status = FEASIBLE.

(** A model grows: variables and constraints are only ever added. *)
Definition extends (m m' : Model) : Prop :=
  m_vars m `prefix_of` m_vars m' ∧ m_constrs m `prefix_of` m_constrs m'.

Definition Qsum (l : list Q) : Q := foldr Qplus 0 l.

(** ** The area constraints as the specification words them

    Section 4.2: for a resource [r] and a leaf [(a, b)], every vertex has an
    indicator [pick v] tied to its position variables by the three
    inequalities of the AND encoding, and the indicators weighted by the
    bundled areas sum to at most the capacity of the leaf times the ratio. *)

Definition pick_of (prods : gmap vertex var) (v : vertex) : var :=
  match prods !! v with
  | Some p => p
  | None => 0%nat
  end.

Section AreaSpec.
Context `{Environment}.
Variable v_list : list vertex.
Variables v2var_y1 v2var_y2 : gmap vertex var.

Definition leaf_constraints (m : Model) (r : resource) (a b : Z) (ratio : Q)
    (pick : vertex → var) (slot : Slot) : Prop :=
  (∀ v, v ∈ v_list →
     ∃ x1 x2,
       v2var_y1 !! v = Some x1 ∧ v2var_y2 !! v = Some x2 ∧
       is_binary m (pick v) ∧
       CGe (choose (LVar x1) a) (LVar (pick v)) ∈ m_constrs m ∧
       CGe (choose (LVar x2) b) (LVar (pick v)) ∈ m_constrs m ∧
       CLe (LSub (LAdd (choose (LVar x1) a) (choose (LVar x2) b))
                 (LVar (pick v))) (LConst 1) ∈ m_constrs m) ∧
  CLe (xsum (map (fun v => LScale (getVertexAndInboundFIFOArea v r)
                                  (LVar (pick v))) v_list))
      (LConst (getArea slot r * ratio)) ∈ m_constrs m.

End AreaSpec.

(** [feasible], as a test that runs, for an assignment given by the list of
    its values. *)
Definition feasibleb (σ : list Z) (m : Model) : bool :=
  forallb
    (fun '(x, (t, _)) =>
       match t with
       | BINARY => bool_decide (σ !! x = Some 0%Z ∨ σ !! x = Some 1%Z)
       | INTEGER => true
       end)
    (imap (fun x tn => (x, tn)) (m_vars m)) &&
  forallb (holdsb (fun x => default 0%Z (σ !! x))) (m_constrs m).

(** ** A small device and design, used to run the definitions

    Four stacked SLRs of one column; a slot is the rectangle between its
    down-left and its up-right corner. *)

Record rect := mkRect {
  dl_x : Z; dl_y : Z;
  ur_x : Z; ur_y : Z;
}.

#[global] Instance rect_eq_dec : EqDecision rect.
Proof. solve_decision. Defined.

Definition rect_contains (a b : rect) : bool :=
  ((dl_x a <=? dl_x b) && (dl_y a <=? dl_y b) &&
   (ur_x b <=? ur_x a) && (ur_y b <=? ur_y a))%Z.

Definition slr (i : Z) : rect := mkRect 0 i 1 (i + 1).

Definition four_slrs : list rect := [slr 0; slr 1; slr 2; slr 3].

(** The slot manager of the example is the list of its leaves. *)
Definition example_slots : SlotModel := {|
  Slot := rect;
  containsChildSlot := rect_contains;
  getArea := fun _ _ => 100;
  SlotManager := list rect;
  getLeafSlotsAfterPartition := fun sm _ => sm;
|}.

Definition example_v2s : gmap vertex rect :=
  {[ "A"%string := mkRect 0 0 1 4; "B"%string := mkRect 0 0 1 4 ]}.

(** A partitioner that succeeds from the area limit 0.7 and the crossing
    limit 12000 upwards, putting everything in SLR 0. *)
Definition example_partitioner : @partitioner_t example_slots := fun args =>
  match args with
  | [_; _; _; _; PNum area; PNum width; _] =>
      if (Qleb 0.7 area && Qleb 12000 width)%bool
      then Ok ({[ "A"%string := slr 0; "B"%string := slr 0 ]} : gmap vertex rect)
      else Ok ∅
  | _ => Ok ∅
  end.

(** *** A small solver

    Exhaustive search over the variables in the order of their creation;
    a constraint is checked as soon as all its variables have a value. It
    finds the first feasible assignment, not the best one, and answers
    [FEASIBLE] or [INFEASIBLE]. *)

Fixpoint max_var (e : LinExpr) : nat :=
  match e with
  | LVar x => x
  | LConst _ => 0
  | LAdd a b | LSub a b => max_var a `max` max_var b
  | LScale _ a | LNeg a => max_var a
  end.

Definition constr_max_var (c : Constr) : nat :=
  match c with
  | CLe a b | CGe a b | CEq a b => max_var a `max` max_var b
  end.

Definition domain (t : VarType) : list Z :=
  match t with
  | BINARY => [0; 1]%Z
  | INTEGER => [0; 1; 2; 3]%Z
  end.

(** [σ] lists the values of the variables [0 .. length σ - 1]. *)
Definition value_in (σ : list Z) (x : var) : Z := default 0%Z (σ !! x).

Fixpoint search_vars (constrs : list Constr) (remaining : list VarType)
    (σ : list Z) : option (list Z) :=
  match remaining with
  | [] => Some σ
  | t :: remaining' =>
      let x := length σ in
      let here := filter (fun c => constr_max_var c = x) constrs in
      (fix try (candidates : list Z) : option (list Z) :=
         match candidates with
         | [] => None
         | z :: candidates' =>
             let σ' := σ ++ [z] in
             if forallb (holdsb (value_in σ')) here then
               match search_vars constrs remaining' σ' with
               | Some sol => Some sol
               | None => try candidates'
               end
             else try candidates'
         end) (domain t)
  end.

Definition example_optimize (m : Model) (max_seconds : Q)
    : OptimizationStatus * (var → option Q) :=
  match search_vars (m_constrs m) (m_vars m).*1 [] with
  | Some σ => (FEASIBLE, fun x => inject_Z <$> σ !! x)
  | None => (INFEASIBLE, fun _ => None)
  end.

(** Two modules [A] and [B] joined by one FIFO of width 100, each taking
    40 units of every resource; every slot offers 100 units. *)
Definition example_edges : list Edge := [mkEdge "A_to_B" "A" "B" 100].

Definition example_env : @Environment example_slots := {|
  RESOURCE_TYPES := ["LUT"; "FF"];
  getVertexAndInboundFIFOArea := fun _ _ => 40;
  get_all_edges := fun v_list =>
    filter (fun e => e_src e ∈ v_list ∨ e_dst e ∈ v_list) example_edges;
  mip_optimize := example_optimize;
  eight_way_partition := fun _ => Ok ∅;
|}.

(** The call [_four_way_partition(init_v2s, [], pre, slot_manager, ratio, 600)]. *)
Definition example_call (pre : gmap vertex rect) (ratio : Q)
    : @fw_call example_slots :=
  mkCall (H := example_slots)
         (PDict (H := example_slots) example_v2s) (PList [])
         (PDict (H := example_slots) pre)
         (PSlotManager (H := example_slots) four_slrs)
         (PNum ratio) (PNum 600) (PNum 12000) (PNum 12000) (PNum 12000).

(** A solution for the position variables of [A] (0, 1) and [B] (2, 3):
    [A] in leaf (0, 0) and [B] in leaf (0, 1). *)
Definition example_y1 : gmap vertex var := {[ "A"%string := 0%nat; "B"%string := 2%nat ]}.
Definition example_y2 : gmap vertex var := {[ "A"%string := 1%nat; "B"%string := 3%nat ]}.
Definition example_x (a : var) : option Q :=
  if decide (a = 3%nat) then Some 1 else Some 0.

(** A pre-assignment of [A] to a region that lies outside the four SLRs. *)
Definition example_outside_pre : gmap vertex rect := {[ "A"%string := slr 7 ]}.

(** The model of the example at the area limit 0.7, and the assignment the
    small solver finds for it. *)
Definition example_model : Model :=
  match four_way_model (H0 := example_env) (example_call ∅ 0.7)
          ["A"; "B"]%string new_model with
  | Ok (_, m) => m
  | _ => new_model
  end.

Definition example_solution : list Z :=
  default [] (search_vars (m_constrs example_model) (m_vars example_model).*1 []).

(** *** A FIFO between two modules, for [graph.py]

    The instance [f] of a FIFO: its read side [if_dout] is wired to
    [f_dout], which the vertex 1 (the consumer) reads, and its write side
    [if_din] to [f_din], which the vertex 0 (the producer) writes. *)
Definition example_formator : Graph.Formator := {|
  Graph.isValidInstance := fun _ => true;
  Graph.isFIFO := fun node => String.prefix "fifo" (Graph.module node);
  Graph.extractFIFOWidth := fun _ => 32%Z;
  Graph.extractFIFODepth := fun _ => 16%Z;
|}.

Definition example_fifo : Graph.Instance :=
  Graph.mkInstance "fifo_w32_d16_A" "f"
    [Graph.mkPortArg "clk" (Graph.Identifier "ap_clk");
     Graph.mkPortArg "reset" Graph.Constant;
     Graph.mkPortArg "if_dout" (Graph.Identifier "f_dout");
     Graph.mkPortArg "if_din" (Graph.Identifier "f_din")].

Definition example_vertex (n : string) : Graph.Vertex :=
  Graph.mkVertex [] [] "kernel" n [] [] (Graph.mkArea (-1) (-1) (-1) (-1))
    (-1) (-1) ∅ ∅.

Definition example_graph : Graph.graph :=
  Graph.mkGraph
    {[ "producer"%string := 0%nat; "consumer"%string := 1%nat ]}
    ∅
    {[ "f_din"%string := 0%nat; "f_dout"%string := 1%nat ]}.

Definition example_store : Graph.store :=
  Graph.mkStore
    {[ 0%nat := example_vertex "producer"; 1%nat := example_vertex "consumer" ]}
    ∅.

(** ** Further definitions used by the properties of the whole code *)

(** A call has returned. *)
Definition is_Ok {A} (r : result A) : bool :=
  match r with Ok _ => true | _ => false end.

(** A partitioner that rejects area limits below 0.7 with an exception and
    otherwise behaves as [example_partitioner]. *)
Definition example_raising_partitioner : @partitioner_t example_slots := fun args =>
  match args with
  | [_; _; _; _; PNum area; _; _] =>
      if Qleb 0.7 area then example_partitioner args else Raise KeyError
  | _ => example_partitioner args
  end.

(** A search has come to an end: it returned, or it raised what a call of the
    partitioner at a limit of the interval raised. *)
Section SearchOutcome.
Context `{SlotModel}.
Variable call_args : Q → list pyval.
Variable partitioner : partitioner_t.

Definition halts_in (lo hi : Q) (r : result search_state) : Prop :=
  match r with
  | Ok s => True
  | Raise e => ∃ c, lo <= c ∧ c <= hi ∧ partitioner (call_args c) = Raise e
  | OutOfFuel => False
  end.

End SearchOutcome.

(** ** What the constraints of the four-way model say of an assignment *)

(** Both position variables of a vertex exist. *)
Definition has_position_vars (v2var_y1 v2var_y2 : gmap vertex var) (v : vertex)
    : Prop :=
  is_Some (v2var_y1 !! v) ∧ is_Some (v2var_y2 !! v).

(** The pair [(y1, y2)] that an assignment gives to a vertex. *)
Definition position_of (σ : var → Z) (v2var_y1 v2var_y2 : gmap vertex var)
    (v : vertex) : option (Z * Z) :=
  match v2var_y1 !! v, v2var_y2 !! v with
  | Some a, Some b => Some (σ a, σ b)
  | _, _ => None
  end.

(** What [_add_grouping_constraints] asks of the dictionaries for a group:
    nothing when it has at most one member. *)
Definition group_known (v2var_y1 v2var_y2 : gmap vertex var) (g : list vertex)
    : Prop :=
  match g with
  | [] => True
  | g0 :: rest =>
      Forall (fun gi => has_position_vars v2var_y1 v2var_y2 g0 ∧
                        has_position_vars v2var_y1 v2var_y2 gi) rest
  end.

(** The value of [pos_y(v) = y1 * 2 + y2] under an assignment, and the
    distance [|pos_y(e.src) - pos_y(e.dst)|] that the cost variable of an
    edge bounds. *)
Definition pos_y_of (σ : var → Z) (v2var_y1 v2var_y2 : gmap vertex var)
    (v : vertex) : Z :=
  match position_of σ v2var_y1 v2var_y2 v with
  | Some (a, b) => (a * 2 + b)%Z
  | None => 0%Z
  end.

Definition cost_y_of (σ : var → Z) (v2var_y1 v2var_y2 : gmap vertex var)
    (e : Edge) : Z :=
  Z.abs (pos_y_of σ v2var_y1 v2var_y2 (e_src e) -
         pos_y_of σ v2var_y1 v2var_y2 (e_dst e)).

(** The area of the resource [r] that an assignment puts in the leaf
    [(a, b)]: the bundled areas of the vertices whose pair is [(a, b)]. *)
Definition leaf_load `{Environment} (σ : var → Z)
    (v2var_y1 v2var_y2 : gmap vertex var) (v_list : list vertex)
    (r : resource) (a b : Z) : Q :=
  Qsum (map (fun v =>
               if decide (position_of σ v2var_y1 v2var_y2 v = Some (a, b))
               then getVertexAndInboundFIFOArea v r else 0)
            v_list).

(** What [_get_results] reads for a vertex: the slot is the leaf at the
    truncated values of its two variables. *)
Definition extracted `{SlotModel} (x : var → option Q)
    (func : Z → Z → result Slot) (v2var_y1 v2var_y2 : gmap vertex var)
    (v : vertex) (s : Slot) : Prop :=
  ∃ a b qa qb,
    v2var_y1 !! v = Some a ∧ v2var_y2 !! v = Some b ∧
    x a = Some qa ∧ x b = Some qb ∧
    func (py_int qa) (py_int qb) = Ok s.

(** In every feasible assignment the binary variable [c] has the truth value
    of [b]. *)
Definition encodes (m : Model) (c : var) (b : (var → Z) → bool) : Prop :=
  is_binary m c ∧ ∀ σ, feasible σ m → σ c = Z.b2z (b σ).

(** The two ends of an edge lie on different sides of the boundary between
    SLR [k] and SLR [k + 1], and the total width of the edges that do. *)
Definition crosses_boundary (σ : var → Z) (v2var_y1 v2var_y2 : gmap vertex var)
    (k : Z) (e : Edge) : bool :=
  xorb (pos_y_of σ v2var_y1 v2var_y2 (e_src e) <=? k)%Z
       (pos_y_of σ v2var_y1 v2var_y2 (e_dst e) <=? k)%Z.

Definition boundary_width (σ : var → Z) (v2var_y1 v2var_y2 : gmap vertex var)
    (edges : list Edge) (k : Z) : Q :=
  Qsum (map (fun e => if crosses_boundary σ v2var_y1 v2var_y2 k e
                      then e_width e else 0)
            edges).

(** The position variables are binary variables of the model. *)
Definition positions_binary (v2var_y1 v2var_y2 : gmap vertex var) (m : Model)
    : Prop :=
  ∀ v x, v2var_y1 !! v = Some x ∨ v2var_y2 !! v = Some x → is_binary m x.

(** ** [graph.py]: what [initEdges] asks of a port and does to the store *)

Module GraphSpec.
Import Graph.

(** The tests of the loop body on a port: the FIFO side it is, with the wire
    it is connected to. *)
Inductive port_role :=
| DoutPort (actual_raw : string)
| DinPort (actual_raw : string)
| OtherPort.

Definition port_role_of (portarg : PortArg) : port_role :=
  match arg portarg with
  | Constant => OtherPort
  | Identifier actual_raw =>
      if is_substring "_dout" actual_raw && is_substring "_dout" (portname portarg)
      then DoutPort actual_raw
      else if is_substring "_din" actual_raw
              && is_substring "_din" (portname portarg)
      then DinPort actual_raw
      else OtherPort
  end.

(** The wire of a FIFO port has a vertex in [edge_to_vertex]. *)
Definition wire_known (g : graph) (portarg : PortArg) : Prop :=
  match port_role_of portarg with
  | DoutPort actual_raw | DinPort actual_raw =>
      is_Some (edge_to_vertex g !! actual_raw)
  | OtherPort => True
  end.

(** The vertex wired to the last read port, and to the last write port. *)
Definition last_dout (g : graph) (ports : list PortArg) : option nat :=
  foldl (fun acc portarg =>
           match port_role_of portarg with
           | DoutPort actual_raw => edge_to_vertex g !! actual_raw
           | _ => acc
           end) None ports.

Definition last_din (g : graph) (ports : list PortArg) : option nat :=
  foldl (fun acc portarg =>
           match port_role_of portarg with
           | DinPort actual_raw => edge_to_vertex g !! actual_raw
           | _ => acc
           end) None ports.

(** A vertex object differs from an earlier one by copies of the edge [e]
    at the end of its two lists of edges, and by nothing else. *)
Definition appends (e : nat) (o o' : Vertex) : Prop :=
  (∃ k, in_edges o' = in_edges o ++ replicate k e) ∧
  (∃ k, out_edges o' = out_edges o ++ replicate k e) ∧
  type o' = type o ∧ v_name o' = v_name o ∧
  upstream o' = upstream o ∧ downstream o' = downstream o ∧
  area o' = area o ∧ slr_loc o' = slr_loc o ∧
  slr_sub_loc o' = slr_sub_loc o ∧
  sub_vertices o' = sub_vertices o ∧ actual_to_sub o' = actual_to_sub o.

(** The fields of an edge that the loop over the ports leaves alone. *)
Definition same_edge_data (a b : Edge) : Prop :=
  src_sub a = src_sub b ∧ dst_sub a = dst_sub b ∧ width a = width b ∧
  depth a = depth b ∧ addr_width a = addr_width b ∧ name a = name b ∧
  mark a = mark b ∧ latency a = latency b.

(** The same vertices and the same other edges. *)
Definition store_appends (e : nat) (s s' : store) : Prop :=
  (∀ e', e' ≠ e → edge_objs s' !! e' = edge_objs s !! e') ∧
  ∀ v, option_Forall2 (appends e) (vertex_objs s !! v) (vertex_objs s' !! v).

End GraphSpec.

(** ** [graph.py]: the traversal of the RTL

    The nodes of the syntax tree are compared with [==] and give their
    children in a list; [visited] is the one set that all the calls share,
    kept as the list of its elements. The fuel bounds the depth of the
    recursion. *)

Module GraphDfs.

Section Dfs.
Context {Node : Type} `{EqDecision Node}.
(** [node.children()] *)
Variable children : Node → list Node.
Context {St : Type}.
(** [func(node)], on the state that it reads and writes. *)
Variable func : Node → St → result St.

(** [Graph.dfs(self, node, visited, func)] *)
Fixpoint dfs (fuel : nat) (node : Node) (visited : list Node) (st : St)
    : result (list Node * St) :=
  match fuel with
  | O => OutOfFuel
  | S fuel' =>
      if bool_decide (node ∈ visited) then Ok (visited, st)
      else
        let visited := node :: visited in
        st ← func node st;
        for_each (children node)
          (fun c '(visited, st) => dfs fuel' c visited st)
          (visited, st)
  end.

End Dfs.

(** A [func] that only records the nodes it is applied to, in order. *)
Definition record {Node : Type} (node : Node) (calls : list Node)
    : result (list Node) :=
  Ok (calls ++ [node]).

(** [x] is [node] or below it. *)
Definition below {Node : Type} (children : Node → list Node) : Node → Node → Prop :=
  rtc (fun a b => b ∈ children a).

(** Within what lies below [roots], [visited] holds with a node all that is
    below it. *)
Definition closed_below {Node : Type} (children : Node → list Node)
    (roots visited : list Node) : Prop :=
  ∀ c x, c ∈ roots → below children c x → x ∈ visited →
         ∀ y, below children x y → y ∈ visited.

(** What a traversal from [roots] adds to [visited] and to the record: the
    nodes below [roots] that [visited] did not hold, each once. *)
Definition adds {Node : Type} (children : Node → list Node)
    (roots visited visited' new : list Node) : Prop :=
  NoDup new ∧
  (∀ x, x ∈ new ↔ (∃ c, c ∈ roots ∧ below children c x) ∧ x ∉ visited) ∧
  (∀ x, x ∈ visited' ↔ x ∈ visited ∨ x ∈ new).

(** A syntax tree in which one node is reached along two paths:
    node 0 has the children 1 and 2, node 1 has the child 2. *)
Definition example_children (n : nat) : list nat :=
  match n with
  | 0%nat => [1%nat; 2%nat]
  | 1%nat => [2%nat]
  | _ => []
  end.

Definition example_height (n : nat) : nat :=
  match n with
  | 0%nat => 2%nat
  | 1%nat => 1%nat
  | _ => 0%nat
  end.

(** A [func] that raises at node 2 and counts the nodes before it. *)
Definition example_func (n : nat) (count : nat) : result nat :=
  if (n =? 2)%nat then Raise KeyError else Ok (S count).

End GraphDfs.

(** ** [graph.py]: the vertices of the dataflow graph

    [initVertices] makes new [Vertex] objects: the store gives each a
    reference that no object has yet. *)

Module GraphVertices.
Import Graph.

(** What [initVertices] calls outside [graph.py]: methods of [formator] and
    functions of [autopilot_parser], whose code is not among the sources. *)
Class Reports := {
  (** [formator.extractFIFOFromRaw(raw)] *)
  extractFIFOFromRaw : string → result string;
  (** [formator.getRptFile(v)] *)
  getRptFile : Vertex → result string;
  (** [autopilot_parser.getAreaFromReport(rpt_name)] *)
  getAreaFromReport : string → result Area;
  (** [formator.getScheFile(v.type)] *)
  getScheFile : string → result string;
  (** [autopilot_parser.getGrouping(sche_file)]: the dictionary
      [formal_to_pp], and the items of [pp_to_formal] in their order *)
  getGrouping : string → result (gmap string Z * list (Z * list string));
  (** a pp id [i] as [f'{i}'] prints it *)
  pp_str : Z → string;
}.

(** [Vertex(type, name)] *)
Definition new_vertex (t n : string) : Vertex :=
  mkVertex [] [] t n [] [] (mkArea (-1) (-1) (-1) (-1)) (-1) (-1) ∅ ∅.

(** A new object in the store, and its reference. *)
Definition alloc (obj : Vertex) (s : store) : nat * store :=
  let r := fresh (dom (vertex_objs s)) in
  (r, mkStore (<[r := obj]> (vertex_objs s)) (edge_objs s)).

(** [self.area = a], [self.sub_vertices[i] = sub] and
    [self.actual_to_sub[n] = sub] *)
Definition set_area (a : Area) (self : Vertex) : Vertex :=
  mkVertex (in_edges self) (out_edges self) (type self) (v_name self)
    (upstream self) (downstream self) a (slr_loc self)
    (slr_sub_loc self) (sub_vertices self) (actual_to_sub self).

Definition set_sub_vertex (i : Z) (sub : nat) (self : Vertex) : Vertex :=
  mkVertex (in_edges self) (out_edges self) (type self) (v_name self)
    (upstream self) (downstream self) (area self) (slr_loc self)
    (slr_sub_loc self) (<[i := sub]> (sub_vertices self)) (actual_to_sub self).

Definition set_actual_to_sub (n : string) (sub : nat) (self : Vertex) : Vertex :=
  mkVertex (in_edges self) (out_edges self) (type self) (v_name self)
    (upstream self) (downstream self) (area self) (slr_loc self)
    (slr_sub_loc self) (sub_vertices self) (<[n := sub]> (actual_to_sub self)).

(** An assignment to a field of the object that [v] refers to. *)
Definition update_vertex (v : nat) (f : Vertex → Vertex) (s : store) : store :=
  mkStore (alter f v (vertex_objs s)) (edge_objs s).

(** [('_dout' in formal_raw and '_dout' in actual_raw) or
     ('_din' in formal_raw and '_din' in actual_raw)] *)
Definition is_fifo_port (formal_raw actual_raw : string) : bool :=
  (is_substring "_dout" formal_raw && is_substring "_dout" actual_raw) ||
  (is_substring "_din" formal_raw && is_substring "_din" actual_raw).

Section InitVertices.
Context `{Formator} `{Reports}.

(** The body of [for portarg in node.portlist], on [self.edge_to_vertex]
    and the local dictionary [actual_to_formal]. *)
Definition register_port (v : nat) (portarg : PortArg)
    (st : gmap string nat * list (string * string))
    : result (gmap string nat * list (string * string)) :=
  let '(e2v, actual_to_formal) := st in
  match arg portarg with
  | Constant => Ok st          (* filter out constant ports *)
  | Identifier actual_raw =>
      let formal_raw := portname portarg in
      if is_fifo_port formal_raw actual_raw then
        (* map raw edge name to vertices *)
        let e2v := <[actual_raw := v]> e2v in
        (* map formal to actual *)
        formal_strip ← extractFIFOFromRaw formal_raw;
        actual_strip ← extractFIFOFromRaw actual_raw;
        Ok (e2v, dict_set actual_to_formal actual_strip formal_strip)
      else Ok st
  end.

(** The body of [for i, pp in pp_to_formal.items()]. *)
Definition make_sub_vertex (node : Instance) (v : nat) (item : Z * list string)
    (s : store) : result store :=
  let i := item.1 in
  let '(sub, s) :=
    alloc (new_vertex (module node) (inst_name node +:+ "_sub_" +:+ pp_str i)) s in
  Ok (update_vertex v (set_sub_vertex i sub) s).

(** The body of [for actual_strip, formal_strip in actual_to_formal.items()]. *)
Definition map_to_sub (formal_to_pp : gmap string Z) (v : nat)
    (item : string * string) (s : store) : result store :=
  let '(actual_strip, formal_strip) := item in
  (* some FIFOs are not accessed in pp loops *)
  match formal_to_pp !! formal_strip with
  | None => Ok s
  | Some i =>
      match vertex_objs s !! v with
      | None => Ok s          (* not reached: [v] is an object of the store *)
      | Some self =>
          match sub_vertices self !! i with
          | None => Raise KeyError
          | Some sub => Ok (update_vertex v (set_actual_to_sub actual_strip sub) s)
          end
      end
  end.

(** [Graph.initVertices(self, node)] *)
Definition initVertices (g : graph) (s : store) (node : Instance)
    : result (graph * store) :=
  (* for every non-fifo module instance *)
  if negb (isValidInstance node) then Ok (g, s)
  else if isFIFO node then Ok (g, s)
  else
    let v_obj := new_vertex (module node) (inst_name node) in
    let '(v, s) := alloc v_obj s in
    '(e2v, actual_to_formal) ←
      for_each (portlist node) (register_port v) (edge_to_vertex g, []);
    (* get area *)
    rpt_name ← getRptFile v_obj;
    a ← getAreaFromReport rpt_name;
    let s := update_vertex v (set_area a) s in
    (* split into pseudo vertex at loop level *)
    sche_file ← getScheFile (module node);
    '(formal_to_pp, pp_to_formal) ← getGrouping sche_file;
    s ← for_each pp_to_formal (make_sub_vertex node v) s;
    (* map edge to pseudo vertices *)
    s ← for_each actual_to_formal (map_to_sub formal_to_pp v) s;
    Ok (mkGraph (<[inst_name node := v]> (vertices g)) (edges g) e2v, s).

(** [Graph.initAsyncMmap(self, node)]; the loop over the ports is the one
    of [initVertices], and [actual_to_formal] is not read after it. *)
Definition initAsyncMmap (g : graph) (s : store) (node : Instance)
    : result (graph * store) :=
  if negb (isValidInstance node) then Ok (g, s)
  else if negb (is_substring "async_mmap" (module node)) then Ok (g, s)
  else
    let '(v, s) := alloc (new_vertex (module node) (inst_name node)) s in
    '(e2v, _) ←
      for_each (portlist node) (register_port v) (edge_to_vertex g, []);
    (* get area *)
    let s := update_vertex v (set_area (mkArea 0 0 200 200)) s in
    Ok (mkGraph (<[inst_name node := v]> (vertices g)) (edges g) e2v, s).

End InitVertices.

End GraphVertices.

(** What [initVertices] leaves behind, and when it returns. *)
Module VerticesSpec.
Import Graph GraphVertices.

(** [w] is the wire of a port that [initVertices] takes for a FIFO port. *)
Definition fifo_wire (ports : list PortArg) (w : string) : bool :=
  existsb (fun p => match arg p with
                    | Identifier actual_raw =>
                        bool_decide (actual_raw = w)
                        && is_fifo_port (portname p) actual_raw
                    | Constant => false
                    end) ports.

(** The store [s'] holds the objects of [s] as they were, and new vertices. *)
Definition extends_store (s s' : store) : Prop :=
  edge_objs s' = edge_objs s ∧
  ∀ r o, vertex_objs s !! r = Some o → vertex_objs s' !! r = Some o.

(** The vertex that [initVertices] builds. *)
Definition built_vertex (t n : string) (a : Area) (subs : gmap Z nat)
    (a2s : gmap string nat) : Vertex :=
  mkVertex [] [] t n [] [] a (-1) (-1) subs a2s.

Section Spec.
Context `{Reports}.

(** The two calls of [extractFIFOFromRaw] return, at every FIFO port. *)
Definition strips_return (ports : list PortArg) : Prop :=
  ∀ p actual_raw,
    p ∈ ports → arg p = Identifier actual_raw →
    is_fifo_port (portname p) actual_raw = true →
    is_Ok (extractFIFOFromRaw (portname p)) = true ∧
    is_Ok (extractFIFOFromRaw actual_raw) = true.

(** The formal FIFO name of the last FIFO port whose wire strips to
    [actual_strip]. *)
Definition formal_of (ports : list PortArg) (actual_strip : string)
    : option string :=
  foldl (fun acc p =>
           match arg p with
           | Identifier actual_raw =>
               if is_fifo_port (portname p) actual_raw then
                 match extractFIFOFromRaw (portname p),
                       extractFIFOFromRaw actual_raw with
                 | Ok formal_strip, Ok a =>
                     if decide (a = actual_strip) then Some formal_strip else acc
                 | _, _ => acc
                 end
               else acc
           | Constant => acc
           end) None ports.

(** Every FIFO of a port that is grouped under a pp id has a sub-vertex. *)
Definition grouped_known (ports : list PortArg) (formal_to_pp : gmap string Z)
    (pp_ids : list Z) : Prop :=
  ∀ actual_strip formal_strip i,
    formal_of ports actual_strip = Some formal_strip →
    formal_to_pp !! formal_strip = Some i → i ∈ pp_ids.

End Spec.

End VerticesSpec.

(** A module instance [producer] that writes to the wire [f_din] through
    its port [out_din], with the reports that go with it: the FIFO [out] is
    accessed in the loop 0, for which a sub-vertex is made. *)
Fixpoint before_underscore (s : string) : string :=
  match s with
  | EmptyString => EmptyString
  | String c s' =>
      if String.eqb (String c EmptyString) "_" then EmptyString
      else String c (before_underscore s')
  end.

Definition example_reports : GraphVertices.Reports := {|
  GraphVertices.extractFIFOFromRaw := fun raw => Ok (before_underscore raw);
  GraphVertices.getRptFile := fun v => Ok (Graph.v_name v +:+ ".rpt");
  GraphVertices.getAreaFromReport := fun _ => Ok (Graph.mkArea 1 2 3 4);
  GraphVertices.getScheFile := fun t => Ok (t +:+ ".sched");
  GraphVertices.getGrouping := fun _ =>
    Ok ({[ "out"%string := 0%Z ]}, [(0%Z, ["out"%string])]);
  GraphVertices.pp_str := fun i => if (i =? 0)%Z then "0" else "n";
|}.

(** Reports in which the FIFO [out] is grouped under the loop 5, which the
    items of [pp_to_formal] do not list. *)
Definition example_reports_unlisted : GraphVertices.Reports := {|
  GraphVertices.extractFIFOFromRaw := fun raw => Ok (before_underscore raw);
  GraphVertices.getRptFile := fun v => Ok (Graph.v_name v +:+ ".rpt");
  GraphVertices.getAreaFromReport := fun _ => Ok (Graph.mkArea 1 2 3 4);
  GraphVertices.getScheFile := fun t => Ok (t +:+ ".sched");
  GraphVertices.getGrouping := fun _ =>
    Ok ({[ "out"%string := 5%Z ]}, [(0%Z, ["out"%string])]);
  GraphVertices.pp_str := fun i => if (i =? 0)%Z then "0" else "n";
|}.

Definition example_producer : Graph.Instance :=
  Graph.mkInstance "kernel" "producer"
    [Graph.mkPortArg "ap_clk" (Graph.Identifier "ap_clk");
     Graph.mkPortArg "ap_start" Graph.Constant;
     Graph.mkPortArg "out_din" (Graph.Identifier "f_din")].

Definition empty_graph : Graph.graph := Graph.mkGraph ∅ ∅ ∅.
Definition empty_store : Graph.store := Graph.mkStore ∅ ∅.

(** An instance of an [async_mmap] module, read through the wire [m_dout]. *)
Definition example_async : Graph.Instance :=
  Graph.mkInstance "async_mmap_rd" "mem"
    [Graph.mkPortArg "rd_dout" (Graph.Identifier "m_dout");
     Graph.mkPortArg "ap_rst" Graph.Constant].

(** ** [graph.py]: the two traversals of [Graph.__init__] *)

Module GraphInit.
Import Graph GraphVertices GraphDfs.

Section Init.
Context `{Formator} `{Reports}.
Context {Node : Type} `{EqDecision Node}.
(** [node.children()], and the instance that the methods see in a node. *)
Variable children : Node → list Node.
Variable inst : Node → Instance.

(** [self.initVertices] and [self.initEdges] as [dfs] applies them, on the
    attributes of the graph and the store; [Edge(node.name)] is a new
    object. *)
Definition vertices_step (node : Node) (gs : graph * store)
    : result (graph * store) :=
  initVertices gs.1 gs.2 (inst node).

Definition edges_step (node : Node) (gs : graph * store)
    : result (graph * store) :=
  initEdges gs.1 gs.2 (fresh (dom (edge_objs gs.2))) (inst node).

(** [Graph.__init__(self, formator)] from the three empty dictionaries to
    the end of the second traversal; [top_mod_ast] is what [rtl_parse]
    gave. *)
Definition init (fuel : nat) (top_mod_ast : Node) : result (graph * store) :=
  '(_, gs) ← dfs children vertices_step fuel top_mod_ast []
               (mkGraph ∅ ∅ ∅, mkStore ∅ ∅);
  '(_, gs) ← dfs children edges_step fuel top_mod_ast [] gs;
  Ok gs.

End Init.

End GraphInit.

Module InitSpec.
Import Graph GraphSpec GraphVertices VerticesSpec.

Section Spec.
Context `{Formator} `{Reports}.

(** The instances that [initVertices] takes, and those that [initEdges]
    takes. *)
Definition is_module (node : Instance) : bool :=
  isValidInstance node && negb (isFIFO node).

Definition is_fifo (node : Instance) : bool :=
  isValidInstance node && isFIFO node.

(** The calls outside [graph.py] return for the instance, and every FIFO
    grouped under a pp id has a sub-vertex. *)
Definition reports_known (node : Instance) : Prop :=
  strips_return (portlist node) ∧
  ∃ a formal_to_pp items,
    getRptFile (new_vertex (module node) (inst_name node)) ≫= getAreaFromReport
      = Ok a ∧
    getScheFile (module node) ≫= getGrouping = Ok (formal_to_pp, items) ∧
    grouped_known (portlist node) formal_to_pp items.*1.

(** The wire of every read or write port of the FIFO is the wire of a FIFO
    port of one of the module instances. *)
Definition wired (instances : list Instance) (fifo : Instance) : Prop :=
  Forall (fun p =>
            match port_role_of p with
            | DoutPort w | DinPort w =>
                ∃ m, m ∈ instances ∧ is_module m = true ∧
                     fifo_wire (portlist m) w = true
            | OtherPort => True
            end) (portlist fifo).

End Spec.

(** The edge [e] is an object with the name [n] whose ends, where set,
    refer to vertices of the store. *)
Definition edge_sound (s : store) (n : string) (e : nat) : Prop :=
  ∃ e_obj,
    edge_objs s !! e = Some e_obj ∧ name e_obj = n ∧
    ∀ v, dst e_obj = Some v ∨ src e_obj = Some v →
         is_Some (vertex_objs s !! v).

End InitSpec.

(** A syntax tree with the module instance [producer] and the FIFO [f2]
    that it writes to: the node 0 has the children 1 and 2. *)
Definition example_fifo2 : Graph.Instance :=
  Graph.mkInstance "fifo_w32_d16_A" "f2"
    [Graph.mkPortArg "clk" (Graph.Identifier "ap_clk");
     Graph.mkPortArg "if_din" (Graph.Identifier "f_din")].

Definition example_tree_children (n : nat) : list nat :=
  match n with
  | 0%nat => [1%nat; 2%nat]
  | _ => []
  end.

Definition example_tree_inst (n : nat) : Graph.Instance :=
  match n with
  | 1%nat => example_fifo2
  | 2%nat => example_producer
  | _ => Graph.mkInstance "" "" []
  end.

(** * Properties *)

(** ** Numbers *)

Lemma Qltb_lt (a b : Q) : Qltb a b = true ↔ a < b.
Proof. unfold Qltb, Qlt. apply Z.ltb_lt. Qed.

Lemma Qltb_ge (a b : Q) : Qltb a b = false ↔ b <= a.
Proof. unfold Qltb, Qle. apply Z.ltb_ge. Qed.

Lemma Qleb_le (a b : Q) : Qleb a b = true ↔ a <= b.
Proof. unfold Qleb, Qle. apply Z.leb_le. Qed.

Lemma Qleb_gt (a b : Q) : Qleb a b = false ↔ b < a.
Proof. unfold Qleb, Qlt. apply Z.leb_gt. Qed.

Lemma half_width_hi (h l : Q) : (h + l) / 2 - l == (h - l) * (1 # 2).
Proof. unfold Qdiv. change (/ 2) with (1 # 2). ring. Qed.

Lemma half_width_lo (h l : Q) : h - (h + l) / 2 == (h - l) * (1 # 2).
Proof. unfold Qdiv. change (/ 2) with (1 # 2). ring. Qed.

Definition pow2 (n : nat) : Q := inject_Z (2 ^ Z.of_nat n).

Lemma pow2_succ (n : nat) : pow2 (S n) == 2 * pow2 n.
Proof.
  unfold pow2. rewrite Nat2Z.inj_succ, Z.pow_succ_r by lia.
  now rewrite inject_Z_mult.
Qed.

Lemma pow2_pos (n : nat) : 0 < pow2 n.
Proof.
  unfold pow2. change 0 with (inject_Z 0). rewrite <- Zlt_Qlt.
  apply Z.pow_pos_nonneg; lia.
Qed.

(** Halving a width often enough brings it below any positive threshold. *)
Lemma pow2_bound (thr w : Q) : 0 < thr → ∃ n : nat, w < thr * pow2 n.
Proof.
  intros Hthr.
  exists (Z.to_nat (Qceiling (w / thr))).
  set (k := Z.to_nat (Qceiling (w / thr))).
  assert (Hk : w / thr < pow2 k).
  { eapply Qle_lt_trans; [apply Qle_ceiling|].
    unfold pow2. rewrite <- Zlt_Qlt.
    destruct (Z_lt_le_dec (Qceiling (w / thr)) 0) as [Hneg|Hnn].
    - eapply Z.lt_le_trans; [exact Hneg|]. apply Z.pow_nonneg. lia.
    - subst k. rewrite Z2Nat.id by assumption.
      apply Z.pow_gt_lin_r; lia. }
  assert (Hw : w == w / thr * thr).
  { field. intros E. rewrite E in Hthr. now apply Qlt_irrefl in Hthr. }
  rewrite Hw at 1. rewrite (Qmult_comm thr).
  apply Qmult_lt_compat_r; assumption.
Qed.

(** ** The binary searches of [Partition.py] *)

Section SearchFacts.
Context `{SlotModel}.
Variable threshold : Q.
Variable call_args : Q → list pyval.
Variable partitioner : partitioner_t.

(** Every call of the partitioner returns a mapping. *)
Hypothesis partitioner_returns : ∀ args, ∃ v2s, partitioner args = Ok v2s.

Local Abbreviation iteration := (search_iteration call_args partitioner).
Local Abbreviation loop := (search_loop threshold call_args partitioner).

Lemma search_iteration_spec (s : search_state) :
  ∃ p s',
    iteration s = Ok s' ∧
    probe_at call_args partitioner (hi s) (lo s) p ∧
    hi s' = next_hi p ∧ lo s' = next_lo p ∧
    probes s' = probes s ++ [p] ∧
    (curr_best_v2s s', curr_min s') =
      record_probe (curr_best_v2s s, curr_min s) p.
Proof.
  destruct (partitioner_returns (call_args ((hi s + lo s) / 2))) as [v2s Hv].
  exists (mkProbe (hi s) (lo s) (call_args ((hi s + lo s) / 2)) v2s).
  unfold search_iteration. rewrite Hv. cbn.
  unfold probe_at, next_hi, next_lo, record_probe, probe_succeeds, probe_mid; cbn.
  destruct (dict_truthy v2s); eexists; (split; [reflexivity|]); cbn; auto 10.
Qed.

Lemma next_width (p : probe) :
  next_hi p - next_lo p == (probe_hi p - probe_lo p) * (1 # 2).
Proof.
  unfold next_hi, next_lo, probe_mid.
  destruct (probe_succeeds p); [apply half_width_hi | apply half_width_lo].
Qed.

Lemma search_loop_spec (fuel : nat) (s s' : search_state) :
  loop fuel s = Ok s' →
  ∃ ps, probes s' = probes s ++ ps ∧
        bisection threshold call_args partitioner (hi s) (lo s) ps ∧
        (curr_best_v2s s', curr_min s') =
          foldl record_probe (curr_best_v2s s, curr_min s) ps.
Proof.
  revert s. induction fuel as [|fuel IH]; intros s; [discriminate|].
  destruct (search_iteration_spec s) as (p & s1 & Hit & Hp & Hhi & Hlo & Hps & Hrec).
  cbn. rewrite Hit. cbn.
  destruct (Qltb (hi s1 - lo s1) threshold) eqn:Hstop.
  - intros [= <-]. exists [p]. cbn. rewrite <- Hhi, <- Hlo.
    apply Qltb_lt in Hstop. auto.
  - intros Hrun. destruct (IH _ Hrun) as (ps & Hps' & Hbis & Hbest).
    exists (p :: ps). rewrite Hps', Hps, <- app_assoc. split; [reflexivity|].
    apply Qltb_ge in Hstop. cbn. rewrite <- Hhi, <- Hlo, <- Hrec.
    split; [|exact Hbest]. split; [exact Hp|].
    destruct ps as [|p' ps]; [contradiction|].
    split; [|exact Hbis]. intros Hlt. apply (Qlt_irrefl threshold).
    eapply Qle_lt_trans; eassumption.
Qed.

Lemma search_loop_total (n : nat) (s : search_state) :
  hi s - lo s < threshold * pow2 (S n) →
  ∀ fuel, (S n ≤ fuel)%nat → ∃ s', loop fuel s = Ok s'.
Proof.
  revert s. induction n as [|n IH]; intros s Hw fuel Hfuel;
    (destruct fuel as [|fuel]; [lia|]);
    destruct (search_iteration_spec s) as (p & s1 & Hit & Hp & Hhi & Hlo & _);
    cbn; rewrite Hit; cbn;
    destruct Hp as (Hphi & Hplo & _);
    assert (Hhalf : hi s1 - lo s1 == (hi s - lo s) * (1 # 2))
      by (rewrite Hhi, Hlo, <- Hphi, <- Hplo; apply next_width);
    destruct (Qltb (hi s1 - lo s1) threshold) eqn:Hstop; eauto.
  - apply Qltb_ge in Hstop. rewrite Hhalf in Hstop.
    rewrite pow2_succ in Hw. change (pow2 0) with 1 in Hw. lra.
  - apply IH; [|lia]. rewrite Hhalf. rewrite pow2_succ in Hw.
    set (q := pow2 (S n)) in *. clearbody q. lra.
Qed.

(** A search of [Partition.py] returns, and what it returns is the run the
    specification describes. *)
Lemma search_total_spec (max_limit min_limit : Q) :
  0 < threshold → min_limit <= max_limit →
  ∃ n, ∀ fuel, (n ≤ fuel)%nat →
    ∃ s, search threshold call_args partitioner fuel max_limit min_limit = Ok s ∧
         bisection threshold call_args partitioner max_limit min_limit (probes s) ∧
         (curr_best_v2s s, curr_min s) = last_success (probes s).
Proof.
  intros Hthr Hle.
  destruct (pow2_bound threshold (max_limit - min_limit) Hthr) as [n Hn].
  exists (S n). intros fuel Hfuel.
  unfold search. apply Qleb_le in Hle. rewrite Hle.
  set (s0 := mkSearch max_limit min_limit ∅ PNone []).
  destruct (search_loop_total n s0) with (fuel := fuel) as [s Hs]; [|exact Hfuel|].
  - cbn. rewrite pow2_succ. pose proof (pow2_pos n).
    set (q := pow2 n) in *. clearbody q. nra.
  - exists s. split; [exact Hs|].
    destruct (search_loop_spec _ _ _ Hs) as (ps & Hps & Hbis & Hbest).
    cbn in Hps. subst ps. split; [exact Hbis|exact Hbest].
Qed.

End SearchFacts.

Section SearchResults.
Context `{SlotModel}.

Lemma dict_truthy_false (d : gmap vertex Slot) : dict_truthy d = false ↔ d = ∅.
Proof.
  unfold dict_truthy. rewrite negb_false_iff, bool_decide_eq_true. reflexivity.
Qed.

Lemma dict_truthy_true (d : gmap vertex Slot) : dict_truthy d = true ↔ d ≠ ∅.
Proof.
  unfold dict_truthy. rewrite negb_true_iff, bool_decide_eq_false. reflexivity.
Qed.

Lemma record_probes_all_fail (ps : list probe) (acc : gmap vertex Slot * pyval) :
  Forall (fun p => probe_v2s p = ∅) ps → foldl record_probe acc ps = acc.
Proof.
  revert acc. induction ps as [|p ps IH]; intros acc Hall; [reflexivity|].
  inversion Hall as [|? ? Hp Hps]; subst. cbn.
  unfold record_probe at 2, probe_succeeds.
  apply dict_truthy_false in Hp. rewrite Hp. now apply IH.
Qed.

(** A recorded mapping comes with the limit it was found at. *)
Lemma record_probes_limit (ps : list probe) (acc : gmap vertex Slot * pyval) :
  (acc.1 ≠ ∅ → ∃ a, acc.2 = PNum a) →
  (foldl record_probe acc ps).1 ≠ ∅ → ∃ a, (foldl record_probe acc ps).2 = PNum a.
Proof.
  revert acc. induction ps as [|p ps IH]; intros acc Hacc; [exact Hacc|].
  cbn. apply IH. unfold record_probe.
  destruct (probe_succeeds p); cbn; eauto.
Qed.

Lemma last_success_limit (ps : list probe) :
  (last_success ps).1 ≠ ∅ → ∃ a, (last_success ps).2 = PNum a.
Proof. apply record_probes_limit. cbn. congruence. Qed.

Lemma bisection_nonempty thr args (partitioner : partitioner_t) h l ps :
  bisection thr args partitioner h l ps → (1 ≤ length ps)%nat.
Proof. destruct ps; cbn; [tauto | lia]. Qed.

(** From an interval that is already below the threshold: one probe. *)
Lemma bisection_short thr args (partitioner : partitioner_t) h l ps :
  l <= h → h - l < thr →
  bisection thr args partitioner h l ps → length ps = 1%nat.
Proof.
  intros Hle Hlt. destruct ps as [|p [|p' ps]]; cbn; [tauto|reflexivity|].
  intros [(Hh & Hl & _) [Hge _]]. exfalso. apply Hge.
  rewrite next_width, Hh, Hl. lra.
Qed.

End SearchResults.


Lemma example_partitioner_returns :
  ∀ args, ∃ v2s, example_partitioner args = Ok v2s.
Proof.
  intros args. unfold example_partitioner.
  repeat (lazymatch goal with
          | |- ∃ _, match ?x with _ => _ end = _ => destruct x
          | |- ∃ _, (if ?b then _ else _) = _ => destruct b
          end);
    eexists; reflexivity.
Qed.






(** ** The monads *)

Lemma bind_Ok {A B} (r : result A) (k : A → result B) (b : B) :
  r ≫= k = Ok b → ∃ a, r = Ok a ∧ k a = Ok b.
Proof. destruct r as [a| |]; cbn; [eauto|discriminate..]. Qed.

Lemma ilp_bind_Ok {A B} (c : ilp A) (k : A → ilp B) (m m' : Model) (b : B) :
  (c ≫= k) m = Ok (b, m') → ∃ a m1, c m = Ok (a, m1) ∧ k a m1 = Ok (b, m').
Proof.
  unfold mbind, ilp_bind. destruct (c m) as [[a m1]| |]; [eauto|discriminate..].
Qed.

Lemma lift_Ok {A} (r : result A) (m m' : Model) (a : A) :
  lift r m = Ok (a, m') → r = Ok a ∧ m' = m.
Proof. destruct r; cbn; intros [= -> ->] || discriminate; auto. Qed.

(** Neither building a model nor reading a solution runs forever. *)
Definition ilp_returns {A} (c : ilp A) : Prop := ∀ m, returns (c m).

Lemma bind_returns {A B} (r : result A) (k : A → result B) :
  returns r → (∀ a, returns (k a)) → returns (r ≫= k).
Proof. destruct r; cbn; auto. Qed.

Lemma ilp_bind_returns {A B} (c : ilp A) (k : A → ilp B) :
  ilp_returns c → (∀ a, ilp_returns (k a)) → ilp_returns (c ≫= k).
Proof.
  intros Hc Hk m. unfold mbind, ilp_bind. specialize (Hc m).
  destruct (c m) as [[a m1]| |]; cbn; [apply Hk|exact I|exact Hc].
Qed.

Lemma ilp_ret_returns {A} (a : A) : ilp_returns (mret a).
Proof. intros m. exact I. Qed.

Lemma lift_returns {A} (r : result A) : returns r → ilp_returns (lift r).
Proof. intros Hr m. destruct r; cbn; auto. Qed.

Lemma add_var_returns t n : ilp_returns (add_var t n).
Proof. intros m. exact I. Qed.

Lemma add_constr_returns c : ilp_returns (add_constr c).
Proof. intros m. exact I. Qed.

Lemma set_objective_returns e : ilp_returns (set_objective e).
Proof. intros m. exact I. Qed.

Lemma ilp_for_returns {A S} (l : list A) (body : A → S → ilp S) (s : S) :
  (∀ x s', ilp_returns (body x s')) → ilp_returns (ilp_for l body s).
Proof.
  intros Hbody. revert s. induction l as [|x l IH]; intros s; cbn.
  - apply ilp_ret_returns.
  - apply ilp_bind_returns; auto.
Qed.

Lemma for_each_returns {A S} (l : list A) (body : A → S → result S) (s : S) :
  (∀ x s', returns (body x s')) → returns (for_each l body s).
Proof.
  intros Hbody. revert s. induction l as [|x l IH]; intros s; cbn.
  - exact I.
  - apply bind_returns; auto.
Qed.

Lemma dict_get_returns {V} (d : gmap vertex V) k : returns (dict_get d k).
Proof. unfold dict_get. destruct (d !! k); exact I. Qed.

Lemma dict_lookup_returns {K V} `{EqDecision K} (d : list (K * V)) k :
  returns (dict_lookup d k).
Proof.
  induction d as [|[k' v'] d IH]; cbn; [exact I|].
  destruct (decide (k = k')); [exact I|exact IH].
Qed.

Lemma py_index_returns {A} (l : list A) i : returns (py_index l i).
Proof.
  unfold py_index. destruct (_ && _)%bool; [|exact I].
  destruct (l !! _); exact I.
Qed.

Create HintDb returns discriminated.
#[global] Hint Resolve ilp_ret_returns lift_returns add_var_returns
  add_constr_returns set_objective_returns dict_get_returns
  dict_lookup_returns py_index_returns : returns.

(** Goals [ilp_returns c] and [returns r], by the shape of the program. *)
Ltac returns_step :=
  lazymatch goal with
  | |- context [match ?x with (_, _) => _ end] =>
      is_var x; destruct x; cbn beta iota
  | |- ilp_returns (_ ≫= _) => apply ilp_bind_returns; [|intros ?]
  | |- ilp_returns (ilp_for _ _ _) => apply ilp_for_returns; intros ? ?
  | |- ilp_returns (lift _) => apply lift_returns
  | |- ilp_returns (match ?x with _ => _ end) => destruct x
  | |- ilp_returns (if ?b then _ else _) => destruct b
  | |- returns (_ ≫= _) => apply bind_returns; [|intros ?]
  | |- returns (for_each _ _ _) => apply for_each_returns; intros ? ?
  | |- returns (match ?x with _ => _ end) => destruct x
  | |- returns (if ?b then _ else _) => destruct b
  | |- returns (Ok _) => exact I
  | |- returns (Raise _) => exact I
  | |- returns (mret _) => exact I
  end.

Ltac solve_returns := repeat (first [solve [auto with returns] | returns_step]).

(** ** [FourWayPartition.py] returns or raises *)

Section FourWayReturns.
Context `{Environment}.

Lemma get_var_of_logic_and_returns a b : ilp_returns (get_var_of_logic_and a b).
Proof. unfold get_var_of_logic_and. solve_returns. Qed.

Lemma get_var_of_logic_or_returns a b : ilp_returns (get_var_of_logic_or a b).
Proof. unfold get_var_of_logic_or. solve_returns. Qed.

Lemma get_var_of_logic_not_returns a : ilp_returns (get_var_of_logic_not a).
Proof. unfold get_var_of_logic_not. solve_returns. Qed.

Lemma get_var_of_logic_xor_returns a b : ilp_returns (get_var_of_logic_xor a b).
Proof. unfold get_var_of_logic_xor. solve_returns. Qed.

Lemma get_var_of_equal_zero_returns a : ilp_returns (get_var_of_equal_zero a).
Proof. unfold get_var_of_equal_zero. solve_returns. Qed.

Lemma get_var_of_equal_one_returns a : ilp_returns (get_var_of_equal_one a).
Proof. unfold get_var_of_equal_one. solve_returns. Qed.

Hint Resolve get_var_of_logic_and_returns get_var_of_logic_or_returns
  get_var_of_logic_not_returns get_var_of_logic_xor_returns
  get_var_of_equal_zero_returns get_var_of_equal_one_returns : returns.

Lemma as_dict_returns attr p : returns (as_dict attr p).
Proof. destruct p; exact I. Qed.

Lemma as_slot_manager_returns p : returns (as_slot_manager p).
Proof. destruct p; exact I. Qed.

Lemma as_number_returns p : returns (as_number p).
Proof. destruct p; exact I. Qed.

Lemma as_groups_returns p : returns (as_groups p).
Proof. destruct p; cbn; try exact I. destruct (bool_decide _); exact I. Qed.

Hint Resolve as_dict_returns as_slot_manager_returns as_number_returns
  as_groups_returns : returns.

Lemma get_slot_by_idx_closure_returns p :
  returns (_get_slot_by_idx_closure p) ∧
  ∀ func, _get_slot_by_idx_closure p = Ok func → ∀ y1 y2, returns (func y1 y2).
Proof.
  unfold _get_slot_by_idx_closure. split; [solve_returns|].
  intros func Hf y1 y2. apply bind_Ok in Hf as (sm & _ & [= <-]).
  apply py_index_returns.
Qed.

Lemma get_slot_to_idx_returns func :
  (∀ y1 y2, returns (func y1 y2)) → returns (_get_slot_to_idx func).
Proof. intros Hf. unfold _get_slot_to_idx. solve_returns; try apply Hf. Qed.

Lemma add_area_constraints_returns v_list y1 y2 func ratio :
  (∀ a b, returns (func a b)) →
  ilp_returns (_add_area_constraints v_list y1 y2 func ratio).
Proof.
  intros Hf. unfold _add_area_constraints, area_constraints_of_leaf.
  solve_returns; try apply Hf.
Qed.

Lemma crossing_constraint_returns edges cross w :
  (∀ e, ilp_returns (cross e)) → ilp_returns (crossing_constraint edges cross w).
Proof. intros Hc. unfold crossing_constraint. solve_returns; try apply Hc. Qed.

Lemma add_slr_0_1_returns v_list y1 y2 w :
  ilp_returns (_add_slr_0_1_crossing_constraint v_list y1 y2 w).
Proof.
  unfold _add_slr_0_1_crossing_constraint.
  apply crossing_constraint_returns. intros e. solve_returns.
Qed.

Lemma add_slr_1_2_returns v_list y1 w :
  ilp_returns (_add_slr_1_2_crossing_constraint v_list y1 w).
Proof.
  unfold _add_slr_1_2_crossing_constraint.
  apply crossing_constraint_returns. intros e. solve_returns.
Qed.

Lemma add_slr_2_3_returns v_list y1 y2 w :
  ilp_returns (_add_slr_2_3_crossing_constraint v_list y1 y2 w).
Proof.
  unfold _add_slr_2_3_crossing_constraint.
  apply crossing_constraint_returns. intros e. solve_returns.
Qed.

Lemma add_grouping_constraints_returns g y1 y2 :
  ilp_returns (_add_grouping_constraints g y1 y2).
Proof. unfold _add_grouping_constraints. solve_returns. Qed.

Lemma add_pre_assignment_returns v_list s2i pre y1 y2 :
  ilp_returns (_add_pre_assignment v_list s2i pre y1 y2).
Proof. unfold _add_pre_assignment, pre_assign_one. solve_returns. Qed.

Lemma add_opt_goal_returns v_list y1 y2 :
  ilp_returns (_add_opt_goal v_list y1 y2).
Proof. unfold _add_opt_goal. solve_returns. Qed.

Lemma add_position_vars_returns v_list : ilp_returns (add_position_vars v_list).
Proof. unfold add_position_vars. solve_returns. Qed.

Lemma get_results_returns status x v_list func y1 y2 :
  (∀ a b, returns (func a b)) →
  returns (_get_results status x v_list func y1 y2).
Proof.
  intros Hf. unfold _get_results, int_of_x.
  destruct status; solve_returns; try apply Hf.
Qed.

Hint Resolve add_area_constraints_returns add_slr_0_1_returns
  add_slr_1_2_returns add_slr_2_3_returns add_grouping_constraints_returns
  add_pre_assignment_returns add_opt_goal_returns add_position_vars_returns
  get_results_returns get_slot_to_idx_returns : returns.

Lemma four_way_model_returns c v_list :
  ilp_returns (four_way_model c v_list) ∧
  ∀ m func y1 y2 m',
    four_way_model c v_list m = Ok (func, y1, y2, m') →
    ∀ a b, returns (func a b).
Proof.
  destruct (get_slot_by_idx_closure_returns (a_slot_manager c)) as [Hcl Hfunc].
  unfold four_way_model. split.
  - apply ilp_bind_returns; [auto with returns|intros [y1 y2]].
    intros m. unfold mbind at 1, ilp_bind at 1, lift at 1.
    destruct (_get_slot_by_idx_closure (a_slot_manager c)) as [func| |] eqn:Hc;
      [|exact I|exact Hcl].
    specialize (Hfunc func eq_refl). revert m.
    change (ilp_returns
      (slot_to_idx ← lift (_get_slot_to_idx func);
       _ ← _add_area_constraints v_list y1 y2 func (a_max_usage_ratio c);
       _ ← _add_slr_0_1_crossing_constraint v_list y1 y2 (a_slr_0_1_width_limit c);
       _ ← _add_slr_1_2_crossing_constraint v_list y1 (a_slr_1_2_width_limit c);
       _ ← _add_slr_2_3_crossing_constraint v_list y1 y2 (a_slr_2_3_width_limit c);
       pre ← lift (as_dict "items" (a_pre_assignments c));
       _ ← _add_pre_assignment v_list slot_to_idx pre y1 y2;
       grouping ← lift (as_groups (a_grouping_constraints c));
       _ ← _add_grouping_constraints grouping y1 y2;
       _ ← _add_opt_goal v_list y1 y2;
       mret (func, y1, y2))).
    solve_returns.
  - intros m func y1 y2 m' Hrun.
    apply ilp_bind_Ok in Hrun as ([y1' y2'] & m1 & _ & Hrun).
    apply ilp_bind_Ok in Hrun as (func' & m2 & Hcl' & Hrun).
    apply lift_Ok in Hcl' as [Hcl' ->].
    repeat (apply ilp_bind_Ok in Hrun as (? & ? & _ & Hrun)).
    injection Hrun as <- <- <- <-. now apply Hfunc.
Qed.

Lemma four_way_partition_call_returns (c : fw_call) :
  returns (_four_way_partition c).
Proof.
  unfold _four_way_partition.
  apply bind_returns; [auto with returns|intros init_v2s].
  destruct (four_way_model_returns c (map_to_list init_v2s).*1) as [Hm Hf].
  specialize (Hm new_model).
  destruct (four_way_model c (map_to_list init_v2s).*1 new_model)
    as [[[[func y1] y2] m]| |] eqn:Hrun; cbn; [|exact I|exact Hm].
  apply bind_returns; [auto with returns|intros t].
  destruct (mip_optimize m t) as [status x].
  apply get_results_returns. eapply Hf. exact Hrun.
Qed.

End FourWayReturns.

(** ** The retry loop of [four_way_partition] *)

Lemma round_half_even_integer (q : Q) (z : Z) :
  q == inject_Z z → round_half_even q = z.
Proof.
  intros Hq. unfold round_half_even.
  assert (Hfloor : Qfloor q = z) by (rewrite Hq; apply Qfloor_Z).
  rewrite Hfloor.
  assert (Hlt : Qltb (q - inject_Z z) (1 # 2) = true).
  { apply Qltb_lt. rewrite Hq. lra. }
  now rewrite Hlt.
Qed.

Lemma py_round2_hundredth (k : Z) : py_round2 ((k # 100) + 0.02) = (k + 2) # 100.
Proof.
  unfold py_round2. f_equal. apply round_half_even_integer.
  rewrite inject_Z_plus. rewrite (Qmake_Qdiv k 100).
  unfold Qdiv. change (/ inject_Z (Z.pos 100)) with (1 # 100).
  set (x := inject_Z k). change (inject_Z 2) with 2. lra.
Qed.

Lemma retry_cap_shift (ref : Q) (n : nat) :
  retry_cap ref (S n) = retry_cap (py_round2 (ref + 0.02)) n.
Proof. unfold retry_cap. now rewrite Nat.iter_succ_r. Qed.

Lemma retry_cap_hundredths (ref : Q) (n : nat) :
  retry_cap ref (S n) =
  (round_half_even (100 * (ref + 0.02)) + 2 * Z.of_nat n) # 100.
Proof.
  induction n as [|n IH].
  - cbn -[Qplus Qmult round_half_even]. unfold py_round2. f_equal. lia.
  - change (retry_cap ref (S (S n)))
      with (py_round2 (retry_cap ref (S n) + 0.02)).
    rewrite IH, py_round2_hundredth. f_equal. lia.
Qed.

(** The caps reach the hard limit 2 after finitely many increments. *)
Lemma retry_cap_reaches_limit (ref : Q) : ∃ n, 2 <= retry_cap ref (S n).
Proof.
  set (k := round_half_even (100 * (ref + 0.02))).
  exists (Z.to_nat (200 - k)). rewrite retry_cap_hundredths. fold k.
  unfold Qle. cbn. lia.
Qed.

Section RetryLoop.
Context `{Environment}.
Variable f : fw_frame.
Hypothesis delta_default : f_max_usage_ratio_delta f = PNum 0.02.
Hypothesis limit_default : f_hard_limit_max_usage f = PNum 2.

Local Abbreviation attempt :=
  (fun area : Q => _four_way_partition (inner_call f (PNum area))).

Lemma four_way_loop_unfold (fuel : nat) (area : Q) :
  four_way_loop f (S fuel) (PNum area) =
  match attempt area with
  | Ok v2s =>
      if dict_truthy v2s then Ok v2s
      else if Qleb 2 (retry_cap area 1) then Ok ∅
           else four_way_loop f fuel (PNum (retry_cap area 1))
  | Raise e => Raise e
  | OutOfFuel => OutOfFuel
  end.
Proof.
  cbn [four_way_loop].
  destruct (_four_way_partition (inner_call f (PNum area))) as [v2s|e|];
    [|reflexivity..].
  cbn [mbind result_bind].
  destruct (dict_truthy v2s); [reflexivity|].
  rewrite delta_default, limit_default. reflexivity.
Qed.

Lemma retry_cap_next (area : Q) (i : nat) :
  retry_cap (retry_cap area 1) i = retry_cap area (S i).
Proof. symmetry. apply retry_cap_shift. Qed.

Lemma four_way_loop_spec (n : nat) :
  ∀ (area : Q) (fuel : nat),
    (S n ≤ fuel)%nat → 2 <= retry_cap area (S n) →
    ∃ k,
      (∀ i, (i < k)%nat →
         attempt (retry_cap area i) = Ok ∅ ∧ retry_cap area (S i) < 2) ∧
      ((∃ v2s, attempt (retry_cap area k) = Ok v2s ∧ v2s ≠ ∅ ∧
               four_way_loop f fuel (PNum area) = Ok v2s) ∨
       (attempt (retry_cap area k) = Ok ∅ ∧ 2 <= retry_cap area (S k) ∧
        four_way_loop f fuel (PNum area) = Ok ∅) ∨
       (∃ e, attempt (retry_cap area k) = Raise e ∧
             four_way_loop f fuel (PNum area) = Raise e)).
Proof.
  induction n as [|n IH]; intros area fuel Hfuel Hcap;
    (destruct fuel as [|fuel]; [lia|]); rewrite four_way_loop_unfold;
    pose proof (four_way_partition_call_returns (inner_call f (PNum area))) as Hret;
    change (retry_cap area 0) with area;
    destruct (_four_way_partition (inner_call f (PNum area)))
      as [v2s|e|] eqn:Hcall; try contradiction.
  (* an attempt that raises is the last one *)
  2, 4: exists 0%nat; split; [intros i Hi; lia|]; right; right;
        exists e; split; [exact Hcall|reflexivity].
  (* an attempt that returns *)
  all: destruct (dict_truthy v2s) eqn:Htruthy;
    [exists 0%nat; split; [intros i Hi; lia|]; left; exists v2s;
     apply dict_truthy_true in Htruthy;
     split; [exact Hcall|]; split; [exact Htruthy|reflexivity] |].
  all: apply dict_truthy_false in Htruthy; subst v2s;
    destruct (Qleb 2 (retry_cap area 1)) eqn:Hlimit;
    [exists 0%nat; split; [intros i Hi; lia|]; right; left;
     apply Qleb_le in Hlimit;
     split; [exact Hcall|]; split; [exact Hlimit|reflexivity] |].
  - apply Qleb_gt in Hlimit. exfalso.
    apply (Qlt_irrefl 2). eapply Qle_lt_trans; eassumption.
  - apply Qleb_gt in Hlimit.
    destruct (IH (retry_cap area 1) fuel) as (k & Hbefore & Hlast);
      [lia|now rewrite retry_cap_next|].
    exists (S k). split.
    + intros [|i] Hi; [split; [exact Hcall|exact Hlimit]|].
      rewrite <- (retry_cap_next area (S i)), <- (retry_cap_next area i).
      apply Hbefore. lia.
    + rewrite <- (retry_cap_next area (S k)), <- (retry_cap_next area k).
      exact Hlast.
Qed.

End RetryLoop.


(** ** Reading the solution: [_get_results] *)

Lemma py_int_binary (q : Q) : -1 < q → q < 2 → py_int q = 0%Z ∨ py_int q = 1%Z.
Proof.
  destruct q as [n d]. unfold Qlt, py_int. cbn. intros Hlo Hhi.
  destruct (Z_lt_le_dec n 0) as [Hneg|Hnn].
  - left. rewrite <- (Z.opp_involutive n), Z.quot_opp_l by lia.
    rewrite Z.quot_small; lia.
  - rewrite Z.quot_div_nonneg by lia.
    assert (n / Z.pos d < 2)%Z by (apply Z.div_lt_upper_bound; lia).
    assert (0 <= n / Z.pos d)%Z by (apply Z.div_pos; lia).
    lia.
Qed.

Lemma py_index_Ok {A} (l : list A) (i : Z) (a : A) :
  py_index l i = Ok a → a ∈ l.
Proof.
  unfold py_index. destruct (_ && _)%bool; [|discriminate].
  destruct (l !! _) eqn:Hl; [|discriminate].
  intros [= <-]. eapply list_elem_of_lookup_2. exact Hl.
Qed.

Lemma py_index_in_range {A} (l : list A) (i : Z) :
  (0 <= i < Z.of_nat (length l))%Z →
  ∃ a, py_index l i = Ok a ∧ l !! Z.to_nat i = Some a.
Proof.
  intros Hi. unfold py_index.
  destruct (Z.ltb_spec i 0) as [|_]; [lia|].
  destruct (Z.leb_spec 0 i) as [_|]; [|lia].
  destruct (Z.ltb_spec i (Z.of_nat (length l))) as [_|]; [|lia]. cbn.
  destruct (lookup_lt_is_Some_2 l (Z.to_nat i)) as [a Ha]; [lia|].
  rewrite Ha. eauto.
Qed.

Section GetResults.
Context `{SlotModel}.
Variable x : var → option Q.
Variable func : Z → Z → result Slot.
Variables v2var_y1 v2var_y2 : gmap vertex var.

(** The body of [for v in v_list] in [_get_results]. *)
Local Abbreviation extract :=
  (fun (v : vertex) (next_v2s : gmap vertex Slot) =>
     a ← dict_get v2var_y1 v;
     y1 ← int_of_x x a;
     b ← dict_get v2var_y2 v;
     y2 ← int_of_x x b;
     selected_slot ← func y1 y2;
     mret (<[v := selected_slot]> next_v2s)).

Lemma get_results_unfold status v_list :
  _get_results status x v_list func v2var_y1 v2var_y2 =
  match status with
  | OPTIMAL | FEASIBLE => for_each v_list extract ∅
  | _ => Ok ∅
  end.
Proof. destruct status; reflexivity. Qed.

(** Whatever the loop returns has the vertices of the list as new keys and
    slots that [func] gave as new values. *)
Lemma extract_loop_Ok (P : Slot → Prop) (v_list : list vertex) :
  (∀ a b s, func a b = Ok s → P s) →
  ∀ acc m,
    for_each v_list extract acc = Ok m →
    dom m = dom acc ∪ list_to_set v_list ∧
    (∀ v s, m !! v = Some s → acc !! v = Some s ∨ P s).
Proof.
  intros Hfunc. induction v_list as [|v l IH]; intros acc m; cbn.
  - intros [= <-]. split; [|auto].
    change (list_to_set []) with (∅ : gset vertex). now rewrite (right_id_L ∅ (∪)).
  - intros Hrun.
    apply bind_Ok in Hrun as (acc' & Hstep & Hrun).
    apply bind_Ok in Hstep as (a & _ & Hstep).
    apply bind_Ok in Hstep as (y1 & _ & Hstep).
    apply bind_Ok in Hstep as (b & _ & Hstep).
    apply bind_Ok in Hstep as (y2 & _ & Hstep).
    apply bind_Ok in Hstep as (s & Hs & [= <-]).
    destruct (IH _ _ Hrun) as [Hdom Hval]. split.
    + rewrite Hdom, dom_insert_L. cbn [list_to_set foldr].
      now rewrite (comm_L (∪) {[v]} (dom acc)), <- (assoc_L (∪)).
    + intros v' s' Hm. destruct (Hval _ _ Hm) as [Hacc|HP]; [|auto].
      destruct (decide (v = v')) as [->|Hne].
      * rewrite lookup_insert_eq in Hacc. injection Hacc as <-. eauto.
      * rewrite lookup_insert_ne in Hacc by exact Hne. auto.
Qed.

(** With a value in range for the two variables of every vertex, the loop
    returns. *)
Lemma extract_loop_total (leaves : list Slot) (v_list : list vertex) :
  func = (fun y1 y2 => py_index leaves (y1 * 2 + y2)) →
  (4 ≤ length leaves)%nat →
  (∀ v, v ∈ v_list →
     ∃ a b qa qb,
       v2var_y1 !! v = Some a ∧ v2var_y2 !! v = Some b ∧
       x a = Some qa ∧ x b = Some qb ∧
       -1 < qa ∧ qa < 2 ∧ -1 < qb ∧ qb < 2) →
  ∀ acc, ∃ m, for_each v_list extract acc = Ok m.
Proof.
  intros -> Hlen. induction v_list as [|v l IH]; intros Hvars acc; cbn.
  - eauto.
  - destruct (Hvars v) as (a & b & qa & qb & Ha & Hb & Hxa & Hxb & Hqa);
      [left|].
    destruct Hqa as (Ha1 & Ha2 & Hb1 & Hb2).
    unfold dict_get, int_of_x. rewrite Ha, Hb. cbn. rewrite Hxa. cbn.
    rewrite Hxb. cbn.
    destruct (py_index_in_range leaves (py_int qa * 2 + py_int qb))
      as (s & Hs & _).
    { destruct (py_int_binary qa Ha1 Ha2) as [-> | ->],
               (py_int_binary qb Hb1 Hb2) as [-> | ->]; lia. }
    rewrite Hs. cbn. apply IH. intros v' Hv'. apply Hvars. now right.
Qed.

End GetResults.

(** [_get_results] on a lookup over at least four leaves: it returns, a
    mapping of all the vertices with a solution and the empty mapping
    without. *)
Lemma get_results_by_status `{SlotModel}
    (status : OptimizationStatus) (x : var → option Q)
    (leaves : list Slot) (v_list : list vertex)
    (v2var_y1 v2var_y2 : gmap vertex var) :
  (4 ≤ length leaves)%nat →
  (status_has_solution status →
   ∀ v, v ∈ v_list →
     ∃ a b qa qb,
       v2var_y1 !! v = Some a ∧ v2var_y2 !! v = Some b ∧
       x a = Some qa ∧ x b = Some qb ∧
       -1 < qa ∧ qa < 2 ∧ -1 < qb ∧ qb < 2) →
  ∃ m,
    _get_results status x v_list
      (fun y1 y2 => py_index leaves (y1 * 2 + y2)) v2var_y1 v2var_y2 = Ok m ∧
    (status_has_solution status →
     dom m = list_to_set v_list ∧
     ∀ v s, m !! v = Some s → s ∈ leaves) ∧
    (¬ status_has_solution status → m = ∅) ∧
    (v_list ≠ [] → (dom m = list_to_set v_list ↔ status_has_solution status)).
Proof.
  intros Hlen Hsol. rewrite get_results_unfold.
  assert (Hyes : status_has_solution status →
    ∃ m, for_each v_list
           (fun v (next_v2s : gmap vertex Slot) =>
              a ← dict_get v2var_y1 v;
              y1 ← int_of_x x a;
              b ← dict_get v2var_y2 v;
              y2 ← int_of_x x b;
              selected_slot ← py_index leaves (y1 * 2 + y2);
              mret (<[v := selected_slot]> next_v2s)) ∅ = Ok m ∧
         dom m = list_to_set v_list ∧
         ∀ v s, m !! v = Some s → s ∈ leaves).
  { intros Hst.
    destruct (extract_loop_total x _ v2var_y1 v2var_y2 leaves v_list eq_refl
                Hlen (Hsol Hst) ∅) as [m Hm].
    exists m. split; [exact Hm|].
    destruct (extract_loop_Ok x _ v2var_y1 v2var_y2 (fun s => s ∈ leaves) v_list
                (fun a b s => py_index_Ok leaves _ s) _ _ Hm) as [Hdom Hval].
    split.
    - rewrite Hdom, dom_empty_L. apply (left_id_L ∅ (∪)).
    - intros v s Hv. destruct (Hval v s Hv) as [He|Hs]; [|exact Hs].
      rewrite lookup_empty in He. discriminate. }
  assert (Hno : ¬ status_has_solution status →
    match status with
    | OPTIMAL | FEASIBLE => False
    | _ => True
    end).
  { unfold status_has_solution. destruct status; tauto. }
  destruct status;
    try (destruct Hyes as (m & -> & Hdom & Hval); [unfold status_has_solution; tauto|];
         exists m; split; [reflexivity|]; split; [auto|];
         split; [unfold status_has_solution; intros Hn; exfalso; tauto|];
         unfold status_has_solution; tauto);
    (exists ∅; split; [reflexivity|];
     split; [intros [?|?]; discriminate|]; split; [reflexivity|];
     intros Hne; split; [|intros [?|?]; discriminate];
     rewrite dom_empty_L; intros Hempty;
     destruct v_list as [|v l]; [congruence|];
     exfalso; assert (Hin : v ∈ (∅ : gset vertex));
     [rewrite Hempty; apply elem_of_list_to_set; left | ];
     apply (not_elem_of_empty (C := gset vertex) v Hin)).
Qed.

(** ** The whole of [_four_way_partition] *)

Section FourWayCall.
Context `{Environment}.

Lemma four_way_model_closure c v_list m func y1 y2 m' :
  four_way_model c v_list m = Ok (func, y1, y2, m') →
  _get_slot_by_idx_closure (a_slot_manager c) = Ok func.
Proof.
  intros Hrun. unfold four_way_model in Hrun.
  apply ilp_bind_Ok in Hrun as ([y1' y2'] & m1 & _ & Hrun).
  apply ilp_bind_Ok in Hrun as (func' & m2 & Hcl & Hrun).
  apply lift_Ok in Hcl as [Hcl ->].
  repeat (apply ilp_bind_Ok in Hrun as (? & ? & _ & Hrun)).
  injection Hrun as <- <- <- <-. exact Hcl.
Qed.

Lemma keys_of_dict (d : gmap vertex Slot) :
  list_to_set (map_to_list d).*1 = dom d.
Proof.
  apply set_eq. intros v.
  rewrite elem_of_list_to_set, list_elem_of_fmap, elem_of_dom. split.
  - intros ([v' s] & -> & Hin). apply elem_of_map_to_list in Hin. eauto.
  - intros [s Hs]. exists (v, s). split; [reflexivity|].
    now apply elem_of_map_to_list.
Qed.

End FourWayCall.

(** C7: a mapping returned by [_four_way_partition] is empty, or its keys
    are exactly the vertices of [init_v2s] and each of them is mapped to one
    leaf of the partition by two horizontal splits (the four slots
    [slot_00, slot_01, slot_10, slot_11] of the slot manager). *)
Theorem four_way_partition_coverage `{Environment}
    (c : fw_call) (init_v2s : gmap vertex Slot) (sm : SlotManager)
    (m : gmap vertex Slot) :
  a_init_v2s c = PDict init_v2s →
  a_slot_manager c = PSlotManager sm →
  _four_way_partition c = Ok m →
  m = ∅ ∨
  (dom m = dom init_v2s ∧
   ∀ v, v ∈ dom init_v2s →
     ∃ s, m !! v = Some s ∧
          s ∈ getLeafSlotsAfterPartition sm [horizontal; horizontal]).
Proof.
  intros Hinit Hsm Hrun. unfold _four_way_partition in Hrun.
  rewrite Hinit in Hrun. cbn [as_dict mbind result_bind] in Hrun.
  apply bind_Ok in Hrun as ([[[func y1] y2] m1] & Hmodel & Hrun).
  apply four_way_model_closure in Hmodel. rewrite Hsm in Hmodel.
  injection Hmodel as <-.
  apply bind_Ok in Hrun as (t & _ & Hrun).
  destruct (mip_optimize m1 t) as [status x].
  rewrite get_results_unfold in Hrun.
  assert (Hsome :
    for_each (map_to_list init_v2s).*1
      (fun v (next_v2s : gmap vertex Slot) =>
         a ← dict_get y1 v;
         y1 ← int_of_x x a;
         b ← dict_get y2 v;
         y2 ← int_of_x x b;
         selected_slot ←
           py_index (getLeafSlotsAfterPartition sm [horizontal; horizontal])
             (y1 * 2 + y2);
         mret (<[v := selected_slot]> next_v2s)) ∅ = Ok m →
    dom m = dom init_v2s ∧
    ∀ v, v ∈ dom init_v2s →
      ∃ s, m !! v = Some s ∧
           s ∈ getLeafSlotsAfterPartition sm [horizontal; horizontal]).
  { intros Hloop.
    destruct (extract_loop_Ok x _ y1 y2
                (fun s => s ∈ getLeafSlotsAfterPartition sm [horizontal; horizontal])
                _ (fun a b s => py_index_Ok _ _ s) _ _ Hloop) as [Hdom Hval].
    rewrite keys_of_dict, dom_empty_L, (left_id_L ∅ (∪)) in Hdom.
    split; [exact Hdom|]. intros v Hv. rewrite <- Hdom in Hv.
    apply elem_of_dom in Hv as [s Hs]. exists s. split; [exact Hs|].
    destruct (Hval v s Hs) as [He|HP]; [|exact HP].
    rewrite lookup_empty in He. discriminate. }
  destruct status; try (left; congruence); right; auto.
Qed.

Lemma four_way_partition_coverage_witness :
  ∃ m : gmap vertex rect,
    _four_way_partition (H0 := example_env) (example_call ∅ 0.7) = Ok m ∧
    (m = ∅ ∨
     (dom m = dom example_v2s ∧
      ∀ v, v ∈ dom example_v2s → ∃ s, m !! v = Some s ∧ s ∈ four_slrs)).
Proof.
  exists {[ "A"%string := slr 0; "B"%string := slr 1 ]}.
  assert (Hrun : _four_way_partition (H0 := example_env) (example_call ∅ 0.7)
                 = Ok {[ "A"%string := slr 0; "B"%string := slr 1 ]})
    by (vm_compute; reflexivity).
  split; [exact Hrun|].
  exact (four_way_partition_coverage (H0 := example_env)
           (example_call ∅ 0.7) example_v2s four_slrs _
           eq_refl eq_refl Hrun).
Defined.

(** ** Growing models *)

#[global] Instance extends_preorder : PreOrder extends.
Proof.
  split.
  - intros m. split; reflexivity.
  - intros m1 m2 m3 [Hv1 Hc1] [Hv2 Hc2]. split; etrans; eassumption.
Qed.

Lemma extends_binary (m m' : Model) (x : var) :
  extends m m' → is_binary m x → is_binary m' x.
Proof.
  intros [Hv _] [n Hx]. exists n. eapply prefix_lookup_Some; eassumption.
Qed.

Lemma extends_constr (m m' : Model) (c : Constr) :
  extends m m' → c ∈ m_constrs m → c ∈ m_constrs m'.
Proof.
  intros [_ [k Hc]] Hin. rewrite Hc. apply elem_of_app. now left.
Qed.

Lemma feasible_holds (σ : var → Z) (m : Model) (c : Constr) :
  feasible σ m → c ∈ m_constrs m → holds σ c.
Proof. intros [_ Hall] Hin. rewrite Forall_forall in Hall. auto. Qed.

Definition ilp_extends {A} (c : ilp A) : Prop :=
  ∀ m a m', c m = Ok (a, m') → extends m m'.

Lemma ilp_bind_extends {A B} (c : ilp A) (k : A → ilp B) :
  ilp_extends c → (∀ a, ilp_extends (k a)) → ilp_extends (c ≫= k).
Proof.
  intros Hc Hk m b m' Hrun.
  apply ilp_bind_Ok in Hrun as (a & m1 & H1 & H2).
  etrans; [eapply Hc|eapply Hk]; eassumption.
Qed.

Lemma ilp_ret_extends {A} (a : A) : ilp_extends (mret a).
Proof. intros m a' m' [= _ <-]. reflexivity. Qed.

Lemma lift_extends {A} (r : result A) : ilp_extends (lift r).
Proof. intros m a m' Hrun. apply lift_Ok in Hrun as [_ ->]. reflexivity. Qed.

Lemma add_var_extends t n : ilp_extends (add_var t n).
Proof.
  intros m a m' [= _ <-]. split; cbn; [apply prefix_app_r|]; reflexivity.
Qed.

Lemma add_constr_extends c : ilp_extends (add_constr c).
Proof.
  intros m a m' [= _ <-]. split; cbn; [|apply prefix_app_r]; reflexivity.
Qed.

Lemma set_objective_extends e : ilp_extends (set_objective e).
Proof. intros m a m' [= _ <-]. split; reflexivity. Qed.

Lemma ilp_for_extends {A S} (l : list A) (body : A → S → ilp S) (s : S) :
  (∀ x s', ilp_extends (body x s')) → ilp_extends (ilp_for l body s).
Proof.
  intros Hbody. revert s. induction l as [|x l IH]; intros s; cbn.
  - apply ilp_ret_extends.
  - apply ilp_bind_extends; auto.
Qed.

Create HintDb extends discriminated.
#[global] Hint Resolve ilp_ret_extends lift_extends add_var_extends
  add_constr_extends set_objective_extends : extends.

Ltac extends_step :=
  lazymatch goal with
  | |- context [match ?x with (_, _) => _ end] =>
      is_var x; destruct x; cbn beta iota
  | |- ilp_extends (_ ≫= _) => apply ilp_bind_extends; [|intros ?]
  | |- ilp_extends (ilp_for _ _ _) => apply ilp_for_extends; intros ? ?
  | |- ilp_extends (match ?x with _ => _ end) => destruct x
  | |- ilp_extends (if ?b then _ else _) => destruct b
  end.

Ltac solve_extends := repeat (first [solve [auto with extends] | extends_step]).

(** In a loop that threads no value, every iteration has run between two
    models that lie between the first and the last. *)
Lemma ilp_for_unit_iterations {A} (l : list A) (body : A → unit → ilp unit)
    (m m' : Model) (u : unit) :
  (∀ x, ilp_extends (body x tt)) →
  ilp_for l body tt m = Ok (u, m') →
  ∀ x, x ∈ l →
    ∃ m1 m2, extends m m1 ∧ body x tt m1 = Ok (tt, m2) ∧ extends m2 m'.
Proof.
  intros Hbody. revert m. induction l as [|y l IH]; intros m Hrun x Hx.
  - inversion Hx.
  - cbn in Hrun. apply ilp_bind_Ok in Hrun as ([] & m1 & Hy & Hrest).
    apply elem_of_cons in Hx as [->|Hx].
    + exists m, m1. split; [reflexivity|]. split; [exact Hy|].
      eapply (ilp_for_extends l body tt); [|exact Hrest].
      intros x []. apply Hbody.
    + destruct (IH _ Hrest x Hx) as (m2 & m3 & H12 & Hrun' & H3).
      exists m2, m3. split; [|auto]. etrans; [|exact H12].
      eapply Hbody. exact Hy.
Qed.

Section FourWayExtends.
Context `{Environment}.

Lemma get_var_of_logic_and_extends a b : ilp_extends (get_var_of_logic_and a b).
Proof. unfold get_var_of_logic_and. solve_extends. Qed.

Lemma get_var_of_logic_or_extends a b : ilp_extends (get_var_of_logic_or a b).
Proof. unfold get_var_of_logic_or. solve_extends. Qed.

Lemma get_var_of_logic_not_extends a : ilp_extends (get_var_of_logic_not a).
Proof. unfold get_var_of_logic_not. solve_extends. Qed.

Lemma get_var_of_logic_xor_extends a b : ilp_extends (get_var_of_logic_xor a b).
Proof. unfold get_var_of_logic_xor. solve_extends. Qed.

Lemma get_var_of_equal_zero_extends a : ilp_extends (get_var_of_equal_zero a).
Proof. unfold get_var_of_equal_zero. solve_extends. Qed.

Lemma get_var_of_equal_one_extends a : ilp_extends (get_var_of_equal_one a).
Proof. unfold get_var_of_equal_one. solve_extends. Qed.

Hint Resolve get_var_of_logic_and_extends get_var_of_logic_or_extends
  get_var_of_logic_not_extends get_var_of_logic_xor_extends
  get_var_of_equal_zero_extends get_var_of_equal_one_extends : extends.

Lemma area_constraints_of_leaf_extends v_list y1 y2 func ratio r a b :
  ilp_extends (area_constraints_of_leaf v_list y1 y2 func ratio r a b).
Proof. unfold area_constraints_of_leaf. solve_extends. Qed.

Lemma add_area_constraints_extends v_list y1 y2 func ratio :
  ilp_extends (_add_area_constraints v_list y1 y2 func ratio).
Proof.
  unfold _add_area_constraints. solve_extends.
  apply area_constraints_of_leaf_extends.
Qed.

Lemma crossing_constraint_extends edges cross w :
  (∀ e, ilp_extends (cross e)) → ilp_extends (crossing_constraint edges cross w).
Proof. intros Hc. unfold crossing_constraint. solve_extends. Qed.

Lemma add_slr_0_1_extends v_list y1 y2 w :
  ilp_extends (_add_slr_0_1_crossing_constraint v_list y1 y2 w).
Proof.
  unfold _add_slr_0_1_crossing_constraint.
  apply crossing_constraint_extends. intros e. solve_extends.
Qed.

Lemma add_slr_1_2_extends v_list y1 w :
  ilp_extends (_add_slr_1_2_crossing_constraint v_list y1 w).
Proof.
  unfold _add_slr_1_2_crossing_constraint.
  apply crossing_constraint_extends. intros e. solve_extends.
Qed.

Lemma add_slr_2_3_extends v_list y1 y2 w :
  ilp_extends (_add_slr_2_3_crossing_constraint v_list y1 y2 w).
Proof.
  unfold _add_slr_2_3_crossing_constraint.
  apply crossing_constraint_extends. intros e. solve_extends.
Qed.

Lemma add_grouping_constraints_extends g y1 y2 :
  ilp_extends (_add_grouping_constraints g y1 y2).
Proof. unfold _add_grouping_constraints. solve_extends. Qed.

Lemma add_pre_assignment_extends v_list s2i pre y1 y2 :
  ilp_extends (_add_pre_assignment v_list s2i pre y1 y2).
Proof. unfold _add_pre_assignment, pre_assign_one. solve_extends. Qed.

Lemma add_opt_goal_extends v_list y1 y2 :
  ilp_extends (_add_opt_goal v_list y1 y2).
Proof. unfold _add_opt_goal. solve_extends. Qed.

End FourWayExtends.

(** ** The area constraints *)

Lemma add_var_Ok t n m x m' :
  add_var t n m = Ok (x, m') →
  m_vars m' !! x = Some (t, n) ∧ m_constrs m' = m_constrs m ∧ extends m m'.
Proof.
  intros Hrun. pose proof (add_var_extends t n _ _ _ Hrun) as Hext.
  injection Hrun as <- <-. cbn. split; [|auto].
  rewrite lookup_app_r by lia. now rewrite Nat.sub_diag.
Qed.

Lemma add_constr_Ok c m u m' :
  add_constr c m = Ok (u, m') →
  c ∈ m_constrs m' ∧ m_vars m' = m_vars m ∧ extends m m'.
Proof.
  intros Hrun. pose proof (add_constr_extends c _ _ _ Hrun) as Hext.
  injection Hrun as _ <-. cbn. split; [|auto].
  apply elem_of_app. right. left.
Qed.

Lemma dict_get_Ok {V} (d : gmap vertex V) k v : dict_get d k = Ok v → d !! k = Some v.
Proof. unfold dict_get. destruct (d !! k); [congruence|discriminate]. Qed.

Lemma pick_of_Some (prods : gmap vertex var) (v : vertex) (p : var) :
  prods !! v = Some p → pick_of prods v = p.
Proof. unfold pick_of. now intros ->. Qed.

Lemma eval_xsum (σ : var → Z) (l : list LinExpr) :
  eval σ (xsum l) = Qsum (map (eval σ) l).
Proof.
  unfold xsum, Qsum. induction l as [|e l IH]; cbn; [reflexivity|].
  now rewrite IH.
Qed.

(** The three inequalities of the AND encoding, between 0/1 values. *)
Lemma and_encoding (σ : var → Z) (x1 x2 p : var) (a b : Z) :
  (a = 0 ∨ a = 1)%Z → (b = 0 ∨ b = 1)%Z →
  (σ x1 = 0 ∨ σ x1 = 1)%Z → (σ x2 = 0 ∨ σ x2 = 1)%Z → (σ p = 0 ∨ σ p = 1)%Z →
  holds σ (CGe (choose (LVar x1) a) (LVar p)) →
  holds σ (CGe (choose (LVar x2) b) (LVar p)) →
  holds σ (CLe (LSub (LAdd (choose (LVar x1) a) (choose (LVar x2) b)) (LVar p))
               (LConst 1)) →
  σ p = 1%Z ↔ σ x1 = a ∧ σ x2 = b.
Proof.
  intros [-> | ->] [-> | ->] [H1 | H1] [H2 | H2] [Hp | Hp];
    cbn; rewrite H1, H2, Hp; unfold Qle; cbn; lia.
Qed.

Section AreaConstraints.
Context `{Environment}.
Variable v_list : list vertex.
Variables v2var_y1 v2var_y2 : gmap vertex var.
Variable func_get_slot_by_idx : Z → Z → result Slot.

Local Abbreviation leaf_constraints := (leaf_constraints v_list v2var_y1 v2var_y2).

Lemma leaf_constraints_extends m m' r a b ratio pick slot :
  extends m m' →
  leaf_constraints m r a b ratio pick slot →
  leaf_constraints m' r a b ratio pick slot.
Proof.
  intros Hext [Hand Hsum]. split.
  - intros v Hv. destruct (Hand v Hv) as (x1 & x2 & ? & ? & ? & ? & ? & ?).
    exists x1, x2. eauto 10 using extends_binary, extends_constr.
  - eauto using extends_constr.
Qed.

Lemma prods_loop_Ok (name : vertex → string) (l : list vertex) :
  ∀ (acc prods : gmap vertex var) (m m' : Model),
    ilp_for l
      (fun v (prods : gmap vertex var) =>
         p ← add_var BINARY (name v); mret (<[v := p]> prods))
      acc m = Ok (prods, m') →
    (∀ v p, acc !! v = Some p → is_binary m p) →
    extends m m' ∧
    (∀ v p, prods !! v = Some p → is_binary m' p) ∧
    (∀ v, v ∈ l → is_Some (prods !! v)).
Proof.
  induction l as [|v l IH]; intros acc prods m m' Hrun Hacc; cbn in Hrun.
  - injection Hrun as <- <-. split; [reflexivity|]. split; [exact Hacc|].
    intros v Hv. inversion Hv.
  - apply ilp_bind_Ok in Hrun as (acc' & m1 & Hstep & Hrun).
    apply ilp_bind_Ok in Hstep as (p & m0 & Hp & [= <- <-]).
    apply add_var_Ok in Hp as (Hp & _ & Hext).
    destruct (IH _ _ _ _ Hrun) as (Hext' & Hbin & Hdom).
    { intros v' p' Hv'. destruct (decide (v = v')) as [->|Hne].
      - rewrite lookup_insert_eq in Hv'. injection Hv' as <-. exists (name v'). exact Hp.
      - rewrite lookup_insert_ne in Hv' by exact Hne.
        eapply extends_binary; eauto. }
    split; [etrans; eassumption|]. split; [exact Hbin|].
    intros v' Hv'. apply elem_of_cons in Hv' as [->|Hv']; [|auto].
    (* the entry of [v] is still there: later iterations only insert *)
    clear -Hrun. revert Hrun.
    assert (Hin : is_Some (<[v := p]> acc !! v))
      by (rewrite lookup_insert_eq; eauto).
    revert Hin. generalize (<[v := p]> acc) as d. generalize m0 as n.
    induction l as [|w l IHl]; intros n d Hin Hrun; cbn in Hrun.
    + now injection Hrun as <- <-.
    + apply ilp_bind_Ok in Hrun as (d' & n1 & Hstep & Hrun).
      apply ilp_bind_Ok in Hstep as (q & n0 & _ & [= <- <-]).
      eapply IHl; [|exact Hrun].
      destruct (decide (w = v)) as [->|Hne].
      * rewrite lookup_insert_eq. eauto.
      * now rewrite lookup_insert_ne.
Qed.

Lemma terms_loop_Ok (prods : gmap vertex var) (r : resource) (l : list vertex) :
  ∀ (acc terms : list LinExpr) (m m' : Model),
    ilp_for l
      (fun v (terms : list LinExpr) =>
         p ← lift (dict_get prods v);
         mret (terms ++ [LScale (getVertexAndInboundFIFOArea v r) (LVar p)]))
      acc m = Ok (terms, m') →
    m' = m ∧
    terms = acc ++ map (fun v => LScale (getVertexAndInboundFIFOArea v r)
                                        (LVar (pick_of prods v))) l.
Proof.
  induction l as [|v l IH]; intros acc terms m m' Hrun; cbn in Hrun.
  - injection Hrun as <- <-. now rewrite app_nil_r.
  - apply ilp_bind_Ok in Hrun as (acc' & m1 & Hstep & Hrun).
    apply ilp_bind_Ok in Hstep as (p & m0 & Hp & [= <- <-]).
    apply lift_Ok in Hp as [Hp ->]. apply dict_get_Ok in Hp.
    destruct (IH _ _ _ _ Hrun) as [-> ->]. split; [reflexivity|].
    cbn [map]. rewrite (pick_of_Some _ _ _ Hp). now rewrite <- app_assoc.
Qed.

Lemma area_constraints_of_leaf_Ok (ratio : Q) (r : resource) (a b : Z)
    (m m' : Model) (u : unit) :
  area_constraints_of_leaf v_list v2var_y1 v2var_y2 func_get_slot_by_idx
    (PNum ratio) r a b m = Ok (u, m') →
  ∃ pick slot,
    func_get_slot_by_idx a b = Ok slot ∧
    leaf_constraints m' r a b ratio pick slot.
Proof.
  unfold area_constraints_of_leaf. intros Hrun.
  apply ilp_bind_Ok in Hrun as (prods & m1 & Hprods & Hrun).
  apply ilp_bind_Ok in Hrun as ([] & m2 & Hand & Hrun).
  apply ilp_bind_Ok in Hrun as (terms & m3 & Hterms & Hrun).
  apply ilp_bind_Ok in Hrun as (slot & m4 & Hslot & Hrun).
  apply ilp_bind_Ok in Hrun as (q & m5 & Hq & Hrun).
  apply lift_Ok in Hslot as [Hslot ->]. apply lift_Ok in Hq as [[= <-] ->].
  apply terms_loop_Ok in Hterms as [-> ->]. cbn [app] in Hrun.
  apply add_constr_Ok in Hrun as (Hsum & _ & Hext3).
  apply prods_loop_Ok in Hprods as (_ & Hbin & Hdom);
    [|intros v p Hv; rewrite lookup_empty in Hv; discriminate].
  exists (pick_of prods), slot.
  split; [exact Hslot|]. split; [|exact Hsum].
  intros v Hv.
  lazymatch type of Hand with
  | ilp_for _ ?body _ _ = _ =>
      assert (Hb : ∀ x s, ilp_extends (body x s))
        by (intros x s; cbn beta; solve_extends)
  end.
  pose proof (ilp_for_extends _ _ _ Hb _ _ _ Hand) as Hext12.
  destruct (ilp_for_unit_iterations _ _ _ _ _ (fun x => Hb x tt) Hand v Hv)
    as (n1 & n2 & _ & Hbody & Hext2).
  apply ilp_bind_Ok in Hbody as (x1 & k1 & Hx1 & Hbody).
  apply ilp_bind_Ok in Hbody as (p & k2 & Hp & Hbody).
  apply ilp_bind_Ok in Hbody as ([] & k3 & Hc1 & Hbody).
  apply ilp_bind_Ok in Hbody as (x2 & k4 & Hx2 & Hbody).
  apply ilp_bind_Ok in Hbody as ([] & k5 & Hc2 & Hc3).
  apply lift_Ok in Hx1 as [Hx1 ->]. apply lift_Ok in Hp as [Hp ->].
  apply lift_Ok in Hx2 as [Hx2 ->].
  apply dict_get_Ok in Hx1, Hx2, Hp.
  apply add_constr_Ok in Hc1 as (Hc1 & _ & He1).
  apply add_constr_Ok in Hc2 as (Hc2 & _ & He2).
  apply add_constr_Ok in Hc3 as (Hc3 & _ & He3).
  exists x1, x2. rewrite (pick_of_Some _ _ _ Hp).
  split; [exact Hx1|]. split; [exact Hx2|].
  split; [eapply extends_binary; [exact Hext3|];
          eapply extends_binary; [exact Hext12|]; apply (Hbin v p Hp)|].
  repeat split.
  - eapply extends_constr; [exact Hext3|]. eapply extends_constr; [exact Hext2|].
    eapply extends_constr; [exact He3|]. eapply extends_constr; [exact He2|].
    exact Hc1.
  - eapply extends_constr; [exact Hext3|]. eapply extends_constr; [exact Hext2|].
    eapply extends_constr; [exact He3|]. exact Hc2.
  - eapply extends_constr; [exact Hext3|]. eapply extends_constr; [exact Hext2|].
    exact Hc3.
Qed.

End AreaConstraints.

Lemma Qeqb_eq (a b : Q) : Qeqb a b = true ↔ a == b.
Proof. unfold Qeqb, Qeq. apply Z.eqb_eq. Qed.

Lemma holdsb_holds (σ : var → Z) (c : Constr) : holdsb σ c = true → holds σ c.
Proof.
  destruct c; cbn; intros Hc;
    [apply Qleb_le in Hc|apply Qleb_le in Hc|apply Qeqb_eq in Hc]; exact Hc.
Qed.

Lemma feasibleb_feasible (σ : list Z) (m : Model) :
  feasibleb σ m = true → feasible (fun x => default 0%Z (σ !! x)) m.
Proof.
  unfold feasibleb. intros Hf. apply andb_true_iff in Hf as [Hbin Hall].
  rewrite forallb_forall in Hbin, Hall. split.
  - intros x [n Hx].
    specialize (Hbin (x, (BINARY, n))). cbn in Hbin.
    assert (Hd : σ !! x = Some 0%Z ∨ σ !! x = Some 1%Z).
    { eapply bool_decide_eq_true_1, Hbin. apply list_elem_of_In.
      apply list_elem_of_lookup. exists x. rewrite list_lookup_imap, Hx.
      reflexivity. }
    destruct Hd as [-> | ->]; cbn; auto.
  - apply Forall_forall. intros c Hc. apply holdsb_holds, Hall.
    now apply list_elem_of_In.
Qed.

Section AreaTheorem.
Context `{Environment}.

Lemma add_area_constraints_Ok v_list y1 y2 func (ratio : Q) m m' u :
  _add_area_constraints v_list y1 y2 func (PNum ratio) m = Ok (u, m') →
  ∀ r a b, r ∈ RESOURCE_TYPES → (a, b) ∈ product22 →
    ∃ pick slot,
      func a b = Ok slot ∧
      leaf_constraints v_list y1 y2 m' r a b ratio pick slot.
Proof.
  unfold _add_area_constraints. intros Hrun r a b Hr Hab.
  assert (Hleaf : ∀ r' ab,
    ilp_extends
      ((fun '(a', b') (_ : unit) =>
          area_constraints_of_leaf v_list y1 y2 func (PNum ratio) r' a' b')
         ab tt)).
  { intros r' [a' b']. apply area_constraints_of_leaf_extends. }
  assert (Hres : ∀ r',
    ilp_extends
      (ilp_for product22
         (fun '(a', b') (_ : unit) =>
            area_constraints_of_leaf v_list y1 y2 func (PNum ratio) r' a' b')
         tt)).
  { intros r'. apply ilp_for_extends. intros ab []. apply Hleaf. }
  destruct (ilp_for_unit_iterations _ _ _ _ _ Hres Hrun r Hr)
    as (m1 & m2 & _ & Hinner & Hext2).
  destruct (ilp_for_unit_iterations _ _ _ _ _ (Hleaf r) Hinner (a, b) Hab)
    as (m3 & m4 & _ & Hbody & Hext4).
  apply area_constraints_of_leaf_Ok in Hbody as (pick & slot & Hslot & Hcs).
  exists pick, slot. split; [exact Hslot|].
  eapply leaf_constraints_extends; [|exact Hcs]. etrans; eassumption.
Qed.

Lemma add_position_vars_Ok (l : list vertex) :
  ∀ (acc1 acc2 y1 y2 : gmap vertex var) (m m' : Model),
    ilp_for l
      (fun v '(v2var_y1, v2var_y2) =>
         a ← add_var BINARY (v +:+ "_y1");
         b ← add_var BINARY (v +:+ "_y2");
         mret (<[v := a]> v2var_y1, <[v := b]> v2var_y2))
      (acc1, acc2) m = Ok (y1, y2, m') →
    (∀ v x, acc1 !! v = Some x ∨ acc2 !! v = Some x → is_binary m x) →
    ∀ v x, y1 !! v = Some x ∨ y2 !! v = Some x → is_binary m' x.
Proof.
  induction l as [|w l IH]; intros acc1 acc2 y1 y2 m m' Hrun Hacc; cbn in Hrun.
  - injection Hrun as <- <- <-. exact Hacc.
  - apply ilp_bind_Ok in Hrun as ([acc1' acc2'] & m1 & Hstep & Hrun).
    apply ilp_bind_Ok in Hstep as (a & k1 & Ha & Hstep).
    apply ilp_bind_Ok in Hstep as (b & k2 & Hb & [= <- <- <-]).
    apply add_var_Ok in Ha as (Ha & _ & He1).
    apply add_var_Ok in Hb as (Hb & _ & He2).
    eapply IH; [exact Hrun|].
    intros v x Hx.
    destruct (decide (w = v)) as [->|Hne].
    + rewrite !lookup_insert_eq in Hx. destruct Hx as [[= <-]|[= <-]].
      * eapply extends_binary; [exact He2|]. eexists. exact Ha.
      * eexists. exact Hb.
    + rewrite !lookup_insert_ne in Hx by exact Hne.
      eapply extends_binary; [etrans; [exact He1|exact He2]|]. now apply (Hacc v).
Qed.

End AreaTheorem.

(** C8: in the model that [_four_way_partition] hands to the solver, for
    every resource [r] and every leaf index [(a, b)] of {0, 1} x {0, 1},
    each vertex has a binary indicator variable that, in every feasible
    assignment, is 1 exactly when the two position variables of the vertex
    are [a] and [b]; and the indicators weighted by the bundled area in [r]
    sum to at most the capacity of the leaf in [r] times
    [max_usage_ratio]. *)
Theorem area_constraints_force_indicators `{Environment}
    (c : fw_call) (v_list : list vertex) (ratio : Q)
    (func : Z → Z → result Slot) (v2var_y1 v2var_y2 : gmap vertex var)
    (m : Model) :
  a_max_usage_ratio c = PNum ratio →
  four_way_model c v_list new_model = Ok (func, v2var_y1, v2var_y2, m) →
  ∀ r a b, r ∈ RESOURCE_TYPES → (a, b) ∈ product22 →
    ∃ (pick : vertex → var) (slot : Slot),
      func a b = Ok slot ∧
      (∀ v, v ∈ v_list → is_binary m (pick v)) ∧
      ∀ σ, feasible σ m →
        (∀ v, v ∈ v_list →
           ∃ x1 x2,
             v2var_y1 !! v = Some x1 ∧ v2var_y2 !! v = Some x2 ∧
             (σ (pick v) = 1%Z ↔ σ x1 = a ∧ σ x2 = b)) ∧
        Qsum (map (fun v => getVertexAndInboundFIFOArea v r *
                            inject_Z (σ (pick v))) v_list)
        <= getArea slot r * ratio.
Proof.
  intros Hratio Hrun r a b Hr Hab. unfold four_way_model in Hrun.
  apply ilp_bind_Ok in Hrun as ([y1 y2] & m1 & Hvars & Hrun).
  apply ilp_bind_Ok in Hrun as (func' & m2 & Hcl & Hrun).
  apply ilp_bind_Ok in Hrun as (s2i & m3 & Hs2i & Hrun).
  apply ilp_bind_Ok in Hrun as ([] & m4 & Harea & Hrun).
  apply lift_Ok in Hcl as [Hcl ->]. apply lift_Ok in Hs2i as [Hs2i ->].
  rewrite Hratio in Harea.
  pose proof (add_area_constraints_extends _ _ _ _ _ _ _ _ Harea) as Hext4.
  assert (Hrest : extends m4 m ∧ func = func' ∧ v2var_y1 = y1 ∧ v2var_y2 = y2).
  { apply ilp_bind_Ok in Hrun as ([] & k1 & H1 & Hrun).
    apply ilp_bind_Ok in Hrun as ([] & k2 & H2 & Hrun).
    apply ilp_bind_Ok in Hrun as ([] & k3 & H3 & Hrun).
    apply ilp_bind_Ok in Hrun as (pre & k4 & H4 & Hrun).
    apply ilp_bind_Ok in Hrun as ([] & k5 & H5 & Hrun).
    apply ilp_bind_Ok in Hrun as (grp & k6 & H6 & Hrun).
    apply ilp_bind_Ok in Hrun as ([] & k7 & H7 & Hrun).
    apply ilp_bind_Ok in Hrun as ([] & k8 & H8 & Hrun).
    injection Hrun as <- <- <- <-.
    apply add_slr_0_1_extends in H1. apply add_slr_1_2_extends in H2.
    apply add_slr_2_3_extends in H3. apply lift_extends in H4.
    apply add_pre_assignment_extends in H5. apply lift_extends in H6.
    apply add_grouping_constraints_extends in H7.
    apply add_opt_goal_extends in H8.
    split; [|auto]. repeat (etrans; [eassumption|]). reflexivity. }
  destruct Hrest as (Hext & -> & -> & ->).
  assert (Hybin : ∀ v x, y1 !! v = Some x ∨ y2 !! v = Some x → is_binary m x).
  { intros v x Hx. eapply extends_binary; [exact Hext|].
    eapply extends_binary; [exact Hext4|].
    eapply (add_position_vars_Ok v_list ∅ ∅); [exact Hvars| |exact Hx].
    intros v' x' [Hv'|Hv']; rewrite lookup_empty in Hv'; discriminate. }
  destruct (add_area_constraints_Ok _ _ _ _ _ _ _ _ Harea r a b Hr Hab)
    as (pick & slot & Hslot & Hcs).
  apply (leaf_constraints_extends _ _ _ _ _ _ _ _ _ _ _ Hext) in Hcs.
  destruct Hcs as [Hand Hsum].
  exists pick, slot. split; [exact Hslot|]. split.
  { intros v Hv. destruct (Hand v Hv) as (x1 & x2 & _ & _ & Hb & _). exact Hb. }
  intros σ Hσ. split.
  - intros v Hv.
    destruct (Hand v Hv) as (x1 & x2 & Hx1 & Hx2 & Hb & Hc1 & Hc2 & Hc3).
    exists x1, x2. split; [exact Hx1|]. split; [exact Hx2|].
    assert (Hab' : (a = 0 ∨ a = 1)%Z ∧ (b = 0 ∨ b = 1)%Z).
    { unfold product22 in Hab.
      repeat (apply elem_of_cons in Hab as [[= -> ->]|Hab]; [lia|]).
      inversion Hab. }
    destruct Hσ as [Hbinary Hall]. rewrite Forall_forall in Hall.
    apply (and_encoding σ x1 x2 (pick v) a b); try tauto;
      try (apply Hbinary; eauto); apply Hall; assumption.
  - apply (feasible_holds σ m _ Hσ) in Hsum. cbn [holds eval] in Hsum.
    rewrite eval_xsum, map_map in Hsum. exact Hsum.
Qed.

Lemma area_constraints_force_indicators_witness :
  ∃ func y1 y2 σ,
    four_way_model (H0 := example_env) (example_call ∅ 0.7)
      ["A"; "B"]%string new_model = Ok (func, y1, y2, example_model) ∧
    feasible σ example_model ∧
    ∃ (pick : vertex → var) (slot : rect),
      func 0%Z 1%Z = Ok slot ∧
      (∀ v, v ∈ ["A"; "B"]%string →
         ∃ x1 x2, y1 !! v = Some x1 ∧ y2 !! v = Some x2 ∧
                  (σ (pick v) = 1%Z ↔ σ x1 = 0%Z ∧ σ x2 = 1%Z)) ∧
      Qsum (map (fun v => 40 * inject_Z (σ (pick v))) ["A"; "B"]%string)
      <= 100 * 0.7.
Proof.
  destruct (four_way_model (H0 := example_env) (example_call ∅ 0.7)
              ["A"; "B"]%string new_model)
    as [[[[func y1] y2] m]| |] eqn:Hrun;
    [|exfalso; vm_compute in Hrun; discriminate..].
  assert (Hm : example_model = m) by (unfold example_model; now rewrite Hrun).
  exists func, y1, y2, (fun x => default 0%Z (example_solution !! x)).
  rewrite Hm. split; [reflexivity|].
  assert (Hσ : feasible (fun x => default 0%Z (example_solution !! x)) m).
  { rewrite <- Hm. apply feasibleb_feasible. vm_compute. reflexivity. }
  split; [exact Hσ|].
  destruct (area_constraints_force_indicators (H0 := example_env)
              (example_call ∅ 0.7) ["A"; "B"]%string 0.7 func y1 y2 m
              eq_refl Hrun "LUT"%string 0%Z 1%Z)
    as (pick & slot & Hslot & _ & Hforce).
  - left.
  - right. left.
  - exists pick, slot. split; [exact Hslot|]. exact (Hforce _ Hσ).
Defined.

(** ** Pre-assignments *)

Section PreAssignment.
Context `{SlotModel}.
Variable v_list : list vertex.
Variable slot_to_idx : list (Slot * (Z * Z)).
Variables v2var_y1 v2var_y2 : gmap vertex var.

Local Abbreviation one :=
  (fun '(v, expect_slot) (_ : unit) =>
     pre_assign_one v_list slot_to_idx v2var_y1 v2var_y2 v expect_slot).

Lemma skip_all_slots (expect_slot : Slot) (v : vertex) (l : list Slot) (m : Model) :
  (∀ avail_slot, avail_slot ∈ l → containsChildSlot avail_slot expect_slot = false) →
  ilp_for l
    (fun avail_slot (_ : unit) =>
       if containsChildSlot avail_slot expect_slot then
         '(y1, y2) ← lift (dict_lookup slot_to_idx avail_slot);
         x1 ← lift (dict_get v2var_y1 v);
         _ ← add_constr (CEq (LVar x1) (LConst (inject_Z y1)));
         x2 ← lift (dict_get v2var_y2 v);
         add_constr (CEq (LVar x2) (LConst (inject_Z y2)))
       else mret tt)
    tt m = Ok (tt, m).
Proof.
  induction l as [|s l IH]; intros Hno; cbn; [reflexivity|].
  unfold mbind at 1, ilp_bind at 1.
  rewrite (Hno s) by left. cbn. apply IH. intros s' Hs'. apply Hno. now right.
Qed.

Lemma pre_assign_one_outside (v : vertex) (expect_slot : Slot) (m : Model) :
  v ∈ v_list →
  (∀ avail_slot, avail_slot ∈ slot_to_idx.*1 →
     containsChildSlot avail_slot expect_slot = false) →
  pre_assign_one v_list slot_to_idx v2var_y1 v2var_y2 v expect_slot m = Ok (tt, m).
Proof.
  intros Hv Hno. unfold pre_assign_one.
  rewrite bool_decide_eq_true_2 by exact Hv. now apply skip_all_slots.
Qed.

Lemma pre_assignment_loop_skip (v : vertex) (expect_slot : Slot)
    (items : list (vertex * Slot)) :
  v ∈ v_list →
  (∀ avail_slot, avail_slot ∈ slot_to_idx.*1 →
     containsChildSlot avail_slot expect_slot = false) →
  (∀ e, (v, e) ∈ items → e = expect_slot) →
  ∀ m, ilp_for items one tt m =
       ilp_for (filter (fun p => p.1 ≠ v) items) one tt m.
Proof.
  intros Hv Hno. induction items as [|[w e] items IH]; intros Hitems m;
    [reflexivity|].
  assert (Hrest : ∀ e', (v, e') ∈ items → e' = expect_slot)
    by (intros e' He'; apply Hitems; now right).
  destruct (decide (w = v)) as [->|Hne].
  - rewrite filter_cons_False by (cbn; tauto).
    rewrite <- (IH Hrest m). cbn [ilp_for].
    unfold mbind at 1, ilp_bind at 1.
    rewrite (Hitems e) by left.
    now rewrite pre_assign_one_outside.
  - rewrite filter_cons_True by (cbn; congruence). cbn [ilp_for].
    unfold mbind, ilp_bind.
    destruct (pre_assign_one v_list slot_to_idx v2var_y1 v2var_y2 w e m)
      as [[[] m1]| |]; [|reflexivity..].
    apply IH, Hrest.
Qed.

End PreAssignment.

(** C2 (as amended): a pre-assignment [(v, expected_slot)] of a vertex of
    [init_v2s] to a region that no current leaf contains raises nothing and
    adds no constraint: its iteration leaves the model as it is, and
    [_add_pre_assignment] builds the model the other pre-assignments alone
    give. *)
Theorem pre_assignment_outside_is_ignored `{SlotModel}
    (v_list : list vertex) (slot_to_idx : list (Slot * (Z * Z)))
    (pre_assignments : gmap vertex Slot)
    (v2var_y1 v2var_y2 : gmap vertex var)
    (v : vertex) (expect_slot : Slot) (m : Model) :
  v ∈ v_list →
  pre_assignments !! v = Some expect_slot →
  (∀ avail_slot, avail_slot ∈ slot_to_idx.*1 →
     containsChildSlot avail_slot expect_slot = false) →
  pre_assign_one v_list slot_to_idx v2var_y1 v2var_y2 v expect_slot m
  = Ok (tt, m) ∧
  _add_pre_assignment v_list slot_to_idx pre_assignments v2var_y1 v2var_y2 m
  = ilp_for (filter (fun p => p.1 ≠ v) (map_to_list pre_assignments))
      (fun '(v', expect_slot') (_ : unit) =>
         pre_assign_one v_list slot_to_idx v2var_y1 v2var_y2 v' expect_slot')
      tt m.
Proof.
  intros Hv Hpre Hno. split; [now apply pre_assign_one_outside|].
  unfold _add_pre_assignment.
  apply (pre_assignment_loop_skip v_list slot_to_idx v2var_y1 v2var_y2
           v expect_slot); [exact Hv|exact Hno|].
  intros e He. apply elem_of_map_to_list in He. congruence.
Qed.

Lemma pre_assignment_outside_is_ignored_witness :
  "A"%string ∈ ["A"; "B"]%string ∧
  ({[ "A"%string := slr 7 ]} : gmap vertex rect) !! "A"%string = Some (slr 7) ∧
  (∀ avail_slot, avail_slot ∈ [slr 0; slr 1; slr 2; slr 3] →
     rect_contains avail_slot (slr 7) = false) ∧
  pre_assign_one (H := example_slots) ["A"; "B"]%string
    [(slr 0, (0, 0)); (slr 1, (0, 1)); (slr 2, (1, 0)); (slr 3, (1, 1))]%Z
    example_y1 example_y2 "A"%string (slr 7) new_model
  = Ok (tt, new_model).
Proof.
  assert (Hno : ∀ avail_slot, avail_slot ∈ [slr 0; slr 1; slr 2; slr 3] →
                  rect_contains avail_slot (slr 7) = false).
  { intros s Hs.
    repeat (apply elem_of_cons in Hs as [->|Hs]; [reflexivity|]).
    inversion Hs. }
  assert (HA : "A"%string ∈ ["A"; "B"]%string) by left.
  split; [exact HA|]. split; [reflexivity|]. split; [exact Hno|].
  exact (proj1 (pre_assignment_outside_is_ignored (H := example_slots)
                  ["A"; "B"]%string
                  [(slr 0, (0, 0)); (slr 1, (0, 1)); (slr 2, (1, 0));
                   (slr 3, (1, 1))]%Z
                  {[ "A"%string := slr 7 ]} example_y1 example_y2
                  "A"%string (slr 7) new_model HA eq_refl Hno)).
Defined.

(** C2 as stated does not hold: with [A] forced to a region outside the
    four SLRs, the call does not fail; it solves and returns the very
    mapping it returns without the pre-assignment. *)
Lemma pre_assignment_outside_not_rejected :
  example_outside_pre !! "A"%string = Some (slr 7) ∧
  "A"%string ∈ dom example_v2s ∧
  (∀ leaf, leaf ∈ four_slrs → rect_contains leaf (slr 7) = false) ∧
  ¬ (∃ e, _four_way_partition (H0 := example_env)
            (example_call example_outside_pre 0.7) = Raise e) ∧
  _four_way_partition (H0 := example_env) (example_call example_outside_pre 0.7)
  = _four_way_partition (H0 := example_env) (example_call ∅ 0.7) ∧
  _four_way_partition (H0 := example_env) (example_call example_outside_pre 0.7)
  = Ok {[ "A"%string := slr 0; "B"%string := slr 1 ]}.
Proof.
  assert (Hrun : _four_way_partition (H0 := example_env)
                   (example_call example_outside_pre 0.7)
                 = Ok {[ "A"%string := slr 0; "B"%string := slr 1 ]})
    by (vm_compute; reflexivity).
  split; [reflexivity|]. split; [vm_compute; reflexivity|]. split.
  { intros s Hs. unfold four_slrs in Hs.
    repeat (apply elem_of_cons in Hs as [->|Hs]; [reflexivity|]).
    inversion Hs. }
  split; [intros [e He]; rewrite Hrun in He; discriminate|].
  split; [|exact Hrun]. rewrite Hrun. vm_compute. reflexivity.
Qed.

(** ** [four_way_partition] as the partitioner of [Partition.py] *)

Section FourWayAsPartitioner.
Context `{Environment}.

Lemma ilp_bind_unfold {A B} (c : ilp A) (k : A → ilp B) (m : Model) :
  (c ≫= k) m =
  match c m with
  | Ok (a, m') => k a m'
  | Raise e => Raise e
  | OutOfFuel => OutOfFuel
  end.
Proof. reflexivity. Qed.

Lemma add_position_vars_total (v_list : list vertex) (m : Model) :
  ∃ y1 y2 m', add_position_vars v_list m = Ok (y1, y2, m').
Proof.
  unfold add_position_vars.
  generalize (∅ : gmap vertex var) at 1 as a1.
  generalize (∅ : gmap vertex var) as a2. revert m.
  induction v_list as [|v l IH]; intros m a2 a1; cbn [ilp_for]; [eauto|].
  rewrite ilp_bind_unfold. cbn. apply IH.
Qed.

(** A list where the slot manager is expected: the call raises as soon as
    it asks for the leaves. *)
Lemma four_way_partition_call_list_for_manager (c : fw_call)
    (init_v2s : gmap vertex Slot) (l : list (list vertex)) :
  a_init_v2s c = PDict init_v2s →
  a_slot_manager c = PList l →
  _four_way_partition c = Raise (AttributeError "getLeafSlotsAfterPartition").
Proof.
  intros Hinit Hsm. unfold _four_way_partition.
  rewrite Hinit. cbn [as_dict mbind result_bind].
  destruct (add_position_vars_total (map_to_list init_v2s).*1 new_model)
    as (y1 & y2 & m1 & Hvars).
  unfold four_way_model. rewrite ilp_bind_unfold, Hvars.
  rewrite ilp_bind_unfold, Hsm. reflexivity.
Qed.

End FourWayAsPartitioner.


(** [partition] with FOUR_WAY_PARTITION on the example design. *)
Example partition_four_way_example :
  partition (H0 := example_env) 20 example_v2s four_slrs [] ∅
    0.65 0.85 10000 15000 600 "FOUR_WAY_PARTITION" "AREA_PRIORITIZED"
  = Raise (AttributeError "getLeafSlotsAfterPartition").
Proof. vm_compute. reflexivity. Qed.

(** ** The solve of [_four_way_partition] and the status of the solver *)

Lemma py_index_bound {A} (l : list A) (i : Z) (a : A) :
  py_index l i = Ok a → (0 <= i)%Z → (i < Z.of_nat (length l))%Z.
Proof.
  unfold py_index. intros Hrun Hi.
  destruct (Z.ltb_spec i 0) as [|_]; [lia|].
  destruct (Z.ltb_spec i (Z.of_nat (length l))) as [Hlt|_]; [exact Hlt|].
  rewrite andb_false_r in Hrun. discriminate.
Qed.

Section FourWaySolve.
Context `{Environment}.

Local Abbreviation position_step :=
  (fun (v : vertex) '((v2var_y1, v2var_y2) : gmap vertex nat * gmap vertex nat) =>
     a ← add_var BINARY (v +:+ "_y1");
     b ← add_var BINARY (v +:+ "_y2");
     mret (<[v := a]> v2var_y1, <[v := b]> v2var_y2)).

Lemma add_position_vars_keeps (v : vertex) (l : list vertex) :
  ∀ (acc1 acc2 y1 y2 : gmap vertex nat) (m m' : Model),
    ilp_for l position_step (acc1, acc2) m = Ok (y1, y2, m') →
    is_Some (acc1 !! v) → is_Some (acc2 !! v) →
    is_Some (y1 !! v) ∧ is_Some (y2 !! v).
Proof.
  induction l as [|w l IH]; intros acc1 acc2 y1 y2 m m' Hrun H1 H2;
    cbn [ilp_for] in Hrun.
  - injection Hrun as <- <- <-. auto.
  - apply ilp_bind_Ok in Hrun as ([acc1' acc2'] & m1 & Hstep & Hrun).
    apply ilp_bind_Ok in Hstep as (a & k1 & _ & Hstep).
    apply ilp_bind_Ok in Hstep as (b & k2 & _ & [= <- <- <-]).
    eapply IH; [exact Hrun| |];
      (destruct (decide (w = v)) as [->|Hne];
       [rewrite lookup_insert_eq; eauto|now rewrite lookup_insert_ne]).
Qed.

Lemma add_position_vars_dom (v : vertex) (l : list vertex) :
  ∀ (acc1 acc2 y1 y2 : gmap vertex nat) (m m' : Model),
    ilp_for l position_step (acc1, acc2) m = Ok (y1, y2, m') →
    v ∈ l → is_Some (y1 !! v) ∧ is_Some (y2 !! v).
Proof.
  induction l as [|w l IH]; intros acc1 acc2 y1 y2 m m' Hrun Hv;
    [inversion Hv|]. cbn [ilp_for] in Hrun.
  apply ilp_bind_Ok in Hrun as ([acc1' acc2'] & m1 & Hstep & Hrun).
  apply ilp_bind_Ok in Hstep as (a & k1 & _ & Hstep).
  apply ilp_bind_Ok in Hstep as (b & k2 & _ & [= <- <- <-]).
  apply elem_of_cons in Hv as [->|Hv].
  - eapply add_position_vars_keeps; [exact Hrun| |];
      rewrite lookup_insert_eq; eauto.
  - eapply IH; eassumption.
Qed.

(** What a model that has been built says about the pieces handed to
    [_get_results]: the lookup of leaves is over at least four of them, and
    the two position variables of every vertex are binary variables of the
    model. *)
Lemma four_way_model_pieces c v_list func y1 y2 m :
  four_way_model c v_list new_model = Ok (func, y1, y2, m) →
  (∃ leaves : list Slot,
     func = (fun a b => py_index leaves (a * 2 + b)) ∧ (4 ≤ length leaves)%nat) ∧
  (∀ v, v ∈ v_list →
     ∃ a b, y1 !! v = Some a ∧ y2 !! v = Some b ∧
            is_binary m a ∧ is_binary m b).
Proof.
  intros Hrun. unfold four_way_model in Hrun.
  apply ilp_bind_Ok in Hrun as ([y1' y2'] & m1 & Hvars & Hrun).
  apply ilp_bind_Ok in Hrun as (func' & m2 & Hcl & Hrun).
  apply ilp_bind_Ok in Hrun as (s2i & m3 & Hs2i & Hrun).
  apply lift_Ok in Hcl as [Hcl ->]. apply lift_Ok in Hs2i as [Hs2i ->].
  assert (Hrest : extends m1 m ∧ func = func' ∧ y1 = y1' ∧ y2 = y2').
  { apply ilp_bind_Ok in Hrun as ([] & k0 & H0' & Hrun).
    apply ilp_bind_Ok in Hrun as ([] & k1 & H1 & Hrun).
    apply ilp_bind_Ok in Hrun as ([] & k2 & H2 & Hrun).
    apply ilp_bind_Ok in Hrun as ([] & k3 & H3 & Hrun).
    apply ilp_bind_Ok in Hrun as (pre & k4 & H4 & Hrun).
    apply ilp_bind_Ok in Hrun as ([] & k5 & H5 & Hrun).
    apply ilp_bind_Ok in Hrun as (grp & k6 & H6 & Hrun).
    apply ilp_bind_Ok in Hrun as ([] & k7 & H7 & Hrun).
    apply ilp_bind_Ok in Hrun as ([] & k8 & H8 & Hrun).
    injection Hrun as <- <- <- <-.
    apply add_area_constraints_extends in H0'.
    apply add_slr_0_1_extends in H1. apply add_slr_1_2_extends in H2.
    apply add_slr_2_3_extends in H3. apply lift_extends in H4.
    apply add_pre_assignment_extends in H5. apply lift_extends in H6.
    apply add_grouping_constraints_extends in H7.
    apply add_opt_goal_extends in H8.
    split; [|auto]. repeat (etrans; [eassumption|]). reflexivity. }
  destruct Hrest as (Hext & -> & -> & ->). split.
  - unfold _get_slot_by_idx_closure in Hcl.
    apply bind_Ok in Hcl as (sm & _ & Hf).
    cbv [mret result_ret] in Hf. injection Hf as <-.
    exists (getLeafSlotsAfterPartition sm [horizontal; horizontal]).
    split; [reflexivity|].
    (* the last slot, of index 3, has been looked up *)
    unfold _get_slot_to_idx, product22 in Hs2i. cbn [for_each] in Hs2i.
    apply bind_Ok in Hs2i as (d1 & _ & Hs2i).
    apply bind_Ok in Hs2i as (d2 & _ & Hs2i).
    apply bind_Ok in Hs2i as (d3 & _ & Hs2i).
    apply bind_Ok in Hs2i as (d4 & H11 & _).
    apply bind_Ok in H11 as (s & Hs & _).
    apply py_index_bound in Hs; lia.
  - intros v Hv.
    destruct (add_position_vars_dom v v_list ∅ ∅ _ _ _ _ Hvars Hv)
      as [[a Ha] [b Hb]].
    exists a, b. split; [exact Ha|]. split; [exact Hb|].
    split; (eapply extends_binary; [exact Hext|]);
      (eapply (add_position_vars_Ok v_list ∅ ∅); [exact Hvars| |eauto]);
      intros v' x' [Hv'|Hv']; rewrite lookup_empty in Hv'; discriminate.
Qed.

End FourWaySolve.

(** C6: once the model is built, a solve of [_four_way_partition] raises
    nothing, whatever the status of the solver: with OPTIMAL or FEASIBLE it
    returns a mapping of all the vertices of [init_v2s] to leaves, and with
    any other status the empty mapping. (With a solution, the solver holds
    for every binary variable a value within its bounds, up to rounding.) *)
Theorem four_way_solve_by_status `{Environment}
    (c : fw_call) (init_v2s : gmap vertex Slot) (max_seconds : Q)
    (func : Z → Z → result Slot) (v2var_y1 v2var_y2 : gmap vertex nat)
    (m : Model) (status : OptimizationStatus) (x : nat → option Q) :
  a_init_v2s c = PDict init_v2s →
  a_max_search_time c = PNum max_seconds →
  four_way_model c (map_to_list init_v2s).*1 new_model
  = Ok (func, v2var_y1, v2var_y2, m) →
  mip_optimize m max_seconds = (status, x) →
  (status_has_solution status →
   ∀ a, is_binary m a → ∃ q, x a = Some q ∧ -1 < q ∧ q < 2) →
  ∃ v2s,
    _four_way_partition c = Ok v2s ∧
    (status_has_solution status →
     dom v2s = dom init_v2s ∧
     ∀ v s, v2s !! v = Some s → ∃ a b, func a b = Ok s) ∧
    (¬ status_has_solution status → v2s = ∅) ∧
    (init_v2s ≠ ∅ → (dom v2s = dom init_v2s ↔ status_has_solution status)).
Proof.
  intros Hinit Htime Hmodel Hopt Hsolver.
  destruct (four_way_model_pieces _ _ _ _ _ _ Hmodel)
    as [(leaves & -> & Hlen) Hvars].
  destruct (get_results_by_status status x leaves (map_to_list init_v2s).*1
              v2var_y1 v2var_y2 Hlen) as (v2s & Hres & Hyes & Hno & Hiff).
  { intros Hst v Hv.
    destruct (Hvars v Hv) as (a & b & Ha & Hb & Hba & Hbb).
    destruct (Hsolver Hst a Hba) as (qa & Hqa & ? & ?).
    destruct (Hsolver Hst b Hbb) as (qb & Hqb & ? & ?).
    exists a, b, qa, qb. auto 10. }
  exists v2s. split.
  { unfold _four_way_partition. rewrite Hinit. cbn [as_dict mbind result_bind].
    rewrite Hmodel, Htime. cbn [as_number mbind result_bind].
    rewrite Hopt. exact Hres. }
  rewrite keys_of_dict in Hyes, Hiff. split; [|split; [exact Hno|]].
  - intros Hst. destruct (Hyes Hst) as [Hdom Hval]. split; [exact Hdom|].
    intros v s Hv.
    pose proof (extract_loop_Ok x (fun a b => py_index leaves (a * 2 + b))
                  v2var_y1 v2var_y2
                  (fun s => ∃ a b, py_index leaves (a * 2 + b) = Ok s)
                  (map_to_list init_v2s).*1 (fun a b s Hs => ex_intro _ a (ex_intro _ b Hs))
                  ∅ v2s) as Hloop.
    rewrite get_results_unfold in Hres.
    destruct Hst as [-> | ->]; destruct (Hloop Hres) as [_ Hfrom];
      (destruct (Hfrom v s Hv) as [He|Hs]; [|exact Hs]);
      rewrite lookup_empty in He; discriminate.
  - intros Hne. apply Hiff. intros Hnil. apply Hne.
    apply map_to_list_empty_iff. destruct (map_to_list init_v2s); [reflexivity|].
    discriminate.
Qed.

Lemma feasibleb_values (σ : list Z) (m : Model) (a : nat) :
  feasibleb σ m = true → is_binary m a →
  σ !! a = Some 0%Z ∨ σ !! a = Some 1%Z.
Proof.
  unfold feasibleb. intros Hf [n Ha]. apply andb_true_iff in Hf as [Hbin _].
  rewrite forallb_forall in Hbin.
  specialize (Hbin (a, (BINARY, n))). cbn in Hbin.
  eapply bool_decide_eq_true_1, Hbin. apply list_elem_of_In.
  apply list_elem_of_lookup. exists a. now rewrite list_lookup_imap, Ha.
Qed.

Lemma four_way_solve_by_status_witness :
  ∃ v2s : gmap vertex rect,
    mip_optimize (Environment := example_env) example_model 600
    = (FEASIBLE, fun a => inject_Z <$> example_solution !! a) ∧
    _four_way_partition (H0 := example_env) (example_call ∅ 0.7) = Ok v2s ∧
    dom v2s = dom example_v2s.
Proof.
  assert (Hkeys : (map_to_list example_v2s).*1 = ["A"; "B"]%string)
    by (vm_compute; reflexivity).
  destruct (four_way_model (H0 := example_env) (example_call ∅ 0.7)
              ["A"; "B"]%string new_model)
    as [[[[func y1] y2] m]| |] eqn:Hrun;
    [|exfalso; vm_compute in Hrun; discriminate..].
  assert (Hm : example_model = m) by (unfold example_model; now rewrite Hrun).
  assert (Hopt : mip_optimize (Environment := example_env) example_model 600
                 = (FEASIBLE, fun a => inject_Z <$> example_solution !! a)).
  { assert (Hsol : search_vars (m_constrs example_model)
                     (m_vars example_model).*1 [] = Some example_solution)
      by (vm_compute; reflexivity).
    cbn [mip_optimize example_env]. unfold example_optimize.
    now rewrite Hsol. }
  assert (Hfeasible : feasibleb example_solution example_model = true)
    by (vm_compute; reflexivity).
  destruct (four_way_solve_by_status (H0 := example_env)
              (example_call ∅ 0.7) example_v2s 600 func y1 y2 m FEASIBLE
              (fun a => inject_Z <$> example_solution !! a))
    as (v2s & Hv & Hyes & _).
  - reflexivity.
  - reflexivity.
  - rewrite <- Hkeys in Hrun. exact Hrun.
  - rewrite <- Hm. exact Hopt.
  - intros _ a Ha. rewrite <- Hm in Ha.
    destruct (feasibleb_values _ _ _ Hfeasible Ha) as [-> | ->];
      eexists; (split; [reflexivity|]); split; reflexivity.
  - exists v2s. split; [exact Hopt|]. split; [exact Hv|].
    apply Hyes. now right.
Defined.

(** ** [graph.py]: edges and the vertices they join *)

Module GraphFacts.
Import Graph.

Lemma grows_refl h : grows h h.
Proof. intros x v Hx. eauto. Qed.

Lemma grows_trans h1 h2 h3 : grows h1 h2 → grows h2 h3 → grows h1 h3.
Proof.
  intros H12 H23 x v3 Hx.
  destruct (H23 x v3 Hx) as (v2 & Hx2 & Hin2 & Hout2).
  destruct (H12 x v2 Hx2) as (v1 & Hx1 & Hin1 & Hout1).
  exists v1. split; [exact Hx1|]. split; auto.
Qed.

Lemma grows_alter (f : Vertex → Vertex) (v : nat) (h : gmap nat Vertex) :
  (∀ self y, y ∈ in_edges self → y ∈ in_edges (f self)) →
  (∀ self y, y ∈ out_edges self → y ∈ out_edges (f self)) →
  grows h (alter f v h).
Proof.
  intros Hin Hout x v' Hx. destruct (decide (v = x)) as [->|Hne].
  - rewrite lookup_alter_eq in Hx.
    destruct (h !! x) as [self|] eqn:Hself; [|discriminate].
    injection Hx as <-. exists self. auto.
  - rewrite lookup_alter_ne in Hx by exact Hne. eauto.
Qed.

Lemma call_add_in_grows v e s :
  grows (vertex_objs s) (vertex_objs (call_add_in v e s)).
Proof.
  apply grows_alter; intros self y Hy; cbn; [exact Hy|].
  apply elem_of_app. now left.
Qed.

Lemma call_add_out_grows v e s :
  grows (vertex_objs s) (vertex_objs (call_add_out v e s)).
Proof.
  apply grows_alter; intros self y Hy; cbn; [|exact Hy].
  apply elem_of_app. now left.
Qed.

Lemma try_sub_grows add v n e s :
  (∀ v' s', grows (vertex_objs s') (vertex_objs (add v' e s'))) →
  grows (vertex_objs s) (vertex_objs (try_sub add v n e s)).
Proof.
  intros Hadd. unfold try_sub.
  destruct (vertex_objs s !! v) as [self|]; [|apply grows_refl].
  destruct (actual_to_sub self !! n); [apply Hadd|apply grows_refl].
Qed.

Lemma try_sub_edges add v n e s :
  (∀ v' s', edge_objs (add v' e s') = edge_objs s') →
  edge_objs (try_sub add v n e s) = edge_objs s.
Proof.
  intros Hadd. unfold try_sub.
  destruct (vertex_objs s !! v) as [self|]; [|reflexivity].
  destruct (actual_to_sub self !! n); [apply Hadd|reflexivity].
Qed.

Section InitEdgesFacts.
Context `{Formator}.

Lemma connect_port_linked (g : graph) (e : nat) (p : PortArg) (s s' : store) :
  linked e s → connect_port g e p s = Ok s' → linked e s'.
Proof.
  intros (e_obj & He & Hdst & Hsrc). unfold connect_port.
  destruct (arg p) as [actual_raw|]; [|intros [= <-]; exists e_obj; auto].
  rewrite He.
  destruct (is_substring "_dout" actual_raw && is_substring "_dout" (portname p)).
  - destruct (edge_to_vertex g !! actual_raw) as [v|]; [|discriminate].
    intros [= <-].
    set (s1 := mkStore (vertex_objs s) (<[e := set_dst v e_obj]> (edge_objs s))).
    pose proof (call_add_in_grows v e s1) as G1.
    pose proof (try_sub_grows call_add_in v (name e_obj) e (call_add_in v e s1)
                  (fun v' s' => call_add_in_grows v' e s')) as G2.
    exists (set_dst v e_obj). split; [|split].
    + rewrite try_sub_edges by reflexivity. cbn. apply lookup_insert_eq.
    + cbn. intros d w [= <-] Hw.
      destruct (G2 _ _ Hw) as (w1 & Hw1 & _ & Hout). apply Hout.
      cbn in Hw1. rewrite lookup_alter_eq in Hw1.
      destruct (vertex_objs s !! v) as [self|]; [|discriminate].
      injection Hw1 as <-. cbn. apply elem_of_app. right. left.
    + cbn. intros sr w Hsr Hw.
      destruct (grows_trans _ _ _ G1 G2 _ _ Hw) as (w0 & Hw0 & Hin & _).
      apply Hin. eapply Hsrc; eassumption.
  - destruct (is_substring "_din" actual_raw && is_substring "_din" (portname p));
      [|intros [= <-]; exists e_obj; auto].
    destruct (edge_to_vertex g !! actual_raw) as [v|]; [|discriminate].
    intros [= <-].
    set (s1 := mkStore (vertex_objs s) (<[e := set_src v e_obj]> (edge_objs s))).
    pose proof (call_add_out_grows v e s1) as G1.
    pose proof (try_sub_grows call_add_out v (name e_obj) e (call_add_out v e s1)
                  (fun v' s' => call_add_out_grows v' e s')) as G2.
    exists (set_src v e_obj). split; [|split].
    + rewrite try_sub_edges by reflexivity. cbn. apply lookup_insert_eq.
    + cbn. intros d w Hd Hw.
      destruct (grows_trans _ _ _ G1 G2 _ _ Hw) as (w0 & Hw0 & _ & Hout).
      apply Hout. eapply Hdst; eassumption.
    + cbn. intros sr w [= <-] Hw.
      destruct (G2 _ _ Hw) as (w1 & Hw1 & Hin & _). apply Hin.
      cbn in Hw1. rewrite lookup_alter_eq in Hw1.
      destruct (vertex_objs s !! v) as [self|]; [|discriminate].
      injection Hw1 as <-. cbn. apply elem_of_app. right. left.
Qed.

Lemma connect_ports_linked (g : graph) (e : nat) (ports : list PortArg) :
  ∀ s s', linked e s → for_each ports (connect_port g e) s = Ok s' → linked e s'.
Proof.
  induction ports as [|p ports IH]; intros s s' Hl; cbn.
  - now intros [= <-].
  - intros Hrun. apply bind_Ok in Hrun as (s1 & Hp & Hrest).
    eapply IH; [|exact Hrest]. eapply connect_port_linked; eassumption.
Qed.

End InitEdgesFacts.

End GraphFacts.

(** C9: [add_in] appends the edge to [out_edges] and leaves [in_edges] as
    it is, [add_out] appends it to [in_edges] and leaves [out_edges] as it
    is; so when [initEdges] has processed a FIFO instance, the new edge is
    in the [out_edges] of its destination vertex and in the [in_edges] of
    its source vertex. *)
Theorem add_in_fills_out_edges `{Graph.Formator}
    (self : Graph.Vertex) (edge : nat)
    (g g' : Graph.graph) (s s' : Graph.store) (e : nat) (node : Graph.Instance) :
  (Graph.out_edges (Graph.add_in self edge) = Graph.out_edges self ++ [edge] ∧
   Graph.in_edges (Graph.add_in self edge) = Graph.in_edges self) ∧
  (Graph.in_edges (Graph.add_out self edge) = Graph.in_edges self ++ [edge] ∧
   Graph.out_edges (Graph.add_out self edge) = Graph.out_edges self) ∧
  (Graph.isValidInstance node = true →
   Graph.isFIFO node = true →
   Graph.initEdges g s e node = Ok (g', s') →
   Graph.edges g' !! Graph.inst_name node = Some e ∧
   ∃ e_obj,
     Graph.edge_objs s' !! e = Some e_obj ∧
     (∀ d v, Graph.dst e_obj = Some d → Graph.vertex_objs s' !! d = Some v →
             e ∈ Graph.out_edges v) ∧
     (∀ sr v, Graph.src e_obj = Some sr → Graph.vertex_objs s' !! sr = Some v →
              e ∈ Graph.in_edges v)).
Proof.
  split; [split; reflexivity|]. split; [split; reflexivity|].
  intros Hvalid Hfifo Hrun.
  unfold Graph.initEdges in Hrun. rewrite Hvalid, Hfifo in Hrun. cbn in Hrun.
  apply bind_Ok in Hrun as (aw & _ & Hrun).
  apply bind_Ok in Hrun as (s1 & Hports & [= <- <-]).
  split; [cbn; apply lookup_insert_eq|].
  eapply GraphFacts.connect_ports_linked; [|exact Hports].
  eexists. split; [cbn; apply lookup_insert_eq|]. split; cbn; discriminate.
Qed.

Lemma add_in_fills_out_edges_witness :
  ∃ g' s',
    Graph.initEdges (H := example_formator) example_graph example_store 0
      example_fifo = Ok (g', s') ∧
    ∃ e_obj consumer producer,
      Graph.edge_objs s' !! 0%nat = Some e_obj ∧
      Graph.dst e_obj = Some 1%nat ∧ Graph.src e_obj = Some 0%nat ∧
      Graph.vertex_objs s' !! 1%nat = Some consumer ∧
      Graph.vertex_objs s' !! 0%nat = Some producer ∧
      0%nat ∈ Graph.out_edges consumer ∧ 0%nat ∈ Graph.in_edges producer.
Proof.
  destruct (Graph.initEdges (H := example_formator) example_graph
              example_store 0 example_fifo) as [[g' s']| |] eqn:Hrun;
    [|exfalso; vm_compute in Hrun; discriminate..].
  exists g', s'. split; [reflexivity|].
  destruct (add_in_fills_out_edges (H := example_formator)
              (example_vertex "consumer") 0
              example_graph g' example_store s' 0 example_fifo)
    as (_ & _ & Hinit).
  destruct (Hinit eq_refl eq_refl Hrun) as (_ & e_obj & He & Hdst & Hsrc).
  assert (Hs : s' =
    Graph.mkStore
      {[ 0%nat := Graph.add_out (example_vertex "producer") 0;
         1%nat := Graph.add_in (example_vertex "consumer") 0 ]}
      {[ 0%nat := Graph.set_src 0 (Graph.set_dst 1
                    (Graph.mkEdge None None None None 32 16 5 "f" false 1)) ]}).
  { vm_compute in Hrun. injection Hrun as _ <-. vm_compute. reflexivity. }
  subst s'. cbn in He. rewrite lookup_singleton_eq in He. injection He as <-.
  eexists _, _, _. split; [reflexivity|].
  split; [reflexivity|]. split; [reflexivity|].
  split; [reflexivity|]. split; [reflexivity|].
  split; [eapply Hdst|eapply Hsrc]; reflexivity.
Defined.

(** ** The definitions at work *)

Example py_round2_examples :
  py_round2 (0.7 + 0.02) = 0.72 ∧ py_round2 0.725 = 0.72 ∧
  py_round2 0.735 = 0.74 ∧ py_round2 (-(0.015)) = -(0.02).
Proof. repeat split; reflexivity. Qed.

Example py_int_examples :
  py_int 0.999 = 0%Z ∧ py_int 1 = 1%Z ∧ py_int (-(3 # 2)) = (-1)%Z.
Proof. repeat split; reflexivity. Qed.

Example py_index_examples :
  py_index [10; 20; 30]%Z 1 = Ok 20%Z ∧ py_index [10; 20; 30]%Z (-1) = Ok 30%Z ∧
  py_index [10; 20; 30]%Z 3 = Raise IndexError ∧
  py_index [10; 20; 30]%Z (-4) = Raise IndexError.
Proof. repeat split; reflexivity. Qed.

Example is_substring_examples :
  Graph.is_substring "_dout" "fifo_A_dout" = true ∧
  Graph.is_substring "_din" "fifo_A_dout" = false ∧
  Graph.is_substring "_din" "if_din" = true.
Proof. repeat split; reflexivity. Qed.

(** The model of the example: 4 position variables, 16 indicators, 23
    variables for the crossings of the one edge and its cost. *)
Example example_model_size :
  length (m_vars example_model) = 44%nat ∧
  length (m_constrs example_model) = 107%nat.
Proof. split; vm_compute; reflexivity. Qed.

(** Two modules of 40 units each: at the area limit 0.9 one leaf of 100
    units holds both, at 0.7 they are split, at 0.3 nothing fits. *)
Example four_way_call_examples :
  _four_way_partition (H0 := example_env) (example_call ∅ 0.9)
  = Ok {[ "A"%string := slr 0; "B"%string := slr 0 ]} ∧
  _four_way_partition (H0 := example_env) (example_call ∅ 0.7)
  = Ok {[ "A"%string := slr 0; "B"%string := slr 1 ]} ∧
  _four_way_partition (H0 := example_env) (example_call ∅ 0.3) = Ok ∅.
Proof. repeat split; vm_compute; reflexivity. Qed.

(** Pre-assignments: a region inside SLR 2 is honoured; a vertex that does
    not exist fails the assertion. *)
Example pre_assignment_examples :
  _four_way_partition (H0 := example_env)
    (example_call {[ "A"%string := slr 2 ]} 0.7)
  = Ok {[ "A"%string := slr 2; "B"%string := slr 0 ]} ∧
  _four_way_partition (H0 := example_env)
    (example_call {[ "C"%string := slr 1 ]} 0.7)
  = Raise (AssertionError
      "ERROR: user has forced the location of a non-existing module C").
Proof. split; vm_compute; reflexivity. Qed.

(** The retry loop: from 0.34 the limits 0.34, 0.36 and 0.38 fail and 0.40
    succeeds; with the hard limit 0.4 the loop gives up instead. *)
Example four_way_retry_examples :
  four_way_partition (H0 := example_env) 10
    [PDict (H := example_slots) example_v2s;
     PSlotManager (H := example_slots) four_slrs; PList [];
     PDict (H := example_slots) ∅; PNum 0.34]
  = Ok {[ "A"%string := slr 0; "B"%string := slr 1 ]} ∧
  retry_cap 0.34 3 = 0.40 ∧
  four_way_partition (H0 := example_env) 10
    [PDict (H := example_slots) example_v2s;
     PSlotManager (H := example_slots) four_slrs; PList [];
     PDict (H := example_slots) ∅; PNum 0.34; PNum 600; PNum 0.02; PNum 0.4]
  = Ok ∅.
Proof. repeat split; vm_compute; reflexivity. Qed.

(** The area search of the example: probes at 0.75 and 0.7 succeed, three
    more fail, and the search stops with an interval below 0.01. *)
Example area_search_example :
  (s ← area_search (H := example_slots) 10 example_v2s four_slrs [] ∅
         (PNum 15000) 0.65 0.85 600 example_partitioner;
   mret (map (fun p => (probe_mid p, probe_succeeds p)) (probes s)))
  = Ok [((0.85 + 0.65) / 2, true);
        (((0.85 + 0.65) / 2 + 0.65) / 2, true);
        ((((0.85 + 0.65) / 2 + 0.65) / 2 + 0.65) / 2, false);
        ((((0.85 + 0.65) / 2 + 0.65) / 2
          + (((0.85 + 0.65) / 2 + 0.65) / 2 + 0.65) / 2) / 2, false);
        ((((0.85 + 0.65) / 2 + 0.65) / 2
          + ((((0.85 + 0.65) / 2 + 0.65) / 2
              + (((0.85 + 0.65) / 2 + 0.65) / 2 + 0.65) / 2) / 2)) / 2, false)].
Proof. vm_compute. reflexivity. Qed.

(** Without an upper bound below the lower one: the assertion fails. *)
Example search_assertion_example :
  _binary_search_area_limit (H := example_slots) 10 example_v2s four_slrs [] ∅
    (PNum 15000) 0.85 0.65 600 example_partitioner
  = Raise (AssertionError "lo <= hi").
Proof. reflexivity. Qed.

(** * Further properties of the code *)

Lemma is_Ok_true {A} (r : result A) : is_Ok r = true → ∃ a, r = Ok a.
Proof. destruct r; [eauto|discriminate..]. Qed.

(** ** [Partition.py]: searches over a partitioner that may raise *)

Section SearchHalts.
Context `{SlotModel}.
Variable threshold : Q.
Variable call_args : Q → list pyval.
Variable partitioner : partitioner_t.

(** Every call of the partitioner returns or raises. *)
Hypothesis partitioner_halts : ∀ args, returns (partitioner args).

Local Abbreviation loop := (search_loop threshold call_args partitioner).
Local Abbreviation halts_in := (halts_in call_args partitioner).

Lemma halts_in_weaken (lo hi lo' hi' : Q) (r : result search_state) :
  lo' <= lo → hi <= hi' → halts_in lo hi r → halts_in lo' hi' r.
Proof.
  intros Hlo Hhi. destruct r as [s|e|]; cbn; [auto| |auto].
  intros (c & H1 & H2 & Hc). exists c. split; [|split; [|exact Hc]].
  - eapply Qle_trans; eassumption.
  - eapply Qle_trans; eassumption.
Qed.

Lemma mid_between (h l : Q) : l <= h → l <= (h + l) / 2 ∧ (h + l) / 2 <= h.
Proof. intros Hle. unfold Qdiv. change (/ 2) with (1 # 2). split; lra. Qed.

Lemma search_loop_halts (n : nat) :
  ∀ s, lo s <= hi s →
       hi s - lo s < threshold * pow2 (S n) →
       ∀ fuel, (S n ≤ fuel)%nat → halts_in (lo s) (hi s) (loop fuel s).
Proof.
  induction n as [|n IH]; intros s Hle Hw fuel Hfuel;
    (destruct fuel as [|fuel]; [lia|]);
    destruct (mid_between _ _ Hle) as [Hm1 Hm2];
    cbn [search_loop]; unfold search_iteration;
    pose proof (partitioner_halts (call_args ((hi s + lo s) / 2))) as Hret;
    destruct (partitioner (call_args ((hi s + lo s) / 2))) as [v2s|e|] eqn:Hcall;
    try contradiction;
    try (cbn; exists ((hi s + lo s) / 2); auto; fail);
    cbn [mbind result_bind];
    destruct (dict_truthy v2s); cbn [mbind result_bind mret result_ret hi lo];
    match goal with
    | |- context [Qltb ?w threshold] => destruct (Qltb w threshold) eqn:Hstop
    end; try exact I;
    apply Qltb_ge in Hstop.
  - rewrite half_width_hi in Hstop. rewrite pow2_succ in Hw.
    change (pow2 0) with 1 in Hw. lra.
  - rewrite half_width_lo in Hstop. rewrite pow2_succ in Hw.
    change (pow2 0) with 1 in Hw. lra.
  - eapply (halts_in_weaken (lo s) ((hi s + lo s) / 2)); [apply Qle_refl|exact Hm2|].
    apply (IH (mkSearch ((hi s + lo s) / 2) (lo s) v2s
                 (PNum ((hi s + lo s) / 2)) _)); cbn [hi lo]; [exact Hm1| |lia].
    rewrite half_width_hi. rewrite pow2_succ in Hw.
    set (q := pow2 (S n)) in *. clearbody q. lra.
  - eapply (halts_in_weaken ((hi s + lo s) / 2) (hi s)); [exact Hm1|apply Qle_refl|].
    apply (IH (mkSearch (hi s) ((hi s + lo s) / 2) (curr_best_v2s s)
                 (curr_min s) _)); cbn [hi lo]; [exact Hm2| |lia].
    rewrite half_width_lo. rewrite pow2_succ in Hw.
    set (q := pow2 (S n)) in *. clearbody q. lra.
Qed.

Lemma search_halts (max_limit min_limit : Q) :
  0 < threshold → min_limit <= max_limit →
  ∃ n, ∀ fuel, (n ≤ fuel)%nat →
    halts_in min_limit max_limit
      (search threshold call_args partitioner fuel max_limit min_limit).
Proof.
  intros Hthr Hle.
  destruct (pow2_bound threshold (max_limit - min_limit) Hthr) as [n Hn].
  exists (S n). intros fuel Hfuel. unfold search.
  pose proof Hle as Hle'. apply Qleb_le in Hle'. rewrite Hle'.
  apply (search_loop_halts n (mkSearch max_limit min_limit ∅ PNone []));
    cbn [hi lo]; [exact Hle| |exact Hfuel].
  rewrite pow2_succ. pose proof (pow2_pos n).
  set (q := pow2 n) in *. clearbody q. nra.
Qed.

End SearchHalts.


Lemma example_raising_partitioner_halts :
  ∀ args, returns (example_raising_partitioner args).
Proof.
  intros args. unfold example_raising_partitioner, example_partitioner.
  repeat (lazymatch goal with
          | |- returns (match ?x with _ => _ end) => destruct x
          | |- returns (if ?b then _ else _) => destruct b
          end);
    exact I.
Qed.


(** ** What a search that returned has done *)

Section SearchReturned.
Context `{SlotModel}.
Variable threshold : Q.
Variable call_args : Q → list pyval.
Variable partitioner : partitioner_t.

Local Abbreviation loop := (search_loop threshold call_args partitioner).
Local Abbreviation bisect := (bisection threshold call_args partitioner).

Lemma search_loop_Ok (fuel : nat) :
  ∀ s s', loop fuel s = Ok s' →
    ∃ ps, probes s' = probes s ++ ps ∧
          bisect (hi s) (lo s) ps ∧
          (curr_best_v2s s', curr_min s') =
            foldl record_probe (curr_best_v2s s, curr_min s) ps.
Proof.
  induction fuel as [|fuel IH]; intros s s'; [discriminate|].
  cbn [search_loop]. unfold search_iteration.
  destruct (partitioner (call_args ((hi s + lo s) / 2))) as [v2s|e|] eqn:Hcall;
    [|discriminate..].
  set (p := mkProbe (hi s) (lo s) (call_args ((hi s + lo s) / 2)) v2s).
  assert (Hp : probe_at call_args partitioner (hi s) (lo s) p)
    by (unfold probe_at; cbn; auto).
  cbn [mbind result_bind].
  destruct (dict_truthy v2s) eqn:Htruthy; cbn [mbind result_bind mret result_ret];
    match goal with
    | |- context [Qltb ?w threshold] => destruct (Qltb w threshold) eqn:Hstop
    end; cbn [hi lo] in Hstop.
  all: try (intros [= <-]; exists [p]; cbn; apply Qltb_lt in Hstop;
            unfold next_hi, next_lo, record_probe, probe_succeeds, probe_mid;
            cbn; rewrite Htruthy; auto; fail).
  all: intros Hrun; destruct (IH _ _ Hrun) as (ps & Hps & Hbis & Hbest);
    cbn [hi lo probes curr_best_v2s curr_min] in Hps, Hbis, Hbest;
    exists (p :: ps); rewrite Hps, <- app_assoc; (split; [reflexivity|]);
    apply Qltb_ge in Hstop;
    (split;
     [cbn [bisection]; split; [exact Hp|];
      destruct ps as [|p' ps]; [contradiction|];
      unfold next_hi, next_lo, probe_succeeds, probe_mid; cbn; rewrite Htruthy;
      split; [intros Hlt; apply (Qlt_irrefl threshold);
              eapply Qle_lt_trans; eassumption|exact Hbis]
     |cbn [foldl]; unfold record_probe at 2, probe_succeeds, probe_mid; cbn;
      rewrite Htruthy; exact Hbest]).
Qed.

Lemma search_Ok (fuel : nat) (max_limit min_limit : Q) (s : search_state) :
  search threshold call_args partitioner fuel max_limit min_limit = Ok s →
  min_limit <= max_limit ∧
  bisect max_limit min_limit (probes s) ∧
  (curr_best_v2s s, curr_min s) = last_success (probes s).
Proof.
  unfold search. destruct (Qleb min_limit max_limit) eqn:Hle; [|discriminate].
  intros Hrun. apply Qleb_le in Hle. split; [exact Hle|].
  destruct (search_loop_Ok _ _ _ Hrun) as (ps & Hps & Hbis & Hbest).
  cbn in Hps. subst ps. auto.
Qed.

(** The number of probes is the number of halvings that bring the width of
    the interval below the threshold. *)
Lemma bisection_length (ps : list probe) :
  ∀ h l, bisect h l ps →
    h - l < threshold * pow2 (length ps) ∧
    ∀ k, (1 ≤ k < length ps)%nat → threshold * pow2 k <= h - l.
Proof.
  induction ps as [|p ps IH]; intros h l; [intros []|].
  cbn [bisection length]. intros [(Hh & Hl & _) Hrest].
  pose proof (next_width p) as Hw. rewrite Hh, Hl in Hw.
  destruct ps as [|p' ps].
  - cbn [length]. split; [|intros k Hk; lia].
    rewrite Hw in Hrest. rewrite pow2_succ. change (pow2 0) with 1. lra.
  - destruct Hrest as [Hge Hbis]. apply IH in Hbis as [Hlt Hall].
    rewrite Hw in Hlt, Hge.
    split.
    + rewrite pow2_succ. set (q := pow2 (length (p' :: ps))) in *.
      clearbody q. lra.
    + intros [|[|k]] Hk; [lia| |].
      * rewrite pow2_succ. change (pow2 0) with 1.
        apply Qnot_lt_le in Hge. lra.
      * specialize (Hall (S k) ltac:(cbn [length] in *; lia)).
        rewrite Hw in Hall. rewrite (pow2_succ (S k)).
        set (q := pow2 (S k)) in *. clearbody q. lra.
Qed.

(** The limits probed lie in the interval, and what is recorded at the end
    is the successful probe of least limit. *)
Lemma bisection_least (ps : list probe) :
  ∀ h l acc, l <= h → bisect h l ps →
    Forall (fun p => l <= probe_mid p ∧ probe_mid p <= h) ps ∧
    ((foldl record_probe acc ps = acc ∧
      Forall (fun p => probe_succeeds p = false) ps) ∨
     (∃ p, p ∈ ps ∧ probe_succeeds p = true ∧
           foldl record_probe acc ps = (probe_v2s p, PNum (probe_mid p)) ∧
           Forall (fun q => probe_succeeds q = true →
                            probe_mid p <= probe_mid q) ps)).
Proof.
  induction ps as [|p ps IH]; intros h l acc Hle; [intros []|].
  cbn [bisection]. intros [(Hh & Hl & _) Hrest].
  destruct (mid_between h l Hle) as [Hm1 Hm2].
  assert (Hmid : probe_mid p = (h + l) / 2) by (unfold probe_mid; now rewrite Hh, Hl).
  assert (Hin : l <= probe_mid p ∧ probe_mid p <= h) by (rewrite Hmid; auto).
  destruct ps as [|p' ps].
  - split; [constructor; [exact Hin|constructor]|].
    cbn [foldl]. unfold record_probe.
    destruct (probe_succeeds p) eqn:Hs.
    + right. exists p. split; [left|]. split; [exact Hs|]. split; [reflexivity|].
      constructor; [intros _; apply Qle_refl|constructor].
    + left. split; [reflexivity|]. constructor; [exact Hs|constructor].
  - destruct Hrest as [_ Hbis].
    assert (Hle' : next_lo p <= next_hi p).
    { unfold next_lo, next_hi. rewrite Hmid, Hh, Hl.
      destruct (probe_succeeds p); assumption. }
    destruct (IH _ _ (record_probe acc p) Hle' Hbis) as [Hbound Hlast].
    assert (Hnext : l <= next_lo p ∧ next_hi p <= h).
    { unfold next_lo, next_hi. rewrite Hmid, Hh, Hl.
      destruct (probe_succeeds p); split; auto using Qle_refl. }
    split.
    { constructor; [exact Hin|].
      eapply Forall_impl; [exact Hbound|]. cbn. intros q [Hq1 Hq2].
      destruct Hnext. split; eapply Qle_trans; eassumption. }
    change (foldl record_probe acc (p :: p' :: ps))
      with (foldl record_probe (record_probe acc p) (p' :: ps)).
    destruct Hlast as [[Hacc Hfail]|(q & Hq & Hqs & Hres & Hmin)].
    + rewrite Hacc. unfold record_probe.
      destruct (probe_succeeds p) eqn:Hs.
      * right. exists p. split; [left|]. split; [exact Hs|].
        split; [reflexivity|].
        constructor; [intros _; apply Qle_refl|].
        eapply Forall_impl; [exact Hfail|]. cbn. intros q Hq Hq'. congruence.
      * left. split; [reflexivity|]. constructor; assumption.
    + right. exists q. split; [now right|]. split; [exact Hqs|].
      split; [exact Hres|]. constructor; [|exact Hmin].
      intros Hs. rewrite Forall_forall in Hbound.
      destruct (Hbound q Hq) as [_ Hqh].
      unfold next_hi in Hqh. now rewrite Hs in Hqh.
Qed.

End SearchReturned.

Section SearchReturnedFacts.
Context `{SlotModel}.

Lemma bisection_calls thr args (partitioner : partitioner_t) (ps : list probe) :
  ∀ h l, bisection thr args partitioner h l ps →
    Forall (fun p => partitioner (args (probe_mid p)) = Ok (probe_v2s p)) ps.
Proof.
  induction ps as [|p ps IH]; intros h l; [intros []|].
  cbn [bisection]. intros [(Hh & Hl & Hargs & Hcall) Hrest].
  constructor.
  - unfold probe_mid. rewrite Hh, Hl, <- Hargs. exact Hcall.
  - destruct ps as [|p' ps]; [constructor|]. destruct Hrest as [_ Hbis].
    eapply IH. exact Hbis.
Qed.

End SearchReturnedFacts.

(** Where the result of a search that returns comes from. *)
Lemma search_provenance `{SlotModel}
    (threshold : Q) (call_args : Q → list pyval) (partitioner : partitioner_t)
    (fuel : nat) (max_limit min_limit : Q) (s : search_state) :
  search threshold call_args partitioner fuel max_limit min_limit = Ok s →
  Forall (fun p => min_limit <= probe_mid p ∧ probe_mid p <= max_limit ∧
                   partitioner (call_args (probe_mid p)) = Ok (probe_v2s p))
         (probes s) ∧
  ((curr_best_v2s s = ∅ ∧ curr_min s = PNone ∧
    Forall (fun p => probe_v2s p = ∅) (probes s)) ∨
   (∃ c, curr_best_v2s s ≠ ∅ ∧ curr_min s = PNum c ∧
         min_limit <= c ∧ c <= max_limit ∧
         partitioner (call_args c) = Ok (curr_best_v2s s) ∧
         Forall (fun q => probe_v2s q ≠ ∅ → c <= probe_mid q) (probes s))).
Proof.
  intros Hrun. apply search_Ok in Hrun as (Hle & Hbis & Hbest).
  pose proof (bisection_calls _ _ _ _ _ _ Hbis) as Hcalls.
  destruct (bisection_least threshold call_args partitioner (probes s)
              max_limit min_limit (∅, PNone) Hle Hbis) as [Hbound Hlast].
  rewrite Forall_forall in Hbound, Hcalls.
  split.
  { apply Forall_forall. intros p Hp. destruct (Hbound p Hp).
    split; [assumption|]. split; [assumption|]. now apply Hcalls. }
  unfold last_success in Hbest.
  destruct Hlast as [[Hacc Hfail]|(p & Hp & Hs & Hres & Hmin)].
  - left. rewrite Hacc in Hbest. injection Hbest as -> ->.
    split; [reflexivity|]. split; [reflexivity|].
    eapply Forall_impl; [exact Hfail|]. cbn. intros q Hq.
    now apply dict_truthy_false.
  - right. rewrite Hres in Hbest. injection Hbest as -> ->.
    exists (probe_mid p). destruct (Hbound p Hp).
    split; [now apply dict_truthy_true|]. split; [reflexivity|].
    split; [assumption|]. split; [assumption|]. split; [now apply Hcalls|].
    eapply Forall_impl; [exact Hmin|]. cbn. intros q Hq Hne.
    apply Hq. now apply dict_truthy_true.
Qed.





(** ** [Partition.py]: where the result of the two search orders comes from *)

Section TwoPhases.
Context `{SlotModel}.
Variable partitioner : partitioner_t.
Variables (init_v2s : gmap vertex Slot) (slot_manager : SlotManager).
Variables (grouping_constraints : list (list vertex)).
Variable pre_assignments : gmap vertex Slot.
Variable max_search_time : Q.

(** The call of the partitioner at an area limit and a width limit. *)
Local Abbreviation call_at area width :=
  (partitioner
     [PDict init_v2s; PList grouping_constraints; PDict pre_assignments;
      PSlotManager slot_manager; PNum area; PNum width; PNum max_search_time]).

Lemma binary_search_area_limit_Ok (fuel : nat) (width : pyval)
    (min_area_limit max_area_limit : Q) (v2s : gmap vertex Slot) (limit : pyval) :
  _binary_search_area_limit fuel init_v2s slot_manager grouping_constraints
    pre_assignments width min_area_limit max_area_limit max_search_time
    partitioner = Ok (v2s, limit) →
  ∃ s, area_search fuel init_v2s slot_manager grouping_constraints
         pre_assignments width min_area_limit max_area_limit max_search_time
         partitioner = Ok s ∧
       v2s = curr_best_v2s s ∧ limit = curr_min s.
Proof.
  unfold _binary_search_area_limit. intros Hrun.
  apply bind_Ok in Hrun as (s & Hs & Hret). injection Hret as <- <-. eauto.
Qed.

Lemma binary_search_slr_crossing_limit_Ok (fuel : nat) (area : pyval)
    (min_slr_width_limit max_slr_width_limit : Q)
    (v2s : gmap vertex Slot) (limit : pyval) :
  _binary_search_slr_crossing_limit fuel init_v2s slot_manager
    grouping_constraints pre_assignments area min_slr_width_limit
    max_slr_width_limit max_search_time partitioner = Ok (v2s, limit) →
  ∃ s, slr_crossing_search fuel init_v2s slot_manager grouping_constraints
         pre_assignments area min_slr_width_limit max_slr_width_limit
         max_search_time partitioner = Ok s ∧
       v2s = curr_best_v2s s ∧ limit = curr_min s.
Proof.
  unfold _binary_search_slr_crossing_limit. intros Hrun.
  apply bind_Ok in Hrun as (s & Hs & Hret). injection Hret as <- <-. eauto.
Qed.

Lemma area_prioritized_Ok (fuel : nat)
    (min_area_limit max_area_limit min_slr_width_limit max_slr_width_limit : Q)
    (v2s : gmap vertex Slot) :
  partition_area_prioritized fuel init_v2s slot_manager grouping_constraints
    pre_assignments min_area_limit max_area_limit min_slr_width_limit
    max_slr_width_limit max_search_time partitioner = Ok v2s →
  ∃ s1,
    area_search fuel init_v2s slot_manager grouping_constraints
      pre_assignments (PNum max_slr_width_limit) min_area_limit max_area_limit
      max_search_time partitioner = Ok s1 ∧
    ((v2s = ∅ ∧ Forall (fun p => probe_v2s p = ∅) (probes s1)) ∨
     (∃ area width first,
        v2s ≠ ∅ ∧
        min_area_limit <= area ∧ area <= max_area_limit ∧
        min_slr_width_limit <= width ∧ width <= max_slr_width_limit ∧
        call_at area max_slr_width_limit = Ok first ∧ first ≠ ∅ ∧
        Forall (fun q => probe_v2s q ≠ ∅ → area <= probe_mid q) (probes s1) ∧
        call_at area width = Ok v2s)).
Proof.
  unfold partition_area_prioritized. intros Hrun.
  apply bind_Ok in Hrun as ([curr_v2s curr_area_limit] & Hfirst & Hrun).
  apply binary_search_area_limit_Ok in Hfirst as (s1 & Hs1 & -> & ->).
  exists s1. split; [exact Hs1|].
  pose proof Hs1 as Hs1'. unfold area_search in Hs1'.
  apply search_provenance in Hs1' as [_ Hres1].
  destruct Hres1 as [(Hempty & _ & Hall)|(area & Hne & Hmin & Ha1 & Ha2 & Hcall & Hleast)].
  - left. rewrite Hempty in Hrun. cbn in Hrun. injection Hrun as <-. auto.
  - right. apply dict_truthy_true in Hne as Htruthy. rewrite Htruthy in Hrun.
    cbn [negb] in Hrun.
    apply bind_Ok in Hrun as ([best_v2s curr_slr_limit] & Hsecond & Hrun).
    rewrite Hmin in Hsecond.
    apply binary_search_slr_crossing_limit_Ok in Hsecond as (s2 & Hs2 & -> & ->).
    pose proof Hs2 as Hs2'. unfold slr_crossing_search, search in Hs2'.
    destruct (Qleb min_slr_width_limit max_slr_width_limit) eqn:Hle;
      [|discriminate].
    clear Hs2'. apply Qleb_le in Hle.
    unfold slr_crossing_search in Hs2.
    apply search_provenance in Hs2 as [_ Hres2].
    destruct Hres2 as [(Hempty2 & _)|(width & Hne2 & _ & Hw1 & Hw2 & Hcall2 & _)].
    + rewrite Hempty2 in Hrun. cbn in Hrun. injection Hrun as <-.
      exists area, max_slr_width_limit, (curr_best_v2s s1).
      repeat split; try assumption. apply Qle_refl.
    + apply dict_truthy_true in Hne2 as Htruthy2. rewrite Htruthy2 in Hrun.
      cbn in Hrun. injection Hrun as <-.
      exists area, width, (curr_best_v2s s1). repeat split; assumption.
Qed.

Lemma slr_crossing_prioritized_Ok (fuel : nat)
    (min_area_limit max_area_limit min_slr_width_limit max_slr_width_limit : Q)
    (v2s : gmap vertex Slot) :
  partition_slr_crossing_prioritized fuel init_v2s slot_manager
    grouping_constraints pre_assignments min_area_limit max_area_limit
    min_slr_width_limit max_slr_width_limit max_search_time partitioner
  = Ok v2s →
  ∃ s1,
    slr_crossing_search fuel init_v2s slot_manager grouping_constraints
      pre_assignments (PNum max_area_limit) min_slr_width_limit
      max_slr_width_limit max_search_time partitioner = Ok s1 ∧
    ((v2s = ∅ ∧ Forall (fun p => probe_v2s p = ∅) (probes s1)) ∨
     (∃ area width first,
        v2s ≠ ∅ ∧
        min_area_limit <= area ∧ area <= max_area_limit ∧
        min_slr_width_limit <= width ∧ width <= max_slr_width_limit ∧
        call_at max_area_limit width = Ok first ∧ first ≠ ∅ ∧
        Forall (fun q => probe_v2s q ≠ ∅ → width <= probe_mid q) (probes s1) ∧
        call_at area width = Ok v2s)).
Proof.
  unfold partition_slr_crossing_prioritized. intros Hrun.
  apply bind_Ok in Hrun as ([curr_v2s curr_slr_limit] & Hfirst & Hrun).
  apply binary_search_slr_crossing_limit_Ok in Hfirst as (s1 & Hs1 & -> & ->).
  exists s1. split; [exact Hs1|].
  pose proof Hs1 as Hs1'. unfold slr_crossing_search in Hs1'.
  apply search_provenance in Hs1' as [_ Hres1].
  destruct Hres1 as [(Hempty & _ & Hall)|(width & Hne & Hmin & Hw1 & Hw2 & Hcall & Hleast)].
  - left. rewrite Hempty in Hrun. cbn in Hrun. injection Hrun as <-. auto.
  - right. apply dict_truthy_true in Hne as Htruthy. rewrite Htruthy in Hrun.
    cbn [negb] in Hrun.
    apply bind_Ok in Hrun as ([best_v2s curr_area_limit] & Hsecond & Hrun).
    rewrite Hmin in Hsecond.
    apply binary_search_area_limit_Ok in Hsecond as (s2 & Hs2 & -> & ->).
    pose proof Hs2 as Hs2'. unfold area_search, search in Hs2'.
    destruct (Qleb min_area_limit max_area_limit) eqn:Hle; [|discriminate].
    clear Hs2'. apply Qleb_le in Hle.
    unfold area_search in Hs2.
    apply search_provenance in Hs2 as [_ Hres2].
    destruct Hres2 as [(Hempty2 & _)|(area & Hne2 & _ & Ha1 & Ha2 & Hcall2 & _)].
    + rewrite Hempty2 in Hrun. cbn in Hrun. injection Hrun as <-.
      exists max_area_limit, width, (curr_best_v2s s1).
      repeat split; try assumption. apply Qle_refl.
    + apply dict_truthy_true in Hne2 as Htruthy2. rewrite Htruthy2 in Hrun.
      cbn in Hrun. injection Hrun as <-.
      exists area, width, (curr_best_v2s s1). repeat split; assumption.
Qed.

End TwoPhases.





(** ** [Partition.py]: the entry point with the four-way partitioner *)

Section PartitionFourWay.
Context `{Environment}.

(** A probe of either search, received by [four_way_partition]. *)
Lemma four_way_partition_probe_raises (fuel : nat)
    (init_v2s : gmap vertex Slot) (slot_manager : SlotManager)
    (grouping_constraints : list (list vertex)) (pre_assignments : gmap vertex Slot)
    (a5 a6 a7 : pyval) :
  four_way_partition (S fuel)
    [PDict init_v2s; PList grouping_constraints; PDict pre_assignments;
     PSlotManager slot_manager; a5; a6; a7]
  = Raise (AttributeError "getLeafSlotsAfterPartition").
Proof.
  unfold four_way_partition.
  cbn [bind_four_way_partition mbind result_bind].
  change (four_way_loop ?f (S fuel) ?c)
    with (v2s ← _four_way_partition (inner_call f c);
          if negb (dict_truthy v2s) then
            a ← as_number c;
            d ← as_number (f_max_usage_ratio_delta f);
            let curr_max_usage := py_round2 (a + d) in
            h ← as_number (f_hard_limit_max_usage f);
            if Qleb h curr_max_usage then mret ∅
            else four_way_loop f fuel (PNum curr_max_usage)
          else mret v2s).
  erewrite (four_way_partition_call_list_for_manager _ init_v2s
              grouping_constraints); reflexivity.
Qed.

(** A search whose first call raises. *)
Lemma search_first_call_raises (threshold : Q) (call_args : Q → list pyval)
    (partitioner : partitioner_t) (fuel : nat) (max_limit min_limit : Q) (e : exn) :
  (∀ c, partitioner (call_args c) = Raise e) →
  search threshold call_args partitioner (S fuel) max_limit min_limit
  = if Qleb min_limit max_limit then Raise e
    else Raise (AssertionError "lo <= hi").
Proof.
  intros Hcall. unfold search. destruct (Qleb min_limit max_limit); [|reflexivity].
  cbn [search_loop]. unfold search_iteration. rewrite Hcall. reflexivity.
Qed.

End PartitionFourWay.


(** ** Dictionaries whose keys are compared with [==] *)

Section DictFacts.
Context {K V : Type} `{EqDecision K}.
Implicit Types (d : list (K * V)) (k : K) (v : V).

Lemma dict_lookup_set_eq d k v : dict_lookup (dict_set d k v) k = Ok v.
Proof.
  induction d as [|[k' v'] d IH]; cbn.
  - now rewrite decide_True.
  - destruct (decide (k = k')) as [->|Hne]; cbn.
    + now rewrite decide_True.
    + now rewrite decide_False.
Qed.

Lemma dict_lookup_set_ne d k k' v :
  k ≠ k' → dict_lookup (dict_set d k v) k' = dict_lookup d k'.
Proof.
  intros Hne. induction d as [|[k0 v0] d IH]; cbn.
  - rewrite decide_False; [reflexivity|congruence].
  - destruct (decide (k = k0)) as [->|Hne0]; cbn.
    + rewrite !decide_False; [reflexivity|congruence..].
    + destruct (decide (k' = k0)); [reflexivity|exact IH].
Qed.

Lemma dict_lookup_Ok_key d k v : dict_lookup d k = Ok v → k ∈ d.*1.
Proof.
  induction d as [|[k' v'] d IH]; cbn; [discriminate|].
  destruct (decide (k = k')) as [->|Hne]; intros Hl.
  - apply list_elem_of_here.
  - apply list_elem_of_further. auto.
Qed.

Lemma dict_lookup_key d k : k ∈ d.*1 → ∃ v, dict_lookup d k = Ok v.
Proof.
  induction d as [|[k' v'] d IH]; cbn; [intros Hin; inversion Hin|].
  intros Hin. destruct (decide (k = k')) as [->|Hne]; [eauto|].
  apply IH. inversion Hin; subst; [congruence|assumption].
Qed.

Lemma dict_set_keys d k v :
  (dict_set d k v).*1 = if bool_decide (k ∈ d.*1) then d.*1 else d.*1 ++ [k].
Proof.
  induction d as [|[k' v'] d IH]; cbn.
  - rewrite bool_decide_eq_false_2; [reflexivity|]. intros Hin; inversion Hin.
  - destruct (decide (k = k')) as [->|Hne]; cbn.
    + rewrite bool_decide_eq_true_2; [reflexivity|apply list_elem_of_here].
    + rewrite IH. destruct (bool_decide (k ∈ d.*1)) eqn:Hin.
      * apply bool_decide_eq_true in Hin.
        rewrite bool_decide_eq_true_2; [reflexivity|now apply list_elem_of_further].
      * apply bool_decide_eq_false in Hin.
        rewrite bool_decide_eq_false_2; [reflexivity|].
        intros Hin'. inversion Hin'; subst; congruence.
Qed.

Lemma dict_set_NoDup d k v : NoDup d.*1 → NoDup (dict_set d k v).*1.
Proof.
  intros Hnd. rewrite dict_set_keys. destruct (bool_decide (k ∈ d.*1)) eqn:Hin;
    [exact Hnd|].
  apply bool_decide_eq_false in Hin. apply NoDup_app. split; [exact Hnd|].
  split; [|apply NoDup_singleton].
  intros x Hx Hx'. apply list_elem_of_singleton in Hx'. subst. contradiction.
Qed.

(** A loop of assignments [d[key(x)] = x]: a key is bound to the last item
    that produced it. *)
Lemma dict_fill_Ok {A} (key : A → result K) (val : A → V) (l : list A) :
  ∀ acc d,
    for_each l (fun x acc => k ← key x; mret (dict_set acc k (val x))) acc = Ok d →
    (NoDup acc.*1 → NoDup d.*1) ∧
    ∀ k v, dict_lookup d k = Ok v ↔
      (∃ l1 x l2, l = l1 ++ x :: l2 ∧ key x = Ok k ∧ v = val x ∧
                  ∀ y, y ∈ l2 → key y ≠ Ok k) ∨
      (dict_lookup acc k = Ok v ∧ ∀ y, y ∈ l → key y ≠ Ok k).
Proof.
  induction l as [|x l IH]; intros acc d; cbn [for_each].
  - intros [= <-]. split; [auto|]. intros k v. split.
    + intros Hl. right. split; [exact Hl|]. intros y Hy. inversion Hy.
    + intros [(l1 & x & l2 & Heq & _)|[Hl _]]; [|exact Hl].
      destruct l1; discriminate.
  - intros Hrun. apply bind_Ok in Hrun as (acc' & Hstep & Hrun).
    apply bind_Ok in Hstep as (kx & Hkx & Hret). injection Hret as <-.
    apply IH in Hrun as [Hnd Hrun]. split.
    { intros Hacc. apply Hnd. now apply dict_set_NoDup. }
    intros k v. rewrite Hrun. split.
    + intros [(l1 & y & l2 & -> & Hy & Hv & Hlast)|[Hl Hnone]].
      * left. exists (x :: l1), y, l2. auto.
      * destruct (decide (kx = k)) as [->|Hne].
        -- rewrite dict_lookup_set_eq in Hl. injection Hl as <-.
           left. exists [], x, l. auto.
        -- rewrite dict_lookup_set_ne in Hl by exact Hne.
           right. split; [exact Hl|]. intros y Hy.
           inversion Hy; subst; [congruence|auto].
    + intros [(l1 & y & l2 & Heq & Hy & Hv & Hlast)|[Hl Hnone]].
      * destruct l1 as [|x' l1]; cbn in Heq; injection Heq as -> ->.
        -- right. split; [|exact Hlast].
           rewrite Hkx in Hy. injection Hy as ->. rewrite Hv.
           apply dict_lookup_set_eq.
        -- left. exists l1, y, l2. auto.
      * right. split.
        -- rewrite dict_lookup_set_ne; [exact Hl|].
           intros ->. apply (Hnone x); [apply list_elem_of_here|exact Hkx].
        -- intros y Hy. apply Hnone. now apply list_elem_of_further.
Qed.

End DictFacts.

(** ** [FourWayPartition.py]: leaves and their indices *)

Section SlotIndex.
Context `{SlotModel}.

Lemma get_slot_to_idx_fill (func : Z → Z → result Slot) :
  _get_slot_to_idx func =
  for_each product22
    (fun x acc => k ← func x.1 x.2; mret (dict_set acc k (id x))) [].
Proof. reflexivity. Qed.

(** Later in [product(range(2), range(2))] is a larger index. *)
Lemma product22_split (l1 l2 : list (Z * Z)) (p : Z * Z) :
  product22 = l1 ++ p :: l2 →
  p ∈ product22 ∧
  ∀ q, q ∈ product22 →
    (q ∈ l2 ↔ (p.1 * 2 + p.2 < q.1 * 2 + q.2)%Z).
Proof.
  unfold product22. intros Heq.
  destruct l1 as [|x1 [|x2 [|x3 [|x4 l1]]]]; cbn in Heq.
  5: { exfalso. destruct l1; discriminate. }
  all: simplify_eq; split;
    [apply list_elem_of_In; cbn; tauto|];
    intros q Hq; apply list_elem_of_In in Hq; rewrite list_elem_of_In;
    cbn in Hq |- *;
    intuition (subst; cbn in *; try discriminate; try lia; auto).
Qed.

End SlotIndex.

Section SlotIndexFacts.
Context `{SlotModel}.

Lemma get_slot_to_idx_Ok (func : Z → Z → result Slot) (d : list (Slot * (Z * Z))) :
  _get_slot_to_idx func = Ok d →
  NoDup d.*1 ∧
  ∀ s y1 y2,
    dict_lookup d s = Ok (y1, y2) ↔
    (y1, y2) ∈ product22 ∧ func y1 y2 = Ok s ∧
    ∀ y1' y2', (y1', y2') ∈ product22 → func y1' y2' = Ok s →
               (y1' * 2 + y2' <= y1 * 2 + y2)%Z.
Proof.
  rewrite get_slot_to_idx_fill. intros Hrun.
  apply (dict_fill_Ok (fun x => func x.1 x.2) id) in Hrun as [Hnd Hrun].
  split; [apply Hnd; constructor|].
  intros s y1 y2. rewrite Hrun. split.
  - intros [(l1 & [x1 x2] & l2 & Hsplit & Hx & Hv & Hlast)|[Hl _]];
      [|discriminate].
    cbn in Hv, Hx. injection Hv as <- <-.
    apply product22_split in Hsplit as [Hin Hafter]. cbn in Hafter.
    split; [exact Hin|]. split; [exact Hx|].
    intros y1' y2' Hin' Hy.
    destruct (Z_lt_le_dec (y1 * 2 + y2) (y1' * 2 + y2')) as [Hlt|Hle];
      [|exact Hle].
    exfalso. apply (Hlast (y1', y2')); [|exact Hy].
    apply Hafter; [exact Hin'|exact Hlt].
  - intros (Hin & Hx & Hlast). left.
    apply list_elem_of_split in Hin as (l1 & l2 & Hsplit).
    exists l1, (y1, y2), l2. split; [exact Hsplit|]. split; [exact Hx|].
    split; [reflexivity|].
    pose proof Hsplit as Hsplit'.
    apply product22_split in Hsplit as [Hin Hafter].
    intros [y1' y2'] Hy Hk.
    assert (Hin' : (y1', y2') ∈ product22).
    { rewrite Hsplit'. apply elem_of_app. right. now apply list_elem_of_further. }
    apply Hafter in Hy; [|exact Hin']. cbn in Hy.
    specialize (Hlast _ _ Hin' Hk). lia.
Qed.

(** The closure on a slot manager with at least four leaves. *)
Lemma closure_four_leaves (a b c d : Slot) (rest : list Slot) :
  let leaves := a :: b :: c :: d :: rest in
  py_index leaves (0 * 2 + 0) = Ok a ∧ py_index leaves (0 * 2 + 1) = Ok b ∧
  py_index leaves (1 * 2 + 0) = Ok c ∧ py_index leaves (1 * 2 + 1) = Ok d.
Proof.
  intros leaves. unfold leaves.
  repeat split;
    match goal with
    | |- py_index ?l ?i = _ =>
        destruct (py_index_in_range l i) as (s & -> & Hs);
        [cbn [length]; lia|cbv in Hs; congruence]
    end.
Qed.

End SlotIndexFacts.

(** X7: the closure of [_get_slot_by_idx_closure] reads the leaf of index
    [2 * y1 + y2]; with fewer than four leaves [_get_slot_to_idx] raises
    [IndexError]; with four or more it returns a dictionary that sends a
    slot to a pair exactly when the pair is the last one of
    [product(range(2), range(2))] whose leaf equals the slot, so that the
    closure inverts it, and it inverts the closure when the first four
    leaves are pairwise different. *)
Theorem slot_to_idx_inverts_closure `{SlotModel} (sm : SlotManager) :
  let leaves := getLeafSlotsAfterPartition sm [horizontal; horizontal] in
  ∃ func,
    _get_slot_by_idx_closure (PSlotManager sm) = Ok func ∧
    ((length leaves < 4)%nat → _get_slot_to_idx func = Raise IndexError) ∧
    ((4 ≤ length leaves)%nat →
     ∃ slot_to_idx,
       _get_slot_to_idx func = Ok slot_to_idx ∧
       NoDup slot_to_idx.*1 ∧
       (∀ s y1 y2,
          dict_lookup slot_to_idx s = Ok (y1, y2) ↔
          (y1, y2) ∈ product22 ∧ func y1 y2 = Ok s ∧
          ∀ y1' y2', (y1', y2') ∈ product22 → func y1' y2' = Ok s →
                     (y1' * 2 + y2' <= y1 * 2 + y2)%Z) ∧
       (NoDup (take 4 leaves) →
        ∀ y1 y2 s, (y1, y2) ∈ product22 → func y1 y2 = Ok s →
                   dict_lookup slot_to_idx s = Ok (y1, y2))).
Proof.
  intros leaves. exists (fun y1 y2 => py_index leaves (y1 * 2 + y2)).
  split; [reflexivity|]. split.
  - intros Hlen.
    destruct leaves as [|a [|b [|c [|d rest]]]]; [reflexivity..|].
    cbn [length] in Hlen. lia.
  - intros Hlen.
    destruct leaves as [|a [|b [|c [|d rest]]]]; [cbn [length] in Hlen; lia..|].
    destruct (closure_four_leaves a b c d rest) as (H00 & H01 & H10 & H11).
    cbn zeta in H00, H01, H10, H11.
    eexists. split.
    { unfold _get_slot_to_idx. cbn [for_each product22]. cbn beta.
      rewrite H00. cbn [mbind result_bind]. rewrite H01. cbn [mbind result_bind].
      rewrite H10. cbn [mbind result_bind]. rewrite H11. reflexivity. }
    match goal with |- context [NoDup (?x.*1)] => set (slot_to_idx := x) end.
    assert (Hrun : _get_slot_to_idx
                     (fun y1 y2 => py_index (a :: b :: c :: d :: rest) (y1 * 2 + y2))
                   = Ok slot_to_idx).
    { unfold _get_slot_to_idx. cbn [for_each product22]. cbn beta.
      rewrite H00. cbn [mbind result_bind]. rewrite H01. cbn [mbind result_bind].
      rewrite H10. cbn [mbind result_bind]. rewrite H11. reflexivity. }
    clearbody slot_to_idx.
    apply get_slot_to_idx_Ok in Hrun as [Hnd Hchar].
    split; [exact Hnd|]. split; [exact Hchar|].
    intros Hdistinct y1 y2 s Hin Hs. apply Hchar.
    split; [exact Hin|]. split; [exact Hs|].
    intros y1' y2' Hin' Hs'. cbn [take] in Hdistinct.
    apply list_elem_of_In in Hin, Hin'. cbn in Hin, Hin'.
    destruct Hin as [Hp|[Hp|[Hp|[Hp|[]]]]]; injection Hp as <- <-;
      destruct Hin' as [Hq|[Hq|[Hq|[Hq|[]]]]]; injection Hq as <- <-;
      try lia; exfalso; cbn beta in Hs, Hs';
      rewrite ?H00, ?H01, ?H10, ?H11 in Hs;
      rewrite ?H00, ?H01, ?H10, ?H11 in Hs';
      injection Hs as <-; injection Hs' as Heq; subst;
      first
        [ discriminate (NoDup_lookup _ 0 1 _ Hdistinct eq_refl eq_refl)
        | discriminate (NoDup_lookup _ 0 2 _ Hdistinct eq_refl eq_refl)
        | discriminate (NoDup_lookup _ 0 3 _ Hdistinct eq_refl eq_refl)
        | discriminate (NoDup_lookup _ 1 2 _ Hdistinct eq_refl eq_refl)
        | discriminate (NoDup_lookup _ 1 3 _ Hdistinct eq_refl eq_refl)
        | discriminate (NoDup_lookup _ 2 3 _ Hdistinct eq_refl eq_refl) ].
Qed.


(** ** [FourWayPartition.py]: grouping constraints *)

(** A loop that threads no value returns when every iteration does, and
    raises what the first failing iteration raises. *)
Lemma ilp_for_unit_first_failure {A} (l : list A) (body : A → unit → ilp unit)
    (P : A → Prop) (err : A → exn) :
  (∀ x, P x ∨ ¬ P x) →
  (∀ x m, P x → ∃ m', body x tt m = Ok (tt, m')) →
  (∀ x m, ¬ P x → body x tt m = Raise (err x)) →
  ∀ m, (Forall P l ∧ ∃ m', ilp_for l body tt m = Ok (tt, m')) ∨
       (∃ x, x ∈ l ∧ ¬ P x ∧ ilp_for l body tt m = Raise (err x)).
Proof.
  intros Hdec Hok Hraise. induction l as [|x l IH]; intros m.
  - left. split; [constructor|]. exists m. reflexivity.
  - cbn [ilp_for]. rewrite ilp_bind_unfold.
    destruct (Hdec x) as [Hx|Hx].
    + destruct (Hok x m Hx) as [m1 ->].
      destruct (IH m1) as [[Hall Hrun]|(y & Hy & Hnot & Hrun)].
      * left. split; [now constructor|exact Hrun].
      * right. exists y. split; [now apply list_elem_of_further|auto].
    + right. exists x. rewrite (Hraise x m Hx).
      split; [apply list_elem_of_here|auto].
Qed.

Lemma ilp_for_unit_outcome {A} (l : list A) (body : A → unit → ilp unit)
    (P : A → Prop) (e : exn) :
  (∀ x, P x ∨ ¬ P x) →
  (∀ x m, P x → ∃ m', body x tt m = Ok (tt, m')) →
  (∀ x m, ¬ P x → body x tt m = Raise e) →
  ∀ m, (Forall P l ∧ ∃ m', ilp_for l body tt m = Ok (tt, m')) ∨
       (¬ Forall P l ∧ ilp_for l body tt m = Raise e).
Proof.
  intros Hdec Hok Hraise m.
  destruct (ilp_for_unit_first_failure l body P (fun _ => e) Hdec Hok Hraise m)
    as [Hall|(x & Hx & Hnot & Hrun)]; [now left|right].
  split; [|exact Hrun]. rewrite Forall_forall. intros Hall. exact (Hnot (Hall x Hx)).
Qed.

Section Grouping.
Variables v2var_y1 v2var_y2 : gmap vertex nat.

Local Abbreviation known := (has_position_vars v2var_y1 v2var_y2).

Lemma has_position_vars_dec (v : vertex) : known v ∨ ¬ known v.
Proof.
  unfold has_position_vars.
  destruct (v2var_y1 !! v), (v2var_y2 !! v); first [left; split; eauto; fail | right; intros [[] []]; discriminate].
Qed.

(** The body of [for v2var in [v2var_y1, v2var_y2]] for the pair of
    [grouping[0]] and [grouping[i]]. *)
Local Abbreviation tie g0 gi :=
  (ilp_for [v2var_y1; v2var_y2]
     (fun (v2var : gmap vertex nat) (_ : unit) =>
        a ← lift (dict_get v2var g0);
        b ← lift (dict_get v2var gi);
        add_constr (CEq (LVar a) (LVar b)))
     tt).

Lemma tie_Ok (g0 gi : vertex) (m m' : Model) (u : unit) :
  tie g0 gi m = Ok (u, m') →
  ∃ a a' b b',
    v2var_y1 !! g0 = Some a ∧ v2var_y1 !! gi = Some a' ∧
    v2var_y2 !! g0 = Some b ∧ v2var_y2 !! gi = Some b' ∧
    CEq (LVar a) (LVar a') ∈ m_constrs m' ∧
    CEq (LVar b) (LVar b') ∈ m_constrs m' ∧
    m_vars m' = m_vars m.
Proof.
  cbn [ilp_for]. intros Hrun.
  apply ilp_bind_Ok in Hrun as ([] & m1 & H1 & Hrun).
  apply ilp_bind_Ok in Hrun as ([] & m2 & H2 & Hrun).
  injection Hrun as <- <-.
  apply ilp_bind_Ok in H1 as (a & k1 & Ha & H1).
  apply ilp_bind_Ok in H1 as (a' & k2 & Ha' & H1).
  apply lift_Ok in Ha as [Ha ->]. apply lift_Ok in Ha' as [Ha' ->].
  apply ilp_bind_Ok in H2 as (b & k3 & Hb & H2).
  apply ilp_bind_Ok in H2 as (b' & k4 & Hb' & H2).
  apply lift_Ok in Hb as [Hb ->]. apply lift_Ok in Hb' as [Hb' ->].
  apply dict_get_Ok in Ha, Ha', Hb, Hb'.
  apply add_constr_Ok in H1 as (Hc1 & Hv1 & He1).
  apply add_constr_Ok in H2 as (Hc2 & Hv2 & He2).
  exists a, a', b, b'. repeat (split; [assumption|]).
  split; [eapply extends_constr; eassumption|].
  split; [exact Hc2|congruence].
Qed.

Lemma tie_known (g0 gi : vertex) (m : Model) :
  known g0 → known gi → ∃ m', tie g0 gi m = Ok (tt, m').
Proof.
  intros [[a Ha] [b Hb]] [[a' Ha'] [b' Hb']]. cbn [ilp_for].
  eexists. rewrite !ilp_bind_unfold. unfold dict_get. rewrite Ha. cbn [lift].
  rewrite ilp_bind_unfold. rewrite Ha'. cbn [lift].
  cbn [add_constr]. rewrite !ilp_bind_unfold. rewrite Hb. cbn [lift].
  rewrite ilp_bind_unfold. rewrite Hb'. cbn [lift]. reflexivity.
Qed.

Lemma tie_unknown (g0 gi : vertex) (m : Model) :
  ¬ (known g0 ∧ known gi) → tie g0 gi m = Raise KeyError.
Proof.
  intros Hnot. cbn [ilp_for]. rewrite !ilp_bind_unfold. unfold dict_get.
  destruct (v2var_y1 !! g0) as [a|] eqn:Ha; cbn [lift]; [|reflexivity].
  rewrite ilp_bind_unfold.
  destruct (v2var_y1 !! gi) as [a'|] eqn:Ha'; cbn [lift]; [|reflexivity].
  cbn [add_constr]. rewrite !ilp_bind_unfold.
  destruct (v2var_y2 !! g0) as [b|] eqn:Hb; cbn [lift]; [|reflexivity].
  rewrite ilp_bind_unfold.
  destruct (v2var_y2 !! gi) as [b'|] eqn:Hb'; cbn [lift]; [|reflexivity].
  exfalso. apply Hnot. unfold has_position_vars. rewrite Ha, Ha', Hb, Hb'. eauto.
Qed.

Local Abbreviation group_known := (group_known v2var_y1 v2var_y2).

Lemma group_known_members (g : list vertex) :
  group_known g ↔ ((2 ≤ length g)%nat → ∀ v, v ∈ g → known v).
Proof.
  destruct g as [|g0 [|g1 rest]]; cbn [group_known length].
  - split; [intros _ Hlen; lia|auto].
  - split; [intros _ Hlen; lia|constructor].
  - rewrite Forall_forall. split.
    + intros Hall _ v Hv. apply elem_of_cons in Hv as [->|Hv].
      * apply (Hall g1). apply list_elem_of_here.
      * now apply Hall.
    + intros Hall gi Hgi. split; apply Hall; try lia.
      * apply list_elem_of_here.
      * now apply list_elem_of_further.
Qed.

Lemma add_grouping_constraints_outcome (groups : list (list vertex)) (m : Model) :
  (Forall group_known groups ∧
   ∃ m', _add_grouping_constraints groups v2var_y1 v2var_y2 m = Ok (tt, m')) ∨
  (¬ Forall group_known groups ∧
   _add_grouping_constraints groups v2var_y1 v2var_y2 m = Raise KeyError).
Proof.
  unfold _add_grouping_constraints.
  apply (ilp_for_unit_outcome groups _ group_known KeyError).
  - intros [|g0 rest]; cbn [group_known]; [now left|].
    induction rest as [|gi rest IH]; [left; constructor|].
    destruct IH as [IH|IH].
    + destruct (has_position_vars_dec g0) as [H0|H0];
        [destruct (has_position_vars_dec gi) as [Hi|Hi]|].
      * left. constructor; auto.
      * right. intros Hall. inversion Hall; subst. tauto.
      * right. intros Hall. inversion Hall; subst. tauto.
    + right. intros Hall. inversion Hall; subst. tauto.
  - intros [|g0 rest] m0 Hg; [eexists; reflexivity|]. cbn [group_known] in Hg.
    destruct (ilp_for_unit_outcome rest
                (fun gi (_ : unit) => tie g0 gi)
                (fun gi => known g0 ∧ known gi) KeyError) with (m := m0)
      as [[_ Hrun]|[Hnot _]]; [| | |exact Hrun|contradiction].
    + intros gi. destruct (has_position_vars_dec g0), (has_position_vars_dec gi);
        tauto.
    + intros gi m1 [H0 Hi]. now apply tie_known.
    + intros gi m1 Hnot. now apply tie_unknown.
  - intros [|g0 rest] m0 Hg; [exfalso; apply Hg; exact I|]. cbn [group_known] in Hg.
    destruct (ilp_for_unit_outcome rest
                (fun gi (_ : unit) => tie g0 gi)
                (fun gi => known g0 ∧ known gi) KeyError) with (m := m0)
      as [[Hall _]|[_ Hrun]]; [| | |contradiction|exact Hrun].
    + intros gi. destruct (has_position_vars_dec g0), (has_position_vars_dec gi);
        tauto.
    + intros gi m1 [H0 Hi]. now apply tie_known.
    + intros gi m1 Hnot. now apply tie_unknown.
Qed.

Lemma add_grouping_constraints_Ok (groups : list (list vertex))
    (m m' : Model) (u : unit) :
  _add_grouping_constraints groups v2var_y1 v2var_y2 m = Ok (u, m') →
  ∀ g0 rest gi, g0 :: rest ∈ groups → gi ∈ rest →
    ∃ a a' b b',
      v2var_y1 !! g0 = Some a ∧ v2var_y1 !! gi = Some a' ∧
      v2var_y2 !! g0 = Some b ∧ v2var_y2 !! gi = Some b' ∧
      CEq (LVar a) (LVar a') ∈ m_constrs m' ∧
      CEq (LVar b) (LVar b') ∈ m_constrs m'.
Proof.
  unfold _add_grouping_constraints. intros Hrun g0 rest gi Hg Hgi.
  eapply ilp_for_unit_iterations in Hrun as (m1 & m2 & _ & Hgroup & Hext2);
    [|intros [|g1 r1]; solve_extends|exact Hg].
  cbn beta iota in Hgroup.
  eapply ilp_for_unit_iterations in Hgroup as (m3 & m4 & _ & Hpair & Hext4);
    [|intros x; solve_extends|exact Hgi].
  apply tie_Ok in Hpair as (a & a' & b & b' & ? & ? & ? & ? & Hc1 & Hc2 & _).
  exists a, a', b, b'. repeat (split; [assumption|]).
  assert (Hext : extends m4 m') by (etrans; eassumption).
  split; (eapply extends_constr; [exact Hext|assumption]).
Qed.

End Grouping.

Lemma position_of_tied (σ : nat → Z) (y1 y2 : gmap vertex nat) (v w : vertex)
    (a a' b b' : nat) :
  y1 !! v = Some a → y1 !! w = Some a' → y2 !! v = Some b → y2 !! w = Some b' →
  holds σ (CEq (LVar a) (LVar a')) → holds σ (CEq (LVar b) (LVar b')) →
  position_of σ y1 y2 v = Some (σ a, σ b) ∧
  position_of σ y1 y2 w = Some (σ a, σ b).
Proof.
  intros Ha Ha' Hb Hb' H1 H2. unfold position_of.
  rewrite Ha, Ha', Hb, Hb'. cbn [holds eval] in H1, H2.
  pose proof (proj1 (inject_Z_injective _ _) H1) as E1.
  pose proof (proj1 (inject_Z_injective _ _) H2) as E2.
  rewrite E1, E2. auto.
Qed.

(** Members of a group share their pair in every feasible assignment. *)
Lemma grouping_positions
    (grouping_constraints : list (list vertex))
    (v2var_y1 v2var_y2 : gmap vertex nat) (m m' : Model) (u : unit) :
  _add_grouping_constraints grouping_constraints v2var_y1 v2var_y2 m
  = Ok (u, m') →
  ∀ σ, feasible σ m' →
    ∀ grouping v w,
      grouping ∈ grouping_constraints → v ∈ grouping → w ∈ grouping → v ≠ w →
      ∃ p, position_of σ v2var_y1 v2var_y2 v = Some p ∧
           position_of σ v2var_y1 v2var_y2 w = Some p.
Proof.
  intros Hrun σ Hσ [|g0 rest] v w Hg Hv Hw Hne; [inversion Hv|].
  pose proof (add_grouping_constraints_Ok _ _ _ _ _ _ Hrun g0 rest) as Hpairs.
  assert (Hpos : ∀ gi, gi ∈ rest →
            ∃ p, position_of σ v2var_y1 v2var_y2 g0 = Some p ∧
                 position_of σ v2var_y1 v2var_y2 gi = Some p).
  { intros gi Hgi.
    destruct (Hpairs gi Hg Hgi) as (a & a' & b & b' & ? & ? & ? & ? & Hc1 & Hc2).
    exists (σ a, σ b). eapply position_of_tied; try eassumption;
      eapply feasible_holds; eassumption. }
  apply elem_of_cons in Hv as [->|Hv]; apply elem_of_cons in Hw as [->|Hw].
  - contradiction.
  - apply Hpos, Hw.
  - destruct (Hpos v Hv) as (p & ? & ?). eauto.
  - destruct (Hpos v Hv) as (p & H0 & ?), (Hpos w Hw) as (q & H0' & ?).
    rewrite H0 in H0'. injection H0' as <-. eauto.
Qed.

(** X8: in a model that [_add_grouping_constraints] has extended, every
    feasible assignment gives the same pair [(y1, y2)] to any two members of
    a group. *)
Theorem grouping_constraints_tie_positions
    (grouping_constraints : list (list vertex))
    (v2var_y1 v2var_y2 : gmap vertex nat) (m m' : Model) (u : unit) :
  _add_grouping_constraints grouping_constraints v2var_y1 v2var_y2 m
  = Ok (u, m') →
  ∀ σ, feasible σ m' →
    ∀ grouping v w,
      grouping ∈ grouping_constraints → v ∈ grouping → w ∈ grouping → v ≠ w →
      ∃ p, position_of σ v2var_y1 v2var_y2 v = Some p ∧
           position_of σ v2var_y1 v2var_y2 w = Some p.
Proof. apply grouping_positions. Qed.

Lemma grouping_constraints_tie_positions_witness :
  ∃ m' p,
    _add_grouping_constraints [["A"; "B"]%string] example_y1 example_y2 new_model
    = Ok (tt, m') ∧
    feasible (fun _ => 0%Z) m' ∧
    position_of (fun _ => 0%Z) example_y1 example_y2 "A" = Some p ∧
    position_of (fun _ => 0%Z) example_y1 example_y2 "B" = Some p.
Proof.
  exists (mkModel [] [CEq (LVar 0) (LVar 2); CEq (LVar 1) (LVar 3)] None).
  assert (Hrun :
    _add_grouping_constraints [["A"; "B"]%string] example_y1 example_y2 new_model
    = Ok (tt, mkModel [] [CEq (LVar 0) (LVar 2); CEq (LVar 1) (LVar 3)] None))
    by (vm_compute; reflexivity).
  assert (Hσ : feasible (fun _ : nat => 0%Z)
                 (mkModel [] [CEq (LVar 0) (LVar 2); CEq (LVar 1) (LVar 3)] None)).
  { split; [intros x [n Hx]; discriminate|].
    repeat constructor. }
  destruct (grouping_constraints_tie_positions _ _ _ _ _ _ Hrun _ Hσ
              ["A"; "B"]%string "A"%string "B"%string) as (p & HA & HB).
  - apply list_elem_of_here.
  - apply list_elem_of_here.
  - apply list_elem_of_further, list_elem_of_here.
  - discriminate.
  - exists p. auto.
Defined.

(** X9: [_add_grouping_constraints] returns exactly when both position
    variables exist for every member of every group of two or more vertices,
    and raises [KeyError] otherwise; a group of fewer than two vertices is
    never looked up. *)
Theorem grouping_constraints_unknown_member
    (grouping_constraints : list (list vertex))
    (v2var_y1 v2var_y2 : gmap vertex nat) (m : Model) :
  let all_known :=
    ∀ grouping, grouping ∈ grouping_constraints → (2 ≤ length grouping)%nat →
      ∀ v, v ∈ grouping → has_position_vars v2var_y1 v2var_y2 v in
  ((∃ m', _add_grouping_constraints grouping_constraints v2var_y1 v2var_y2 m
          = Ok (tt, m')) ↔ all_known) ∧
  (_add_grouping_constraints grouping_constraints v2var_y1 v2var_y2 m
   = Raise KeyError ↔ ¬ all_known).
Proof.
  intros all_known.
  assert (Hequiv : Forall (group_known v2var_y1 v2var_y2) grouping_constraints
                   ↔ all_known).
  { rewrite Forall_forall. unfold all_known. split.
    - intros Hall g Hg. apply group_known_members. now apply Hall.
    - intros Hall g Hg. apply group_known_members. now apply Hall. }
  rewrite <- Hequiv.
  destruct (add_grouping_constraints_outcome v2var_y1 v2var_y2
              grouping_constraints m) as [[Hall [m' Hrun]]|[Hnot Hrun]].
  - split; split; try tauto.
    + eauto.
    + rewrite Hrun. discriminate.
  - split; split; try tauto.
    + intros [m' Hm']. rewrite Hrun in Hm'. discriminate.
Qed.

(** ** [FourWayPartition.py]: pre-assignments *)

(** A loop that threads no value returns when its iterations do. *)
Lemma ilp_for_unit_total {A} (l : list A) (body : A → unit → ilp unit) :
  (∀ x m, x ∈ l → ∃ m', body x tt m = Ok (tt, m')) →
  ∀ m, ∃ m', ilp_for l body tt m = Ok (tt, m').
Proof.
  induction l as [|x l IH]; intros Hbody m; [eexists; reflexivity|].
  cbn [ilp_for]. rewrite ilp_bind_unfold.
  destruct (Hbody x m) as [m1 ->]; [apply list_elem_of_here|].
  apply IH. intros y m0 Hy. apply Hbody. now apply list_elem_of_further.
Qed.

Section PreAssignmentFacts.
Context `{SlotModel}.
Variable v_list : list vertex.
Variable slot_to_idx : list (Slot * (Z * Z)).
Variables v2var_y1 v2var_y2 : gmap vertex nat.

(** The body of [for avail_slot in slot_to_idx.keys()]. *)
Local Abbreviation pin v expect_slot :=
  (fun (avail_slot : Slot) (_ : unit) =>
     if containsChildSlot avail_slot expect_slot then
       '(y1, y2) ← lift (dict_lookup slot_to_idx avail_slot);
       x1 ← lift (dict_get v2var_y1 v);
       _ ← add_constr (CEq (LVar x1) (LConst (inject_Z y1)));
       x2 ← lift (dict_get v2var_y2 v);
       add_constr (CEq (LVar x2) (LConst (inject_Z y2)))
     else mret tt).

Lemma pin_extends v expect_slot avail_slot :
  ilp_extends (pin v expect_slot avail_slot tt).
Proof. cbn beta. solve_extends. Qed.

Lemma pin_Ok v expect_slot avail_slot (m m' : Model) (u : unit) :
  containsChildSlot avail_slot expect_slot = true →
  pin v expect_slot avail_slot tt m = Ok (u, m') →
  ∃ y1 y2 x1 x2,
    dict_lookup slot_to_idx avail_slot = Ok (y1, y2) ∧
    v2var_y1 !! v = Some x1 ∧ v2var_y2 !! v = Some x2 ∧
    CEq (LVar x1) (LConst (inject_Z y1)) ∈ m_constrs m' ∧
    CEq (LVar x2) (LConst (inject_Z y2)) ∈ m_constrs m'.
Proof.
  intros Hc. cbn beta. rewrite Hc. intros Hrun.
  apply ilp_bind_Ok in Hrun as ([y1 y2] & k1 & Hl & Hrun).
  apply lift_Ok in Hl as [Hl ->].
  apply ilp_bind_Ok in Hrun as (x1 & k2 & Hx1 & Hrun).
  apply lift_Ok in Hx1 as [Hx1 ->].
  apply ilp_bind_Ok in Hrun as ([] & k3 & Hc1 & Hrun).
  apply ilp_bind_Ok in Hrun as (x2 & k4 & Hx2 & Hc2).
  apply lift_Ok in Hx2 as [Hx2 ->].
  apply dict_get_Ok in Hx1, Hx2.
  apply add_constr_Ok in Hc1 as (Hc1 & _ & He1).
  apply add_constr_Ok in Hc2 as (Hc2 & _ & He2).
  exists y1, y2, x1, x2. repeat (split; [assumption|]).
  split; [eapply extends_constr; eassumption|exact Hc2].
Qed.

Lemma pin_total v expect_slot avail_slot (m : Model) :
  has_position_vars v2var_y1 v2var_y2 v →
  avail_slot ∈ slot_to_idx.*1 →
  ∃ m', pin v expect_slot avail_slot tt m = Ok (tt, m').
Proof.
  intros [[x1 Hx1] [x2 Hx2]] Hin. cbn beta.
  destruct (containsChildSlot avail_slot expect_slot); [|eexists; reflexivity].
  destruct (dict_lookup_key _ _ Hin) as [[y1 y2] Hl].
  eexists. rewrite ilp_bind_unfold, Hl. cbn [lift].
  rewrite ilp_bind_unfold. unfold dict_get. rewrite Hx1. cbn [lift].
  rewrite ilp_bind_unfold. cbn [add_constr].
  rewrite ilp_bind_unfold, Hx2. cbn [lift]. reflexivity.
Qed.

Lemma pre_assign_one_extends v expect_slot :
  ilp_extends (pre_assign_one v_list slot_to_idx v2var_y1 v2var_y2 v expect_slot).
Proof. unfold pre_assign_one. solve_extends. Qed.

Lemma pre_assign_one_Ok v expect_slot (m m' : Model) (u : unit) :
  pre_assign_one v_list slot_to_idx v2var_y1 v2var_y2 v expect_slot m
  = Ok (u, m') →
  v ∈ v_list ∧
  ∀ avail_slot, avail_slot ∈ slot_to_idx.*1 →
    containsChildSlot avail_slot expect_slot = true →
    ∃ y1 y2 x1 x2,
      dict_lookup slot_to_idx avail_slot = Ok (y1, y2) ∧
      v2var_y1 !! v = Some x1 ∧ v2var_y2 !! v = Some x2 ∧
      CEq (LVar x1) (LConst (inject_Z y1)) ∈ m_constrs m' ∧
      CEq (LVar x2) (LConst (inject_Z y2)) ∈ m_constrs m'.
Proof.
  unfold pre_assign_one. destruct (bool_decide (v ∈ v_list)) eqn:Hv;
    [|discriminate].
  apply bool_decide_eq_true in Hv. intros Hrun. split; [exact Hv|].
  intros avail_slot Hin Hc.
  eapply ilp_for_unit_iterations in Hrun as (m1 & m2 & _ & Hpin & Hext);
    [|intros x; apply pin_extends|exact Hin].
  apply (pin_Ok _ _ _ _ _ _ Hc) in Hpin
    as (y1 & y2 & x1 & x2 & ? & ? & ? & ? & ?).
  exists y1, y2, x1, x2. repeat (split; [assumption|]).
  split; eapply extends_constr; eassumption.
Qed.

Lemma pre_assign_one_outcome v expect_slot (m : Model) :
  (∀ w, w ∈ v_list → has_position_vars v2var_y1 v2var_y2 w) →
  (v ∈ v_list ∧
   ∃ m', pre_assign_one v_list slot_to_idx v2var_y1 v2var_y2 v expect_slot m
         = Ok (tt, m')) ∨
  ((v ∉ v_list) ∧
   pre_assign_one v_list slot_to_idx v2var_y1 v2var_y2 v expect_slot m
   = Raise (AssertionError
       ("ERROR: user has forced the location of a non-existing module " +:+ v))).
Proof.
  intros Hvars. unfold pre_assign_one.
  destruct (bool_decide (v ∈ v_list)) eqn:Hv.
  - apply bool_decide_eq_true in Hv. left. split; [exact Hv|].
    apply ilp_for_unit_total. intros x m0 Hx. apply pin_total; auto.
  - apply bool_decide_eq_false in Hv. right. split; [exact Hv|reflexivity].
Qed.

Lemma add_pre_assignment_Ok (pre_assignments : gmap vertex Slot)
    (m m' : Model) (u : unit) :
  _add_pre_assignment v_list slot_to_idx pre_assignments v2var_y1 v2var_y2 m
  = Ok (u, m') →
  ∀ v expect_slot, pre_assignments !! v = Some expect_slot →
    v ∈ v_list ∧
    ∀ avail_slot, avail_slot ∈ slot_to_idx.*1 →
      containsChildSlot avail_slot expect_slot = true →
      ∃ y1 y2 x1 x2,
        dict_lookup slot_to_idx avail_slot = Ok (y1, y2) ∧
        v2var_y1 !! v = Some x1 ∧ v2var_y2 !! v = Some x2 ∧
        CEq (LVar x1) (LConst (inject_Z y1)) ∈ m_constrs m' ∧
        CEq (LVar x2) (LConst (inject_Z y2)) ∈ m_constrs m'.
Proof.
  unfold _add_pre_assignment. intros Hrun v expect_slot Hpre.
  apply elem_of_map_to_list in Hpre.
  eapply ilp_for_unit_iterations in Hrun as (m1 & m2 & _ & Hone & Hext);
    [|intros [v' e']; apply pre_assign_one_extends|exact Hpre].
  cbn beta iota in Hone. apply pre_assign_one_Ok in Hone as [Hv Hpins].
  split; [exact Hv|]. intros avail_slot Hin Hc.
  destruct (Hpins avail_slot Hin Hc) as (y1 & y2 & x1 & x2 & ? & ? & ? & ? & ?).
  exists y1, y2, x1, x2. repeat (split; [assumption|]).
  split; eapply extends_constr; eassumption.
Qed.

Lemma add_pre_assignment_outcome (pre_assignments : gmap vertex Slot) (m : Model) :
  (∀ w, w ∈ v_list → has_position_vars v2var_y1 v2var_y2 w) →
  ((∀ v, v ∈ dom pre_assignments → v ∈ v_list) ∧
   ∃ m', _add_pre_assignment v_list slot_to_idx pre_assignments
           v2var_y1 v2var_y2 m = Ok (tt, m')) ∨
  (∃ v, v ∈ dom pre_assignments ∧ (v ∉ v_list) ∧
        _add_pre_assignment v_list slot_to_idx pre_assignments
          v2var_y1 v2var_y2 m
        = Raise (AssertionError
            ("ERROR: user has forced the location of a non-existing module "
             +:+ v))).
Proof.
  intros Hvars. unfold _add_pre_assignment.
  destruct (ilp_for_unit_first_failure (map_to_list pre_assignments)
              (fun '(v, expect_slot) (_ : unit) =>
                 pre_assign_one v_list slot_to_idx v2var_y1 v2var_y2 v
                   expect_slot)
              (fun x => x.1 ∈ v_list)
              (fun x => AssertionError
                 ("ERROR: user has forced the location of a non-existing module "
                  +:+ x.1)))
    with (m := m) as [[Hall Hrun]|([v e] & Hin & Hnot & Hrun)].
  - intros [v e]. cbn. destruct (decide (v ∈ v_list)); auto.
  - intros [v e] m0 Hv. cbn in Hv.
    destruct (pre_assign_one_outcome v e m0 Hvars) as [[_ Hok]|[Hnot _]];
      [exact Hok|contradiction].
  - intros [v e] m0 Hv. cbn in Hv.
    destruct (pre_assign_one_outcome v e m0 Hvars) as [[Hin _]|[_ Hraise]];
      [contradiction|exact Hraise].
  - left. split; [|exact Hrun]. intros v Hv.
    apply elem_of_dom in Hv as [e He]. apply elem_of_map_to_list in He.
    rewrite Forall_forall in Hall. exact (Hall _ He).
  - right. exists v. cbn in Hnot, Hrun. split; [|auto].
    apply elem_of_map_to_list in Hin. apply elem_of_dom. eauto.
Qed.

End PreAssignmentFacts.

Lemma position_of_pinned (σ : nat → Z) (y1 y2 : gmap vertex nat) (v : vertex)
    (x1 x2 : nat) (p1 p2 : Z) :
  y1 !! v = Some x1 → y2 !! v = Some x2 →
  holds σ (CEq (LVar x1) (LConst (inject_Z p1))) →
  holds σ (CEq (LVar x2) (LConst (inject_Z p2))) →
  position_of σ y1 y2 v = Some (p1, p2).
Proof.
  intros Hx1 Hx2 H1 H2. unfold position_of. rewrite Hx1, Hx2.
  cbn [holds eval] in H1, H2.
  pose proof (proj1 (inject_Z_injective _ _) H1) as E1.
  pose proof (proj1 (inject_Z_injective _ _) H2) as E2.
  now rewrite E1, E2.
Qed.

(** A pre-assigned vertex has the pair of every key that contains its slot. *)
Lemma pre_assignment_positions `{SlotModel}
    (v_list : list vertex) (slot_to_idx : list (Slot * (Z * Z)))
    (pre_assignments : gmap vertex Slot)
    (v2var_y1 v2var_y2 : gmap vertex nat) (m m' : Model) (u : unit) :
  _add_pre_assignment v_list slot_to_idx pre_assignments v2var_y1 v2var_y2 m
  = Ok (u, m') →
  ∀ v expect_slot, pre_assignments !! v = Some expect_slot →
    v ∈ v_list ∧
    ∀ avail_slot, avail_slot ∈ slot_to_idx.*1 →
      containsChildSlot avail_slot expect_slot = true →
      ∃ p, dict_lookup slot_to_idx avail_slot = Ok p ∧
           ∀ σ, feasible σ m' →
                position_of σ v2var_y1 v2var_y2 v = Some p.
Proof.
  intros Hrun v expect_slot Hpre.
  destruct (add_pre_assignment_Ok _ _ _ _ _ _ _ _ Hrun v expect_slot Hpre)
    as [Hv Hpins].
  split; [exact Hv|]. intros avail_slot Hin Hc.
  destruct (Hpins avail_slot Hin Hc) as (y1 & y2 & x1 & x2 & Hl & ? & ? & ? & ?).
  exists (y1, y2). split; [exact Hl|]. intros σ Hσ.
  eapply position_of_pinned; try eassumption; eapply feasible_holds; eassumption.
Qed.

(** X10: a model that [_add_pre_assignment] has extended honours the
    pre-assignments: every pre-assigned vertex is a vertex of the design,
    and for every key of [slot_to_idx] that contains the slot asked for, a
    feasible assignment gives the vertex the pair recorded for that key. *)
Theorem pre_assignment_pins_position `{SlotModel}
    (v_list : list vertex) (slot_to_idx : list (Slot * (Z * Z)))
    (pre_assignments : gmap vertex Slot)
    (v2var_y1 v2var_y2 : gmap vertex nat) (m m' : Model) (u : unit) :
  _add_pre_assignment v_list slot_to_idx pre_assignments v2var_y1 v2var_y2 m
  = Ok (u, m') →
  ∀ v expect_slot, pre_assignments !! v = Some expect_slot →
    v ∈ v_list ∧
    ∀ avail_slot, avail_slot ∈ slot_to_idx.*1 →
      containsChildSlot avail_slot expect_slot = true →
      ∃ p, dict_lookup slot_to_idx avail_slot = Ok p ∧
           ∀ σ, feasible σ m' →
                position_of σ v2var_y1 v2var_y2 v = Some p.
Proof. apply pre_assignment_positions. Qed.

Lemma pre_assignment_pins_position_witness :
  ∃ m' p,
    _add_pre_assignment (H := example_slots) ["A"; "B"]%string
      [(slr 0, (0, 0)); (slr 1, (0, 1)); (slr 2, (1, 0)); (slr 3, (1, 1))]%Z
      {[ "A"%string := slr 1 ]} example_y1 example_y2 new_model = Ok (tt, m') ∧
    dict_lookup
      [(slr 0, (0, 0)); (slr 1, (0, 1)); (slr 2, (1, 0)); (slr 3, (1, 1))]%Z
      (slr 1) = Ok p ∧
    ∀ σ, feasible σ m' → position_of σ example_y1 example_y2 "A" = Some p.
Proof.
  destruct (is_Ok_true
    (_add_pre_assignment (H := example_slots) ["A"; "B"]%string
       [(slr 0, (0, 0)); (slr 1, (0, 1)); (slr 2, (1, 0)); (slr 3, (1, 1))]%Z
       {[ "A"%string := slr 1 ]} example_y1 example_y2 new_model))
    as [[[] m'] Hrun]; [vm_compute; reflexivity|].
  destruct (pre_assignment_pins_position (H := example_slots) _ _ _ _ _ _ _ _
              Hrun "A"%string (slr 1)) as [_ Hpins]; [reflexivity|].
  destruct (Hpins (slr 1)) as (p & Hl & Hp).
  - apply list_elem_of_further, list_elem_of_here.
  - reflexivity.
  - exists m', p. auto.
Defined.

(** X11: when every vertex of the design has its two position variables,
    [_add_pre_assignment] returns exactly when every pre-assigned vertex is
    a vertex of the design; otherwise it raises the [AssertionError] that
    names a pre-assigned vertex outside the design. *)
Theorem pre_assignment_unknown_vertex `{SlotModel}
    (v_list : list vertex) (slot_to_idx : list (Slot * (Z * Z)))
    (pre_assignments : gmap vertex Slot)
    (v2var_y1 v2var_y2 : gmap vertex nat) (m : Model) :
  (∀ v, v ∈ v_list → has_position_vars v2var_y1 v2var_y2 v) →
  ((∀ v, v ∈ dom pre_assignments → v ∈ v_list) ∧
   ∃ m', _add_pre_assignment v_list slot_to_idx pre_assignments
           v2var_y1 v2var_y2 m = Ok (tt, m')) ∨
  (∃ v, v ∈ dom pre_assignments ∧ (v ∉ v_list) ∧
        _add_pre_assignment v_list slot_to_idx pre_assignments
          v2var_y1 v2var_y2 m
        = Raise (AssertionError
            ("ERROR: user has forced the location of a non-existing module "
             +:+ v))).
Proof. apply add_pre_assignment_outcome. Qed.

Lemma pre_assignment_unknown_vertex_witness :
  _add_pre_assignment (H := example_slots) ["A"; "B"]%string
    [(slr 0, (0, 0)); (slr 1, (0, 1)); (slr 2, (1, 0)); (slr 3, (1, 1))]%Z
    {[ "C"%string := slr 1 ]} example_y1 example_y2 new_model
  = Raise (AssertionError
      "ERROR: user has forced the location of a non-existing module C").
Proof.
  destruct (pre_assignment_unknown_vertex (H := example_slots)
              ["A"; "B"]%string
              [(slr 0, (0, 0)); (slr 1, (0, 1)); (slr 2, (1, 0)); (slr 3, (1, 1))]%Z
              {[ "C"%string := slr 1 ]} example_y1 example_y2 new_model)
    as [[Hall _]|(v & Hv & _ & Hrun)].
  - intros v Hv. apply list_elem_of_In in Hv. cbn in Hv.
    destruct Hv as [<-|[<-|[]]]; split; eexists; reflexivity.
  - exfalso. specialize (Hall "C"%string).
    assert (Hin : "C"%string ∈ ["A"; "B"]%string).
    { apply Hall. apply elem_of_dom. eexists. reflexivity. }
    apply list_elem_of_In in Hin. cbn in Hin.
    destruct Hin as [?|[?|[]]]; discriminate.
  - apply elem_of_dom in Hv as [e He].
    apply lookup_singleton_Some in He as [<- _]. exact Hrun.
Defined.


(** ** [FourWayPartition.py]: the objective *)

Section DictSetFacts.
Context {K V : Type} `{EqDecision K}.

Lemma dict_set_elem (d : list (K * V)) (k k' : K) (v v' : V) :
  (k', v') ∈ dict_set d k v → (k' = k ∧ v' = v) ∨ (k', v') ∈ d.
Proof.
  induction d as [|[k0 v0] d IH]; cbn.
  - intros Hin. apply list_elem_of_singleton in Hin. injection Hin as -> ->. auto.
  - destruct (decide (k = k0)) as [->|Hne]; intros Hin;
      apply elem_of_cons in Hin as [Heq|Hin].
    + injection Heq as -> ->. auto.
    + right. now apply list_elem_of_further.
    + right. rewrite Heq. apply list_elem_of_here.
    + destruct (IH Hin) as [?|?]; [auto|right; now apply list_elem_of_further].
Qed.

Lemma dict_set_key (d : list (K * V)) (k k' : K) (v : V) :
  k' ∈ (dict_set d k v).*1 ↔ k' = k ∨ k' ∈ d.*1.
Proof.
  rewrite dict_set_keys. destruct (bool_decide (k ∈ d.*1)) eqn:Hin.
  - apply bool_decide_eq_true in Hin. split; [auto|]. intros [->|?]; assumption.
  - rewrite elem_of_app, list_elem_of_singleton. tauto.
Qed.

End DictSetFacts.

Lemma extends_var (m m' : Model) (x : nat) (tn : VarType * string) :
  extends m m' → m_vars m !! x = Some tn → m_vars m' !! x = Some tn.
Proof. intros [Hv _] Hx. eapply prefix_lookup_Some; eassumption. Qed.

Lemma Qsum_le {A} (f g : A → Q) (l : list A) :
  (∀ x, x ∈ l → f x <= g x) → Qsum (map f l) <= Qsum (map g l).
Proof.
  induction l as [|x l IH]; intros Hle; cbn; [apply Qle_refl|].
  apply Qplus_le_compat.
  - apply Hle, list_elem_of_here.
  - apply IH. intros y Hy. apply Hle. now apply list_elem_of_further.
Qed.

Section OptGoal.
Context `{Environment}.
Variable v_list : list vertex.
Variables v2var_y1 v2var_y2 : gmap vertex nat.

(** The dictionary comprehension over [all_edges]. *)
Lemma cost_vars_Ok (edges : list Edge) :
  ∀ (acc d : list (Edge * nat)) (m m' : Model),
    ilp_for edges
      (fun e (e2cost_var : list (Edge * nat)) =>
         c ← add_var INTEGER ("intra_" +:+ e_name e);
         mret (dict_set e2cost_var e c))
      acc m = Ok (d, m') →
    extends m m' ∧ m_constrs m' = m_constrs m ∧
    m_objective m' = m_objective m ∧
    (NoDup acc.*1 → NoDup d.*1) ∧
    (∀ e, e ∈ d.*1 ↔ e ∈ acc.*1 ∨ e ∈ edges) ∧
    ((∀ e c, (e, c) ∈ acc →
        m_vars m !! c = Some (INTEGER, "intra_" +:+ e_name e)) →
     ∀ e c, (e, c) ∈ d →
        m_vars m' !! c = Some (INTEGER, "intra_" +:+ e_name e)).
Proof.
  induction edges as [|e edges IH]; intros acc d m m'; cbn [ilp_for].
  - intros [= <- <-]. split; [reflexivity|]. split; [reflexivity|].
    split; [reflexivity|]. split; [auto|]. split; [|auto].
    intros e. rewrite elem_of_nil. tauto.
  - intros Hrun. apply ilp_bind_Ok in Hrun as (acc' & m1 & Hstep & Hrun).
    apply ilp_bind_Ok in Hstep as (c & m0 & Hc & Hret).
    injection Hret as <- <-.
    pose proof Hc as Hobj. cbv [add_var] in Hobj. injection Hobj as _ Hobj.
    apply add_var_Ok in Hc as (Hvar & Hconstrs & Hext).
    apply IH in Hrun as (Hext' & Hconstrs' & Hobj' & Hnd & Hkeys & Hvars).
    split; [etrans; eassumption|]. split; [congruence|].
    split; [rewrite Hobj', <- Hobj; reflexivity|].
    split; [intros Hacc; apply Hnd; now apply dict_set_NoDup|].
    split.
    + intros e'. rewrite Hkeys, dict_set_key, elem_of_cons. tauto.
    + intros Hacc. apply Hvars. intros e' c' Hin.
      apply dict_set_elem in Hin as [[-> ->]|Hin]; [exact Hvar|].
      eapply extends_var; [exact Hext|]. now apply Hacc.
Qed.

(** The two constraints of an edge bound the distance of its ends. *)
Lemma cost_bounds (σ : nat → Z) (e : Edge) (c a b a' b' : nat) :
  v2var_y1 !! e_src e = Some a → v2var_y2 !! e_src e = Some b →
  v2var_y1 !! e_dst e = Some a' → v2var_y2 !! e_dst e = Some b' →
  holds σ (CGe (LVar c)
             (LSub (LAdd (LScale 2 (LVar a)) (LVar b))
                   (LAdd (LScale 2 (LVar a')) (LVar b')))) →
  holds σ (CGe (LVar c)
             (LNeg (LSub (LAdd (LScale 2 (LVar a)) (LVar b))
                         (LAdd (LScale 2 (LVar a')) (LVar b'))))) →
  (cost_y_of σ v2var_y1 v2var_y2 e <= σ c)%Z.
Proof.
  intros Ha Hb Ha' Hb' H1 H2.
  unfold cost_y_of, pos_y_of, position_of. rewrite Ha, Hb, Ha', Hb'.
  cbn [holds eval] in H1, H2.
  change 2 with (inject_Z 2) in H1, H2. unfold Qminus in H1, H2.
  repeat (rewrite <- inject_Z_mult in H1 || rewrite <- inject_Z_plus in H1
          || rewrite <- inject_Z_opp in H1).
  repeat (rewrite <- inject_Z_mult in H2 || rewrite <- inject_Z_plus in H2
          || rewrite <- inject_Z_opp in H2).
  rewrite <- Zle_Qle in H1, H2. lia.
Qed.

Local Abbreviation posvars := (has_position_vars v2var_y1 v2var_y2).

Lemma add_opt_goal_Ok (m m' : Model) (u : unit) :
  _add_opt_goal v_list v2var_y1 v2var_y2 m = Ok (u, m') →
  ∃ e2cost_var : list (Edge * nat),
    NoDup e2cost_var.*1 ∧
    (∀ e, e ∈ e2cost_var.*1 ↔ e ∈ get_all_edges v_list) ∧
    m_objective m' =
      Some (xsum (map (fun '(e, cost_var) => LScale (e_width e) (LVar cost_var))
                      e2cost_var)) ∧
    ∀ e c, (e, c) ∈ e2cost_var →
      m_vars m' !! c = Some (INTEGER, "intra_" +:+ e_name e) ∧
      posvars (e_src e) ∧ posvars (e_dst e) ∧
      ∀ σ, feasible σ m' → (cost_y_of σ v2var_y1 v2var_y2 e <= σ c)%Z.
Proof.
  unfold _add_opt_goal. intros Hrun.
  apply ilp_bind_Ok in Hrun as (d & m1 & Hvars & Hrun).
  apply ilp_bind_Ok in Hrun as ([] & m2 & Hcosts & Hobj).
  cbv [set_objective] in Hobj. injection Hobj; intros <-.
  apply cost_vars_Ok in Hvars as (Hext1 & _ & _ & Hnd & Hkeys & Hint).
  exists d. split; [apply Hnd; constructor|]. split.
  { intros e. rewrite Hkeys. cbn. rewrite elem_of_nil. tauto. }
  split; [reflexivity|]. intros e c Hin. cbn [m_vars].
  assert (Hext2 : extends m1 m2).
  { eapply (ilp_for_extends d); [|exact Hcosts]. intros [e' c'] []. solve_extends. }
  split.
  { eapply extends_var; [exact Hext2|]. apply Hint; [|exact Hin].
    intros e' c' Hnil. inversion Hnil. }
  eapply ilp_for_unit_iterations in Hcosts as (m3 & m4 & _ & Hbody & Hext4);
    [|intros [e' c']; solve_extends|exact Hin].
  cbn beta iota in Hbody.
  apply ilp_bind_Ok in Hbody as (cost & k1 & Hcost & Hbody).
  apply ilp_bind_Ok in Hbody as ([] & k2 & Hc1 & Hbody).
  apply ilp_bind_Ok in Hbody as (cost' & k3 & Hcost' & Hc2).
  apply ilp_bind_Ok in Hcost as (ps & k4 & Hps & Hcost).
  apply ilp_bind_Ok in Hcost as (pd & k5 & Hpd & Hret).
  injection Hret as <- <-.
  apply ilp_bind_Ok in Hps as (a & k6 & Ha & Hps).
  apply ilp_bind_Ok in Hps as (b & k7 & Hb & Hret).
  injection Hret as <- <-.
  apply ilp_bind_Ok in Hpd as (a' & k8 & Ha' & Hpd).
  apply ilp_bind_Ok in Hpd as (b' & k9 & Hb' & Hret).
  injection Hret as <- <-.
  apply lift_Ok in Ha as [Ha ->]. apply lift_Ok in Hb as [Hb ->].
  apply lift_Ok in Ha' as [Ha' ->]. apply lift_Ok in Hb' as [Hb' ->].
  apply dict_get_Ok in Ha, Hb, Ha', Hb'.
  apply ilp_bind_Ok in Hcost' as (ps' & k10 & Hps' & Hcost').
  apply ilp_bind_Ok in Hcost' as (pd' & k11 & Hpd' & Hret).
  injection Hret as <- <-.
  apply ilp_bind_Ok in Hps' as (a2 & k12 & Ha2 & Hps').
  apply ilp_bind_Ok in Hps' as (b2 & k13 & Hb2 & Hret).
  injection Hret as <- <-.
  apply ilp_bind_Ok in Hpd' as (a2' & k14 & Ha2' & Hpd').
  apply ilp_bind_Ok in Hpd' as (b2' & k15 & Hb2' & Hret).
  injection Hret as <- <-.
  apply lift_Ok in Ha2 as [Ha2 ->]. apply lift_Ok in Hb2 as [Hb2 ->].
  apply lift_Ok in Ha2' as [Ha2' ->]. apply lift_Ok in Hb2' as [Hb2' ->].
  apply dict_get_Ok in Ha2, Hb2, Ha2', Hb2'.
  assert (a2 = a) as -> by congruence. assert (b2 = b) as -> by congruence.
  assert (a2' = a') as -> by congruence. assert (b2' = b') as -> by congruence.
  apply add_constr_Ok in Hc1 as (Hc1 & _ & He1).
  apply add_constr_Ok in Hc2 as (Hc2 & _ & He2).
  split; [split; eauto|]. split; [split; eauto|].
  intros σ [_ Hσ]. cbn [m_constrs] in Hσ. rewrite Forall_forall in Hσ.
  eapply (cost_bounds σ e c a b a' b'); try eassumption; apply Hσ.
  - eapply extends_constr; [exact Hext4|].
    eapply extends_constr; [exact He2|exact Hc1].
  - eapply extends_constr; [exact Hext4|exact Hc2].
Qed.

End OptGoal.

Lemma Qsum_fst {A B} (f : A → Q) (l : list (A * B)) :
  Qsum (map f l.*1) = Qsum (map (fun x => f x.1) l).
Proof. induction l as [|[a b] l IH]; cbn in *; [reflexivity|]. now f_equal. Qed.




(** ** [FourWayPartition.py]: from the constraints to the mapping returned *)

Lemma feasible_of_extension (σ : nat → Z) (m m' : Model) :
  extends m m' → feasible σ m' → feasible σ m.
Proof.
  intros Hext [Hbin Hall]. split.
  - intros x Hx. apply Hbin. eapply extends_binary; eassumption.
  - rewrite Forall_forall in *. intros c Hc. apply Hall.
    eapply extends_constr; eassumption.
Qed.

Lemma py_int_inject_Z (z : Z) : py_int (inject_Z z) = z.
Proof. unfold py_int. cbn. apply Z.quot_1_r. Qed.

Lemma list_last_occurrence {A} (P : A → Prop) (l : list A) :
  (∀ x, P x ∨ ¬ P x) →
  (∃ x, x ∈ l ∧ P x) →
  ∃ l1 x l2, l = l1 ++ x :: l2 ∧ P x ∧ ∀ y, y ∈ l2 → ¬ P y.
Proof.
  intros Hdec. induction l as [|x l IH]; intros (y & Hy & HP); [inversion Hy|].
  assert (Hl : (∃ z, z ∈ l ∧ P z) ∨ ¬ (∃ z, z ∈ l ∧ P z)).
  { clear -Hdec. induction l as [|z l IH].
    - right. intros (z & Hz & _). inversion Hz.
    - destruct (Hdec z) as [Hz|Hz].
      + left. exists z. split; [apply list_elem_of_here|exact Hz].
      + destruct IH as [(w & Hw & HPw)|Hnone].
        * left. exists w. split; [now apply list_elem_of_further|exact HPw].
        * right. intros (w & Hw & HPw).
          apply elem_of_cons in Hw as [->|Hw]; [contradiction|].
          apply Hnone. eauto. }
  destruct Hl as [Hl|Hnone].
  - destruct (IH Hl) as (l1 & z & l2 & -> & Hz & Hlast).
    exists (x :: l1), z, l2. auto.
  - apply elem_of_cons in Hy as [->|Hy]; [|exfalso; apply Hnone; eauto].
    exists [], x, l. split; [reflexivity|]. split; [exact HP|].
    intros z Hz HPz. apply Hnone. eauto.
Qed.

Section SlotIndexLookup.
Context `{SlotModel}.

(** Every leaf that the closure gives is a key of [slot_to_idx], and the
    pair recorded for it leads back to it. *)
Lemma get_slot_to_idx_lookup (func : Z → Z → result Slot)
    (d : list (Slot * (Z * Z))) (a b : Z) (leaf : Slot) :
  _get_slot_to_idx func = Ok d →
  (a, b) ∈ product22 → func a b = Ok leaf →
  leaf ∈ d.*1 ∧
  ∃ a' b', dict_lookup d leaf = Ok (a', b') ∧ func a' b' = Ok leaf.
Proof.
  rewrite get_slot_to_idx_fill. intros Hrun Hab Hleaf.
  apply (dict_fill_Ok (fun x => func x.1 x.2) id) in Hrun as [_ Hrun].
  destruct (list_last_occurrence (fun x : Z * Z => func x.1 x.2 = Ok leaf)
              product22) as (l1 & [a' b'] & l2 & Hsplit & Hx & Hlast).
  - intros [y1 y2]. cbn. destruct (func y1 y2) as [s| |];
      [|right; discriminate..].
    destruct (decide (s = leaf)) as [->|Hne]; [now left|right; congruence].
  - exists (a, b). auto.
  - assert (Hl : dict_lookup d leaf = Ok (a', b')).
    { apply Hrun. left. exists l1, (a', b'), l2. auto. }
    split; [eapply dict_lookup_Ok_key; exact Hl|]. exists a', b'. auto.
Qed.

End SlotIndexLookup.

Section ExtractValues.
Context `{SlotModel}.
Variable x : nat → option Q.
Variable func : Z → Z → result Slot.
Variables v2var_y1 v2var_y2 : gmap vertex nat.

Local Abbreviation extracted := (extracted x func v2var_y1 v2var_y2).

Lemma extract_loop_values (v_list : list vertex) :
  ∀ acc m,
    for_each v_list
      (fun (v : vertex) (next_v2s : gmap vertex Slot) =>
         a ← dict_get v2var_y1 v;
         y1 ← int_of_x x a;
         b ← dict_get v2var_y2 v;
         y2 ← int_of_x x b;
         selected_slot ← func y1 y2;
         mret (<[v := selected_slot]> next_v2s))
      acc = Ok m →
    (∀ v s, acc !! v = Some s → extracted v s) →
    ∀ v s, m !! v = Some s → extracted v s.
Proof.
  induction v_list as [|v l IH]; intros acc m; cbn [for_each].
  - intros [= <-]. auto.
  - intros Hrun Hacc.
    apply bind_Ok in Hrun as (acc' & Hstep & Hrun).
    apply bind_Ok in Hstep as (a & Ha & Hstep).
    apply bind_Ok in Hstep as (y1 & Hy1 & Hstep).
    apply bind_Ok in Hstep as (b & Hb & Hstep).
    apply bind_Ok in Hstep as (y2 & Hy2 & Hstep).
    apply bind_Ok in Hstep as (s & Hs & [= <-]).
    apply (IH _ _ Hrun). intros v' s' Hv'.
    destruct (decide (v = v')) as [<-|Hne].
    + rewrite lookup_insert_eq in Hv'. injection Hv' as <-.
      apply dict_get_Ok in Ha, Hb. unfold int_of_x in Hy1, Hy2.
      destruct (x a) as [qa|] eqn:Hqa; [|discriminate].
      destruct (x b) as [qb|] eqn:Hqb; [|discriminate].
      injection Hy1 as <-. injection Hy2 as <-.
      exists a, b, qa, qb. auto.
    + rewrite lookup_insert_ne in Hv' by exact Hne. auto.
Qed.

End ExtractValues.

Section FourWayCallFacts.
Context `{Environment}.

(** Only the vertices of the list get position variables. *)
Lemma position_vars_of_list (v : vertex) (l : list vertex) :
  ∀ (acc1 acc2 y1 y2 : gmap vertex nat) (m m' : Model),
    ilp_for l
      (fun (v : vertex) '((v2var_y1, v2var_y2) : gmap vertex nat * gmap vertex nat) =>
         a ← add_var BINARY (v +:+ "_y1");
         b ← add_var BINARY (v +:+ "_y2");
         mret (<[v := a]> v2var_y1, <[v := b]> v2var_y2))
      (acc1, acc2) m = Ok (y1, y2, m') →
    is_Some (y1 !! v) ∨ is_Some (y2 !! v) →
    is_Some (acc1 !! v) ∨ is_Some (acc2 !! v) ∨ v ∈ l.
Proof.
  induction l as [|w l IH]; intros acc1 acc2 y1 y2 m m' Hrun Hv;
    cbn [ilp_for] in Hrun.
  - injection Hrun as <- <- <-. tauto.
  - apply ilp_bind_Ok in Hrun as ([acc1' acc2'] & m1 & Hstep & Hrun).
    apply ilp_bind_Ok in Hstep as (a & k1 & _ & Hstep).
    apply ilp_bind_Ok in Hstep as (b & k2 & _ & [= <- <- <-]).
    destruct (decide (w = v)) as [->|Hne].
    { right. right. apply list_elem_of_here. }
    destruct (IH _ _ _ _ _ _ Hrun Hv) as [Hacc|[Hacc|Hin]].
    + rewrite lookup_insert_ne in Hacc by exact Hne. auto.
    + rewrite lookup_insert_ne in Hacc by exact Hne. auto.
    + right. right. now apply list_elem_of_further.
Qed.

(** The steps of a model that has been built. *)
Lemma four_way_model_steps c v_list func y1 y2 m :
  four_way_model c v_list new_model = Ok (func, y1, y2, m) →
  ∃ m1 slot_to_idx m4 m5 m6 m7 pre m8 groups m9,
    add_position_vars v_list new_model = Ok (y1, y2, m1) ∧
    _get_slot_by_idx_closure (a_slot_manager c) = Ok func ∧
    _get_slot_to_idx func = Ok slot_to_idx ∧
    _add_area_constraints v_list y1 y2 func (a_max_usage_ratio c) m1
    = Ok (tt, m4) ∧
    _add_slr_0_1_crossing_constraint v_list y1 y2 (a_slr_0_1_width_limit c) m4
    = Ok (tt, m5) ∧
    _add_slr_1_2_crossing_constraint v_list y1 (a_slr_1_2_width_limit c) m5
    = Ok (tt, m6) ∧
    _add_slr_2_3_crossing_constraint v_list y1 y2 (a_slr_2_3_width_limit c) m6
    = Ok (tt, m7) ∧
    as_dict "items" (a_pre_assignments c) = Ok pre ∧
    _add_pre_assignment v_list slot_to_idx pre y1 y2 m7 = Ok (tt, m8) ∧
    as_groups (a_grouping_constraints c) = Ok groups ∧
    _add_grouping_constraints groups y1 y2 m8 = Ok (tt, m9) ∧
    _add_opt_goal v_list y1 y2 m9 = Ok (tt, m) ∧
    extends m1 m4 ∧ extends m4 m5 ∧ extends m5 m6 ∧ extends m6 m7 ∧
    extends m7 m8 ∧ extends m8 m9 ∧ extends m9 m.
Proof.
  intros Hrun. unfold four_way_model in Hrun.
  apply ilp_bind_Ok in Hrun as ([y1' y2'] & m1 & Hvars & Hrun).
  apply ilp_bind_Ok in Hrun as (func' & m2 & Hcl & Hrun).
  apply ilp_bind_Ok in Hrun as (s2i & m3 & Hs2i & Hrun).
  apply lift_Ok in Hcl as [Hcl ->]. apply lift_Ok in Hs2i as [Hs2i ->].
  apply ilp_bind_Ok in Hrun as ([] & m4 & Harea & Hrun).
  apply ilp_bind_Ok in Hrun as ([] & m5 & H1 & Hrun).
  apply ilp_bind_Ok in Hrun as ([] & m6 & H2 & Hrun).
  apply ilp_bind_Ok in Hrun as ([] & m7 & H3 & Hrun).
  apply ilp_bind_Ok in Hrun as (pre & k4 & H4 & Hrun).
  apply lift_Ok in H4 as [H4 ->].
  apply ilp_bind_Ok in Hrun as ([] & m8 & H5 & Hrun).
  apply ilp_bind_Ok in Hrun as (groups & k6 & H6 & Hrun).
  apply lift_Ok in H6 as [H6 ->].
  apply ilp_bind_Ok in Hrun as ([] & m9 & H7 & Hrun).
  apply ilp_bind_Ok in Hrun as ([] & m10 & H8 & Hrun).
  injection Hrun as <- <- <- <-.
  exists m1, s2i, m4, m5, m6, m7, pre, m8, groups, m9.
  repeat (split; [assumption|]).
  split; [eapply add_area_constraints_extends; exact Harea|].
  split; [eapply add_slr_0_1_extends; exact H1|].
  split; [eapply add_slr_1_2_extends; exact H2|].
  split; [eapply add_slr_2_3_extends; exact H3|].
  split; [eapply add_pre_assignment_extends; exact H5|].
  split; [eapply add_grouping_constraints_extends; exact H7|].
  eapply add_opt_goal_extends; exact H8.
Qed.

(** With the indicators tied to the position variables, the constraint of a
    leaf bounds the area of the vertices placed in it. *)
Lemma leaf_load_bound (σ : nat → Z) (v_list : list vertex)
    (y1 y2 : gmap vertex nat) (m : Model) (r : resource) (a b : Z) (ratio : Q)
    (pick : vertex → nat) (slot : Slot) :
  (a, b) ∈ product22 →
  leaf_constraints v_list y1 y2 m r a b ratio pick slot →
  (∀ v x, y1 !! v = Some x ∨ y2 !! v = Some x → is_binary m x) →
  feasible σ m →
  leaf_load σ y1 y2 v_list r a b <= getArea slot r * ratio.
Proof.
  intros Hab [Hand Hsum] Hybin Hσ.
  apply (feasible_holds σ m _ Hσ) in Hsum. cbn [holds eval] in Hsum.
  rewrite eval_xsum, map_map in Hsum.
  eapply Qle_trans; [|exact Hsum]. unfold leaf_load. apply Qsum_le.
  intros v Hv. cbn [eval].
  destruct (Hand v Hv) as (x1 & x2 & Hx1 & Hx2 & Hb & Hc1 & Hc2 & Hc3).
  assert (Hab' : (a = 0 ∨ a = 1)%Z ∧ (b = 0 ∨ b = 1)%Z).
  { unfold product22 in Hab.
    repeat (apply elem_of_cons in Hab as [[= -> ->]|Hab]; [lia|]).
    inversion Hab. }
  pose proof Hσ as [Hbinary Hall]. rewrite Forall_forall in Hall.
  assert (Hiff : σ (pick v) = 1%Z ↔ σ x1 = a ∧ σ x2 = b).
  { apply (and_encoding σ x1 x2 (pick v) a b); try tauto;
      try (apply Hbinary; eauto); apply Hall; assumption. }
  unfold position_of. rewrite Hx1, Hx2.
  destruct (decide (Some (σ x1, σ x2) = Some (a, b))) as [Heq|Hne].
  - injection Heq as Ha Hb'. rewrite (proj2 Hiff (conj Ha Hb')).
    rewrite Qmult_1_r. apply Qle_refl.
  - destruct (Hbinary (pick v) Hb) as [-> | Hone].
    + rewrite Qmult_0_r. apply Qle_refl.
    + exfalso. apply Hne. destruct (proj1 Hiff Hone) as [-> ->]. reflexivity.
Qed.

End FourWayCallFacts.

(** X13: when the model has been built and the solver answers OPTIMAL or
    FEASIBLE with exactly the integers of a feasible assignment,
    [_four_way_partition] returns a mapping of all the vertices in which
    every vertex has the leaf of its pair [(y1, y2)]; the bundled area placed
    in a leaf is within the capacity of the leaf times the usage ratio, for
    every resource; the members of a group share their leaf; and a
    pre-assigned vertex has the leaf that contains the slot asked for. *)
Theorem four_way_result_respects_constraints `{Environment}
    (c : fw_call) (init_v2s pre_assignments : gmap vertex Slot)
    (grouping_constraints : list (list vertex)) (ratio max_seconds : Q)
    (func : Z → Z → result Slot) (v2var_y1 v2var_y2 : gmap vertex nat)
    (m : Model) (status : OptimizationStatus) (x : nat → option Q)
    (σ : nat → Z) :
  a_init_v2s c = PDict init_v2s →
  a_pre_assignments c = PDict pre_assignments →
  a_grouping_constraints c = PList grouping_constraints →
  a_max_usage_ratio c = PNum ratio →
  a_max_search_time c = PNum max_seconds →
  four_way_model c (map_to_list init_v2s).*1 new_model
  = Ok (func, v2var_y1, v2var_y2, m) →
  mip_optimize m max_seconds = (status, x) →
  status_has_solution status →
  feasible σ m →
  (∀ a, is_binary m a → x a = Some (inject_Z (σ a))) →
  ∃ v2s,
    _four_way_partition c = Ok v2s ∧
    dom v2s = dom init_v2s ∧
    (∀ v, v ∈ dom init_v2s →
       ∃ a b s, position_of σ v2var_y1 v2var_y2 v = Some (a, b) ∧
                func a b = Ok s ∧ v2s !! v = Some s) ∧
    (∀ r a b, r ∈ RESOURCE_TYPES → (a, b) ∈ product22 →
       ∃ slot, func a b = Ok slot ∧
               leaf_load σ v2var_y1 v2var_y2 (map_to_list init_v2s).*1 r a b
               <= getArea slot r * ratio) ∧
    (∀ grouping v w,
       grouping ∈ grouping_constraints → v ∈ grouping → w ∈ grouping → v ≠ w →
       ∃ s, v2s !! v = Some s ∧ v2s !! w = Some s) ∧
    (∀ v expect_slot a b leaf,
       pre_assignments !! v = Some expect_slot →
       (a, b) ∈ product22 → func a b = Ok leaf →
       containsChildSlot leaf expect_slot = true →
       v2s !! v = Some leaf).
Proof.
  intros Hinit Hpre Hgroups Hratio Htime Hmodel Hopt Hst Hσ Hx.
  set (v_list := (map_to_list init_v2s).*1) in *.
  destruct (four_way_model_pieces _ _ _ _ _ _ Hmodel)
    as [(leaves & Hfunc & Hlen) Hvars].
  assert (Hvalue : ∀ a, is_binary m a →
            ∃ q, x a = Some q ∧ -1 < q ∧ q < 2 ∧ py_int q = σ a).
  { intros a Ha. exists (inject_Z (σ a)). split; [now apply Hx|].
    rewrite py_int_inject_Z. destruct Hσ as [Hbin _].
    destruct (Hbin a Ha) as [-> | ->]; repeat split; reflexivity. }
  destruct (get_results_by_status status x leaves v_list
              v2var_y1 v2var_y2 Hlen) as (v2s & Hres & Hyes & _).
  { intros _ v Hv.
    destruct (Hvars v Hv) as (a & b & Ha & Hb & Hba & Hbb).
    destruct (Hvalue a Hba) as (qa & Hqa & ? & ? & _).
    destruct (Hvalue b Hbb) as (qb & Hqb & ? & ? & _).
    exists a, b, qa, qb. auto 10. }
  rewrite <- Hfunc in Hres.
  destruct (Hyes Hst) as [Hdom _]. unfold v_list in Hdom.
  rewrite keys_of_dict in Hdom.
  (* every vertex has the leaf of its pair *)
  assert (Hplace : ∀ v s, v2s !! v = Some s →
            ∃ a b, position_of σ v2var_y1 v2var_y2 v = Some (a, b) ∧
                   func a b = Ok s).
  { intros v s Hv.
    assert (Hloop : extracted x func v2var_y1 v2var_y2 v s).
    { rewrite get_results_unfold in Hres.
      destruct Hst as [-> | ->];
        (eapply (extract_loop_values x func v2var_y1 v2var_y2 v_list ∅ v2s);
         [exact Hres| |exact Hv]);
        intros v' s' He; rewrite lookup_empty in He; discriminate. }
    destruct Hloop as (a & b & qa & qb & Ha & Hb & Hqa & Hqb & Hs).
    assert (Hin : v ∈ v_list).
    { apply (elem_of_list_to_set (C := gset vertex)). unfold v_list.
      rewrite keys_of_dict, <- Hdom. apply elem_of_dom. eauto. }
    destruct (Hvars v Hin) as (a' & b' & Ha' & Hb' & Hba & Hbb).
    rewrite Ha in Ha'. injection Ha' as <-.
    rewrite Hb in Hb'. injection Hb' as <-.
    destruct (Hvalue a Hba) as (qa' & Hqa' & _ & _ & Hia).
    destruct (Hvalue b Hbb) as (qb' & Hqb' & _ & _ & Hib).
    rewrite Hqa in Hqa'. injection Hqa' as <-.
    rewrite Hqb in Hqb'. injection Hqb' as <-.
    exists (σ a), (σ b). unfold position_of. rewrite Ha, Hb.
    rewrite <- Hia, <- Hib. auto. }
  assert (Hhas : ∀ v, v ∈ dom init_v2s →
            ∃ a b s, position_of σ v2var_y1 v2var_y2 v = Some (a, b) ∧
                     func a b = Ok s ∧ v2s !! v = Some s).
  { intros v Hv. rewrite <- Hdom in Hv. apply elem_of_dom in Hv as [s Hs].
    destruct (Hplace v s Hs) as (a & b & ? & ?). exists a, b, s. auto. }
  destruct (four_way_model_steps _ _ _ _ _ _ Hmodel)
    as (m1 & s2i & m4 & m5 & m6 & m7 & pre & m8 & groups & m9 & Hposvars & Hcl &
        Hs2i & Harea & _ & _ & _ & Hasd & Hpa & Hasg & Hga & Hog &
        E14 & E45 & E56 & E67 & E78 & E89 & E9).
  assert (E47 : extends m4 m7) by (etrans; [exact E45|]; etrans; eassumption).
  assert (Hin_list : ∀ v, has_position_vars v2var_y1 v2var_y2 v →
            v ∈ dom init_v2s).
  { intros v [Hv _]. unfold add_position_vars in Hposvars.
    destruct (position_vars_of_list v v_list ∅ ∅ _ _ _ _ Hposvars)
      as [He|[He|Hin]]; [now left| | |].
    - rewrite lookup_empty in He. destruct He. discriminate.
    - rewrite lookup_empty in He. destruct He. discriminate.
    - rewrite <- keys_of_dict. now apply elem_of_list_to_set. }
  exists v2s. split.
  { unfold _four_way_partition. rewrite Hinit. cbn [as_dict mbind result_bind].
    fold v_list. rewrite Hmodel, Htime. cbn [as_number mbind result_bind].
    rewrite Hopt. exact Hres. }
  split; [exact Hdom|]. split; [exact Hhas|]. split; [|split].
  - (* capacity *)
    intros r a b Hr Hab. rewrite Hratio in Harea.
    destruct (add_area_constraints_Ok _ _ _ _ _ _ _ _ Harea r a b Hr Hab)
      as (pick & slot & Hslot & Hcs).
    assert (E4 : extends m4 m) by (repeat (etrans; [eassumption|]); reflexivity).
    apply (leaf_constraints_extends _ _ _ _ _ _ _ _ _ _ _ E4) in Hcs.
    exists slot. split; [exact Hslot|].
    eapply leaf_load_bound; [exact Hab|exact Hcs| |exact Hσ].
    intros v a' Ha'. eapply extends_binary; [exact E4|].
    eapply extends_binary; [exact E14|].
    eapply (add_position_vars_Ok v_list ∅ ∅); [exact Hposvars| |exact Ha'].
    intros v' x' [Hv'|Hv']; rewrite lookup_empty in Hv'; discriminate.
  - (* grouping *)
    intros grouping v w Hg Hv Hw Hne.
    rewrite Hgroups in Hasg. injection Hasg as <-.
    assert (Hσ9 : feasible σ m9) by (eapply feasible_of_extension; eassumption).
    destruct (grouping_positions _ _ _ _ _ _ Hga σ Hσ9 grouping v w Hg Hv Hw Hne)
      as (p & Hpv & Hpw).
    assert (Hdv : v ∈ dom init_v2s).
    { apply Hin_list. unfold position_of in Hpv. unfold has_position_vars.
      destruct (v2var_y1 !! v), (v2var_y2 !! v); try discriminate. eauto. }
    assert (Hdw : w ∈ dom init_v2s).
    { apply Hin_list. unfold position_of in Hpw. unfold has_position_vars.
      destruct (v2var_y1 !! w), (v2var_y2 !! w); try discriminate. eauto. }
    destruct (Hhas v Hdv) as (a & b & s & Hp & Hs & Hvs).
    destruct (Hhas w Hdw) as (a' & b' & s' & Hp' & Hs' & Hws).
    rewrite Hpv in Hp. rewrite Hpw in Hp'. rewrite Hp in Hp'.
    injection Hp' as <- <-. rewrite Hs in Hs'. injection Hs' as <-.
    exists s. auto.
  - (* pre-assignment *)
    intros v expect_slot a b leaf Hv Hab Hleaf Hc.
    rewrite Hpre in Hasd. injection Hasd as <-.
    destruct (get_slot_to_idx_lookup _ _ _ _ _ Hs2i Hab Hleaf)
      as (Hkey & a' & b' & Hl & Hleaf').
    assert (Hσ8 : feasible σ m8).
    { eapply feasible_of_extension; [|exact Hσ]. etrans; eassumption. }
    destruct (pre_assignment_positions _ _ _ _ _ _ _ _ Hpa v expect_slot Hv)
      as [Hin Hpins].
    destruct (Hpins leaf Hkey Hc) as (p & Hp & Hpos).
    rewrite Hl in Hp. injection Hp as <-. specialize (Hpos σ Hσ8).
    assert (Hdv : v ∈ dom init_v2s).
    { rewrite <- keys_of_dict. now apply elem_of_list_to_set. }
    destruct (Hhas v Hdv) as (a0 & b0 & s & Hp0 & Hs & Hvs).
    rewrite Hpos in Hp0. injection Hp0 as <- <-.
    rewrite Hleaf' in Hs. injection Hs as <-. exact Hvs.
Qed.

Lemma four_way_result_respects_constraints_witness :
  ∃ func y1 y2 σ (v2s : gmap vertex rect),
    four_way_model (H0 := example_env) (example_call ∅ 0.7)
      (map_to_list example_v2s).*1 new_model = Ok (func, y1, y2, example_model) ∧
    feasible σ example_model ∧
    _four_way_partition (H0 := example_env) (example_call ∅ 0.7) = Ok v2s ∧
    dom v2s = dom example_v2s ∧
    ∀ r a b, r ∈ ["LUT"; "FF"]%string → (a, b) ∈ product22 →
      ∃ slot : rect,
        func a b = Ok slot ∧
        leaf_load (H0 := example_env) σ y1 y2 (map_to_list example_v2s).*1 r a b
        <= 100 * 0.7.
Proof.
  assert (Hkeys : (map_to_list example_v2s).*1 = ["A"; "B"]%string)
    by (vm_compute; reflexivity).
  destruct (is_Ok_true
              (four_way_model (H0 := example_env) (example_call ∅ 0.7)
                 ["A"; "B"]%string new_model))
    as [[[[func y1] y2] m] Hrun]; [vm_compute; reflexivity|].
  assert (Hm : example_model = m) by (unfold example_model; now rewrite Hrun).
  assert (Hopt : mip_optimize (Environment := example_env) example_model 600
                 = (FEASIBLE, fun a => inject_Z <$> example_solution !! a)).
  { assert (Hsol : search_vars (m_constrs example_model)
                     (m_vars example_model).*1 [] = Some example_solution)
      by (vm_compute; reflexivity).
    cbn [mip_optimize example_env]. unfold example_optimize.
    now rewrite Hsol. }
  assert (Hfeasible : feasibleb example_solution example_model = true)
    by (vm_compute; reflexivity).
  pose proof (feasibleb_feasible _ _ Hfeasible) as Hσ.
  rewrite <- Hm in Hrun. rewrite <- Hkeys in Hrun.
  destruct (four_way_result_respects_constraints (H0 := example_env)
              (example_call ∅ 0.7) example_v2s ∅ [] 0.7 600 func y1 y2
              example_model FEASIBLE
              (fun a => inject_Z <$> example_solution !! a)
              (fun a => default 0%Z (example_solution !! a)))
    as (v2s & Hv & Hdom & _ & Hcap & _).
  - reflexivity.
  - reflexivity.
  - reflexivity.
  - reflexivity.
  - reflexivity.
  - exact Hrun.
  - exact Hopt.
  - now right.
  - exact Hσ.
  - intros a Ha.
    destruct (feasibleb_values _ _ _ Hfeasible Ha) as [-> | ->]; reflexivity.
  - exists func, y1, y2, (fun a => default 0%Z (example_solution !! a)), v2s.
    split; [exact Hrun|]. split; [exact Hσ|]. split; [exact Hv|].
    split; [exact Hdom|]. exact Hcap.
Defined.

(** ** [FourWayPartition.py]: the retry loop with any parameters *)

Section RetryLoopAny.
Context `{Environment}.

Lemma four_way_loop_step (f : fw_frame) (fuel : nat) (cur : pyval) :
  four_way_loop f (S fuel) cur =
  (v2s ← _four_way_partition (inner_call f cur);
   if negb (dict_truthy v2s) then
     a ← as_number cur;
     d ← as_number (f_max_usage_ratio_delta f);
     let curr_max_usage := py_round2 (a + d) in
     h ← as_number (f_hard_limit_max_usage f);
     if Qleb h curr_max_usage then mret ∅
     else four_way_loop f fuel (PNum curr_max_usage)
   else mret v2s).
Proof. reflexivity. Qed.

(** What the loop returns is empty or what one call returned. *)
Lemma four_way_loop_Ok (f : fw_frame) (fuel : nat) :
  ∀ cur m, four_way_loop f fuel cur = Ok m →
    m = ∅ ∨ ∃ cur', _four_way_partition (inner_call f cur') = Ok m.
Proof.
  induction fuel as [|fuel IH]; intros cur m; [discriminate|].
  rewrite four_way_loop_step. intros Hrun.
  apply bind_Ok in Hrun as (v2s & Hcall & Hrun).
  destruct (dict_truthy v2s); cbn [negb] in Hrun.
  - injection Hrun as <-. eauto.
  - apply bind_Ok in Hrun as (a & _ & Hrun).
    apply bind_Ok in Hrun as (d & _ & Hrun). cbn zeta in Hrun.
    apply bind_Ok in Hrun as (h & _ & Hrun).
    destruct (Qleb h (py_round2 (a + d))).
    + injection Hrun as <-. now left.
    + eapply IH. exact Hrun.
Qed.

(** One call: its mapping is empty or covers the design with leaves. *)
Lemma four_way_call_coverage (c : fw_call) (init_v2s : gmap vertex Slot)
    (sm : SlotManager) (m : gmap vertex Slot) :
  a_init_v2s c = PDict init_v2s →
  a_slot_manager c = PSlotManager sm →
  _four_way_partition c = Ok m →
  m = ∅ ∨
  (dom m = dom init_v2s ∧
   ∀ v s, m !! v = Some s →
          s ∈ getLeafSlotsAfterPartition sm [horizontal; horizontal]).
Proof.
  intros Hinit Hsm Hrun. unfold _four_way_partition in Hrun.
  rewrite Hinit in Hrun. cbn [as_dict mbind result_bind] in Hrun.
  apply bind_Ok in Hrun as ([[[func y1] y2] m1] & Hmodel & Hrun).
  apply four_way_model_closure in Hmodel. rewrite Hsm in Hmodel.
  injection Hmodel as <-.
  apply bind_Ok in Hrun as (t & _ & Hrun).
  destruct (mip_optimize m1 t) as [status x].
  rewrite get_results_unfold in Hrun.
  destruct status; try (left; congruence); right;
    (destruct (extract_loop_Ok x _ y1 y2
                 (fun s => s ∈ getLeafSlotsAfterPartition sm
                                 [horizontal; horizontal])
                 _ (fun a b s => py_index_Ok _ _ s) _ _ Hrun) as [Hdom Hval];
     rewrite keys_of_dict, dom_empty_L, (left_id_L ∅ (∪)) in Hdom;
     split; [exact Hdom|]; intros v s Hs;
     destruct (Hval v s Hs) as [He|HP]; [|exact HP];
     rewrite lookup_empty in He; discriminate).
Qed.

(** Rounding to hundredths absorbs an increment below half a hundredth. *)
Lemma round_half_even_below_half (q : Q) (z : Z) :
  inject_Z z <= q → q < inject_Z z + (1 # 2) → round_half_even q = z.
Proof.
  intros Hle Hlt. unfold round_half_even.
  assert (Hfloor : Qfloor q = z).
  { apply Z.le_antisymm.
    - apply Z.lt_succ_r. rewrite Zlt_Qlt.
      eapply Qle_lt_trans; [apply Qfloor_le|].
      unfold Z.succ. rewrite inject_Z_plus. change (inject_Z 1) with 1. lra.
    - rewrite <- (Qfloor_Z z). now apply Qfloor_resp_le. }
  rewrite Hfloor.
  destruct (Qltb (q - inject_Z z) (1 # 2)) eqn:Hb; [reflexivity|].
  apply Qltb_ge in Hb. lra.
Qed.

Lemma py_round2_absorbs (k : Z) (delta : Q) :
  0 <= delta → delta < 0.005 → py_round2 ((k # 100) + delta) = k # 100.
Proof.
  intros Hge Hlt. unfold py_round2. f_equal.
  apply round_half_even_below_half.
  - assert (Hk : 100 * (k # 100) == inject_Z k).
    { unfold Qeq, inject_Z. cbn. lia. }
    lra.
  - assert (Hk : 100 * (k # 100) == inject_Z k).
    { unfold Qeq, inject_Z. cbn. lia. }
    lra.
Qed.

Lemma four_way_loop_absorbed (f : fw_frame) (k : Z) (delta limit : Q) :
  f_max_usage_ratio_delta f = PNum delta →
  f_hard_limit_max_usage f = PNum limit →
  0 <= delta → delta < 0.005 → (k # 100) < limit →
  _four_way_partition (inner_call f (PNum (k # 100))) = Ok ∅ →
  ∀ fuel, four_way_loop f fuel (PNum (k # 100)) = OutOfFuel.
Proof.
  intros Hd Hl Hge Hlt Hlim Hcall. induction fuel as [|fuel IH]; [reflexivity|].
  rewrite four_way_loop_step, Hcall. cbn [mbind result_bind].
  rewrite (proj2 (dict_truthy_false ∅) eq_refl). cbn [negb as_number].
  rewrite Hd, Hl. cbn [as_number mbind result_bind].
  rewrite (py_round2_absorbs k delta Hge Hlt).
  destruct (Qleb limit (k # 100)) eqn:Hb; [|exact IH].
  apply Qleb_le in Hb. lra.
Qed.

End RetryLoopAny.

(** X14: whatever its parameters, a mapping that [four_way_partition]
    returns is empty, or it is the mapping that one call of
    [_four_way_partition] returned: its keys are the vertices of [init_v2s]
    and its values are leaves of the two horizontal splits. *)
Theorem four_way_partition_result_coverage `{Environment}
    (fuel : nat) (init_v2s : gmap vertex Slot) (sm : SlotManager)
    (rest : list pyval) (m : gmap vertex Slot) :
  four_way_partition fuel (PDict init_v2s :: PSlotManager sm :: rest) = Ok m →
  m = ∅ ∨
  (dom m = dom init_v2s ∧
   ∀ v, v ∈ dom init_v2s →
     ∃ s, m !! v = Some s ∧
          s ∈ getLeafSlotsAfterPartition sm [horizontal; horizontal]).
Proof.
  unfold four_way_partition. intros Hrun.
  apply bind_Ok in Hrun as (f & Hbind & Hrun).
  assert (Hf : f_init_v2s f = PDict init_v2s ∧ f_slot_manager f = PSlotManager sm).
  { destruct rest as [|a3 [|a4 [|a5 [|a6 [|a7 [|a8 [|a9 rest]]]]]]];
      cbn in Hbind; try discriminate; injection Hbind as <-; auto. }
  destruct Hf as [Hinit Hsm].
  apply four_way_loop_Ok in Hrun as [->|[cur Hcall]]; [now left|].
  apply (four_way_call_coverage _ init_v2s sm) in Hcall as [->|[Hdom Hval]];
    [now left| |exact Hinit|exact Hsm].
  right. split; [exact Hdom|]. intros v Hv. rewrite <- Hdom in Hv.
  apply elem_of_dom in Hv as [s Hs]. eauto.
Qed.

Lemma four_way_partition_result_coverage_witness :
  ∃ m : gmap vertex rect,
    four_way_partition (H0 := example_env) 10
      [PDict (H := example_slots) example_v2s;
       PSlotManager (H := example_slots) four_slrs; PList [];
       PDict (H := example_slots) ∅; PNum 0.34] = Ok m ∧
    (m = ∅ ∨
     (dom m = dom example_v2s ∧
      ∀ v, v ∈ dom example_v2s → ∃ s, m !! v = Some s ∧ s ∈ four_slrs)).
Proof.
  destruct (is_Ok_true
    (four_way_partition (H0 := example_env) 10
       [PDict (H := example_slots) example_v2s;
        PSlotManager (H := example_slots) four_slrs; PList [];
        PDict (H := example_slots) ∅; PNum 0.34]))
    as [m Hrun]; [vm_compute; reflexivity|].
  exists m. split; [exact Hrun|].
  exact (four_way_partition_result_coverage (H0 := example_env) _ _ _ _ _ Hrun).
Defined.



(** ** [FourWayPartition.py]: the crossing constraints

    The encodings of [ILPUtilities] are those of section 4.1 of the
    specification; what follows holds for them. *)

Ltac holds_to_Z H :=
  cbn [holds eval] in H; unfold Qminus in H;
  change 1 with (inject_Z 1) in H; change 2 with (inject_Z 2) in H;
  repeat (rewrite <- inject_Z_mult in H || rewrite <- inject_Z_plus in H
          || rewrite <- inject_Z_opp in H);
  first [ rewrite <- Zle_Qle in H
        | let E := fresh in
          pose proof (proj1 (inject_Z_injective _ _) H) as E; clear H;
          rename E into H ].

Section Encodings.

Lemma encodes_extends (m m' : Model) (c : nat) (b : (nat → Z) → bool) :
  extends m m' → encodes m c b → encodes m' c b.
Proof.
  intros Hext [Hbin Hval]. split; [eapply extends_binary; eassumption|].
  intros σ Hσ. apply Hval. eapply feasible_of_extension; eassumption.
Qed.

Lemma encodes_variable (m : Model) (x : nat) :
  is_binary m x → encodes m x (fun σ => (σ x =? 1)%Z).
Proof.
  intros Hx. split; [exact Hx|]. intros σ [Hbin _].
  destruct (Hbin x Hx) as [-> | ->]; reflexivity.
Qed.

Lemma new_binary (n : string) (m m' : Model) (c : nat) :
  add_var BINARY n m = Ok (c, m') → is_binary m' c ∧ extends m m'.
Proof. intros Hc. apply add_var_Ok in Hc as (Hv & _ & He). split; [eexists|]; eauto. Qed.

Lemma get_var_of_equal_zero_Ok (x c : nat) (m m' : Model) (bx : (nat → Z) → bool) :
  encodes m x bx →
  get_var_of_equal_zero x m = Ok (c, m') →
  extends m m' ∧ encodes m' c (fun σ => negb (bx σ)).
Proof.
  intros Hx Hrun. unfold get_var_of_equal_zero in Hrun.
  apply ilp_bind_Ok in Hrun as (c' & m1 & Hc & Hrun).
  apply ilp_bind_Ok in Hrun as ([] & m2 & H1 & Hret). injection Hret as <- <-.
  apply new_binary in Hc as [Hbin E1].
  apply add_constr_Ok in H1 as (H1 & _ & E2).
  assert (E : extends m m2) by (etrans; eassumption).
  split; [exact E|]. split; [exact (extends_binary _ _ _ E2 Hbin)|].
  intros σ Hσ. pose proof (feasible_holds σ _ _ Hσ H1) as Hc1.
  apply (encodes_extends _ _ _ _ E) in Hx as [_ Hx]. specialize (Hx σ Hσ).
  holds_to_Z Hc1. destruct (bx σ); cbn in *; lia.
Qed.

Lemma get_var_of_equal_one_Ok (x c : nat) (m m' : Model) (bx : (nat → Z) → bool) :
  encodes m x bx →
  get_var_of_equal_one x m = Ok (c, m') →
  extends m m' ∧ encodes m' c bx.
Proof.
  intros Hx Hrun. unfold get_var_of_equal_one in Hrun.
  apply ilp_bind_Ok in Hrun as (c' & m1 & Hc & Hrun).
  apply ilp_bind_Ok in Hrun as ([] & m2 & H1 & Hret). injection Hret as <- <-.
  apply new_binary in Hc as [Hbin E1].
  apply add_constr_Ok in H1 as (H1 & _ & E2).
  assert (E : extends m m2) by (etrans; eassumption).
  split; [exact E|]. split; [exact (extends_binary _ _ _ E2 Hbin)|].
  intros σ Hσ. pose proof (feasible_holds σ _ _ Hσ H1) as Hc1.
  apply (encodes_extends _ _ _ _ E) in Hx as [_ Hx]. specialize (Hx σ Hσ).
  holds_to_Z Hc1. lia.
Qed.

Lemma get_var_of_logic_not_Ok (a c : nat) (m m' : Model) (ba : (nat → Z) → bool) :
  encodes m a ba →
  get_var_of_logic_not a m = Ok (c, m') →
  extends m m' ∧ encodes m' c (fun σ => negb (ba σ)).
Proof.
  intros Hx Hrun. unfold get_var_of_logic_not in Hrun.
  apply ilp_bind_Ok in Hrun as (c' & m1 & Hc & Hrun).
  apply ilp_bind_Ok in Hrun as ([] & m2 & H1 & Hret). injection Hret as <- <-.
  apply new_binary in Hc as [Hbin E1].
  apply add_constr_Ok in H1 as (H1 & _ & E2).
  assert (E : extends m m2) by (etrans; eassumption).
  split; [exact E|]. split; [exact (extends_binary _ _ _ E2 Hbin)|].
  intros σ Hσ. pose proof (feasible_holds σ _ _ Hσ H1) as Hc1.
  apply (encodes_extends _ _ _ _ E) in Hx as [_ Hx]. specialize (Hx σ Hσ).
  holds_to_Z Hc1. destruct (ba σ); cbn in *; lia.
Qed.

Lemma get_var_of_logic_and_Ok (a b c : nat) (m m' : Model)
    (ba bb : (nat → Z) → bool) :
  encodes m a ba → encodes m b bb →
  get_var_of_logic_and a b m = Ok (c, m') →
  extends m m' ∧ encodes m' c (fun σ => ba σ && bb σ).
Proof.
  intros Ha Hb Hrun. unfold get_var_of_logic_and in Hrun.
  apply ilp_bind_Ok in Hrun as (c' & m1 & Hc & Hrun).
  apply ilp_bind_Ok in Hrun as ([] & m2 & H1 & Hrun).
  apply ilp_bind_Ok in Hrun as ([] & m3 & H2 & Hrun).
  apply ilp_bind_Ok in Hrun as ([] & m4 & H3 & Hret). injection Hret as <- <-.
  apply new_binary in Hc as [Hbin E1].
  apply add_constr_Ok in H1 as (H1 & _ & E2).
  apply add_constr_Ok in H2 as (H2 & _ & E3).
  apply add_constr_Ok in H3 as (H3 & _ & E4).
  assert (E34 : extends m2 m4) by (etrans; eassumption).
  assert (E14 : extends m1 m4) by (etrans; eassumption).
  assert (E : extends m m4) by (etrans; eassumption).
  split; [exact E|]. split; [exact (extends_binary _ _ _ E14 Hbin)|].
  intros σ Hσ.
  pose proof (feasible_holds σ _ _ Hσ (extends_constr _ _ _ E34 H1)) as Hc1.
  pose proof (feasible_holds σ _ _ Hσ (extends_constr _ _ _ E4 H2)) as Hc2.
  pose proof (feasible_holds σ _ _ Hσ H3) as Hc3.
  apply (encodes_extends _ _ _ _ E) in Ha as [_ Ha]. specialize (Ha σ Hσ).
  apply (encodes_extends _ _ _ _ E) in Hb as [_ Hb]. specialize (Hb σ Hσ).
  destruct Hσ as [Hbinary _].
  pose proof (Hbinary c' (extends_binary _ _ _ E14 Hbin)) as Hc01.
  holds_to_Z Hc1. holds_to_Z Hc2. holds_to_Z Hc3.
  destruct (ba σ), (bb σ); cbn in *; lia.
Qed.

Lemma get_var_of_logic_or_Ok (a b c : nat) (m m' : Model)
    (ba bb : (nat → Z) → bool) :
  encodes m a ba → encodes m b bb →
  get_var_of_logic_or a b m = Ok (c, m') →
  extends m m' ∧ encodes m' c (fun σ => ba σ || bb σ).
Proof.
  intros Ha Hb Hrun. unfold get_var_of_logic_or in Hrun.
  apply ilp_bind_Ok in Hrun as (c' & m1 & Hc & Hrun).
  apply ilp_bind_Ok in Hrun as ([] & m2 & H1 & Hrun).
  apply ilp_bind_Ok in Hrun as ([] & m3 & H2 & Hrun).
  apply ilp_bind_Ok in Hrun as ([] & m4 & H3 & Hret). injection Hret as <- <-.
  apply new_binary in Hc as [Hbin E1].
  apply add_constr_Ok in H1 as (H1 & _ & E2).
  apply add_constr_Ok in H2 as (H2 & _ & E3).
  apply add_constr_Ok in H3 as (H3 & _ & E4).
  assert (E34 : extends m2 m4) by (etrans; eassumption).
  assert (E14 : extends m1 m4) by (etrans; eassumption).
  assert (E : extends m m4) by (etrans; eassumption).
  split; [exact E|]. split; [exact (extends_binary _ _ _ E14 Hbin)|].
  intros σ Hσ.
  pose proof (feasible_holds σ _ _ Hσ (extends_constr _ _ _ E34 H1)) as Hc1.
  pose proof (feasible_holds σ _ _ Hσ (extends_constr _ _ _ E4 H2)) as Hc2.
  pose proof (feasible_holds σ _ _ Hσ H3) as Hc3.
  apply (encodes_extends _ _ _ _ E) in Ha as [_ Ha]. specialize (Ha σ Hσ).
  apply (encodes_extends _ _ _ _ E) in Hb as [_ Hb]. specialize (Hb σ Hσ).
  destruct Hσ as [Hbinary _].
  pose proof (Hbinary c' (extends_binary _ _ _ E14 Hbin)) as Hc01.
  holds_to_Z Hc1. holds_to_Z Hc2. holds_to_Z Hc3.
  destruct (ba σ), (bb σ); cbn in *; lia.
Qed.

Lemma get_var_of_logic_xor_Ok (a b c : nat) (m m' : Model)
    (ba bb : (nat → Z) → bool) :
  encodes m a ba → encodes m b bb →
  get_var_of_logic_xor a b m = Ok (c, m') →
  extends m m' ∧ encodes m' c (fun σ => xorb (ba σ) (bb σ)).
Proof.
  intros Ha Hb Hrun. unfold get_var_of_logic_xor in Hrun.
  apply ilp_bind_Ok in Hrun as (c' & m1 & Hc & Hrun).
  apply ilp_bind_Ok in Hrun as ([] & m2 & H1 & Hrun).
  apply ilp_bind_Ok in Hrun as ([] & m3 & H2 & Hrun).
  apply ilp_bind_Ok in Hrun as ([] & m4 & H3 & Hrun).
  apply ilp_bind_Ok in Hrun as ([] & m5 & H4 & Hret). injection Hret as <- <-.
  apply new_binary in Hc as [Hbin E1].
  apply add_constr_Ok in H1 as (H1 & _ & E2).
  apply add_constr_Ok in H2 as (H2 & _ & E3).
  apply add_constr_Ok in H3 as (H3 & _ & E4).
  apply add_constr_Ok in H4 as (H4 & _ & E5).
  assert (E45 : extends m4 m5) by exact E5.
  assert (E35 : extends m3 m5) by (etrans; eassumption).
  assert (E25 : extends m2 m5) by (etrans; eassumption).
  assert (E15 : extends m1 m5) by (etrans; eassumption).
  assert (E : extends m m5) by (etrans; eassumption).
  split; [exact E|]. split; [exact (extends_binary _ _ _ E15 Hbin)|].
  intros σ Hσ.
  pose proof (feasible_holds σ _ _ Hσ (extends_constr _ _ _ E25 H1)) as Hc1.
  pose proof (feasible_holds σ _ _ Hσ (extends_constr _ _ _ E35 H2)) as Hc2.
  pose proof (feasible_holds σ _ _ Hσ (extends_constr _ _ _ E45 H3)) as Hc3.
  pose proof (feasible_holds σ _ _ Hσ H4) as Hc4.
  apply (encodes_extends _ _ _ _ E) in Ha as [_ Ha]. specialize (Ha σ Hσ).
  apply (encodes_extends _ _ _ _ E) in Hb as [_ Hb]. specialize (Hb σ Hσ).
  destruct Hσ as [Hbinary _].
  pose proof (Hbinary c' (extends_binary _ _ _ E15 Hbin)) as Hc01.
  holds_to_Z Hc1. holds_to_Z Hc2. holds_to_Z Hc3. holds_to_Z Hc4.
  destruct (ba σ), (bb σ); cbn in *; lia.
Qed.

End Encodings.

Lemma encodes_ext (m : Model) (c : nat) (b b' : (nat → Z) → bool) :
  (∀ σ, feasible σ m → b σ = b' σ) → encodes m c b → encodes m c b'.
Proof.
  intros Heq [Hbin Hval]. split; [exact Hbin|].
  intros σ Hσ. rewrite <- (Heq σ Hσ). now apply Hval.
Qed.

Lemma Qsum_app (l1 l2 : list Q) : Qsum (l1 ++ l2) == Qsum l1 + Qsum l2.
Proof.
  induction l1 as [|q l1 IH]; cbn; [now rewrite Qplus_0_l|].
  change (foldr Qplus 0 (l1 ++ l2)) with (Qsum (l1 ++ l2)).
  change (foldr Qplus 0 l1) with (Qsum l1). rewrite IH. ring.
Qed.

Ltac next_lookup Hrun x Hx :=
  let k := fresh "k" in
  apply ilp_bind_Ok in Hrun as (x & k & Hx & Hrun);
  apply lift_Ok in Hx as [Hx ->]; apply dict_get_Ok in Hx.

Ltac next_gadget Hrun c Hc :=
  let k := fresh "k" in
  apply ilp_bind_Ok in Hrun as (c & k & Hc & Hrun).

Section Crossing.
Context `{Environment}.
Variables v2var_y1 v2var_y2 : gmap vertex nat.

Local Abbreviation positions_binary := (positions_binary v2var_y1 v2var_y2).

Lemma positions_binary_extends (m m' : Model) :
  extends m m' → positions_binary m → positions_binary m'.
Proof. intros E Hb v x Hx. eapply extends_binary; [exact E|]. eapply Hb, Hx. Qed.

Lemma pos_y_of_values (σ : nat → Z) (v : vertex) (a b : nat) :
  v2var_y1 !! v = Some a → v2var_y2 !! v = Some b →
  pos_y_of σ v2var_y1 v2var_y2 v = (σ a * 2 + σ b)%Z.
Proof. intros Ha Hb. unfold pos_y_of, position_of. now rewrite Ha, Hb. Qed.

(** After a step of the model, what is known of its variables holds of the
    new model. *)
Ltac advance E :=
  lazymatch type of E with
  | extends ?m1 ?m2 =>
      repeat match goal with
             | H : encodes m1 _ _ |- _ => apply (encodes_extends m1 m2 _ _ E) in H
             | H : positions_binary m1 |- _ =>
                 apply (positions_binary_extends m1 m2 E) in H
             | H : extends ?m0 m1 |- _ =>
                 apply (fun h => transitivity (R := extends) h E) in H
             end;
      clear E
  end.

(** A position variable that has been looked up. *)
Ltac position_var Hbin Hx :=
  lazymatch type of Hx with
  | _ !! ?v = Some ?x =>
      let Henc := fresh "Henc" in
      assert (Henc := encodes_variable _ x (Hbin v x ltac:(eauto)))
  end.

Ltac apply_gadget lemma Hc :=
  let E := fresh "E" in
  first [ eapply lemma in Hc as [E Hc]; [advance E|eassumption..] ].

(** The values of the four position variables of an edge. *)
Lemma edge_position_values (σ : nat → Z) (m : Model) (e : Edge)
    (s1 s2 d1 d2 : nat) :
  positions_binary m → feasible σ m →
  v2var_y1 !! e_src e = Some s1 → v2var_y2 !! e_src e = Some s2 →
  v2var_y1 !! e_dst e = Some d1 → v2var_y2 !! e_dst e = Some d2 →
  (σ s1 = 0 ∨ σ s1 = 1)%Z ∧ (σ s2 = 0 ∨ σ s2 = 1)%Z ∧
  (σ d1 = 0 ∨ σ d1 = 1)%Z ∧ (σ d2 = 0 ∨ σ d2 = 1)%Z ∧
  pos_y_of σ v2var_y1 v2var_y2 (e_src e) = (σ s1 * 2 + σ s2)%Z ∧
  pos_y_of σ v2var_y1 v2var_y2 (e_dst e) = (σ d1 * 2 + σ d2)%Z.
Proof.
  intros Hbin [Hσ _] Hs1 Hs2 Hd1 Hd2.
  repeat split; try (apply Hσ; eapply Hbin; eauto); now apply pos_y_of_values.
Qed.

Lemma cross_slr_0_1_Ok (e : Edge) (m m' : Model) (c : nat) :
  positions_binary m →
  (s1 ← lift (dict_get v2var_y1 (e_src e));
   s1z ← get_var_of_equal_zero s1;
   s2 ← lift (dict_get v2var_y2 (e_src e));
   s2z ← get_var_of_equal_zero s2;
   src_in_slr0 ← get_var_of_logic_and s1z s2z;
   d1 ← lift (dict_get v2var_y1 (e_dst e));
   d1z ← get_var_of_equal_zero d1;
   d2 ← lift (dict_get v2var_y2 (e_dst e));
   d2z ← get_var_of_equal_zero d2;
   dst_in_slr0 ← get_var_of_logic_and d1z d2z;
   src_not_in_slr0 ← get_var_of_logic_not src_in_slr0;
   dst_not_in_slr0 ← get_var_of_logic_not dst_in_slr0;
   a ← get_var_of_logic_and src_in_slr0 dst_not_in_slr0;
   b ← get_var_of_logic_and dst_in_slr0 src_not_in_slr0;
   get_var_of_logic_or a b) m = Ok (c, m') →
  extends m m' ∧
  encodes m' c (fun σ => crosses_boundary σ v2var_y1 v2var_y2 0 e) ∧
  has_position_vars v2var_y1 v2var_y2 (e_src e) ∧
  has_position_vars v2var_y1 v2var_y2 (e_dst e).
Proof.
  intros Hbin Hrun. assert (E0 : extends m m) by reflexivity.
  next_lookup Hrun s1 Hs1. position_var Hbin Hs1.
  next_gadget Hrun s1z Hs1z. apply_gadget get_var_of_equal_zero_Ok Hs1z.
  next_lookup Hrun s2 Hs2. position_var Hbin Hs2.
  next_gadget Hrun s2z Hs2z. apply_gadget get_var_of_equal_zero_Ok Hs2z.
  next_gadget Hrun src_in Hsrc. apply_gadget get_var_of_logic_and_Ok Hsrc.
  next_lookup Hrun d1 Hd1. position_var Hbin Hd1.
  next_gadget Hrun d1z Hd1z. apply_gadget get_var_of_equal_zero_Ok Hd1z.
  next_lookup Hrun d2 Hd2. position_var Hbin Hd2.
  next_gadget Hrun d2z Hd2z. apply_gadget get_var_of_equal_zero_Ok Hd2z.
  next_gadget Hrun dst_in Hdst. apply_gadget get_var_of_logic_and_Ok Hdst.
  next_gadget Hrun src_not Hsn. apply_gadget get_var_of_logic_not_Ok Hsn.
  next_gadget Hrun dst_not Hdn. apply_gadget get_var_of_logic_not_Ok Hdn.
  next_gadget Hrun a Ha. apply_gadget get_var_of_logic_and_Ok Ha.
  next_gadget Hrun b Hb. apply_gadget get_var_of_logic_and_Ok Hb.
  apply_gadget get_var_of_logic_or_Ok Hrun.
  split; [exact E0|].
  split; [|split; split; eauto].
  eapply encodes_ext; [|exact Hrun].
  intros σ Hσ. cbn beta. unfold crosses_boundary.
  destruct (edge_position_values σ _ e s1 s2 d1 d2 Hbin Hσ Hs1 Hs2 Hd1 Hd2)
    as (V1 & V2 & V3 & V4 & -> & ->).
  destruct V1 as [-> | ->], V2 as [-> | ->], V3 as [-> | ->], V4 as [-> | ->];
    reflexivity.
Qed.

Lemma cross_slr_1_2_Ok (e : Edge) (m m' : Model) (c : nat) :
  positions_binary m →
  (s1 ← lift (dict_get v2var_y1 (e_src e));
   d1 ← lift (dict_get v2var_y1 (e_dst e));
   get_var_of_logic_xor s1 d1) m = Ok (c, m') →
  (is_Some (v2var_y2 !! e_src e) ∧ is_Some (v2var_y2 !! e_dst e) →
   extends m m' ∧
   encodes m' c (fun σ => crosses_boundary σ v2var_y1 v2var_y2 1 e)).
Proof.
  intros Hbin Hrun [[s2 Hs2] [d2 Hd2]]. assert (E0 : extends m m) by reflexivity.
  next_lookup Hrun s1 Hs1. position_var Hbin Hs1.
  next_lookup Hrun d1 Hd1. position_var Hbin Hd1.
  apply_gadget get_var_of_logic_xor_Ok Hrun.
  split; [exact E0|]. eapply encodes_ext; [|exact Hrun].
  intros σ Hσ. cbn beta. unfold crosses_boundary.
  destruct (edge_position_values σ _ e s1 s2 d1 d2 Hbin Hσ Hs1 Hs2 Hd1 Hd2)
    as (V1 & V2 & V3 & V4 & -> & ->).
  destruct V1 as [-> | ->], V2 as [-> | ->], V3 as [-> | ->], V4 as [-> | ->];
    reflexivity.
Qed.

Lemma cross_slr_2_3_Ok (e : Edge) (m m' : Model) (c : nat) :
  positions_binary m →
  (s1 ← lift (dict_get v2var_y1 (e_src e));
   s1o ← get_var_of_equal_one s1;
   s2 ← lift (dict_get v2var_y2 (e_src e));
   s2o ← get_var_of_equal_one s2;
   src_in_slr3 ← get_var_of_logic_and s1o s2o;
   d1 ← lift (dict_get v2var_y1 (e_dst e));
   d1o ← get_var_of_equal_one d1;
   d2 ← lift (dict_get v2var_y2 (e_dst e));
   d2o ← get_var_of_equal_one d2;
   dst_in_slr3 ← get_var_of_logic_and d1o d2o;
   src_not_in_slr3 ← get_var_of_logic_not src_in_slr3;
   dst_not_in_slr3 ← get_var_of_logic_not dst_in_slr3;
   a ← get_var_of_logic_and src_in_slr3 dst_not_in_slr3;
   b ← get_var_of_logic_and dst_in_slr3 src_not_in_slr3;
   get_var_of_logic_or a b) m = Ok (c, m') →
  extends m m' ∧
  encodes m' c (fun σ => crosses_boundary σ v2var_y1 v2var_y2 2 e).
Proof.
  intros Hbin Hrun. assert (E0 : extends m m) by reflexivity.
  next_lookup Hrun s1 Hs1. position_var Hbin Hs1.
  next_gadget Hrun s1z Hs1z. apply_gadget get_var_of_equal_one_Ok Hs1z.
  next_lookup Hrun s2 Hs2. position_var Hbin Hs2.
  next_gadget Hrun s2z Hs2z. apply_gadget get_var_of_equal_one_Ok Hs2z.
  next_gadget Hrun src_in Hsrc. apply_gadget get_var_of_logic_and_Ok Hsrc.
  next_lookup Hrun d1 Hd1. position_var Hbin Hd1.
  next_gadget Hrun d1z Hd1z. apply_gadget get_var_of_equal_one_Ok Hd1z.
  next_lookup Hrun d2 Hd2. position_var Hbin Hd2.
  next_gadget Hrun d2z Hd2z. apply_gadget get_var_of_equal_one_Ok Hd2z.
  next_gadget Hrun dst_in Hdst. apply_gadget get_var_of_logic_and_Ok Hdst.
  next_gadget Hrun src_not Hsn. apply_gadget get_var_of_logic_not_Ok Hsn.
  next_gadget Hrun dst_not Hdn. apply_gadget get_var_of_logic_not_Ok Hdn.
  next_gadget Hrun a Ha. apply_gadget get_var_of_logic_and_Ok Ha.
  next_gadget Hrun b Hb. apply_gadget get_var_of_logic_and_Ok Hb.
  apply_gadget get_var_of_logic_or_Ok Hrun.
  split; [exact E0|]. eapply encodes_ext; [|exact Hrun].
  intros σ Hσ. cbn beta. unfold crosses_boundary.
  destruct (edge_position_values σ _ e s1 s2 d1 d2 Hbin Hσ Hs1 Hs2 Hd1 Hd2)
    as (V1 & V2 & V3 & V4 & -> & ->).
  destruct V1 as [-> | ->], V2 as [-> | ->], V3 as [-> | ->], V4 as [-> | ->];
    reflexivity.
Qed.

(** The sum built by [crossing_constraint]. *)
Lemma crossing_terms_Ok (cross : Edge → ilp nat) (crossb : Edge → (nat → Z) → bool)
    (Pre Post : Edge → Prop) (edges : list Edge) :
  (∀ e m c m', Pre e → positions_binary m → cross e m = Ok (c, m') →
               extends m m' ∧ encodes m' c (crossb e) ∧ Post e) →
  ∀ (acc terms : list LinExpr) (m m' : Model),
    ilp_for edges
      (fun e (terms : list LinExpr) =>
         c ← cross e; mret (terms ++ [LScale (e_width e) (LVar c)]))
      acc m = Ok (terms, m') →
    Forall Pre edges →
    positions_binary m →
    extends m m' ∧ Forall Post edges ∧
    ∀ σ, feasible σ m' →
      Qsum (map (eval σ) terms) ==
      Qsum (map (eval σ) acc) +
      Qsum (map (fun e => if crossb e σ then e_width e else 0) edges).
Proof.
  intros Hcross. induction edges as [|e edges IH]; intros acc terms m m';
    cbn [ilp_for].
  - intros [= <- <-] _ _. split; [reflexivity|]. split; [constructor|].
    intros σ _. cbn [map Qsum foldr]. now rewrite Qplus_0_r.
  - intros Hrun Hpre Hbin. apply Forall_cons in Hpre as [Hpe Hpre].
    apply ilp_bind_Ok in Hrun as (acc' & m1 & Hstep & Hrun).
    apply ilp_bind_Ok in Hstep as (c & m0 & Hc & Hret). injection Hret as <- <-.
    destruct (Hcross _ _ _ _ Hpe Hbin Hc) as (E1 & Henc & Hpost).
    destruct (IH _ _ _ _ Hrun Hpre (positions_binary_extends _ _ E1 Hbin))
      as (E2 & Hposts & Hsum).
    split; [etrans; eassumption|]. split; [now constructor|].
    intros σ Hσ. rewrite (Hsum σ Hσ).
    rewrite map_app, Qsum_app. cbn [map Qsum foldr eval].
    apply (encodes_extends _ _ _ _ E2) in Henc as [_ Hval].
    rewrite (Hval σ Hσ). destruct (crossb e σ); cbn [Z.b2z];
      [change (inject_Z 1) with 1|change (inject_Z 0) with 0];
      unfold Qsum; ring.
Qed.

Lemma crossing_constraint_Ok (cross : Edge → ilp nat)
    (crossb : Edge → (nat → Z) → bool) (Pre Post : Edge → Prop)
    (edges : list Edge) (w : Q) (m m' : Model) (u : unit) :
  (∀ e m c m', Pre e → positions_binary m → cross e m = Ok (c, m') →
               extends m m' ∧ encodes m' c (crossb e) ∧ Post e) →
  Forall Pre edges →
  positions_binary m →
  crossing_constraint edges cross (PNum w) m = Ok (u, m') →
  Forall Post edges ∧
  ∀ σ, feasible σ m' →
    Qsum (map (fun e => if crossb e σ then e_width e else 0) edges) <= w.
Proof.
  intros Hcross Hpre Hbin Hrun. unfold crossing_constraint in Hrun.
  apply ilp_bind_Ok in Hrun as (terms & m1 & Hterms & Hrun).
  apply ilp_bind_Ok in Hrun as (w' & m2 & Hw & Hc).
  apply lift_Ok in Hw as [[= <-] ->].
  apply add_constr_Ok in Hc as (Hc & _ & E2).
  destruct (crossing_terms_Ok cross crossb Pre Post edges Hcross _ _ _ _
              Hterms Hpre Hbin) as (E1 & Hposts & Hsum).
  split; [exact Hposts|]. intros σ Hσ.
  pose proof (feasible_holds σ _ _ Hσ Hc) as Hle. cbn [holds eval] in Hle.
  rewrite eval_xsum in Hle.
  rewrite (Hsum σ (feasible_of_extension _ _ _ E2 Hσ)) in Hle.
  cbn in Hle. rewrite Qplus_0_l in Hle. exact Hle.
Qed.

(** Both ends of an edge have their position variables. *)
Local Abbreviation ends_known :=
  (fun e : Edge => has_position_vars v2var_y1 v2var_y2 (e_src e) ∧
                   has_position_vars v2var_y1 v2var_y2 (e_dst e)).

Lemma add_slr_0_1_Ok (v_list : list vertex) (w : Q) (m m' : Model) (u : unit) :
  positions_binary m →
  _add_slr_0_1_crossing_constraint v_list v2var_y1 v2var_y2 (PNum w) m
  = Ok (u, m') →
  Forall ends_known (get_all_edges v_list) ∧
  ∀ σ, feasible σ m' →
    boundary_width σ v2var_y1 v2var_y2 (get_all_edges v_list) 0 <= w.
Proof.
  intros Hbin Hrun. unfold _add_slr_0_1_crossing_constraint in Hrun.
  eapply (crossing_constraint_Ok _
            (fun e σ => crosses_boundary σ v2var_y1 v2var_y2 0 e)
            (fun _ => True) ends_known) in Hrun; [exact Hrun| | |exact Hbin].
  - intros e m0 c m1 _ Hb Hc. apply cross_slr_0_1_Ok; assumption.
  - apply Forall_forall. auto.
Qed.

Lemma add_slr_1_2_Ok (v_list : list vertex) (w : Q) (m m' : Model) (u : unit) :
  positions_binary m →
  Forall ends_known (get_all_edges v_list) →
  _add_slr_1_2_crossing_constraint v_list v2var_y1 (PNum w) m = Ok (u, m') →
  ∀ σ, feasible σ m' →
    boundary_width σ v2var_y1 v2var_y2 (get_all_edges v_list) 1 <= w.
Proof.
  intros Hbin Hends Hrun. unfold _add_slr_1_2_crossing_constraint in Hrun.
  eapply (crossing_constraint_Ok _
            (fun e σ => crosses_boundary σ v2var_y1 v2var_y2 1 e)
            ends_known (fun _ => True)) in Hrun as [_ Hrun];
    [exact Hrun| |exact Hends|exact Hbin].
  intros e m0 c m1 [[_ Hs] [_ Hd]] Hb Hc.
  destruct (cross_slr_1_2_Ok e m0 m1 c Hb Hc (conj Hs Hd)) as [E Henc]. auto.
Qed.

Lemma add_slr_2_3_Ok (v_list : list vertex) (w : Q) (m m' : Model) (u : unit) :
  positions_binary m →
  _add_slr_2_3_crossing_constraint v_list v2var_y1 v2var_y2 (PNum w) m
  = Ok (u, m') →
  ∀ σ, feasible σ m' →
    boundary_width σ v2var_y1 v2var_y2 (get_all_edges v_list) 2 <= w.
Proof.
  intros Hbin Hrun. unfold _add_slr_2_3_crossing_constraint in Hrun.
  eapply (crossing_constraint_Ok _
            (fun e σ => crosses_boundary σ v2var_y1 v2var_y2 2 e)
            (fun _ => True) (fun _ => True)) in Hrun as [_ Hrun];
    [exact Hrun| | |exact Hbin].
  - intros e m0 c m1 _ Hb Hc.
    destruct (cross_slr_2_3_Ok e m0 m1 c Hb Hc) as [E Henc]. auto.
  - apply Forall_forall. auto.
Qed.

End Crossing.

(** X16: in a model that has been built, every feasible assignment keeps
    the total width of the edges whose two ends lie on different sides of
    the boundary between SLR [k] and SLR [k + 1] within the width limit of
    that boundary, for each of the three boundaries (with the encodings of
    [ILPUtilities] as the specification gives them). *)
Theorem crossing_constraints_bound_boundary_widths `{Environment}
    (c : fw_call) (v_list : list vertex) (w0 w1 w2 : Q)
    (func : Z → Z → result Slot) (v2var_y1 v2var_y2 : gmap vertex nat)
    (m : Model) :
  a_slr_0_1_width_limit c = PNum w0 →
  a_slr_1_2_width_limit c = PNum w1 →
  a_slr_2_3_width_limit c = PNum w2 →
  four_way_model c v_list new_model = Ok (func, v2var_y1, v2var_y2, m) →
  ∀ σ, feasible σ m →
    boundary_width σ v2var_y1 v2var_y2 (get_all_edges v_list) 0 <= w0 ∧
    boundary_width σ v2var_y1 v2var_y2 (get_all_edges v_list) 1 <= w1 ∧
    boundary_width σ v2var_y1 v2var_y2 (get_all_edges v_list) 2 <= w2.
Proof.
  intros Hw0 Hw1 Hw2 Hmodel σ Hσ.
  destruct (four_way_model_steps _ _ _ _ _ _ Hmodel)
    as (m1 & s2i & m4 & m5 & m6 & m7 & pre & m8 & groups & m9 & Hposvars & _ &
        _ & _ & H01 & H12 & H23 & _ & _ & _ & _ & _ &
        E14 & E45 & E56 & E67 & E78 & E89 & E9).
  rewrite Hw0 in H01. rewrite Hw1 in H12. rewrite Hw2 in H23.
  assert (Hbin4 : positions_binary v2var_y1 v2var_y2 m4).
  { intros v x Hx. eapply extends_binary; [exact E14|].
    eapply (add_position_vars_Ok v_list ∅ ∅); [exact Hposvars| |exact Hx].
    intros v' x' [Hv'|Hv']; rewrite lookup_empty in Hv'; discriminate. }
  pose proof (positions_binary_extends _ _ _ _ E45 Hbin4) as Hbin5.
  pose proof (positions_binary_extends _ _ _ _ E56 Hbin5) as Hbin6.
  assert (E7 : extends m7 m).
  { etrans; [exact E78|]. etrans; eassumption. }
  assert (E6 : extends m6 m) by (etrans; eassumption).
  assert (E5 : extends m5 m) by (etrans; eassumption).
  destruct (add_slr_0_1_Ok _ _ _ _ _ _ _ Hbin4 H01) as [Hends Hb0].
  split; [apply Hb0; eapply feasible_of_extension; eassumption|].
  split.
  - eapply (add_slr_1_2_Ok _ _ _ _ _ _ _ Hbin5 Hends H12).
    eapply feasible_of_extension; eassumption.
  - eapply (add_slr_2_3_Ok _ _ _ _ _ _ _ Hbin6 H23).
    eapply feasible_of_extension; eassumption.
Qed.

Lemma crossing_constraints_bound_boundary_widths_witness :
  ∃ func y1 y2 σ,
    four_way_model (H0 := example_env) (example_call ∅ 0.7)
      ["A"; "B"]%string new_model = Ok (func, y1, y2, example_model) ∧
    feasible σ example_model ∧
    boundary_width σ y1 y2
      (get_all_edges (Environment := example_env) ["A"; "B"]%string) 0 <= 12000.
Proof.
  destruct (is_Ok_true
              (four_way_model (H0 := example_env) (example_call ∅ 0.7)
                 ["A"; "B"]%string new_model))
    as [[[[func y1] y2] m] Hrun]; [vm_compute; reflexivity|].
  assert (Hm : example_model = m) by (unfold example_model; now rewrite Hrun).
  assert (Hfeasible : feasibleb example_solution example_model = true)
    by (vm_compute; reflexivity).
  pose proof (feasibleb_feasible _ _ Hfeasible) as Hσ.
  rewrite <- Hm in Hrun.
  destruct (crossing_constraints_bound_boundary_widths (H0 := example_env)
              (example_call ∅ 0.7) ["A"; "B"]%string 12000 12000 12000
              func y1 y2 example_model eq_refl eq_refl eq_refl Hrun _ Hσ)
    as (Hb0 & _).
  exists func, y1, y2, (fun a => default 0%Z (example_solution !! a)).
  auto.
Defined.

(** ** [graph.py]: what [initEdges] raises, keeps and sets *)

Module InitEdgesFacts.
Import Graph GraphSpec.

Lemma appends_refl e o : appends e o o.
Proof.
  unfold appends. repeat split; try reflexivity;
    exists 0%nat; cbn; now rewrite app_nil_r.
Qed.

Lemma appends_trans e o1 o2 o3 : appends e o1 o2 → appends e o2 o3 → appends e o1 o3.
Proof.
  intros ([k1 Hi1] & [k2 Ho1] & ?) ([k3 Hi2] & [k4 Ho2] & ?).
  unfold appends.
  split; [exists (k1 + k3)%nat; rewrite Hi2, Hi1, <- app_assoc, replicate_add; reflexivity|].
  split; [exists (k2 + k4)%nat; rewrite Ho2, Ho1, <- app_assoc, replicate_add; reflexivity|].
  intuition congruence.
Qed.

Lemma appends_add_in e o : appends e o (add_in o e).
Proof.
  unfold appends. cbn. split; [exists 0%nat; cbn; now rewrite app_nil_r|].
  split; [exists 1%nat; reflexivity|]. repeat split.
Qed.

Lemma appends_add_out e o : appends e o (add_out o e).
Proof.
  unfold appends. cbn. split; [exists 1%nat; reflexivity|].
  split; [exists 0%nat; cbn; now rewrite app_nil_r|]. repeat split.
Qed.

Lemma store_appends_refl e s : store_appends e s s.
Proof.
  split; [reflexivity|]. intros v. destruct (vertex_objs s !! v); constructor.
  apply appends_refl.
Qed.

Lemma store_appends_trans e s1 s2 s3 :
  store_appends e s1 s2 → store_appends e s2 s3 → store_appends e s1 s3.
Proof.
  intros [He1 Hv1] [He2 Hv2]. split.
  - intros e' Hne. rewrite He2, He1 by exact Hne. reflexivity.
  - intros v. specialize (Hv1 v). specialize (Hv2 v).
    destruct Hv1 as [o1 o2 H12|]; inversion Hv2; subst; constructor.
    eapply appends_trans; eassumption.
Qed.

Lemma store_appends_alter (f : Vertex → Vertex) e v s :
  (∀ o, appends e o (f o)) →
  store_appends e s (mkStore (alter f v (vertex_objs s)) (edge_objs s)).
Proof.
  intros Hf. split; [reflexivity|]. intros w. cbn.
  destruct (decide (v = w)) as [->|Hne].
  - rewrite lookup_alter_eq. destruct (vertex_objs s !! w); constructor. apply Hf.
  - rewrite lookup_alter_ne by exact Hne.
    destruct (vertex_objs s !! w); constructor. apply appends_refl.
Qed.

Lemma call_add_in_appends v e s : store_appends e s (call_add_in v e s).
Proof. apply store_appends_alter. intros o. apply appends_add_in. Qed.

Lemma call_add_out_appends v e s : store_appends e s (call_add_out v e s).
Proof. apply store_appends_alter. intros o. apply appends_add_out. Qed.

Lemma try_sub_appends add v n e s :
  (∀ v' s', store_appends e s' (add v' e s')) →
  store_appends e s (try_sub add v n e s).
Proof.
  intros Hadd. unfold try_sub.
  destruct (vertex_objs s !! v) as [self|]; [|apply store_appends_refl].
  destruct (actual_to_sub self !! n); [apply Hadd|apply store_appends_refl].
Qed.

Lemma store_appends_set_edge e e_obj s :
  store_appends e s (mkStore (vertex_objs s) (<[e := e_obj]> (edge_objs s))).
Proof.
  split.
  - intros e' Hne. cbn. now rewrite lookup_insert_ne.
  - intros v. cbn. destruct (vertex_objs s !! v); constructor. apply appends_refl.
Qed.

Section InitEdgesOutcome.
Context `{Formator}.

(** One port: what it raises, and what it does to the store. *)
Lemma connect_port_spec (g : graph) (e : nat) (p : PortArg) (s : store)
    (e_obj : Edge) :
  edge_objs s !! e = Some e_obj →
  match port_role_of p with
  | DoutPort actual_raw =>
      match edge_to_vertex g !! actual_raw with
      | Some v =>
          ∃ s', connect_port g e p s = Ok s' ∧ store_appends e s s' ∧
                edge_objs s' !! e = Some (set_dst v e_obj)
      | None => connect_port g e p s = Raise KeyError
      end
  | DinPort actual_raw =>
      match edge_to_vertex g !! actual_raw with
      | Some v =>
          ∃ s', connect_port g e p s = Ok s' ∧ store_appends e s s' ∧
                edge_objs s' !! e = Some (set_src v e_obj)
      | None => connect_port g e p s = Raise KeyError
      end
  | OtherPort => connect_port g e p s = Ok s
  end.
Proof.
  intros He. unfold port_role_of, connect_port.
  destruct (arg p) as [actual_raw|]; [|reflexivity]. rewrite He.
  destruct (is_substring "_dout" actual_raw && is_substring "_dout" (portname p)).
  - destruct (edge_to_vertex g !! actual_raw) as [v|]; [|reflexivity].
    eexists. split; [reflexivity|]. split.
    + eapply store_appends_trans; [apply (store_appends_set_edge e (set_dst v e_obj))|].
      eapply store_appends_trans; [apply call_add_in_appends|].
      apply try_sub_appends. intros v' s'. apply call_add_in_appends.
    + rewrite GraphFacts.try_sub_edges by reflexivity. cbn.
      apply lookup_insert_eq.
  - destruct (is_substring "_din" actual_raw && is_substring "_din" (portname p));
      [|reflexivity].
    destruct (edge_to_vertex g !! actual_raw) as [v|]; [|reflexivity].
    eexists. split; [reflexivity|]. split.
    + eapply store_appends_trans; [apply (store_appends_set_edge e (set_src v e_obj))|].
      eapply store_appends_trans; [apply call_add_out_appends|].
      apply try_sub_appends. intros v' s'. apply call_add_out_appends.
    + rewrite GraphFacts.try_sub_edges by reflexivity. cbn.
      apply lookup_insert_eq.
Qed.

Lemma wire_known_dec (g : graph) (p : PortArg) : wire_known g p ∨ ¬ wire_known g p.
Proof.
  unfold wire_known. destruct (port_role_of p) as [a|a|]; [| |now left];
    (destruct (edge_to_vertex g !! a); [left; eauto|right; intros []; discriminate]).
Qed.

(** The loop over the ports. *)
Lemma connect_ports_spec (g : graph) (e : nat) (ports : list PortArg) :
  ∀ (s : store) (e_obj : Edge),
    edge_objs s !! e = Some e_obj →
    (Forall (wire_known g) ports ∧
     ∃ s' e_obj',
       for_each ports (connect_port g e) s = Ok s' ∧ store_appends e s s' ∧
       edge_objs s' !! e = Some e_obj' ∧ same_edge_data e_obj' e_obj ∧
       dst e_obj' =
         foldl (fun acc p => match port_role_of p with
                             | DoutPort a => edge_to_vertex g !! a
                             | _ => acc
                             end) (dst e_obj) ports ∧
       src e_obj' =
         foldl (fun acc p => match port_role_of p with
                             | DinPort a => edge_to_vertex g !! a
                             | _ => acc
                             end) (src e_obj) ports) ∨
    (¬ Forall (wire_known g) ports ∧
     for_each ports (connect_port g e) s = Raise KeyError).
Proof.
  induction ports as [|p ports IH]; intros s e_obj He.
  - left. split; [constructor|]. exists s, e_obj.
    split; [reflexivity|]. split; [apply store_appends_refl|].
    split; [exact He|]. repeat split.
  - cbn [for_each foldl]. pose proof (connect_port_spec g e p s e_obj He) as Hp.
    assert (Hcons : ∀ s1 e1,
      connect_port g e p s = Ok s1 → store_appends e s s1 →
      edge_objs s1 !! e = Some e1 → same_edge_data e1 e_obj →
      wire_known g p →
      dst e1 = match port_role_of p with
               | DoutPort a => edge_to_vertex g !! a
               | _ => dst e_obj
               end →
      src e1 = match port_role_of p with
               | DinPort a => edge_to_vertex g !! a
               | _ => src e_obj
               end →
      (Forall (wire_known g) (p :: ports) ∧
       ∃ s' e_obj',
         connect_port g e p s ≫= for_each ports (connect_port g e) = Ok s' ∧
         store_appends e s s' ∧
         edge_objs s' !! e = Some e_obj' ∧ same_edge_data e_obj' e_obj ∧
         dst e_obj' =
           foldl (fun acc p => match port_role_of p with
                               | DoutPort a => edge_to_vertex g !! a
                               | _ => acc
                               end)
             match port_role_of p with
             | DoutPort a => edge_to_vertex g !! a
             | _ => dst e_obj
             end ports ∧
         src e_obj' =
           foldl (fun acc p => match port_role_of p with
                               | DinPort a => edge_to_vertex g !! a
                               | _ => acc
                               end)
             match port_role_of p with
             | DinPort a => edge_to_vertex g !! a
             | _ => src e_obj
             end ports) ∨
      (¬ Forall (wire_known g) (p :: ports) ∧
       connect_port g e p s ≫= for_each ports (connect_port g e) = Raise KeyError)).
    { intros s1 e1 Hrun Happ He1 Hsame Hknown Hd Hs. rewrite Hrun.
      cbn [mbind result_bind].
      destruct (IH s1 e1 He1)
        as [(Hall & s' & e' & Hrest & Happ' & He' & Hsame' & Hd' & Hs')|[Hnot Hraise]].
      - left. split; [now constructor|]. exists s', e'.
        split; [exact Hrest|]. split; [eapply store_appends_trans; eassumption|].
        split; [exact He'|]. split.
        { unfold same_edge_data in *. intuition congruence. }
        rewrite Hd', Hs', Hd, Hs. auto.
      - right. split; [|exact Hraise]. intros Hall. apply Hnot.
        now inversion Hall. }
    assert (Hfail : connect_port g e p s = Raise KeyError → ¬ wire_known g p →
      ¬ Forall (wire_known g) (p :: ports) ∧
      connect_port g e p s ≫= for_each ports (connect_port g e) = Raise KeyError).
    { intros Hraise Hnot. rewrite Hraise. split; [|reflexivity].
      intros Hall. apply Hnot. now inversion Hall. }
    assert (Hk : wire_known g p ↔
                 match port_role_of p with
                 | DoutPort a | DinPort a => is_Some (edge_to_vertex g !! a)
                 | OtherPort => True
                 end) by reflexivity.
    destruct (port_role_of p) as [a|a|] eqn:Hrole.
    + destruct (edge_to_vertex g !! a) as [v|] eqn:Hv.
      * destruct Hp as (s1 & Hrun & Happ & He1).
        apply (Hcons s1 (set_dst v e_obj) Hrun Happ He1);
          [repeat split|apply Hk; eauto|reflexivity|reflexivity].
      * right. apply Hfail; [exact Hp|]. rewrite Hk. intros []. discriminate.
    + destruct (edge_to_vertex g !! a) as [v|] eqn:Hv.
      * destruct Hp as (s1 & Hrun & Happ & He1).
        apply (Hcons s1 (set_src v e_obj) Hrun Happ He1);
          [repeat split|apply Hk; eauto|reflexivity|reflexivity].
      * right. apply Hfail; [exact Hp|]. rewrite Hk. intros []. discriminate.
    + apply (Hcons s e_obj Hp (store_appends_refl e s) He);
        [repeat split|apply Hk; exact I|reflexivity|reflexivity].
Qed.

Lemma initEdges_fifo (g : graph) (s : store) (e : nat) (node : Instance) :
  isValidInstance node = true → isFIFO node = true →
  (0 < extractFIFODepth node)%Z →
  initEdges g s e node =
  (s' ← for_each (portlist node) (connect_port g e)
          (mkStore (vertex_objs s)
             (<[e := mkEdge None None None None (extractFIFOWidth node)
                       (extractFIFODepth node)
                       (Z.log2 (extractFIFODepth node) + 1) (inst_name node)
                       false 1]> (edge_objs s)));
   Ok (mkGraph (vertices g) (<[inst_name node := e]> (edges g))
         (edge_to_vertex g), s')).
Proof.
  intros Hv Hf Hd. unfold initEdges, addr_width_of. rewrite Hv, Hf.
  cbn [negb]. apply Z.ltb_lt in Hd. rewrite Hd. reflexivity.
Qed.

(** The loop over the ports of a FIFO, from the store with the new edge. *)
Lemma connect_ports_new_edge (g : graph) (s : store) (e : nat) (e_obj : Edge)
    (ports : list PortArg) :
  let s0 := mkStore (vertex_objs s) (<[e := e_obj]> (edge_objs s)) in
  (Forall (wire_known g) ports ∧
   ∃ s' e_obj',
     for_each ports (connect_port g e) s0 = Ok s' ∧ store_appends e s s' ∧
     edge_objs s' !! e = Some e_obj' ∧ same_edge_data e_obj' e_obj ∧
     dst e_obj' =
       foldl (fun acc p => match port_role_of p with
                           | DoutPort a => edge_to_vertex g !! a
                           | _ => acc
                           end) (dst e_obj) ports ∧
     src e_obj' =
       foldl (fun acc p => match port_role_of p with
                           | DinPort a => edge_to_vertex g !! a
                           | _ => acc
                           end) (src e_obj) ports) ∨
  (¬ Forall (wire_known g) ports ∧
   for_each ports (connect_port g e) s0 = Raise KeyError).
Proof.
  intros s0.
  destruct (connect_ports_spec g e ports s0 e_obj)
    as [(Hall & s' & e' & Hrun & Happ & Hrest)|Hfail];
    [apply lookup_insert_eq| |right; exact Hfail].
  left. split; [exact Hall|]. exists s', e'. split; [exact Hrun|].
  split; [|exact Hrest].
  eapply store_appends_trans; [apply store_appends_set_edge|exact Happ].
Qed.

End InitEdgesOutcome.

End InitEdgesFacts.

(** X17: [initEdges] leaves the graph as it is for an instance that is not
    valid or not a FIFO; for a FIFO it raises [ValueError] when the depth is
    not positive, and otherwise it returns exactly when the wire of every
    read or write port has a vertex in [edge_to_vertex], and raises
    [KeyError] when one has none. *)
Theorem initEdges_outcome `{Graph.Formator}
    (g : Graph.graph) (s : Graph.store) (e : nat) (node : Graph.Instance) :
  (Graph.isValidInstance node && Graph.isFIFO node = false →
   Graph.initEdges g s e node = Ok (g, s)) ∧
  (Graph.isValidInstance node && Graph.isFIFO node = true →
   (Graph.extractFIFODepth node <= 0)%Z →
   Graph.initEdges g s e node = Raise ValueError) ∧
  (Graph.isValidInstance node && Graph.isFIFO node = true →
   (0 < Graph.extractFIFODepth node)%Z →
   (Forall (GraphSpec.wire_known g) (Graph.portlist node) ∧
    ∃ g' s', Graph.initEdges g s e node = Ok (g', s')) ∨
   (¬ Forall (GraphSpec.wire_known g) (Graph.portlist node) ∧
    Graph.initEdges g s e node = Raise KeyError)).
Proof.
  split; [|split].
  - unfold Graph.initEdges. intros Hno.
    destruct (Graph.isValidInstance node); [|reflexivity].
    cbn in Hno. now rewrite Hno.
  - intros Hyes Hd. apply andb_true_iff in Hyes as [Hv Hf].
    unfold Graph.initEdges, Graph.addr_width_of. rewrite Hv, Hf. cbn [negb].
    apply Z.ltb_ge in Hd. now rewrite Hd.
  - intros Hyes Hd. apply andb_true_iff in Hyes as [Hv Hf].
    rewrite (InitEdgesFacts.initEdges_fifo g s e node Hv Hf Hd).
    edestruct (InitEdgesFacts.connect_ports_new_edge g s e)
      as [(Hall & s' & e' & Hrun & _)|[Hnot Hraise]].
    + left. split; [exact Hall|]. rewrite Hrun. eauto.
    + right. split; [exact Hnot|]. now rewrite Hraise.
Qed.

(** X18: a call of [initEdges] that returns changes nothing but this: the
    new edge is entered in [edges] under the name of the instance, the
    object of the new edge is set, and copies of the new edge are appended
    to the lists of edges of vertices. [vertices], [edge_to_vertex], the
    other entries of [edges], the other edges, and every other field of
    every vertex are as before, and no list of edges loses or reorders an
    element. *)
Theorem initEdges_only_appends `{Graph.Formator}
    (g g' : Graph.graph) (s s' : Graph.store) (e : nat) (node : Graph.Instance) :
  Graph.initEdges g s e node = Ok (g', s') →
  Graph.vertices g' = Graph.vertices g ∧
  Graph.edge_to_vertex g' = Graph.edge_to_vertex g ∧
  (∀ n, n ≠ Graph.inst_name node → Graph.edges g' !! n = Graph.edges g !! n) ∧
  GraphSpec.store_appends e s s'.
Proof.
  intros Hrun.
  assert (Hsame : (g', s') = (g, s) →
    Graph.vertices g' = Graph.vertices g ∧
    Graph.edge_to_vertex g' = Graph.edge_to_vertex g ∧
    (∀ n, n ≠ Graph.inst_name node → Graph.edges g' !! n = Graph.edges g !! n) ∧
    GraphSpec.store_appends e s s').
  { intros [= -> ->]. repeat split; try reflexivity.
    apply InitEdgesFacts.store_appends_refl. }
  unfold Graph.initEdges in Hrun.
  destruct (Graph.isValidInstance node); [|injection Hrun as <- <-; now apply Hsame].
  destruct (Graph.isFIFO node); [|injection Hrun as <- <-; now apply Hsame].
  cbn [negb] in Hrun. apply bind_Ok in Hrun as (aw & Haw & Hrun).
  apply bind_Ok in Hrun as (s1 & Hports & Hret). injection Hret as <- <-.
  cbn [Graph.vertices Graph.edge_to_vertex Graph.edges].
  split; [reflexivity|]. split; [reflexivity|]. split.
  { intros n Hne. now rewrite lookup_insert_ne. }
  edestruct (InitEdgesFacts.connect_ports_new_edge g s e)
    as [(_ & s' & e' & Hrun' & Happ & _)|[_ Hraise]].
  - rewrite Hports in Hrun'. injection Hrun' as <-. exact Happ.
  - rewrite Hports in Hraise. discriminate.
Qed.

Lemma initEdges_only_appends_witness :
  ∃ g' s',
    Graph.initEdges (H := example_formator) example_graph example_store 0
      example_fifo = Ok (g', s') ∧
    Graph.vertices g' = Graph.vertices example_graph ∧
    GraphSpec.store_appends 0 example_store s'.
Proof.
  destruct (is_Ok_true
              (Graph.initEdges (H := example_formator) example_graph
                 example_store 0 example_fifo))
    as [[g' s'] Hrun]; [vm_compute; reflexivity|].
  destruct (initEdges_only_appends (H := example_formator) _ _ _ _ _ _ Hrun)
    as (Hv & _ & _ & Happ).
  exists g', s'. auto.
Defined.



(** ** [graph.py]: [dfs] applies the function once to every node *)

Lemma for_each_app {A S} (l1 l2 : list A) (body : A → S → result S) (s : S) :
  for_each (l1 ++ l2) body s = (s1 ← for_each l1 body s; for_each l2 body s1).
Proof.
  revert s. induction l1 as [|x l1 IH]; intros s; cbn; [reflexivity|].
  destruct (body x s) as [s'| |]; cbn; [apply IH|reflexivity..].
Qed.

Module DfsFacts.
Import GraphDfs.

Section Traversal.
Context {Node : Type} `{EqDecision Node}.
Variable children : Node → list Node.
Variable height : Node → nat.
Hypothesis height_children : ∀ n c, c ∈ children n → (height c < height n)%nat.

Local Abbreviation below := (below children).
Local Abbreviation walk := (dfs children record).

Lemma below_height (n x : Node) : below n x → (height x ≤ height n)%nat.
Proof.
  induction 1 as [|a b c Hab _ IH]; [lia|].
  apply height_children in Hab. lia.
Qed.

Lemma below_child (n c x : Node) : c ∈ children n → below c x → below n x.
Proof. intros Hc Hx. eapply rtc_l; eassumption. Qed.

Lemma below_inv (n x : Node) :
  below n x → x = n ∨ ∃ c, c ∈ children n ∧ below c x.
Proof. intros Hx. inversion Hx; subst; eauto. Qed.

Local Abbreviation closed_below := (closed_below children).
Local Abbreviation adds := (adds children).

Lemma walk_children (fuel : nat) :
  (∀ node visited calls,
     (height node < fuel)%nat → closed_below [node] visited →
     ∃ visited' new,
       walk fuel node visited calls = Ok (visited', calls ++ new) ∧
       adds [node] visited visited' new ∧
       (node ∉ visited → head new = Some node)) →
  ∀ cs visited calls,
    (∀ c, c ∈ cs → (height c < fuel)%nat) → closed_below cs visited →
    ∃ visited' new,
      for_each cs (fun c '(visited, calls) => walk fuel c visited calls)
        (visited, calls) = Ok (visited', calls ++ new) ∧
      adds cs visited visited' new.
Proof.
  intros IH. induction cs as [|c cs IHcs]; intros visited calls Hh Hclosed.
  - exists visited, []. split; [cbn; now rewrite app_nil_r|].
    split; [constructor|]. split.
    + intros x. split; [intros Hx; inversion Hx|].
      intros [(c & Hc & _) _]. inversion Hc.
    + intros x. split; [auto|]. intros [?|Hx]; [assumption|inversion Hx].
  - destruct (IH c visited calls) as (v1 & new1 & Hrun1 & (Hnd1 & Hnew1 & Hv1) & _).
    { apply Hh. apply list_elem_of_here. }
    { intros c' x Hc'. apply list_elem_of_singleton in Hc'. subst c'.
      apply Hclosed. apply list_elem_of_here. }
    destruct (IHcs v1 (calls ++ new1)) as (v2 & new2 & Hrun2 & Hnd2 & Hnew2 & Hv2).
    { intros c' Hc'. apply Hh. now apply list_elem_of_further. }
    { intros c' x Hc' Hx Hxv y Hy. apply Hv1. apply Hv1 in Hxv as [Hxv|Hxn].
      - left. eapply (Hclosed c' x); eauto. now apply list_elem_of_further.
      - apply Hnew1 in Hxn as [(c0 & Hc0 & Hbx) _].
        apply list_elem_of_singleton in Hc0. subst c0.
        destruct (decide (y ∈ visited)) as [?|Hyv]; [now left|right].
        apply Hnew1. split; [|exact Hyv]. exists c.
        split; [apply list_elem_of_here|]. etrans; eassumption. }
    exists v2, (new1 ++ new2). split.
    { cbn [for_each]. rewrite Hrun1. cbn [mbind result_bind].
      rewrite Hrun2, app_assoc. reflexivity. }
    split; [|split].
    + apply NoDup_app. split; [exact Hnd1|]. split; [|exact Hnd2].
      intros x Hx1 Hx2. apply Hnew2 in Hx2 as [_ Hx2]. apply Hx2, Hv1. now right.
    + intros x. rewrite elem_of_app, Hnew1, Hnew2. split.
      * intros [[(c0 & Hc0 & Hb) Hx]|[(c0 & Hc0 & Hb) Hx]].
        -- apply list_elem_of_singleton in Hc0. subst c0.
           split; [|exact Hx]. exists c. split; [apply list_elem_of_here|exact Hb].
        -- split.
           ++ exists c0. split; [now apply list_elem_of_further|exact Hb].
           ++ intros Hxv. apply Hx, Hv1. now left.
      * intros [(c0 & Hc0 & Hb) Hx].
        destruct (decide (x ∈ v1)) as [Hx1|Hx1].
        -- apply Hv1 in Hx1 as [?|Hx1]; [contradiction|].
           left. now apply Hnew1.
        -- apply elem_of_cons in Hc0 as [->|Hc0].
           ++ left. split; [|exact Hx]. exists c.
              split; [apply list_elem_of_here|exact Hb].
           ++ right. split; [|exact Hx1]. eauto.
    + intros x. rewrite Hv2, Hv1, elem_of_app. tauto.
Qed.

Lemma walk_spec (fuel : nat) :
  ∀ node visited calls,
    (height node < fuel)%nat → closed_below [node] visited →
    ∃ visited' new,
      walk fuel node visited calls = Ok (visited', calls ++ new) ∧
      adds [node] visited visited' new ∧
      (node ∉ visited → head new = Some node).
Proof.
  induction fuel as [|fuel IH]; intros node visited calls Hh Hclosed; [lia|].
  cbn [dfs]. destruct (bool_decide (node ∈ visited)) eqn:Hin.
  - apply bool_decide_eq_true in Hin.
    exists visited, []. split; [now rewrite app_nil_r|]. split; [|contradiction].
    split; [constructor|]. split.
    + intros x. split; [intros Hx; inversion Hx|].
      intros [(c & Hc & Hb) Hx]. apply list_elem_of_singleton in Hc. subst c.
      exfalso. apply Hx. eapply (Hclosed node node); eauto.
      * apply list_elem_of_here.
      * reflexivity.
    + intros x. split; [auto|]. intros [?|Hx]; [assumption|inversion Hx].
  - apply bool_decide_eq_false in Hin. cbn zeta.
    change (record node calls) with (Ok (calls ++ [node])).
    cbn [mbind result_bind].
    destruct (walk_children fuel IH (children node) (node :: visited)
                (calls ++ [node])) as (v' & new & Hrun & Hnd & Hnew & Hv).
    { intros c Hc. apply height_children in Hc. lia. }
    { intros c x Hc Hx Hxv y Hy. apply list_elem_of_further.
      apply elem_of_cons in Hxv as [->|Hxv].
      - exfalso. apply below_height in Hx. apply height_children in Hc. lia.
      - eapply (Hclosed node x); eauto.
        + apply list_elem_of_here.
        + eapply below_child; eassumption. }
    exists v', (node :: new). split.
    { rewrite Hrun. rewrite <- app_assoc. reflexivity. }
    split; [|reflexivity]. split; [|split].
    + constructor; [|exact Hnd]. intros Hn. apply Hnew in Hn as [_ Hn].
      apply Hn. apply list_elem_of_here.
    + intros x. rewrite elem_of_cons, Hnew. split.
      * intros [->|[(c & Hc & Hb) Hx]].
        -- split; [|exact Hin]. exists node.
           split; [apply list_elem_of_here|reflexivity].
        -- split.
           ++ exists node. split; [apply list_elem_of_here|].
              eapply below_child; eassumption.
           ++ intros Hxv. apply Hx. now apply list_elem_of_further.
      * intros [(c & Hc & Hb) Hx]. apply list_elem_of_singleton in Hc. subst c.
        apply below_inv in Hb as [->|(c & Hc & Hb)]; [now left|].
        destruct (decide (x = node)) as [->|Hne]; [now left|right].
        split; [eauto|]. intros Hxv.
        apply elem_of_cons in Hxv as [?|?]; contradiction.
    + intros x. rewrite Hv, !elem_of_cons. tauto.
Qed.

End Traversal.

Section Simulation.
Context {Node : Type} `{EqDecision Node}.
Variable children : Node → list Node.
Context {St : Type}.
Variable func : Node → St → result St.

(** A run with any [func] is the run that records, with [func] applied to
    the nodes recorded. *)
Lemma dfs_follows_record (fuel : nat) :
  ∀ node visited calls visited' calls' st,
    dfs children record fuel node visited calls = Ok (visited', calls') →
    ∃ new, calls' = calls ++ new ∧
      dfs children func fuel node visited st =
      (st' ← for_each new func st; Ok (visited', st')).
Proof.
  induction fuel as [|fuel IH]; intros node visited calls visited' calls' st;
    [discriminate|].
  cbn [dfs]. destruct (bool_decide (node ∈ visited)).
  - intros [= <- <-]. exists []. split; [now rewrite app_nil_r|reflexivity].
  - cbn zeta. change (record node calls) with (Ok (calls ++ [node])).
    cbn [mbind result_bind]. intros Hrun.
    assert (Hloop : ∀ cs v tr v' tr' st0,
      for_each cs (fun c '(visited, calls) => dfs children record fuel c visited calls)
        (v, tr) = Ok (v', tr') →
      ∃ new, tr' = tr ++ new ∧
        for_each cs (fun c '(visited, st) => dfs children func fuel c visited st)
          (v, st0) =
        (st' ← for_each new func st0; Ok (v', st'))).
    { induction cs as [|c cs IHcs]; intros v tr v' tr' st0; cbn [for_each].
      - intros [= <- <-]. exists []. split; [now rewrite app_nil_r|reflexivity].
      - intros Hcs. apply bind_Ok in Hcs as ([v1 tr1] & Hc & Hcs).
        destruct (IH _ _ _ _ _ st0 Hc) as (new1 & -> & Hf1).
        rewrite Hf1.
        destruct (for_each new1 func st0) as [st1| |] eqn:Hnew1;
          cbn [mbind result_bind].
        + destruct (IHcs _ _ _ _ st1 Hcs) as (new2 & -> & Hf2).
          exists (new1 ++ new2). split; [now rewrite app_assoc|].
          rewrite Hf2, for_each_app, Hnew1. reflexivity.
        + destruct (IHcs _ _ _ _ st0 Hcs) as (new2 & -> & _).
          exists (new1 ++ new2). split; [now rewrite app_assoc|].
          rewrite for_each_app, Hnew1. reflexivity.
        + destruct (IHcs _ _ _ _ st0 Hcs) as (new2 & -> & _).
          exists (new1 ++ new2). split; [now rewrite app_assoc|].
          rewrite for_each_app, Hnew1. reflexivity. }
    destruct (func node st) as [st1| |] eqn:Hnode; cbn [mbind result_bind].
    + destruct (Hloop _ _ _ _ _ st1 Hrun) as (new & -> & Hf).
      exists (node :: new). split; [now rewrite <- app_assoc|].
      rewrite Hf. cbn [for_each]. rewrite Hnode. reflexivity.
    + destruct (Hloop _ _ _ _ _ st Hrun) as (new & -> & _).
      exists (node :: new). split; [now rewrite <- app_assoc|].
      cbn [for_each]. rewrite Hnode. reflexivity.
    + destruct (Hloop _ _ _ _ _ st Hrun) as (new & -> & _).
      exists (node :: new). split; [now rewrite <- app_assoc|].
      cbn [for_each]. rewrite Hnode. reflexivity.
Qed.

End Simulation.

End DfsFacts.

(** X20: [Graph.dfs] from a root with an empty [visited] set, over nodes
    whose children are strictly lower, returns; it applies [func] exactly
    once to every node that is the root or below it, to the root first, and
    to no other node, and [visited] ends as the set of those nodes. *)
Theorem dfs_visits_each_node_once {Node : Type} `{EqDecision Node}
    (children : Node → list Node) (height : Node → nat) (root : Node)
    (fuel : nat) :
  (∀ n c, c ∈ children n → (height c < height n)%nat) →
  (height root < fuel)%nat →
  ∃ visited order,
    GraphDfs.dfs children GraphDfs.record fuel root [] [] = Ok (visited, order) ∧
    NoDup order ∧
    head order = Some root ∧
    (∀ x, x ∈ order ↔ GraphDfs.below children root x) ∧
    (∀ x, x ∈ visited ↔ x ∈ order).
Proof.
  intros Hheight Hfuel.
  destruct (DfsFacts.walk_spec children height Hheight fuel root [] [] Hfuel)
    as (visited & order & Hrun & (Hnd & Hnew & Hv) & Hhead).
  { intros c x _ _ Hx. inversion Hx. }
  exists visited, order. split; [exact Hrun|]. split; [exact Hnd|].
  split; [apply Hhead; intros Hx; inversion Hx|]. split.
  - intros x. rewrite Hnew. split.
    + intros [(c & Hc & Hb) _]. apply list_elem_of_singleton in Hc. now subst c.
    + intros Hb. split; [|intros Hx; inversion Hx].
      exists root. split; [apply list_elem_of_here|exact Hb].
  - intros x. rewrite Hv. split; [|now right].
    intros [Hx|Hx]; [inversion Hx|exact Hx].
Qed.

Lemma example_height_children (n c : nat) :
  c ∈ GraphDfs.example_children n →
  (GraphDfs.example_height c < GraphDfs.example_height n)%nat.
Proof.
  destruct n as [|[|n]]; cbn; intros Hc.
  - apply elem_of_cons in Hc as [->|Hc]; [cbn; lia|].
    apply list_elem_of_singleton in Hc. subst c. cbn. lia.
  - apply list_elem_of_singleton in Hc. subst c. cbn. lia.
  - inversion Hc.
Qed.

Lemma dfs_visits_each_node_once_witness :
  ∃ visited order,
    GraphDfs.dfs GraphDfs.example_children GraphDfs.record 3 0%nat [] [] =
      Ok (visited, order) ∧
    NoDup order ∧
    head order = Some 0%nat ∧
    (∀ x, x ∈ order ↔ GraphDfs.below GraphDfs.example_children 0%nat x) ∧
    (∀ x, x ∈ visited ↔ x ∈ order).
Proof.
  apply (dfs_visits_each_node_once GraphDfs.example_children
           GraphDfs.example_height 0%nat 3).
  - exact example_height_children.
  - cbn. lia.
Defined.

(** X21: with any [func], [Graph.dfs] does what the recording run shows: it
    applies [func] to the recorded nodes in the recorded order, each on the
    state the one before left; an exception of [func] ends the traversal at
    that node and reaches the caller, and no later node is given to [func]. *)
Theorem dfs_applies_func_in_order {Node : Type} `{EqDecision Node} {St : Type}
    (children : Node → list Node) (func : Node → St → result St)
    (fuel : nat) (root : Node) (visited order : list Node) (st : St) :
  GraphDfs.dfs children GraphDfs.record fuel root [] [] = Ok (visited, order) →
  GraphDfs.dfs children func fuel root [] st =
    (st' ← for_each order func st; Ok (visited, st')).
Proof.
  intros Hrun.
  destruct (DfsFacts.dfs_follows_record children func fuel _ _ _ _ _ st Hrun)
    as (new & Hnew & Hfunc).
  cbn [app] in Hnew. subst new. exact Hfunc.
Qed.

Lemma dfs_applies_func_in_order_witness :
  GraphDfs.dfs GraphDfs.example_children GraphDfs.record 3 0%nat [] [] =
    Ok ([2; 1; 0]%nat, [0; 1; 2]%nat) ∧
  GraphDfs.dfs GraphDfs.example_children GraphDfs.example_func 3 0%nat [] 0%nat =
    (st' ← for_each [0; 1; 2]%nat GraphDfs.example_func 0%nat;
     Ok ([2; 1; 0]%nat, st')).
Proof.
  assert (Hrun : GraphDfs.dfs GraphDfs.example_children GraphDfs.record 3
                   0%nat [] [] = Ok ([2; 1; 0]%nat, [0; 1; 2]%nat))
    by (vm_compute; reflexivity).
  split; [exact Hrun|].
  exact (dfs_applies_func_in_order GraphDfs.example_children
           GraphDfs.example_func 3 0%nat _ _ 0%nat Hrun).
Defined.

(** ** [graph.py]: what [initVertices] builds *)

Module InitVerticesFacts.
Import Graph GraphVertices VerticesSpec.

Lemma dict_lookup_elem {K V} `{EqDecision K} (d : list (K * V)) (k : K) (v : V) :
  dict_lookup d k = Ok v → (k, v) ∈ d.
Proof.
  induction d as [|[k' v'] d IH]; cbn; [discriminate|].
  destruct (decide (k = k')) as [->|Hne].
  - intros [= ->]. apply list_elem_of_here.
  - intros Hl. apply list_elem_of_further. auto.
Qed.

Lemma dict_elem_lookup {K V} `{EqDecision K} (d : list (K * V)) (k : K) (v : V) :
  NoDup d.*1 → (k, v) ∈ d → dict_lookup d k = Ok v.
Proof.
  induction d as [|[k' v'] d IH]; cbn; intros Hnd Hin; [inversion Hin|].
  apply NoDup_cons in Hnd as [Hk' Hnd].
  apply elem_of_cons in Hin as [[= -> ->]|Hin].
  - now rewrite decide_True.
  - rewrite decide_False; [auto|]. intros ->. apply Hk'.
    apply list_elem_of_fmap. exists (k', v). auto.
Qed.

Lemma dict_lookup_outcome {K V} `{EqDecision K} (d : list (K * V)) (k : K) :
  (∃ v, dict_lookup d k = Ok v) ∨ dict_lookup d k = Raise KeyError.
Proof.
  induction d as [|[k' v'] d IH]; cbn; [now right|].
  destruct (decide (k = k')); eauto.
Qed.

Section Registration.
Context `{Reports}.

Local Abbreviation formal_step a :=
  (fun acc p =>
     match arg p with
     | Identifier actual_raw =>
         if is_fifo_port (portname p) actual_raw then
           match extractFIFOFromRaw (portname p),
                 extractFIFOFromRaw actual_raw with
           | Ok formal_strip, Ok a' =>
               if decide (a' = a) then Some formal_strip else acc
           | _, _ => acc
           end
         else acc
     | Constant => acc
     end).

(** The loop over the ports. *)
Lemma register_ports_spec (v : nat) (ports : list PortArg) :
  ∀ e2v0 d0 e2v d,
    for_each ports (register_port v) (e2v0, d0) = Ok (e2v, d) →
    (∀ w, e2v !! w = if fifo_wire ports w then Some v else e2v0 !! w) ∧
    (NoDup d0.*1 → NoDup d.*1) ∧
    (∀ a f, dict_lookup d a = Ok f ↔
            foldl (formal_step a)
              (match dict_lookup d0 a with Ok f0 => Some f0 | _ => None end)
              ports = Some f).
Proof.
  induction ports as [|p ports IH]; intros e2v0 d0 e2v d; cbn [for_each].
  - intros [= <- <-]. split; [reflexivity|]. split; [auto|].
    intros a f. cbn. destruct (dict_lookup d0 a); split; congruence.
  - intros Hrun. apply bind_Ok in Hrun as ([e2v1 d1] & Hp & Hrun).
    destruct (IH _ _ _ _ Hrun) as (He & Hnd & Hd). clear IH Hrun.
    unfold register_port in Hp. cbn [foldl].
    assert (Hw : ∀ w, fifo_wire (p :: ports) w =
                      match arg p with
                      | Identifier actual_raw =>
                          bool_decide (actual_raw = w)
                          && is_fifo_port (portname p) actual_raw
                      | Constant => false
                      end || fifo_wire ports w) by reflexivity.
    destruct (arg p) as [actual_raw|].
    + destruct (is_fifo_port (portname p) actual_raw) eqn:Hfifo.
      * cbn zeta in Hp.
        apply bind_Ok in Hp as (formal_strip & Hf & Hp).
        apply bind_Ok in Hp as (actual_strip & Ha & Hp).
        injection Hp as <- <-. rewrite Hf, Ha. split; [|split].
        -- intros w. rewrite He, Hw, andb_true_r.
           destruct (fifo_wire ports w); [now rewrite orb_true_r|].
           rewrite orb_false_r. destruct (bool_decide (actual_raw = w)) eqn:Hwire.
           ++ apply bool_decide_eq_true in Hwire. subst w. apply lookup_insert_eq.
           ++ apply bool_decide_eq_false in Hwire. now apply lookup_insert_ne.
        -- intros Hnd0. apply Hnd. now apply dict_set_NoDup.
        -- intros a f. rewrite Hd.
           destruct (decide (actual_strip = a)) as [->|Hne].
           ++ now rewrite dict_lookup_set_eq.
           ++ now rewrite dict_lookup_set_ne.
      * injection Hp as <- <-. split; [|auto].
        intros w. now rewrite He, Hw, andb_false_r.
    + injection Hp as <- <-. split; [|auto].
      intros w. now rewrite He, Hw.
Qed.

Lemma register_ports_total (v : nat) (ports : list PortArg) :
  strips_return ports →
  ∀ st, ∃ st', for_each ports (register_port v) st = Ok st'.
Proof.
  induction ports as [|p ports IH]; intros Hs st; cbn [for_each]; [eauto|].
  assert (Hp : ∃ st1, register_port v p st = Ok st1).
  { unfold register_port. destruct st as [e2v d].
    destruct (arg p) as [actual_raw|] eqn:Harg; [|eauto].
    destruct (is_fifo_port (portname p) actual_raw) eqn:Hfifo; [|eauto].
    destruct (Hs p actual_raw) as [Hf Ha];
      [apply list_elem_of_here|exact Harg|exact Hfifo|].
    apply is_Ok_true in Hf as [f ->]. apply is_Ok_true in Ha as [a ->].
    cbn. eauto. }
  destruct Hp as [st1 ->]. cbn [mbind result_bind]. apply IH.
  intros q w Hq. apply Hs. now apply list_elem_of_further.
Qed.

End Registration.

Section SubVertices.
Context `{Reports}.
Variables (node : Instance) (v : nat) (a : Area).
Variables (V : gmap nat Vertex) (E : gmap nat Edge).

Local Abbreviation built := (built_vertex (module node) (inst_name node) a).
Local Abbreviation sub_obj i :=
  (new_vertex (module node) (inst_name node +:+ "_sub_" +:+ pp_str i)).

Lemma make_sub_vertex_step (i : Z) (pp : list string) (M : gmap Z nat)
    (V' : gmap nat Vertex) :
  let r := fresh (dom (<[v := built M ∅]> V')) in
  make_sub_vertex node v (i, pp) (mkStore (<[v := built M ∅]> V') E) =
    Ok (mkStore (<[v := built (<[i := r]> M) ∅]> (<[r := sub_obj i]> V')) E) ∧
  r ≠ v ∧ V' !! r = None.
Proof.
  intros r.
  assert (Hr : (<[v := built M ∅]> V') !! r = None).
  { apply not_elem_of_dom. apply is_fresh. }
  assert (Hrv : r ≠ v).
  { intros Heq. rewrite Heq in Hr. now rewrite lookup_insert_eq in Hr. }
  rewrite lookup_insert_ne in Hr by congruence.
  split; [|auto].
  unfold make_sub_vertex, alloc, update_vertex.
  cbn [fst vertex_objs edge_objs]. fold r.
  rewrite alter_insert_ne by congruence. rewrite alter_insert_eq.
  rewrite insert_insert_ne by congruence. reflexivity.
Qed.

(** The loop that makes the sub-vertices. *)
Lemma make_sub_vertices_spec (items : list (Z * list string)) :
  ∀ (V' : gmap nat Vertex) (M : gmap Z nat),
    V' !! v = None → V ⊆ V' →
    (∀ i r, M !! i = Some r → V !! r = None ∧ V' !! r = Some (sub_obj i)) →
    (∀ i j r, M !! i = Some r → M !! j = Some r → i = j) →
    ∃ V'' M',
      for_each items (make_sub_vertex node v)
        (mkStore (<[v := built M ∅]> V') E) =
      Ok (mkStore (<[v := built M' ∅]> V'') E) ∧
      V'' !! v = None ∧ V ⊆ V'' ∧
      (∀ i r, M' !! i = Some r → V !! r = None ∧ V'' !! r = Some (sub_obj i)) ∧
      (∀ i j r, M' !! i = Some r → M' !! j = Some r → i = j) ∧
      (∀ i, is_Some (M' !! i) ↔ is_Some (M !! i) ∨ i ∈ items.*1).
Proof.
  induction items as [|[i pp] items IH]; intros V' M Hv Hsub HM Hinj.
  - exists V', M. split; [reflexivity|]. split; [exact Hv|].
    split; [exact Hsub|]. split; [exact HM|]. split; [exact Hinj|].
    intros i. split; [auto|]. intros [?|Hin]; [assumption|inversion Hin].
  - cbn [for_each].
    destruct (make_sub_vertex_step i pp M V') as (Hstep & Hrv & Hr).
    set (r := fresh (dom (<[v := built M ∅]> V'))) in *.
    rewrite Hstep. cbn [mbind result_bind].
    destruct (IH (<[r := sub_obj i]> V') (<[i := r]> M))
      as (V'' & M' & Hrun & Hv'' & Hsub'' & HM' & Hinj' & Hdom).
    + now rewrite lookup_insert_ne.
    + etrans; [exact Hsub|]. now apply insert_subseteq.
    + intros j r' Hj. destruct (decide (j = i)) as [->|Hne].
      * rewrite lookup_insert_eq in Hj. injection Hj as <-.
        split; [|apply lookup_insert_eq].
        eapply lookup_weaken_None; eassumption.
      * rewrite lookup_insert_ne in Hj by congruence.
        destruct (HM j r' Hj) as [Hn Hs]. split; [exact Hn|].
        rewrite lookup_insert_ne; [exact Hs|]. intros <-. congruence.
    + intros j k r' Hj Hk.
      destruct (decide (j = i)) as [->|Hji], (decide (k = i)) as [->|Hki];
        [reflexivity|..].
      * rewrite lookup_insert_eq in Hj. injection Hj as <-.
        rewrite lookup_insert_ne in Hk by congruence.
        apply HM in Hk as [_ Hk]. congruence.
      * rewrite lookup_insert_eq in Hk. injection Hk as <-.
        rewrite lookup_insert_ne in Hj by congruence.
        apply HM in Hj as [_ Hj]. congruence.
      * rewrite lookup_insert_ne in Hj, Hk by congruence. eauto.
    + exists V'', M'. split; [exact Hrun|]. split; [exact Hv''|].
      split; [exact Hsub''|]. split; [exact HM'|]. split; [exact Hinj'|].
      intros j. rewrite Hdom. cbn [fmap list_fmap fst].
      rewrite elem_of_cons. destruct (decide (j = i)) as [->|Hne].
      * rewrite lookup_insert_eq. split; [auto|]. intros _. left. eauto.
      * rewrite lookup_insert_ne by congruence. tauto.
Qed.

Variable formal_to_pp : gmap string Z.
Variable M : gmap Z nat.
Variable V' : gmap nat Vertex.

Local Abbreviation a2s_step :=
  (fun (A : gmap string nat) (item : string * string) =>
     match formal_to_pp !! item.2 with
     | Some i =>
         match M !! i with
         | Some sub => <[item.1 := sub]> A
         | None => A
         end
     | None => A
     end).

Local Abbreviation sub_known :=
  (fun item : string * string =>
     ∀ i, formal_to_pp !! item.2 = Some i → is_Some (M !! i)).

Lemma map_to_sub_step (act f : string) (A : gmap string nat) :
  map_to_sub formal_to_pp v (act, f) (mkStore (<[v := built M A]> V') E) =
  match formal_to_pp !! f with
  | Some i =>
      match M !! i with
      | Some sub => Ok (mkStore (<[v := built M (<[act := sub]> A)]> V') E)
      | None => Raise KeyError
      end
  | None => Ok (mkStore (<[v := built M A]> V') E)
  end.
Proof.
  unfold map_to_sub. cbn [vertex_objs].
  destruct (formal_to_pp !! f) as [i|]; [|reflexivity].
  rewrite lookup_insert_eq. cbn [sub_vertices built_vertex].
  destruct (M !! i) as [sub|]; [|reflexivity].
  unfold update_vertex. cbn [vertex_objs edge_objs].
  rewrite alter_insert_eq. reflexivity.
Qed.

(** The loop that maps the FIFOs to the sub-vertices. *)
Lemma map_to_subs_spec (d : list (string * string)) :
  ∀ A,
    (Forall sub_known d ∧
     for_each d (map_to_sub formal_to_pp v)
       (mkStore (<[v := built M A]> V') E) =
     Ok (mkStore (<[v := built M (foldl a2s_step A d)]> V') E)) ∨
    (¬ Forall sub_known d ∧
     for_each d (map_to_sub formal_to_pp v)
       (mkStore (<[v := built M A]> V') E) = Raise KeyError).
Proof.
  induction d as [|[act f] d IH]; intros A.
  - left. split; [constructor|reflexivity].
  - cbn [for_each foldl]. rewrite map_to_sub_step. cbn [fst snd].
    destruct (formal_to_pp !! f) as [i|] eqn:Hf.
    + destruct (M !! i) as [sub|] eqn:Hi.
      * cbn [mbind result_bind].
        destruct (IH (<[act := sub]> A)) as [[Hall Hrun]|[Hnot Hrun]].
        -- left. split; [|exact Hrun]. constructor; [|exact Hall].
           intros j Hj. cbn in Hj. rewrite Hf in Hj. injection Hj as <-. eauto.
        -- right. split; [|exact Hrun]. intros Hall. apply Hnot.
           now inversion Hall.
      * right. split; [|reflexivity]. intros Hall. inversion Hall as [|? ? Hk _].
        destruct (Hk i Hf) as [? Hsome]. congruence.
    + cbn [mbind result_bind].
      destruct (IH A) as [[Hall Hrun]|[Hnot Hrun]].
      * left. split; [|exact Hrun]. constructor; [|exact Hall].
        intros j Hj. cbn in Hj. congruence.
      * right. split; [|exact Hrun]. intros Hall. apply Hnot.
        now inversion Hall.
Qed.

Lemma a2s_lookup (d : list (string * string)) :
  NoDup d.*1 →
  ∀ A act,
    foldl a2s_step A d !! act =
    match dict_lookup d act with
    | Ok f =>
        match formal_to_pp !! f ≫= (M !!.) with
        | Some sub => Some sub
        | None => A !! act
        end
    | _ => A !! act
    end.
Proof.
  induction d as [|[k f] d IH]; intros Hnd A act; [reflexivity|].
  cbn in Hnd. apply NoDup_cons in Hnd as [Hk Hnd].
  cbn [foldl dict_lookup]. rewrite (IH Hnd). cbn [fst snd].
  destruct (decide (act = k)) as [->|Hne].
  - destruct (dict_lookup_outcome d k) as [[f' Hl]|Hl].
    + exfalso. apply Hk. eapply dict_lookup_Ok_key. exact Hl.
    + rewrite Hl. destruct (formal_to_pp !! f) as [i|]; cbn; [|reflexivity].
      destruct (M !! i); [apply lookup_insert_eq|reflexivity].
  - assert (Hsame : match formal_to_pp !! f with
                    | Some i => match M !! i with
                                | Some sub => <[k:=sub]> A
                                | None => A
                                end
                    | None => A
                    end !! act = A !! act).
    { destruct (formal_to_pp !! f) as [i|]; [|reflexivity].
      destruct (M !! i); [|reflexivity]. now apply lookup_insert_ne. }
    rewrite Hsame. reflexivity.
Qed.

End SubVertices.

Section Run.
Context `{Formator} `{Reports}.

Lemma initVertices_skips (g : graph) (s : store) (node : Instance) :
  isValidInstance node = false ∨ isFIFO node = true →
  initVertices g s node = Ok (g, s).
Proof.
  unfold initVertices. intros [->| ->]; [reflexivity|].
  now destruct (isValidInstance node).
Qed.

(** The steps of a call on a module instance, up to the last loop. *)
Lemma initVertices_steps (g : graph) (s : store) (node : Instance)
    (e2v : gmap string nat) (d : list (string * string)) (a : Area)
    (formal_to_pp : gmap string Z) (items : list (Z * list string)) :
  let v := fresh (dom (vertex_objs s)) in
  isValidInstance node = true → isFIFO node = false →
  for_each (portlist node) (register_port v) (edge_to_vertex g, []) = Ok (e2v, d) →
  getRptFile (new_vertex (module node) (inst_name node)) ≫= getAreaFromReport
    = Ok a →
  getScheFile (module node) ≫= getGrouping = Ok (formal_to_pp, items) →
  vertex_objs s !! v = None ∧
  ∃ V' M,
    V' !! v = None ∧ vertex_objs s ⊆ V' ∧
    (∀ i r, M !! i = Some r →
            vertex_objs s !! r = None ∧
            V' !! r = Some (new_vertex (module node)
                              (inst_name node +:+ "_sub_" +:+ pp_str i))) ∧
    (∀ i j r, M !! i = Some r → M !! j = Some r → i = j) ∧
    (∀ i, is_Some (M !! i) ↔ i ∈ items.*1) ∧
    initVertices g s node =
    (s2 ← for_each d (map_to_sub formal_to_pp v)
            (mkStore (<[v := built_vertex (module node) (inst_name node) a M ∅]> V')
               (edge_objs s));
     Ok (mkGraph (<[inst_name node := v]> (vertices g)) (edges g) e2v, s2)).
Proof.
  intros v Hvalid Hfifo Hports Harea Hgroup.
  assert (Hv : vertex_objs s !! v = None).
  { apply not_elem_of_dom. apply is_fresh. }
  split; [exact Hv|].
  destruct (make_sub_vertices_spec node v a (vertex_objs s) (edge_objs s) items
              (vertex_objs s) ∅ Hv)
    as (V' & M & Hrun & Hv' & Hsub & HM & Hinj & Hdom).
  { reflexivity. }
  { intros i r Hi. now rewrite lookup_empty in Hi. }
  { intros i j r Hi. now rewrite lookup_empty in Hi. }
  exists V', M. split; [exact Hv'|]. split; [exact Hsub|]. split; [exact HM|].
  split; [exact Hinj|]. split.
  { intros i. rewrite Hdom. rewrite lookup_empty. split; [|auto].
    intros [[? Hn]|?]; [discriminate|assumption]. }
  unfold initVertices. rewrite Hvalid, Hfifo. cbn [negb]. cbn zeta.
  unfold alloc. fold v. rewrite Hports. cbn [mbind result_bind].
  destruct (getRptFile (new_vertex (module node) (inst_name node)))
    as [rpt_name| |]; cbn [mbind result_bind] in Harea |- *; try discriminate.
  rewrite Harea. cbn [mbind result_bind].
  destruct (getScheFile (module node)) as [sche_file| |];
    cbn [mbind result_bind] in Hgroup |- *; try discriminate.
  rewrite Hgroup. cbn [mbind result_bind].
  unfold update_vertex at 1. cbn [vertex_objs edge_objs].
  rewrite alter_insert_eq.
  change (set_area a (new_vertex (module node) (inst_name node)))
    with (built_vertex (module node) (inst_name node) a ∅ ∅).
  rewrite Hrun. reflexivity.
Qed.

(** What a call on a module instance that returns has gone through. *)
Lemma initVertices_Ok (g g' : graph) (s s' : store) (node : Instance) :
  isValidInstance node = true → isFIFO node = false →
  initVertices g s node = Ok (g', s') →
  ∃ e2v d a formal_to_pp items,
    for_each (portlist node) (register_port (fresh (dom (vertex_objs s))))
      (edge_to_vertex g, []) = Ok (e2v, d) ∧
    getRptFile (new_vertex (module node) (inst_name node)) ≫= getAreaFromReport
      = Ok a ∧
    getScheFile (module node) ≫= getGrouping = Ok (formal_to_pp, items).
Proof.
  intros Hvalid Hfifo. unfold initVertices. rewrite Hvalid, Hfifo.
  cbn [negb]. cbn zeta. unfold alloc. intros Hrun.
  apply bind_Ok in Hrun as ([e2v d] & Hports & Hrun).
  apply bind_Ok in Hrun as (rpt_name & Hrpt & Hrun).
  apply bind_Ok in Hrun as (a & Harea & Hrun).
  apply bind_Ok in Hrun as (sche_file & Hsche & Hrun).
  apply bind_Ok in Hrun as ([formal_to_pp items] & Hgroup & Hrun).
  exists e2v, d, a, formal_to_pp, items. split; [exact Hports|].
  rewrite Hrpt, Hsche. cbn [mbind result_bind]. auto.
Qed.

(** The whole of a call on a module instance. *)
Lemma initVertices_run (g : graph) (s : store) (node : Instance)
    (e2v : gmap string nat) (d : list (string * string)) (a : Area)
    (formal_to_pp : gmap string Z) (items : list (Z * list string)) :
  let v := fresh (dom (vertex_objs s)) in
  isValidInstance node = true → isFIFO node = false →
  for_each (portlist node) (register_port v) (edge_to_vertex g, []) = Ok (e2v, d) →
  getRptFile (new_vertex (module node) (inst_name node)) ≫= getAreaFromReport
    = Ok a →
  getScheFile (module node) ≫= getGrouping = Ok (formal_to_pp, items) →
  vertex_objs s !! v = None ∧
  (∀ w, e2v !! w = if fifo_wire (portlist node) w then Some v
                   else edge_to_vertex g !! w) ∧
  ((grouped_known (portlist node) formal_to_pp items.*1 ∧
    ∃ V' subs a2s,
      initVertices g s node =
        Ok (mkGraph (<[inst_name node := v]> (vertices g)) (edges g) e2v,
            mkStore (<[v := built_vertex (module node) (inst_name node) a
                               subs a2s]> V') (edge_objs s)) ∧
      V' !! v = None ∧ vertex_objs s ⊆ V' ∧
      (∀ i, is_Some (subs !! i) ↔ i ∈ items.*1) ∧
      (∀ i r, subs !! i = Some r →
              vertex_objs s !! r = None ∧
              V' !! r = Some (new_vertex (module node)
                                (inst_name node +:+ "_sub_" +:+ pp_str i))) ∧
      (∀ i j r, subs !! i = Some r → subs !! j = Some r → i = j) ∧
      (∀ act, a2s !! act =
              (f ← formal_of (portlist node) act;
               i ← formal_to_pp !! f; subs !! i))) ∨
   (¬ grouped_known (portlist node) formal_to_pp items.*1 ∧
    initVertices g s node = Raise KeyError)).
Proof.
  intros v Hvalid Hfifo Hports Harea Hgroup.
  destruct (initVertices_steps g s node e2v d a formal_to_pp items
              Hvalid Hfifo Hports Harea Hgroup)
    as (Hv & V' & M & Hv' & Hsub & HM & Hinj & Hdom & Hrun).
  fold v in Hv, Hrun, HM, Hv'.
  destruct (register_ports_spec v (portlist node) _ _ _ _ Hports)
    as (He2v & Hnd & Hd).
  specialize (Hnd (NoDup_nil_2 (A := string))). cbn [dict_lookup] in Hd.
  split; [exact Hv|]. split; [exact He2v|].
  assert (Hknown : Forall (fun item : string * string =>
                     ∀ i, formal_to_pp !! item.2 = Some i → is_Some (M !! i)) d
                   ↔ grouped_known (portlist node) formal_to_pp items.*1).
  { rewrite Forall_forall. unfold grouped_known, formal_of. split.
    - intros Hall act f i Hf Hi. apply Hdom.
      apply Hd in Hf. apply dict_lookup_elem in Hf.
      exact (Hall _ Hf i Hi).
    - intros Hg [act f] Hin i Hi. apply Hdom.
      apply (Hg act f i); [|exact Hi].
      apply Hd. now apply dict_elem_lookup. }
  destruct (map_to_subs_spec node v a (edge_objs s) formal_to_pp M V' d ∅)
    as [[Hall Hloop]|[Hnot Hloop]].
  - left. split; [now apply Hknown|].
    eexists V', M, _. split; [rewrite Hrun, Hloop; reflexivity|].
    split; [exact Hv'|]. split; [exact Hsub|]. split; [exact Hdom|].
    split; [exact HM|]. split; [exact Hinj|].
    intros act. rewrite (a2s_lookup formal_to_pp M d Hnd ∅ act).
    rewrite lookup_empty. unfold formal_of.
    destruct (dict_lookup_outcome d act) as [[f Hl]|Hl].
    + rewrite Hl. apply Hd in Hl. rewrite Hl. cbn.
      destruct (formal_to_pp !! f) as [i|]; cbn; [|reflexivity].
      now destruct (M !! i).
    + rewrite Hl.
      destruct (foldl _ None (portlist node)) as [f|] eqn:Hfold; [|reflexivity].
      apply Hd in Hfold. congruence.
  - right. split; [now rewrite <- Hknown|].
    rewrite Hrun, Hloop. reflexivity.
Qed.

(** What a call on a module instance that returns does to the graph. *)
Lemma initVertices_effect (g g' : graph) (s s' : store) (node : Instance) :
  isValidInstance node = true → isFIFO node = false →
  initVertices g s node = Ok (g', s') →
  ∃ v,
    vertex_objs s !! v = None ∧
    is_Some (vertex_objs s' !! v) ∧
    vertices g' = <[inst_name node := v]> (vertices g) ∧
    edges g' = edges g ∧
    (∀ w, edge_to_vertex g' !! w =
          if fifo_wire (portlist node) w then Some v
          else edge_to_vertex g !! w) ∧
    extends_store s s'.
Proof.
  intros Hvalid Hfifo Hrun.
  destruct (initVertices_Ok g g' s s' node Hvalid Hfifo Hrun)
    as (e2v & d & a & f2pp & items & Hports & Harea & Hgroup).
  destruct (initVertices_run g s node e2v d a f2pp items
              Hvalid Hfifo Hports Harea Hgroup)
    as (Hv & He2v & [(_ & V' & subs & a2s & Hrun' & Hv' & Hsub & _)|[_ Hraise]]);
    [|congruence].
  rewrite Hrun' in Hrun. injection Hrun as <- <-.
  eexists. split; [exact Hv|]. cbn.
  split; [rewrite lookup_insert_eq; eauto|].
  split; [reflexivity|]. split; [reflexivity|]. split; [exact He2v|].
  split; [reflexivity|]. cbn. intros r o Hr.
  rewrite lookup_insert_ne by congruence.
  eapply lookup_weaken; eassumption.
Qed.

End Run.

End InitVerticesFacts.

(** X22: a call of [initVertices] on a module instance that returns makes
    one new vertex object, enters it in [vertices] under the name of the
    instance, and maps to it in [edge_to_vertex] the wire of every port
    whose formal and actual names both hold [_dout], or both hold [_din];
    the other entries of [edge_to_vertex], [edges], the edge objects and
    the vertex objects that were there are as before. *)
Theorem initVertices_registers_wires `{Graph.Formator} `{GraphVertices.Reports}
    (g g' : Graph.graph) (s s' : Graph.store) (node : Graph.Instance) :
  Graph.isValidInstance node = true → Graph.isFIFO node = false →
  GraphVertices.initVertices g s node = Ok (g', s') →
  ∃ v,
    Graph.vertex_objs s !! v = None ∧
    is_Some (Graph.vertex_objs s' !! v) ∧
    Graph.vertices g' = <[Graph.inst_name node := v]> (Graph.vertices g) ∧
    Graph.edges g' = Graph.edges g ∧
    (∀ w, Graph.edge_to_vertex g' !! w =
          if VerticesSpec.fifo_wire (Graph.portlist node) w then Some v
          else Graph.edge_to_vertex g !! w) ∧
    VerticesSpec.extends_store s s'.
Proof. apply InitVerticesFacts.initVertices_effect. Qed.

Lemma initVertices_registers_wires_witness :
  ∃ g' s' v,
    GraphVertices.initVertices (H := example_formator) (H0 := example_reports)
      empty_graph empty_store example_producer = Ok (g', s') ∧
    Graph.vertices g' !! "producer"%string = Some v ∧
    Graph.edge_to_vertex g' !! "f_din"%string = Some v ∧
    Graph.edge_to_vertex g' !! "ap_clk"%string = None.
Proof.
  destruct (GraphVertices.initVertices (H := example_formator)
              (H0 := example_reports) empty_graph empty_store example_producer)
    as [[g' s']| |] eqn:Hrun; [|exfalso; vm_compute in Hrun; discriminate..].
  destruct (initVertices_registers_wires (H := example_formator)
              (H0 := example_reports) empty_graph g' empty_store s'
              example_producer eq_refl eq_refl Hrun)
    as (v & _ & _ & Hvs & _ & He2v & _).
  exists g', s', v. split; [reflexivity|].
  split; [rewrite Hvs; apply lookup_insert_eq|].
  split; [exact (He2v "f_din"%string)|exact (He2v "ap_clk"%string)].
Defined.

(** X23: the vertex that a returning call of [initVertices] enters in
    [vertices] has the module of the instance as its type and the name of
    the instance, the area of its report, no edges, one sub-vertex for every
    pp id of [pp_to_formal] and for no other; the sub-vertices are new
    objects, distinct from one another and from the vertex, each a fresh
    [Vertex] named [<name>_sub_<i>]; and [actual_to_sub] maps a FIFO of a
    port to the sub-vertex of the pp id under which the formal name of the
    last such port is grouped, and has no entry for any other name. *)
Theorem initVertices_vertex_object `{Graph.Formator} `{GraphVertices.Reports}
    (g g' : Graph.graph) (s s' : Graph.store) (node : Graph.Instance) :
  Graph.isValidInstance node = true → Graph.isFIFO node = false →
  GraphVertices.initVertices g s node = Ok (g', s') →
  ∃ v a formal_to_pp items subs a2s,
    Graph.vertices g' !! Graph.inst_name node = Some v ∧
    Graph.vertex_objs s' !! v =
      Some (VerticesSpec.built_vertex (Graph.module node) (Graph.inst_name node)
              a subs a2s) ∧
    GraphVertices.getRptFile
      (GraphVertices.new_vertex (Graph.module node) (Graph.inst_name node))
      ≫= GraphVertices.getAreaFromReport = Ok a ∧
    GraphVertices.getScheFile (Graph.module node) ≫= GraphVertices.getGrouping
      = Ok (formal_to_pp, items) ∧
    (∀ i, is_Some (subs !! i) ↔ i ∈ items.*1) ∧
    (∀ i r, subs !! i = Some r →
            Graph.vertex_objs s !! r = None ∧ r ≠ v ∧
            Graph.vertex_objs s' !! r =
              Some (GraphVertices.new_vertex (Graph.module node)
                      (Graph.inst_name node +:+ "_sub_"
                       +:+ GraphVertices.pp_str i))) ∧
    (∀ i j r, subs !! i = Some r → subs !! j = Some r → i = j) ∧
    (∀ act, a2s !! act =
            (f ← VerticesSpec.formal_of (Graph.portlist node) act;
             i ← formal_to_pp !! f; subs !! i)).
Proof.
  intros Hvalid Hfifo Hrun.
  destruct (InitVerticesFacts.initVertices_Ok g g' s s' node Hvalid Hfifo Hrun)
    as (e2v & d & a & f2pp & items & Hports & Harea & Hgroup).
  destruct (InitVerticesFacts.initVertices_run g s node e2v d a f2pp items
              Hvalid Hfifo Hports Harea Hgroup)
    as (Hv & He2v & [(_ & V' & subs & a2s & Hrun' & Hv' & Hsub & Hdom & Hsubs
                      & Hinj & Ha2s)|[_ Hraise]]);
    [|congruence].
  rewrite Hrun' in Hrun. injection Hrun as <- <-.
  eexists _, a, f2pp, items, subs, a2s. cbn.
  split; [apply lookup_insert_eq|]. split; [apply lookup_insert_eq|].
  split; [exact Harea|]. split; [exact Hgroup|]. split; [exact Hdom|].
  split; [|split; [exact Hinj|exact Ha2s]].
  intros i r Hi. destruct (Hsubs i r Hi) as [Hnew Hobj].
  assert (Hne : r ≠ fresh (dom (Graph.vertex_objs s))) by congruence.
  split; [exact Hnew|]. split; [exact Hne|].
  rewrite lookup_insert_ne by congruence. exact Hobj.
Qed.

Lemma initVertices_vertex_object_witness :
  ∃ g' s' v sub o,
    GraphVertices.initVertices (H := example_formator) (H0 := example_reports)
      empty_graph empty_store example_producer = Ok (g', s') ∧
    Graph.vertices g' !! "producer"%string = Some v ∧
    Graph.vertex_objs s' !! v = Some o ∧
    Graph.area o = Graph.mkArea 1 2 3 4 ∧
    Graph.actual_to_sub o !! "f"%string = Some sub ∧
    Graph.vertex_objs s' !! sub =
      Some (GraphVertices.new_vertex "kernel" "producer_sub_0").
Proof.
  destruct (GraphVertices.initVertices (H := example_formator)
              (H0 := example_reports) empty_graph empty_store example_producer)
    as [[g' s']| |] eqn:Hrun; [|exfalso; vm_compute in Hrun; discriminate..].
  destruct (initVertices_vertex_object (H := example_formator)
              (H0 := example_reports) empty_graph g' empty_store s'
              example_producer eq_refl eq_refl Hrun)
    as (v & a & f2pp & items & subs & a2s & Hv & Ho & Ha & Hg & Hdom & Hsubs
        & _ & Ha2s).
  injection Ha as <-. injection Hg as <- <-.
  destruct (proj2 (Hdom 0%Z)) as [sub Hsub]; [apply list_elem_of_here|].
  destruct (Hsubs 0%Z sub Hsub) as (_ & _ & Hobj).
  eexists g', s', v, sub, _. split; [reflexivity|]. split; [exact Hv|].
  split; [exact Ho|]. split; [reflexivity|]. split; [|exact Hobj].
  cbn [Graph.actual_to_sub VerticesSpec.built_vertex].
  rewrite (Ha2s "f"%string).
  change (VerticesSpec.formal_of (H := example_reports)
            (Graph.portlist example_producer) "f") with (Some "out"%string).
  cbn [mbind option_bind]. rewrite lookup_singleton_eq. exact Hsub.
Defined.

(** X24: on a module instance whose calls outside [graph.py] return,
    [initVertices] returns when every FIFO of a port that [formal_to_pp]
    groups under a pp id has that id among the keys of [pp_to_formal], and
    raises [KeyError] (at [v.sub_vertices[...]]) when one has not. *)
Theorem initVertices_outcome `{Graph.Formator} `{GraphVertices.Reports}
    (g : Graph.graph) (s : Graph.store) (node : Graph.Instance)
    (a : Graph.Area) (formal_to_pp : gmap string Z)
    (items : list (Z * list string)) :
  Graph.isValidInstance node = true → Graph.isFIFO node = false →
  VerticesSpec.strips_return (Graph.portlist node) →
  GraphVertices.getRptFile
    (GraphVertices.new_vertex (Graph.module node) (Graph.inst_name node))
    ≫= GraphVertices.getAreaFromReport = Ok a →
  GraphVertices.getScheFile (Graph.module node) ≫= GraphVertices.getGrouping
    = Ok (formal_to_pp, items) →
  (VerticesSpec.grouped_known (Graph.portlist node) formal_to_pp items.*1 →
   ∃ g' s', GraphVertices.initVertices g s node = Ok (g', s')) ∧
  (¬ VerticesSpec.grouped_known (Graph.portlist node) formal_to_pp items.*1 →
   GraphVertices.initVertices g s node = Raise KeyError).
Proof.
  intros Hvalid Hfifo Hstrips Harea Hgroup.
  destruct (InitVerticesFacts.register_ports_total
              (fresh (dom (Graph.vertex_objs s))) (Graph.portlist node) Hstrips
              (Graph.edge_to_vertex g, [])) as [[e2v d] Hports].
  destruct (InitVerticesFacts.initVertices_run g s node e2v d a formal_to_pp
              items Hvalid Hfifo Hports Harea Hgroup)
    as (_ & _ & [(Hknown & V' & subs & a2s & Hrun & _)|[Hnot Hraise]]).
  - split; [eauto|]. intros Hcontra. contradiction.
  - split; [intros Hknown; contradiction|auto].
Qed.

Lemma example_strips_return :
  VerticesSpec.strips_return (H := example_reports_unlisted)
    (Graph.portlist example_producer).
Proof. intros p actual_raw _ _ _. split; reflexivity. Qed.

Lemma initVertices_outcome_witness :
  GraphVertices.initVertices (H := example_formator)
    (H0 := example_reports_unlisted) empty_graph empty_store example_producer
  = Raise KeyError.
Proof.
  apply (initVertices_outcome (H := example_formator)
           (H0 := example_reports_unlisted) empty_graph empty_store
           example_producer (Graph.mkArea 1 2 3 4) {[ "out"%string := 5%Z ]}
           [(0%Z, ["out"%string])] eq_refl eq_refl example_strips_return
           eq_refl eq_refl).
  intros Hknown.
  specialize (Hknown "f"%string "out"%string 5%Z eq_refl eq_refl).
  apply list_elem_of_singleton in Hknown. discriminate.
Defined.

(** ** [graph.py]: the two traversals of [Graph.__init__] together *)

Module InitFacts.
Import Graph GraphSpec GraphVertices VerticesSpec GraphDfs GraphInit InitSpec.

Lemma last_wire_known (g : graph) (ports : list PortArg) (v : nat) :
  ∀ acc,
    (foldl (fun acc p => match port_role_of p with
                         | DoutPort a => edge_to_vertex g !! a
                         | _ => acc
                         end) acc ports = Some v ∨
     foldl (fun acc p => match port_role_of p with
                         | DinPort a => edge_to_vertex g !! a
                         | _ => acc
                         end) acc ports = Some v) →
    acc = Some v ∨ ∃ a, edge_to_vertex g !! a = Some v.
Proof.
  induction ports as [|p ports IH]; intros acc; cbn [foldl]; [tauto|].
  intros [Hf|Hf].
  - destruct (port_role_of p) as [a|a|];
      (destruct (IH _ (or_introl Hf)) as [Hacc|Hex]; [eauto|now right]).
  - destruct (port_role_of p) as [a|a|];
      (destruct (IH _ (or_intror Hf)) as [Hacc|Hex]; [eauto|now right]).
Qed.

Lemma store_appends_vertex (e : nat) (s s' : store) (v : nat) :
  store_appends e s s' →
  is_Some (vertex_objs s !! v) → is_Some (vertex_objs s' !! v).
Proof.
  intros [_ Hv] [o Ho]. specialize (Hv v). rewrite Ho in Hv.
  inversion Hv. eauto.
Qed.

Section Passes.
Context `{Formator} `{Reports}.
Context {Node : Type} `{EqDecision Node}.
Variable inst : Node → Instance.

Lemma is_module_false (node : Instance) :
  is_module node = false → isValidInstance node = false ∨ isFIFO node = true.
Proof.
  unfold is_module. destruct (isValidInstance node), (isFIFO node); cbn; auto.
Qed.

Lemma is_fifo_false (g : graph) (s : store) (e : nat) (node : Instance) :
  is_fifo node = false → initEdges g s e node = Ok (g, s).
Proof.
  unfold is_fifo, initEdges.
  destruct (isValidInstance node), (isFIFO node); cbn; congruence.
Qed.

(** A call of [initVertices] on a module instance whose reports are known. *)
Lemma initVertices_module (g : graph) (s : store) (node : Instance) :
  is_module node = true → reports_known node →
  ∃ g' s' v,
    initVertices g s node = Ok (g', s') ∧
    vertex_objs s !! v = None ∧
    is_Some (vertex_objs s' !! v) ∧
    vertices g' = <[inst_name node := v]> (vertices g) ∧
    edges g' = edges g ∧
    (∀ w, edge_to_vertex g' !! w =
          if fifo_wire (portlist node) w then Some v
          else edge_to_vertex g !! w) ∧
    extends_store s s'.
Proof.
  intros Hmod (Hstrips & a & f2pp & items & Harea & Hgroup & Hknown).
  apply andb_true_iff in Hmod as [Hvalid Hfifo].
  apply negb_true_iff in Hfifo.
  destruct (InitVerticesFacts.register_ports_total
              (fresh (dom (vertex_objs s))) (portlist node) Hstrips
              (edge_to_vertex g, [])) as [[e2v d] Hports].
  destruct (InitVerticesFacts.initVertices_run g s node e2v d a f2pp items
              Hvalid Hfifo Hports Harea Hgroup)
    as (_ & _ & [(_ & V' & subs & a2s & Hrun & _)|[Hnot _]]);
    [|contradiction].
  destruct (InitVerticesFacts.initVertices_effect _ _ _ _ node Hvalid Hfifo Hrun)
    as (v & Hv). eauto 10.
Qed.

Local Abbreviation refs_known g s :=
  ((∀ w v, edge_to_vertex g !! w = Some v → is_Some (vertex_objs s !! v)) ∧
   (∀ n v, vertices g !! n = Some v → is_Some (vertex_objs s !! v))).

(** The first traversal, on the nodes in its order. *)
Lemma vertices_pass (nodes : list Node) :
  ∀ g s,
    (∀ n, n ∈ nodes → is_module (inst n) = true → reports_known (inst n)) →
    refs_known g s →
    ∃ g' s',
      for_each nodes (vertices_step inst) (g, s) = Ok (g', s') ∧
      edges g' = edges g ∧ edge_objs s' = edge_objs s ∧
      (∀ name, is_Some (vertices g' !! name) ↔
               is_Some (vertices g !! name) ∨
               ∃ n, n ∈ nodes ∧ is_module (inst n) = true ∧
                    inst_name (inst n) = name) ∧
      (∀ w, is_Some (edge_to_vertex g' !! w) ↔
            is_Some (edge_to_vertex g !! w) ∨
            ∃ n, n ∈ nodes ∧ is_module (inst n) = true ∧
                 fifo_wire (portlist (inst n)) w = true) ∧
      refs_known g' s'.
Proof.
  induction nodes as [|n nodes IH]; intros g s Hrep Hrefs.
  - exists g, s. split; [reflexivity|]. split; [reflexivity|].
    split; [reflexivity|]. split; [|split; [|exact Hrefs]].
    + intros name. split; [auto|]. intros [?|(n & Hn & _)]; [assumption|].
      inversion Hn.
    + intros w. split; [auto|]. intros [?|(n & Hn & _)]; [assumption|].
      inversion Hn.
  - cbn [for_each].
    change (vertices_step inst n (g, s)) with (initVertices g s (inst n)).
    assert (Hrest : ∀ m, m ∈ nodes → is_module (inst m) = true →
                         reports_known (inst m)).
    { intros m Hm. apply Hrep. now apply list_elem_of_further. }
    destruct (is_module (inst n)) eqn:Hmod.
    + destruct (initVertices_module g s (inst n) Hmod)
        as (g1 & s1 & v & Hrun & Hv & Hv1 & Hvs & Hes & He2v & Hstore & Hobjs).
      { apply Hrep; [apply list_elem_of_here|exact Hmod]. }
      rewrite Hrun. cbn [mbind result_bind].
      destruct (IH g1 s1 Hrest)
        as (g' & s' & Hpass & Hes' & Hstore' & Hvs' & He2v' & Hrefs').
      { destruct Hrefs as [Hr1 Hr2]. split.
        - intros w v'. rewrite He2v.
          destruct (fifo_wire (portlist (inst n)) w).
          + intros [= <-]. exact Hv1.
          + intros Hw. destruct (Hr1 w v' Hw) as [o Ho].
            rewrite (Hobjs _ _ Ho). eauto.
        - intros name v'. rewrite Hvs.
          destruct (decide (inst_name (inst n) = name)) as [->|Hne].
          + rewrite lookup_insert_eq. intros [= <-]. exact Hv1.
          + rewrite lookup_insert_ne by congruence. intros Hn.
            destruct (Hr2 name v' Hn) as [o Ho]. rewrite (Hobjs _ _ Ho). eauto. }
      exists g', s'. split; [exact Hpass|]. split; [congruence|].
      split; [congruence|]. split; [|split; [|exact Hrefs']].
      * intros name. rewrite Hvs', Hvs.
        destruct (decide (inst_name (inst n) = name)) as [<-|Hne].
        -- rewrite lookup_insert_eq. split; [|eauto].
           intros _. right. exists n. split; [apply list_elem_of_here|auto].
        -- rewrite lookup_insert_ne by congruence. split.
           ++ intros [?|(m & Hm & Hmm)]; [now left|right].
              exists m. split; [now apply list_elem_of_further|exact Hmm].
           ++ intros [?|(m & Hm & Hmm & Hname)]; [now left|right].
              apply elem_of_cons in Hm as [->|Hm]; [contradiction|eauto].
      * intros w. rewrite He2v', He2v.
        destruct (fifo_wire (portlist (inst n)) w) eqn:Hw.
        -- split; [|eauto]. intros _. right. exists n.
           split; [apply list_elem_of_here|auto].
        -- split.
           ++ intros [?|(m & Hm & Hmm)]; [now left|right].
              exists m. split; [now apply list_elem_of_further|exact Hmm].
           ++ intros [?|(m & Hm & Hmm & Hwire)]; [now left|right].
              apply elem_of_cons in Hm as [->|Hm]; [congruence|eauto].
    + rewrite (InitVerticesFacts.initVertices_skips g s (inst n))
        by now apply is_module_false.
      cbn [mbind result_bind].
      destruct (IH g s Hrest Hrefs)
        as (g' & s' & Hpass & Hes' & Hstore' & Hvs' & He2v' & Hrefs').
      exists g', s'. split; [exact Hpass|]. split; [exact Hes'|].
      split; [exact Hstore'|]. split; [|split; [|exact Hrefs']].
      * intros name. rewrite Hvs'. split.
        -- intros [?|(m & Hm & Hmm)]; [now left|right].
           exists m. split; [now apply list_elem_of_further|exact Hmm].
        -- intros [?|(m & Hm & Hmm & Hname)]; [now left|right].
           apply elem_of_cons in Hm as [->|Hm]; [congruence|eauto].
      * intros w. rewrite He2v'. split.
        -- intros [?|(m & Hm & Hmm)]; [now left|right].
           exists m. split; [now apply list_elem_of_further|exact Hmm].
        -- intros [?|(m & Hm & Hmm & Hwire)]; [now left|right].
           apply elem_of_cons in Hm as [->|Hm]; [congruence|eauto].
Qed.

(** A call of [initEdges] on a FIFO whose wires are known. *)
Lemma initEdges_wired (g : graph) (s : store) (node : Instance) :
  let e := fresh (dom (edge_objs s)) in
  is_fifo node = true → (0 < extractFIFODepth node)%Z →
  Forall (wire_known g) (portlist node) →
  (∀ w v, edge_to_vertex g !! w = Some v → is_Some (vertex_objs s !! v)) →
  ∃ s',
    initEdges g s e node =
      Ok (mkGraph (vertices g) (<[inst_name node := e]> (edges g))
            (edge_to_vertex g), s') ∧
    edge_objs s !! e = None ∧
    store_appends e s s' ∧
    edge_sound s' (inst_name node) e.
Proof.
  intros e Hfifo Hdepth Hknown Hrefs.
  apply andb_true_iff in Hfifo as [Hvalid Hfifo].
  assert (He : edge_objs s !! e = None).
  { apply not_elem_of_dom. apply is_fresh. }
  rewrite (InitEdgesFacts.initEdges_fifo g s e node Hvalid Hfifo Hdepth).
  destruct (InitEdgesFacts.connect_ports_new_edge g s e
              (mkEdge None None None None (extractFIFOWidth node)
                 (extractFIFODepth node)
                 (Z.log2 (extractFIFODepth node) + 1) (inst_name node) false 1)
              (portlist node))
    as [(_ & s' & e_obj & Hrun & Happ & Hobj & Hsame & Hdst & Hsrc)|[Hnot _]];
    [|contradiction].
  exists s'. rewrite Hrun. cbn [mbind result_bind].
  split; [reflexivity|]. split; [exact He|]. split; [exact Happ|].
  exists e_obj. split; [exact Hobj|]. split.
  { destruct Hsame as (_ & _ & _ & _ & _ & Hname & _). exact Hname. }
  intros v Hv. apply (store_appends_vertex e s s' v Happ).
  cbn [dst src] in Hdst, Hsrc.
  destruct (last_wire_known g (portlist node) v None) as [Hacc|[w Hw]].
  - destruct Hv as [Hv|Hv]; [left|right]; congruence.
  - discriminate.
  - eapply Hrefs. exact Hw.
Qed.

(** The second traversal, on the nodes in its order. *)
Lemma edges_pass (nodes : list Node) :
  ∀ g s,
    (∀ n, n ∈ nodes → is_fifo (inst n) = true →
          (0 < extractFIFODepth (inst n))%Z ∧
          Forall (wire_known g) (portlist (inst n))) →
    (∀ w v, edge_to_vertex g !! w = Some v → is_Some (vertex_objs s !! v)) →
    (∀ name e, edges g !! name = Some e → edge_sound s name e) →
    ∃ g' s',
      for_each nodes (edges_step inst) (g, s) = Ok (g', s') ∧
      vertices g' = vertices g ∧ edge_to_vertex g' = edge_to_vertex g ∧
      (∀ name, is_Some (edges g' !! name) ↔
               is_Some (edges g !! name) ∨
               ∃ n, n ∈ nodes ∧ is_fifo (inst n) = true ∧
                    inst_name (inst n) = name) ∧
      (∀ v, is_Some (vertex_objs s !! v) → is_Some (vertex_objs s' !! v)) ∧
      (∀ name e, edges g' !! name = Some e → edge_sound s' name e).
Proof.
  induction nodes as [|n nodes IH]; intros g s Hfifos Hrefs Hsound.
  - exists g, s. split; [reflexivity|]. split; [reflexivity|].
    split; [reflexivity|]. split; [|split; [auto|exact Hsound]].
    intros name. split; [auto|]. intros [?|(n & Hn & _)]; [assumption|].
    inversion Hn.
  - cbn [for_each].
    change (edges_step inst n (g, s))
      with (initEdges g s (fresh (dom (edge_objs s))) (inst n)).
    destruct (is_fifo (inst n)) eqn:Hfifo.
    + destruct (Hfifos n (list_elem_of_here _ _) Hfifo) as [Hdepth Hknown].
      destruct (initEdges_wired g s (inst n) Hfifo Hdepth Hknown Hrefs)
        as (s1 & Hrun & He & Happ & He1).
      set (e := fresh (dom (edge_objs s))) in *.
      rewrite Hrun. cbn [mbind result_bind].
      destruct (IH (mkGraph (vertices g) (<[inst_name (inst n) := e]> (edges g))
                      (edge_to_vertex g)) s1)
        as (g' & s' & Hpass & Hvs & He2v & Hes & Hobjs & Hsound').
      { intros m Hm Hmf. apply Hfifos; [now apply list_elem_of_further|exact Hmf]. }
      { cbn. intros w v Hw. eapply store_appends_vertex; eauto. }
      { cbn. intros name e'.
        destruct (decide (inst_name (inst n) = name)) as [<-|Hne].
        - rewrite lookup_insert_eq. intros [= <-]. exact He1.
        - rewrite lookup_insert_ne by congruence. intros Hn.
          destruct (Hsound name e' Hn) as (o & Ho & Hname & Hends).
          exists o. split; [|split; [exact Hname|]].
          + destruct Happ as [Hedges _]. rewrite Hedges; [exact Ho|].
            intros ->. congruence.
          + intros v Hv. eapply store_appends_vertex; eauto. }
      exists g', s'. split; [exact Hpass|]. split; [exact Hvs|].
      split; [exact He2v|]. split; [|split; [|exact Hsound']].
      * intros name. rewrite Hes. cbn.
        destruct (decide (inst_name (inst n) = name)) as [<-|Hne].
        -- rewrite lookup_insert_eq. split; [|eauto]. intros _. right.
           exists n. split; [apply list_elem_of_here|auto].
        -- rewrite lookup_insert_ne by congruence. split.
           ++ intros [?|(m & Hm & Hmm)]; [now left|right].
              exists m. split; [now apply list_elem_of_further|exact Hmm].
           ++ intros [?|(m & Hm & Hmm & Hname)]; [now left|right].
              apply elem_of_cons in Hm as [->|Hm]; [contradiction|eauto].
      * intros v Hv. apply Hobjs. eapply store_appends_vertex; eauto.
    + rewrite (is_fifo_false g s _ (inst n) Hfifo). cbn [mbind result_bind].
      destruct (IH g s) as (g' & s' & Hpass & Hvs & He2v & Hes & Hobjs & Hsound').
      { intros m Hm Hmf. apply Hfifos; [now apply list_elem_of_further|exact Hmf]. }
      { exact Hrefs. }
      { exact Hsound. }
      exists g', s'. split; [exact Hpass|]. split; [exact Hvs|].
      split; [exact He2v|]. split; [|split; [exact Hobjs|exact Hsound']].
      intros name. rewrite Hes. split.
      * intros [?|(m & Hm & Hmm)]; [now left|right].
        exists m. split; [now apply list_elem_of_further|exact Hmm].
      * intros [?|(m & Hm & Hmm & Hname)]; [now left|right].
        apply elem_of_cons in Hm as [->|Hm]; [congruence|eauto].
Qed.

(** The two traversals, one after the other. *)
Lemma init_passes (order : list Node) :
  (∀ n, n ∈ order → is_module (inst n) = true → reports_known (inst n)) →
  (∀ n, n ∈ order → is_fifo (inst n) = true →
        (0 < extractFIFODepth (inst n))%Z ∧ wired (inst <$> order) (inst n)) →
  ∃ g1 s1 g s,
    for_each order (vertices_step inst) (mkGraph ∅ ∅ ∅, mkStore ∅ ∅)
      = Ok (g1, s1) ∧
    for_each order (edges_step inst) (g1, s1) = Ok (g, s) ∧
    (∀ name, is_Some (vertices g !! name) ↔
             ∃ n, n ∈ order ∧ is_module (inst n) = true ∧
                  inst_name (inst n) = name) ∧
    (∀ name, is_Some (edges g !! name) ↔
             ∃ n, n ∈ order ∧ is_fifo (inst n) = true ∧
                  inst_name (inst n) = name) ∧
    (∀ name v, vertices g !! name = Some v → is_Some (vertex_objs s !! v)) ∧
    (∀ name e, edges g !! name = Some e → edge_sound s name e).
Proof.
  intros Hmods Hfifos.
  destruct (vertices_pass order (mkGraph ∅ ∅ ∅) (mkStore ∅ ∅) Hmods)
    as (g1 & s1 & Hpass1 & Hes1 & Hstore1 & Hvs1 & He2v1 & Hrefs1 & Hrefs2).
  { cbn. split; intros ? ? Hl; now rewrite lookup_empty in Hl. }
  destruct (edges_pass order g1 s1)
    as (g & s & Hpass2 & Hvs & He2v & Hes & Hobjs & Hsound).
  { intros n Hn Hfifo. destruct (Hfifos n Hn Hfifo) as [Hdepth Hwired].
    split; [exact Hdepth|]. unfold wired in Hwired.
    eapply Forall_impl; [exact Hwired|]. intros p Hp. unfold wire_known.
    cbn beta in Hp.
    destruct (port_role_of p) as [w|w|]; [| |exact I];
      destruct Hp as (m & Hm & Hmod & Hw);
      apply list_elem_of_fmap in Hm as (n' & -> & Hn');
      apply He2v1; right; eauto. }
  { exact Hrefs1. }
  { intros name e. rewrite Hes1. cbn. intros Hl. now rewrite lookup_empty in Hl. }
  exists g1, s1, g, s. split; [exact Hpass1|]. split; [exact Hpass2|].
  split; [|split; [|split; [|exact Hsound]]].
  - intros name. rewrite Hvs, Hvs1. cbn. rewrite lookup_empty. split; [|auto].
    intros [[? Hn]|?]; [discriminate|assumption].
  - intros name. rewrite Hes, Hes1. cbn. rewrite lookup_empty. split; [|auto].
    intros [[? Hn]|?]; [discriminate|assumption].
  - intros name v. rewrite Hvs. intros Hn. apply Hobjs. eapply Hrefs2. exact Hn.
Qed.

End Passes.

End InitFacts.

(** X25: the two traversals of [Graph.__init__] together. When the reports
    of every module instance of the syntax tree can be read, every FIFO has
    a positive depth, and the wire of every read or write port of a FIFO is
    also the wire of a FIFO port of some module instance (visited before or
    after the FIFO), then both traversals return, no lookup in
    [edge_to_vertex] fails, [vertices] holds exactly the names of the module
    instances and [edges] exactly the names of the FIFOs, every vertex in
    [vertices] is an object of the store, and every edge in [edges] is an
    object with that name whose [src] and [dst], where set, refer to
    vertices of the store. *)
Theorem init_builds_graph `{Graph.Formator} `{GraphVertices.Reports}
    {Node : Type} `{EqDecision Node}
    (children : Node → list Node) (inst : Node → Graph.Instance)
    (fuel : nat) (top_mod_ast : Node) (visited order : list Node) :
  GraphDfs.dfs children GraphDfs.record fuel top_mod_ast [] []
    = Ok (visited, order) →
  (∀ n, n ∈ order → InitSpec.is_module (inst n) = true →
        InitSpec.reports_known (inst n)) →
  (∀ n, n ∈ order → InitSpec.is_fifo (inst n) = true →
        (0 < Graph.extractFIFODepth (inst n))%Z ∧
        InitSpec.wired (inst <$> order) (inst n)) →
  ∃ g s,
    GraphInit.init children inst fuel top_mod_ast = Ok (g, s) ∧
    (∀ name, is_Some (Graph.vertices g !! name) ↔
             ∃ n, n ∈ order ∧ InitSpec.is_module (inst n) = true ∧
                  Graph.inst_name (inst n) = name) ∧
    (∀ name, is_Some (Graph.edges g !! name) ↔
             ∃ n, n ∈ order ∧ InitSpec.is_fifo (inst n) = true ∧
                  Graph.inst_name (inst n) = name) ∧
    (∀ name v, Graph.vertices g !! name = Some v →
               is_Some (Graph.vertex_objs s !! v)) ∧
    (∀ name e, Graph.edges g !! name = Some e → InitSpec.edge_sound s name e).
Proof.
  intros Hrec Hmods Hfifos.
  destruct (InitFacts.init_passes inst order Hmods Hfifos)
    as (g1 & s1 & g & s & Hpass1 & Hpass2 & Hrest).
  exists g, s. split; [|exact Hrest]. unfold GraphInit.init.
  destruct (DfsFacts.dfs_follows_record children (GraphInit.vertices_step inst)
              fuel _ _ _ _ _ (Graph.mkGraph ∅ ∅ ∅, Graph.mkStore ∅ ∅) Hrec)
    as (new & Hnew & ->).
  cbn [app] in Hnew. subst new. rewrite Hpass1. cbn [mbind result_bind].
  destruct (DfsFacts.dfs_follows_record children (GraphInit.edges_step inst)
              fuel _ _ _ _ _ (g1, s1) Hrec) as (new & Hnew & ->).
  cbn [app] in Hnew. subst new. rewrite Hpass2. reflexivity.
Qed.

Lemma example_tree_reports (n : nat) :
  @InitSpec.reports_known example_reports (example_tree_inst n).
Proof.
  split; [intros p actual_raw _ _ _; split; reflexivity|].
  exists (Graph.mkArea 1 2 3 4), {[ "out"%string := 0%Z ]}, [(0%Z, ["out"%string])].
  split; [reflexivity|]. split; [reflexivity|].
  intros act f i _ Hi. apply lookup_singleton_Some in Hi as [_ <-].
  apply list_elem_of_here.
Qed.

Lemma init_builds_graph_witness :
  ∃ g s,
    GraphInit.init (H := example_formator) (H0 := example_reports)
      example_tree_children example_tree_inst 2 0%nat = Ok (g, s) ∧
    is_Some (Graph.vertices g !! "producer"%string) ∧
    is_Some (Graph.edges g !! "f2"%string).
Proof.
  destruct (init_builds_graph (H := example_formator) (H0 := example_reports)
              example_tree_children example_tree_inst 2 0%nat
              [2; 1; 0]%nat [0; 1; 2]%nat)
    as (g & s & Hrun & Hvs & Hes & _).
  - vm_compute. reflexivity.
  - intros n _ _. apply example_tree_reports.
  - intros n Hn Hfifo. split; [reflexivity|].
    destruct n as [|[|[|n]]]; try discriminate Hfifo.
    repeat constructor. exists example_producer.
    split; [|split; reflexivity].
    apply (list_elem_of_fmap_2 example_tree_inst [0; 1; 2]%nat 2%nat).
    repeat constructor.
  - exists g, s. split; [exact Hrun|]. split.
    + apply Hvs. exists 2%nat. split; [repeat constructor|split; reflexivity].
    + apply Hes. exists 1%nat. split; [repeat constructor|split; reflexivity].
Defined.

(** X26: [initAsyncMmap] leaves the graph as it is for an instance that is
    not valid or whose module name does not hold [async_mmap]; on any other
    instance whose calls of [extractFIFOFromRaw] return, it makes one new
    vertex with the module and the name of the instance, the area
    [Area(0, 0, 200, 200)], no edges and no sub-vertices, enters it in
    [vertices], and maps to it in [edge_to_vertex] the same wires that
    [initVertices] would; nothing else changes. *)
Theorem initAsyncMmap_makes_vertex `{Graph.Formator} `{GraphVertices.Reports}
    (g : Graph.graph) (s : Graph.store) (node : Graph.Instance) :
  (Graph.isValidInstance node
   && Graph.is_substring "async_mmap" (Graph.module node) = false →
   GraphVertices.initAsyncMmap g s node = Ok (g, s)) ∧
  (Graph.isValidInstance node
   && Graph.is_substring "async_mmap" (Graph.module node) = true →
   VerticesSpec.strips_return (Graph.portlist node) →
   ∃ v e2v,
     Graph.vertex_objs s !! v = None ∧
     GraphVertices.initAsyncMmap g s node =
       Ok (Graph.mkGraph (<[Graph.inst_name node := v]> (Graph.vertices g))
             (Graph.edges g) e2v,
           Graph.mkStore
             (<[v := VerticesSpec.built_vertex (Graph.module node)
                       (Graph.inst_name node) (Graph.mkArea 0 0 200 200) ∅ ∅]>
                (Graph.vertex_objs s))
             (Graph.edge_objs s)) ∧
     ∀ w, e2v !! w =
          if VerticesSpec.fifo_wire (Graph.portlist node) w then Some v
          else Graph.edge_to_vertex g !! w).
Proof.
  unfold GraphVertices.initAsyncMmap. split.
  - destruct (Graph.isValidInstance node); [|reflexivity].
    cbn. now intros ->.
  - intros Hcond Hstrips. apply andb_true_iff in Hcond as [-> ->].
    cbn [negb]. unfold GraphVertices.alloc.
    set (v := fresh (dom (Graph.vertex_objs s))).
    destruct (InitVerticesFacts.register_ports_total v (Graph.portlist node)
                Hstrips (Graph.edge_to_vertex g, [])) as [[e2v d] Hports].
    destruct (InitVerticesFacts.register_ports_spec v _ _ _ _ _ Hports)
      as (He2v & _).
    exists v, e2v. split; [apply not_elem_of_dom, is_fresh|].
    split; [|exact He2v].
    rewrite Hports. cbn [mbind result_bind].
    unfold GraphVertices.update_vertex. cbn [Graph.vertex_objs Graph.edge_objs].
    rewrite alter_insert_eq. reflexivity.
Qed.

Lemma example_reports_strips (ports : list Graph.PortArg) :
  VerticesSpec.strips_return (H := example_reports) ports.
Proof. intros p actual_raw _ _ _. split; reflexivity. Qed.

Lemma initAsyncMmap_makes_vertex_witness :
  ∃ g' s' v,
    GraphVertices.initAsyncMmap (H := example_formator) (H0 := example_reports)
      empty_graph empty_store example_async = Ok (g', s') ∧
    Graph.vertices g' !! "mem"%string = Some v ∧
    Graph.edge_to_vertex g' !! "m_dout"%string = Some v.
Proof.
  destruct (proj2 (initAsyncMmap_makes_vertex (H := example_formator)
                     (H0 := example_reports) empty_graph empty_store
                     example_async) eq_refl (example_reports_strips _))
    as (v & e2v & _ & Hrun & He2v).
  eexists _, _, v. split; [exact Hrun|].
  split; [apply lookup_insert_eq|exact (He2v "m_dout"%string)].
Defined.
